(** * Graph engine of grafo-monitoria: a shallow embedding and its properties

    The C sources keep a graph as per-vertex growable buffers
    ([g->adj[v]], [g->adj_size[v]]).  The embedding keeps that layout:
    a buffer is a list whose length is the capacity in elements, and the
    adjacency list of [v] is the prefix of length [adj_size v] of its
    buffer.  Vertex indices and element counts ([size_t]) are natural
    numbers; [int] quantities (distances, colours, capacities, return
    codes) are integers with the 32-bit range written out where the code
    depends on it. *)

From Stdlib Require Import ZArith Lia.
From stdpp Require Import base tactics numbers option relations list sorting.

Local Open Scope Z_scope.

(** ** Machine constants *)

Definition SIZE_MAX : Z := 2 ^ 64 - 1.
Definition INT_MAX : Z := 2 ^ 31 - 1.
Definition GRAFO_MAX_VERTICES : Z := 10000.
Definition sizeof_size_t : Z := 8.

(** Conversions of the C casts: [(size_t) z] and [(int) z]. *)
Definition to_size_t (z : Z) : Z := z mod 2 ^ 64.
Definition to_int (z : Z) : Z := (z + 2 ^ 31) mod 2 ^ 32 - 2 ^ 31.

(** [_checa_overflow(a, b)]: [a > 0 && b > SIZE_MAX / a]. *)
Definition _checa_overflow (a b : Z) : bool :=
  (0 <? a) && (SIZE_MAX / a <? b).

(** ** The graph store *)

Record Graph : Type := mkGraph {
  adj : list (list nat);
  adj_size : list nat;
  num_vertices : nat;
  directed : bool
}.

(** The adjacency list of [v] as every reader of the structure sees it:
    the entries [adj[v][0 .. adj_size[v]-1]]. *)
Definition neighbors (g : Graph) (v : nat) : list nat :=
  take (adj_size g !!! v) (adj g !!! v).

(** A state the C code can hold: [create_graph] admits at most
    [GRAFO_MAX_VERTICES] vertices and the count never changes, both
    arrays have [num_vertices] slots, each count fits its buffer, and
    each buffer fits the address space. *)
Record wf_graph (g : Graph) : Prop := mkWf {
  wf_count : Z.of_nat (num_vertices g) <= GRAFO_MAX_VERTICES;
  wf_adj_len : length (adj g) = num_vertices g;
  wf_size_len : length (adj_size g) = num_vertices g;
  wf_capacity : forall v, (v < num_vertices g)%nat ->
      (adj_size g !!! v <= length (adj g !!! v))%nat;
  wf_bytes : forall v, (v < num_vertices g)%nat ->
      Z.of_nat (adj_size g !!! v) * sizeof_size_t <= SIZE_MAX
}.

(** Every stored neighbour index is a vertex. *)
Definition valid_adjacency (g : Graph) : Prop :=
  forall u v, (u < num_vertices g)%nat -> v ∈ neighbors g u ->
    (v < num_vertices g)%nat.

(** [create_graph]: [None] is the NULL result.  [alloc_ok] tells whether
    the three allocations succeed. *)
Definition create_graph (alloc_ok : bool) (n : nat) (dir : bool) : option Graph :=
  if (n =? 0)%nat || (GRAFO_MAX_VERTICES <? Z.of_nat n) then None
  else if _checa_overflow (Z.of_nat n) 8 then None
  else if alloc_ok then
    Some {| adj := replicate n []; adj_size := replicate n 0%nat;
            num_vertices := n; directed := dir |}
  else None.

(** [safe_realloc(ptr, new_size)]: a request for zero bytes frees the
    block and yields NULL; otherwise the library call either fails
    (NULL, old block untouched) or returns a block of [new_size] bytes
    that keeps the old contents up to the smaller size. *)
Definition safe_realloc (ok : bool) (buf : list nat) (new_size : Z)
  : option (list nat) :=
  if new_size =? 0 then None
  else if ok then Some (resize (Z.to_nat (new_size / sizeof_size_t)) 0%nat buf)
  else None.

Definition set_adj (g : Graph) (v : nat) (buf : list nat) : Graph :=
  {| adj := <[v := buf]> (adj g); adj_size := adj_size g;
     num_vertices := num_vertices g; directed := directed g |}.

Definition set_adj_size (g : Graph) (v : nat) (k : nat) : Graph :=
  {| adj := adj g; adj_size := <[v := k]> (adj_size g);
     num_vertices := num_vertices g; directed := directed g |}.

(** One insertion: the realloc, the store at index [adj_size[v]] and the
    increment.  The result is the error code when the insertion is
    refused. *)
Definition push_neighbor (ok : bool) (g : Graph) (v w : nat) : Graph + Z :=
  let sz := adj_size g !!! v in
  if _checa_overflow (to_size_t (Z.of_nat sz + 1)) sizeof_size_t then inr (-3)
  else
    match safe_realloc ok (adj g !!! v)
            (to_size_t (to_size_t (Z.of_nat sz + 1) * sizeof_size_t)) with
    | None => inr (-4)
    | Some new_adj =>
        inl (set_adj_size (set_adj g v (<[sz := w]> new_adj)) v (S sz))
    end.

(** [add_edge(g, src, dest)] on a non-NULL graph.  [ok_src] and [ok_dest]
    are the outcomes of the two [realloc] calls.  On a failure of the
    second insertion the code undoes the first with [adj_size[src]--]. *)
Definition add_edge (ok_src ok_dest : bool) (g : Graph) (src dest : nat)
  : Graph * Z :=
  if (num_vertices g <=? src)%nat || (num_vertices g <=? dest)%nat
  then (g, -2)
  else
    match push_neighbor ok_src g src dest with
    | inr e => (g, e)
    | inl g1 =>
        if directed g then (g1, 0)
        else
          match push_neighbor ok_dest g1 dest src with
          | inr e => (set_adj_size g1 src (pred (adj_size g1 !!! src)), e)
          | inl g2 => (g2, 0)
          end
    end.

(** The inner loop of [remove_edge]:
    [for (j = i; j + 1 < size; j++) buf[j] = buf[j + 1];]
    with [count] the number of iterations left. *)
Fixpoint shift_left (buf : list nat) (j count : nat) : list nat :=
  match count with
  | O => buf
  | S c => shift_left (<[j := buf !!! S j]> buf) (S j) c
  end.

(** Outcome of removing one direction of an edge. *)
Inductive removal : Type :=
  | NotFound
  | ReallocFailed (g : Graph)
  | Removed (g : Graph).

(** The search for the first [w] among the entries of [v], the shift,
    the decrement and the shrinking realloc. *)
Definition drop_neighbor (ok : bool) (g : Graph) (v w : nat) : removal :=
  let sz := adj_size g !!! v in
  match list_find (λ x, x = w) (neighbors g v) with
  | None => NotFound
  | Some (i, _) =>
      let buf := shift_left (adj g !!! v) i (sz - 1 - i) in
      let g1 := set_adj_size (set_adj g v buf) v (pred sz) in
      match safe_realloc ok buf (to_size_t (Z.of_nat (pred sz) * sizeof_size_t)) with
      | Some new_adj => Removed (set_adj g1 v new_adj)
      | None =>
          if (0 <? pred sz)%nat then ReallocFailed g1
          else Removed (set_adj g1 v [])
      end
  end.

(** [remove_edge(g, src, dest)] on a non-NULL graph; [ok_src] and
    [ok_dest] are the outcomes of the two shrinking [realloc] calls.  A
    missing mirror entry only prints a warning. *)
Definition remove_edge (ok_src ok_dest : bool) (g : Graph) (src dest : nat)
  : Graph * Z :=
  if (num_vertices g <=? src)%nat || (num_vertices g <=? dest)%nat
  then (g, -2)
  else
    match drop_neighbor ok_src g src dest with
    | NotFound => (g, -3)
    | ReallocFailed g1 => (g1, -4)
    | Removed g1 =>
        if directed g then (g1, 0)
        else
          match drop_neighbor ok_dest g1 dest src with
          | NotFound => (g1, 0)
          | ReallocFailed g2 => (g2, -4)
          | Removed g2 => (g2, 0)
          end
    end.

(** [get_num_vertices] and [get_degree] on a non-NULL graph; the error
    value of [get_degree] is [SIZE_MAX]. *)
Definition get_num_vertices (g : Graph) : nat := num_vertices g.

Definition get_degree (g : Graph) (vertex : nat) : Z :=
  if (num_vertices g <=? vertex)%nat then SIZE_MAX
  else Z.of_nat (adj_size g !!! vertex).

(** Two states hold the same graph when every reader sees the same
    adjacency lists. *)
Definition same_graph (g g' : Graph) : Prop :=
  num_vertices g' = num_vertices g /\ directed g' = directed g /\
  forall x, (x < num_vertices g)%nat -> neighbors g' x = neighbors g x.

(** Number of occurrences of [w] in a list. *)
Definition occurrences (w : nat) (l : list nat) : nat :=
  length (filter (λ x, x = w) l).

(** The mirror invariant of undirected graphs. *)
Definition symmetric (g : Graph) : Prop :=
  forall u v, (u < num_vertices g)%nat -> (v < num_vertices g)%nat -> u <> v ->
    occurrences v (neighbors g u) = occurrences u (neighbors g v).

(** The list without its first occurrence of [w] (the list itself when
    [w] does not occur): what one direction of [remove_edge] leaves. *)
Definition remove_first (w : nat) (l : list nat) : list nat :=
  match list_find (λ x, x = w) l with
  | Some (i, _) => delete i l
  | None => l
  end.

(** ** Concrete states used in the examples *)

(** One vertex, undirected, no edge: [create_graph(1, false)]. *)
Definition g_single : Graph :=
  {| adj := [[]]; adj_size := [0%nat]; num_vertices := 1; directed := false |}.

(** Three vertices, directed, edges 0->1 and 0->2 added in that order. *)
Definition g_fan : Graph :=
  {| adj := [[1; 2]; []; []]%nat; adj_size := [2; 0; 0]%nat;
     num_vertices := 3; directed := true |}.

(** Two vertices, undirected, the edge {0,1} added twice. *)
Definition g_double : Graph :=
  {| adj := [[1; 1]; [0; 0]]%nat; adj_size := [2; 2]%nat;
     num_vertices := 2; directed := false |}.

(** Two vertices, undirected, no edge. *)
Definition g_pair : Graph :=
  {| adj := [[]; []]; adj_size := [0; 0]%nat;
     num_vertices := 2; directed := false |}.

(** ** Loops

    A [while] loop is a step function on the loop state that either
    continues with a new state or leaves with a result.  [while_fuel]
    runs at most [fuel] iterations; [while_pow2 d] runs at most [2 ^ d]
    iterations and costs nothing beyond the iterations really made.
    [None] is the run that was cut short. *)
Section loops.
Context {St Res : Type}.
Variable step : St -> St + Res.

Fixpoint while_fuel (fuel : nat) (s : St) : option Res :=
  match fuel with
  | O => None
  | S f =>
      match step s with
      | inl s' => while_fuel f s'
      | inr r => Some r
      end
  end.

Fixpoint run_pow2 (d : nat) (s : St) : St + Res :=
  match d with
  | O => step s
  | S d' =>
      match run_pow2 d' s with
      | inl s' => run_pow2 d' s'
      | inr r => inr r
      end
  end.

(** Exactly [k] turns, or fewer when the loop leaves: what [run_pow2 d]
    amounts to for [k = 2 ^ d]. *)
Fixpoint run_turns (k : nat) (s : St) : St + Res :=
  match k with
  | O => inl s
  | S k' =>
      match step s with
      | inl s' => run_turns k' s'
      | inr r => inr r
      end
  end.

Definition while_pow2 (d : nat) (s : St) : option Res :=
  match run_pow2 d s with
  | inl _ => None
  | inr r => Some r
  end.
End loops.

(** A [for] loop over a list whose body may leave the whole function
    with an error ([None]). *)
Fixpoint for_each_opt {A St : Type} (body : St -> A -> option St)
    (s : St) (l : list A) : option St :=
  match l with
  | [] => Some s
  | x :: l' =>
      match body s x with
      | Some s' => for_each_opt body s' l'
      | None => None
      end
  end.

(** ** Edge enumeration *)

Record Edge : Type := mkEdge { v1 : nat; v2 : nat }.

Definition sizeof_Edge : Z := 16.

Record edges_acc : Type := mkAcc {
  acc_edges : list Edge;       (* edges[0 .. *num_edges - 1] *)
  acc_processed : list bool
}.

(** Body of the inner loop of [get_edges] for the entry [x] of vertex
    [v]; [None] is the "capacity exceeded" exit. *)
Definition get_edges_entry (g : Graph) (capacity : Z) (v : nat)
    (st : edges_acc) (x : nat) : option edges_acc :=
  let n := Z.of_nat (num_vertices g) in
  let w := to_int (Z.of_nat x) in
  if n <=? to_size_t w then Some st
  else if directed g then
    if capacity <=? Z.of_nat (length (acc_edges st)) then None
    else
      Some (mkAcc (acc_edges st ++
                     [mkEdge (Z.to_nat (to_size_t (to_int (Z.of_nat v))))
                             (Z.to_nat (to_size_t w))])
                  (acc_processed st))
  else
    let vi := to_int (Z.of_nat v) in
    let mn := if vi <? w then vi else w in
    let mx := if vi <? w then w else vi in
    let index := to_size_t (to_size_t mn * n + to_size_t mx) in
    if capacity <=? index then Some st
    else if (acc_processed st !!! Z.to_nat index : bool) then Some st
    else if capacity <=? Z.of_nat (length (acc_edges st)) then None
    else
      Some (mkAcc (acc_edges st ++
                     [mkEdge (Z.to_nat (to_size_t mn)) (Z.to_nat (to_size_t mx))])
                  (<[Z.to_nat index := true]> (acc_processed st))).

Definition get_edges_vertex (g : Graph) (capacity : Z)
    (st : edges_acc) (v : nat) : option edges_acc :=
  match adj g !!! v with
  | [] => Some st                                (* adj[v] == NULL *)
  | _ => for_each_opt (get_edges_entry g capacity v) st (neighbors g v)
  end.

(** [get_edges(g, as_tuple, &num_edges)] on a non-NULL graph with a
    non-NULL [num_edges]: the returned array ([None] is NULL) and the
    final [*num_edges].  [ok_edges] and [ok_processed] are the outcomes
    of the two allocations; the final shrinking realloc keeps the array
    whether it succeeds or not. *)
Definition get_edges (ok_edges ok_processed : bool) (g : Graph)
  : option (list Edge) * nat :=
  let n := Z.of_nat (num_vertices g) in
  if n =? 0 then (None, 0%nat)
  else if SIZE_MAX / sizeof_Edge <? n then (None, 0%nat)
  else
    let capacity := to_size_t (n * n) in
    if (capacity =? 0) || (SIZE_MAX / sizeof_Edge <? capacity) then (None, 0%nat)
    else if negb ok_edges then (None, 0%nat)
    else if negb (directed g) && negb ok_processed then (None, 0%nat)
    else
      let processed :=
        if directed g then [] else replicate (Z.to_nat capacity) false in
      match for_each_opt (get_edges_vertex g capacity)
              (mkAcc [] processed) (seq 0 (num_vertices g)) with
      | None => (None, 0%nat)
      | Some st =>
          match acc_edges st with
          | [] => (None, 0%nat)
          | es => (Some es, length es)
          end
      end.

(** ** Shortest paths (unit weights)

    The three routines are modelled on calls with [out_path == NULL] and
    [out_len == NULL], on runs where the working arrays are allocated;
    the value is the returned [int]. *)

Record sp_state : Type := mkSp {
  sp_dist : list Z;        (* int dist[n] *)
  sp_visited : list bool;  (* bool visited[n] *)
  sp_prev : list Z         (* size_t prev[n], SIZE_MAX for "none" *)
}.

(** The scan for the unvisited vertex of least distance: the pair
    [(min_dist, u)] after the loop over [v]. *)
Definition dijkstra_select (n : nat) (st : sp_state) : Z * nat :=
  foldl (fun (acc : Z * nat) v =>
           if negb (sp_visited st !!! v) && (sp_dist st !!! v <? acc.1)
           then (sp_dist st !!! v, v) else acc)
        (INT_MAX, n) (seq 0 n).

(** Relaxation of the entry [v] of the chosen vertex [u]. *)
Definition dijkstra_relax (n u : nat) (st : sp_state) (v : nat) : sp_state :=
  if (n <=? v)%nat then st
  else if negb (sp_visited st !!! v)
          && negb (sp_dist st !!! u =? INT_MAX)
          && (sp_dist st !!! u + 1 <? sp_dist st !!! v)
  then mkSp (<[v := sp_dist st !!! u + 1]> (sp_dist st))
            (sp_visited st)
            (<[v := Z.of_nat u]> (sp_prev st))
  else st.

(** The main loop, [count] iterations left. *)
Fixpoint dijkstra_loop (g : Graph) (target : nat) (count : nat)
    (st : sp_state) : sp_state :=
  match count with
  | O => st
  | S c =>
      let n := num_vertices g in
      let u := (dijkstra_select n st).2 in
      if (u =? n)%nat || (sp_dist st !!! u =? INT_MAX) then st
      else
        let st1 := mkSp (sp_dist st) (<[u := true]> (sp_visited st)) (sp_prev st) in
        if (u =? target)%nat then st1
        else dijkstra_loop g target c
               (foldl (dijkstra_relax n u) st1 (neighbors g u))
  end.

Definition dijkstra_shortest_path (g : Graph) (source target : nat) : Z :=
  let n := num_vertices g in
  if (n <=? source)%nat || (n <=? target)%nat then INT_MAX
  else
    let st0 := mkSp (<[source := 0]> (replicate n INT_MAX))
                    (replicate n false)
                    (replicate n SIZE_MAX) in
    sp_dist (dijkstra_loop g target n st0) !!! target.

(** Bellman-Ford: state of one pass is the arrays and the flag
    [updated]. *)
Definition bf_relax (n u : nat) (acc : sp_state * bool) (v : nat)
  : sp_state * bool :=
  let st := acc.1 in
  if (n <=? v)%nat then acc
  else if sp_dist st !!! u + 1 <? sp_dist st !!! v
  then (mkSp (<[v := sp_dist st !!! u + 1]> (sp_dist st))
             (sp_visited st)
             (<[v := Z.of_nat u]> (sp_prev st)), true)
  else acc.

Definition bf_vertex (g : Graph) (acc : sp_state * bool) (u : nat)
  : sp_state * bool :=
  if sp_dist acc.1 !!! u =? INT_MAX then acc
  else foldl (bf_relax (num_vertices g) u) acc (neighbors g u).

Definition bf_pass (g : Graph) (st : sp_state) : sp_state * bool :=
  foldl (bf_vertex g) (st, false) (seq 0 (num_vertices g)).

Fixpoint bf_loop (g : Graph) (iters : nat) (st : sp_state) : sp_state :=
  match iters with
  | O => st
  | S k =>
      let r := bf_pass g st in
      if r.2 then bf_loop g k r.1 else r.1
  end.

Definition bellman_ford_shortest_path (g : Graph) (source target : nat) : Z :=
  let n := num_vertices g in
  if (n <=? source)%nat || (n <=? target)%nat then INT_MAX
  else
    let st0 := mkSp (<[source := 0]> (replicate n INT_MAX))
                    []
                    (replicate n SIZE_MAX) in
    sp_dist (bf_loop g (n - 1) st0) !!! target.

(** Floyd-Warshall: the two matrices of [FloydPathData]. *)
Record FloydPathData : Type := mkFloyd {
  fw_dist : list (list Z);
  fw_pred : list (list Z)
}.

Definition mat_get (m : list (list Z)) (i j : nat) : Z := (m !!! i) !!! j.

Definition mat_set (m : list (list Z)) (i j : nat) (x : Z) : list (list Z) :=
  <[i := <[j := x]> (m !!! i)]> m.

(** Row [i] of the initial matrices: 0 on the diagonal and [INT_MAX]
    elsewhere, then 1 at every entry of the adjacency list of [i]. *)
Definition fw_init_row (g : Graph) (i : nat) : list Z * list Z :=
  let n := num_vertices g in
  foldl (fun (r : list Z * list Z) v =>
           if (v <? n)%nat
           then (<[v := 1]> r.1, <[v := Z.of_nat i]> r.2) else r)
        (map (fun j => if (i =? j)%nat then 0 else INT_MAX) (seq 0 n),
         replicate n SIZE_MAX)
        (neighbors g i).

Definition fw_init (g : Graph) : FloydPathData :=
  let rows := map (fw_init_row g) (seq 0 (num_vertices g)) in
  mkFloyd (map fst rows) (map snd rows).

Definition fw_inner (k i : nat) (d : FloydPathData) (j : nat) : FloydPathData :=
  if mat_get (fw_dist d) k j =? INT_MAX then d
  else if INT_MAX - mat_get (fw_dist d) k j <? mat_get (fw_dist d) i k then d
  else
    let alt := mat_get (fw_dist d) i k + mat_get (fw_dist d) k j in
    if alt <? mat_get (fw_dist d) i j
    then mkFloyd (mat_set (fw_dist d) i j alt)
                 (mat_set (fw_pred d) i j (mat_get (fw_pred d) k j))
    else d.

Definition fw_middle (n k : nat) (d : FloydPathData) (i : nat) : FloydPathData :=
  if mat_get (fw_dist d) i k =? INT_MAX then d
  else foldl (fw_inner k i) d (seq 0 n).

Definition _floyd_warshall_all_pairs (g : Graph) : FloydPathData :=
  let n := num_vertices g in
  foldl (fun d k => foldl (fw_middle n k) d (seq 0 n)) (fw_init g) (seq 0 n).

Definition floyd_warshall_shortest_path (g : Graph) (source target : nat) : Z :=
  let n := num_vertices g in
  if (n <=? source)%nat || (n <=? target)%nat then INT_MAX
  else mat_get (fw_dist (_floyd_warshall_all_pairs g)) source target.

(** One vertex, directed, with the self-loop 0->0. *)
Definition g_loop : Graph :=
  {| adj := [[0%nat]]; adj_size := [1%nat]; num_vertices := 1; directed := true |}.

(** The path 0-1-2-3 and the 4-cycle of the specification's scenario,
    undirected. *)
Definition g_path4 : Graph :=
  {| adj := [[1]; [0; 2]; [1; 3]; [2]]%nat; adj_size := [1; 2; 2; 1]%nat;
     num_vertices := 4; directed := false |}.

Definition g_cycle4 : Graph :=
  {| adj := [[1; 3]; [0; 2]; [1; 3]; [2; 0]]%nat; adj_size := [2; 2; 2; 2]%nat;
     num_vertices := 4; directed := false |}.

(** ** Vertex colouring *)

(** [for (c = 0; c < (int)n; c++) if (!used[c]) break;] started at [c]
    with [count] values left to try. *)
Fixpoint first_unused (used : list bool) (c : Z) (count : nat) : Z :=
  match count with
  | O => c
  | S k => if (used !!! Z.to_nat c : bool) then first_unused used (c + 1) k else c
  end.

(** Marking of the colours of the coloured neighbours of one vertex in
    the greedy routine (the entry is skipped unless [w < n]). *)
Definition greedy_mark (n : nat) (color : list Z) (used : list bool) (w : nat)
  : list bool :=
  if (w <? n)%nat && (0 <=? color !!! w)
  then <[Z.to_nat (color !!! w) := true]> used else used.

(** One iteration of the main loop of [greedy_sequential_coloring]: the
    state is [(color, max_color)]. *)
Definition greedy_step (g : Graph) (st : list Z * Z) (v : nat) : list Z * Z :=
  let n := num_vertices g in
  let used := foldl (greedy_mark n st.1) (replicate n false) (neighbors g v) in
  let c := first_unused used 0 (Z.to_nat (to_int (Z.of_nat n))) in
  (<[v := c]> st.1, if st.2 <? c then c else st.2).

(** [greedy_sequential_coloring(g, &ncolors)]: the colour array ([None]
    is NULL) and [*out_ncolors]. *)
Definition greedy_sequential_coloring (g : Graph) : option (list Z) * Z :=
  let n := num_vertices g in
  if (n =? 0)%nat then (None, 0)
  else
    let r := foldl (greedy_step g) (replicate n (-1), -1) (seq 0 n) in
    (Some r.1, to_size_t (r.2 + 1)).

Record dsatur_state : Type := mkDsatur {
  ds_color : list Z;                    (* int color[n] *)
  ds_sat_deg : list Z;                  (* int sat_deg[n] *)
  ds_neighbor_colors : list (list bool);
  ds_max_color : Z
}.

(** The choice of the first vertex: largest degree, lowest index first. *)
Definition dsatur_first (degree : list nat) (n : nat) : nat :=
  foldl (fun first v => if (degree !!! first <? degree !!! v)%nat then v else first)
        0%nat (seq 1 (n - 1)).

(** Saturation update for the entry [u] of a vertex that received colour
    [c]; [only_uncolored] is false for the first vertex, whose loop has
    no test on [color[u]]. *)
Definition dsatur_saturate (only_uncolored : bool) (c : Z)
    (st : dsatur_state) (u : nat) : dsatur_state :=
  if (negb only_uncolored || (ds_color st !!! u =? -1))
     && negb ((ds_neighbor_colors st !!! u) !!! Z.to_nat c)
  then mkDsatur (ds_color st)
                (<[u := ds_sat_deg st !!! u + 1]> (ds_sat_deg st))
                (<[u := <[Z.to_nat c := true]> (ds_neighbor_colors st !!! u)]>
                   (ds_neighbor_colors st))
                (ds_max_color st)
  else st.

(** The scan for the next vertex: the pair [(max_sat, candidate)], with
    [None] for the sentinel [SIZE_MAX]. *)
Definition dsatur_select (degree : list nat) (n : nat) (st : dsatur_state)
  : Z * option nat :=
  foldl (fun (acc : Z * option nat) v =>
           if negb (ds_color st !!! v =? -1) then acc
           else if (acc.1 <? ds_sat_deg st !!! v)
                   || ((ds_sat_deg st !!! v =? acc.1)
                       && (match acc.2 with
                           | Some cand => degree !!! cand
                           | None => 0%nat
                           end <? degree !!! v)%nat)
           then (ds_sat_deg st !!! v, Some v) else acc)
        (-1, None) (seq 0 n).

Definition dsatur_mark (color : list Z) (used : list bool) (u : nat) : list bool :=
  if negb (color !!! u =? -1)
  then <[Z.to_nat (color !!! u) := true]> used else used.

(** The main loop, [steps] iterations left. *)
Fixpoint dsatur_loop (g : Graph) (degree : list nat) (steps : nat)
    (st : dsatur_state) : dsatur_state :=
  match steps with
  | O => st
  | S k =>
      let n := num_vertices g in
      match (dsatur_select degree n st).2 with
      | None => st
      | Some candidate =>
          let used := foldl (dsatur_mark (ds_color st)) (replicate n false)
                            (neighbors g candidate) in
          let c := first_unused used 0 (Z.to_nat (to_int (Z.of_nat n))) in
          let st1 := mkDsatur (<[candidate := c]> (ds_color st))
                              (ds_sat_deg st) (ds_neighbor_colors st)
                              (if ds_max_color st <? c then c else ds_max_color st) in
          dsatur_loop g degree k
            (foldl (dsatur_saturate true c) st1 (neighbors g candidate))
      end
  end.

(** [dsatur_coloring(g, &colors, &num_colors)]: the return code, the
    colour array ([None] is NULL) and [*out_num_colors]. *)
Definition dsatur_coloring (g : Graph) : Z * option (list Z) * Z :=
  let n := num_vertices g in
  if (n =? 0)%nat then (0, None, 0)
  else
    let degree := map (fun v => adj_size g !!! v) (seq 0 n) in
    let first := dsatur_first degree n in
    let st0 := mkDsatur (<[first := 0]> (replicate n (-1)))
                        (replicate n 0)
                        (replicate n (replicate n false))
                        0 in
    let st1 := foldl (dsatur_saturate false 0) st0 (neighbors g first) in
    let st := dsatur_loop g degree (n - 1) st1 in
    (0, Some (ds_color st), ds_max_color st + 1).

(** A colour array is proper when the two ends of every adjacency entry
    joining two different vertices have different colours. *)
Definition proper_coloring (g : Graph) (color : list Z) : Prop :=
  forall u v, (u < num_vertices g)%nat -> v ∈ neighbors g u -> u <> v ->
    color !!! u <> color !!! v.

(** Every entry is mirrored: [v] in the list of [u] implies [u] in the
    list of [v]. *)
Definition mirrored (g : Graph) : Prop :=
  forall u v, (u < num_vertices g)%nat -> v ∈ neighbors g u -> u ∈ neighbors g v.

(** Two vertices, directed, the single edge 0->1. *)
Definition g_arrow : Graph :=
  {| adj := [[1%nat]; []]; adj_size := [1; 0]%nat;
     num_vertices := 2; directed := true |}.

(** ** Topological order (Kahn) *)

Record topo_state : Type := mkTopo {
  ts_in_degree : list Z;   (* size_t in_degree[n] *)
  ts_queue : list nat;     (* queue[0 .. back-1] *)
  ts_front : nat;
  ts_order : list nat      (* order[0 .. idx-1] *)
}.

(** The in-degree count; [None] is the integrity exit on an entry
    [v >= n]. *)
Definition topo_count_entry (n : nat) (deg : list Z) (v : nat) : option (list Z) :=
  if (n <=? v)%nat then None
  else Some (<[v := to_size_t (deg !!! v + 1)]> deg).

Definition topo_count (g : Graph) : option (list Z) :=
  for_each_opt
    (fun deg u => for_each_opt (topo_count_entry (num_vertices g)) deg (neighbors g u))
    (replicate (num_vertices g) 0) (seq 0 (num_vertices g)).

(** [if (--in_degree[v] == 0) queue[back++] = v;] *)
Definition topo_release (st : topo_state) (v : nat) : topo_state :=
  let d := to_size_t (ts_in_degree st !!! v - 1) in
  mkTopo (<[v := d]> (ts_in_degree st))
         (if d =? 0 then ts_queue st ++ [v] else ts_queue st)
         (ts_front st) (ts_order st).

(** One turn of [while (front < back)]. *)
Definition topo_step (g : Graph) (st : topo_state) : topo_state + topo_state :=
  if (ts_front st <? length (ts_queue st))%nat then
    let u := ts_queue st !!! ts_front st in
    let st1 := mkTopo (ts_in_degree st) (ts_queue st)
                      (S (ts_front st)) (ts_order st ++ [u]) in
    inl (foldl topo_release st1 (neighbors g u))
  else inr st.

(** [topological_sort(g)]: the inner option is the returned pointer
    ([None] is NULL); the outer [None] would be a run of the [while]
    loop longer than [n + 1] turns. *)
Definition topological_sort (g : Graph) : option (option (list nat)) :=
  let n := num_vertices g in
  if negb (directed g) then Some None
  else if (n =? 0)%nat then Some None
  else
    match topo_count g with
    | None => Some None
    | Some deg =>
        let queue0 := filter (fun v => deg !!! v = 0) (seq 0 n) in
        match while_fuel (topo_step g) (S n) (mkTopo deg queue0 0 []) with
        | None => None
        | Some st =>
            if (length (ts_order st) =? n)%nat then Some (Some (ts_order st))
            else Some None
        end
    end.

(** An adjacency entry, as a relation on vertices. *)
Definition edge (g : Graph) (u v : nat) : Prop :=
  (u < num_vertices g)%nat /\ v ∈ neighbors g u.

(** A directed cycle: a vertex reached from itself along at least one
    entry. *)
Definition has_directed_cycle (g : Graph) : Prop :=
  exists v, tc (edge g) v v.

(** All adjacency entries together; they are in memory at once, so
    their number fits [size_t]. *)
Definition all_entries (g : Graph) : list nat :=
  concat (map (neighbors g) (seq 0 (num_vertices g))).

Definition entries_fit (g : Graph) : Prop :=
  Z.of_nat (length (all_entries g)) <= SIZE_MAX.

(** Three vertices, directed: the scenario 0->1, 1->2, 0->2 of the
    specification, and the cycle 0->1->2->0. *)
Definition g_dag3 : Graph :=
  {| adj := [[1; 2]; [2]; []]%nat; adj_size := [2; 1; 0]%nat;
     num_vertices := 3; directed := true |}.

Definition g_ring3 : Graph :=
  {| adj := [[1]; [2]; [0]]%nat; adj_size := [1; 1; 1]%nat;
     num_vertices := 3; directed := true |}.

(** ** Minimum spanning tree (Kruskal) *)

Record WeightedEdge : Type := mkWEdge { we_v1 : nat; we_v2 : nat; weight : Z }.

Record DisjointSet : Type := mkDS {
  ds_parent : list nat;   (* size_t parent[n] *)
  ds_rank : list Z;       (* int rank[n] *)
  ds_n : nat
}.

Definition ds_create (n : nat) : DisjointSet :=
  mkDS (seq 0 n) (replicate n 0) n.

(** [ds_find(ds, x)] with path compression: the updated structure and
    the returned [ds->parent[x]].  The C function recurses along the
    parent links; [depth] bounds the number of nested calls and [None] is
    a chain longer than that. *)
Fixpoint ds_find (depth : nat) (ds : DisjointSet) (x : nat)
  : option (DisjointSet * nat) :=
  match depth with
  | O => None
  | S d =>
      if (ds_parent ds !!! x =? x)%nat then Some (ds, ds_parent ds !!! x)
      else
        match ds_find d ds (ds_parent ds !!! x) with
        | None => None
        | Some (ds1, r) =>
            let ds2 := mkDS (<[x := r]> (ds_parent ds1)) (ds_rank ds1) (ds_n ds1) in
            Some (ds2, ds_parent ds2 !!! x)
        end
  end.

(** [ds_union(ds, x, y)]. *)
Definition ds_union (ds : DisjointSet) (x y : nat) : option DisjointSet :=
  match ds_find (ds_n ds) ds x with
  | None => None
  | Some (ds1, rx) =>
      match ds_find (ds_n ds) ds1 y with
      | None => None
      | Some (ds2, ry) =>
          if (rx =? ry)%nat then Some ds2
          else if ds_rank ds2 !!! rx <? ds_rank ds2 !!! ry
          then Some (mkDS (<[rx := ry]> (ds_parent ds2)) (ds_rank ds2) (ds_n ds2))
          else if ds_rank ds2 !!! ry <? ds_rank ds2 !!! rx
          then Some (mkDS (<[ry := rx]> (ds_parent ds2)) (ds_rank ds2) (ds_n ds2))
          else Some (mkDS (<[ry := rx]> (ds_parent ds2))
                          (<[rx := ds_rank ds2 !!! rx + 1]> (ds_rank ds2))
                          (ds_n ds2))
      end
  end.

(** [edge_cmp]: the comparison handed to [qsort]. *)
Definition edge_cmp (a b : WeightedEdge) : Z :=
  (if weight b <? weight a then 1 else 0) - (if weight a <? weight b then 1 else 0).

(** Step 1 of [kruskal_mst]: the entries of [u] that are kept. *)
Definition kruskal_entries (g : Graph) (u : nat) : list WeightedEdge :=
  map (fun v => mkWEdge u v 1)
      (filter (fun v => ~ (directed g = false /\ (v < u)%nat)) (neighbors g u)).

Definition kruskal_edges (g : Graph) : list WeightedEdge :=
  concat (map (kruskal_entries g) (seq 0 (num_vertices g))).

Record kruskal_state : Type := mkKruskal {
  ks_ds : DisjointSet;
  ks_mst : list WeightedEdge;   (* mst[0 .. mst_n-1] *)
  ks_total : Z                  (* total_weight *)
}.

(** Step 4: [for (i = 0; i < nedges && mst_n < n - 1; i++)] over the
    sorted edges still to be seen.  In the test the left call of
    [ds_find] is taken first. *)
Fixpoint kruskal_loop (n : nat) (edges : list WeightedEdge) (st : kruskal_state)
  : option kruskal_state :=
  match edges with
  | [] => Some st
  | e :: rest =>
      if (length (ks_mst st) <? n - 1)%nat then
        match ds_find n (ks_ds st) (we_v1 e) with
        | None => None
        | Some (ds1, ru) =>
            match ds_find n ds1 (we_v2 e) with
            | None => None
            | Some (ds2, rv) =>
                if (ru =? rv)%nat
                then kruskal_loop n rest (mkKruskal ds2 (ks_mst st) (ks_total st))
                else
                  match ds_union ds2 (we_v1 e) (we_v2 e) with
                  | None => None
                  | Some ds3 =>
                      kruskal_loop n rest
                        (mkKruskal ds3 (ks_mst st ++ [e]) (ks_total st + weight e))
                  end
            end
        end
      else Some st
  end.

(** [kruskal_mst(g, &edges, &nedges)] on runs where the allocations
    succeed: the returned [int], [*out_edges] ([None] is NULL) and
    [*out_nedges].  [qsort] is the library sort, of which only the
    specification is known; the outer [None] is a [ds_find] chain longer
    than [n]. *)
Definition kruskal_mst (qsort : list WeightedEdge -> list WeightedEdge)
    (g : Graph) : option (Z * option (list WeightedEdge) * nat) :=
  let n := num_vertices g in
  if (n =? 0)%nat then Some (-1, None, 0%nat)
  else
    match kruskal_loop n (qsort (kruskal_edges g))
            (mkKruskal (ds_create n) [] 0) with
    | None => None
    | Some st =>
        if (length (ks_mst st) =? n - 1)%nat
        then Some (ks_total st, Some (ks_mst st), length (ks_mst st))
        else Some (-1, None, 0%nat)
    end.

(** A sort that answers [qsort]'s specification for [edge_cmp]. *)
Definition lighter (a b : WeightedEdge) : Prop := weight a <= weight b.

Global Instance lighter_dec : RelDecision lighter :=
  fun a b => decide (weight a <= weight b).

Definition sort_by_weight (l : list WeightedEdge) : list WeightedEdge :=
  merge_sort lighter l.

(** Two vertices are adjacent when an entry joins them in either
    direction; the graph is connected when every vertex is linked to
    every other one by adjacent steps. *)
Definition adjacent (g : Graph) (u v : nat) : Prop := edge g u v \/ edge g v u.

Definition connected (g : Graph) : Prop :=
  forall u v, (u < num_vertices g)%nat -> (v < num_vertices g)%nat ->
    rtc (adjacent g) u v.

(** Two vertices, undirected flag, the single entry 0 in the list of 1
    (the state [remove_edge] leaves when it returns -4 on the graph with
    the one edge {0,1} stored twice, after a second removal). *)
Definition g_half : Graph :=
  {| adj := [[]; [0%nat]]; adj_size := [0; 1]%nat;
     num_vertices := 2; directed := false |}.

(** * Loop invariants and auxiliary notions of the proofs *)

(** Marking one colour as used: the shape shared by the marking loops of
    both colouring routines. *)
Definition mark_with {A : Type} (P : A -> bool) (f : A -> nat)
    (used : list bool) (w : A) : list bool :=
  if P w then <[f w := true]> used else used.

(** Number of vertices still without a colour. *)
Definition uncolored (color : list Z) : nat :=
  length (filter (fun c => c = -1) color).

(** State of the greedy loop before vertex [k] is treated. *)
Definition greedy_inv (g : Graph) (k : nat) (color : list Z) : Prop :=
  length color = num_vertices g /\
  (forall w, (w < k)%nat -> 0 <= color !!! w <= Z.of_nat w) /\
  (forall w, (k <= w)%nat -> (w < num_vertices g)%nat -> color !!! w = -1) /\
  (forall a b, (a < k)%nat -> (b < k)%nat -> a <> b -> b ∈ neighbors g a ->
     color !!! a <> color !!! b).


(** State of the DSATUR loop when [s] vertices have a colour. *)
Definition dsatur_inv (g : Graph) (s : nat) (st : dsatur_state) : Prop :=
  length (ds_color st) = num_vertices g /\
  Forall (fun x => 0 <= x) (ds_sat_deg st) /\
  (forall w, (w < num_vertices g)%nat ->
     ds_color st !!! w = -1 \/ 0 <= ds_color st !!! w < Z.of_nat s) /\
  (uncolored (ds_color st) + s = num_vertices g)%nat /\
  (forall a b, (a < num_vertices g)%nat -> (b < num_vertices g)%nat -> a <> b ->
     b ∈ neighbors g a ->
     ds_color st !!! a <> -1 -> ds_color st !!! b <> -1 ->
     ds_color st !!! a <> ds_color st !!! b).

(** ** Kahn's loop *)

(** The adjacency entries of the vertices not yet taken from the queue. *)
Definition pending (g : Graph) (taken : list nat) : list nat :=
  concat (map (neighbors g)
              (filter (fun u => u ∉ taken) (seq 0 (num_vertices g)))).

(** State of Kahn's loop while the entries [rest] of the vertex just
    dequeued are still to be treated; at the head of the loop [rest] is
    empty. *)
Definition topo_inv (g : Graph) (rest : list nat) (st : topo_state) : Prop :=
  length (ts_in_degree st) = num_vertices g /\
  (ts_front st <= length (ts_queue st))%nat /\
  ts_order st = take (ts_front st) (ts_queue st) /\
  NoDup (ts_queue st) /\
  (forall v, v ∈ ts_queue st -> (v < num_vertices g)%nat) /\
  (forall v, (v < num_vertices g)%nat ->
     ts_in_degree st !!! v =
       Z.of_nat (occurrences v (pending g (ts_order st)) + occurrences v rest)) /\
  (forall v, (v < num_vertices g)%nat -> ts_in_degree st !!! v <= SIZE_MAX) /\
  (forall v, (v < num_vertices g)%nat ->
     (v ∈ ts_queue st <-> ts_in_degree st !!! v = 0)) /\
  (forall j v u, ts_queue st !! j = Some v -> edge g u v ->
     exists i, (i < j)%nat /\ ts_queue st !! i = Some u).

(** A list of vertices each of which reaches every later one. *)
Definition chain (R : nat -> nat -> Prop) (l : list nat) : Prop :=
  forall i j x y, (i < j)%nat -> l !! i = Some x -> l !! j = Some y -> tc R x y.

(** [order] lists every vertex once and every entry goes forward. *)
Definition topological_order (g : Graph) (order : list nat) : Prop :=
  order ≡ₚ seq 0 (num_vertices g) /\
  forall u v, edge g u v ->
    exists i j, (i < j)%nat /\ order !! i = Some u /\ order !! j = Some v.

(** ** Union-find *)

(** [r] is the representative the parent links lead to from [x]. *)
Inductive is_root (parent : list nat) : nat -> nat -> Prop :=
  | is_root_here x : parent !!! x = x -> is_root parent x x
  | is_root_up x r :
      parent !!! x <> x -> is_root parent (parent !!! x) r -> is_root parent x r.

Definition same_set (parent : list nat) (a b : nat) : Prop :=
  exists r, is_root parent a r /\ is_root parent b r.

(** The representatives. *)
Definition roots (n : nat) (parent : list nat) : list nat :=
  filter (fun x => parent !!! x = x) (seq 0 n).

(** A disjoint-set forest over [n] elements after at most [B] unions:
    links stay in range and go strictly up in rank, and no rank exceeds
    [B]. *)
Definition uf_inv (n : nat) (ds : DisjointSet) (B : Z) : Prop :=
  ds_n ds = n /\ length (ds_parent ds) = n /\ length (ds_rank ds) = n /\
  (forall x, (x < n)%nat -> (ds_parent ds !!! x < n)%nat) /\
  (forall x, (x < n)%nat -> ds_parent ds !!! x <> x ->
     ds_rank ds !!! x < ds_rank ds !!! (ds_parent ds !!! x)) /\
  (forall x, (x < n)%nat -> 0 <= ds_rank ds !!! x <= B).

(** State of Kruskal's loop once the edges [seen] have been looked at. *)
Definition kruskal_inv (g : Graph) (seen : list WeightedEdge)
    (st : kruskal_state) : Prop :=
  let n := num_vertices g in
  uf_inv n (ks_ds st) (Z.of_nat (length (ks_mst st))) /\
  (length (roots n (ds_parent (ks_ds st))) + length (ks_mst st) = n)%nat /\
  ks_total st = Z.of_nat (length (ks_mst st)) /\
  (forall a b, (a < n)%nat -> (b < n)%nat ->
     same_set (ds_parent (ks_ds st)) a b -> rtc (adjacent g) a b) /\
  Forall (fun e => same_set (ds_parent (ks_ds st)) (we_v1 e) (we_v2 e)) seen /\
  Forall (fun e => adjacent g (we_v1 e) (we_v2 e)) (ks_mst st).


(** ** Clients of the disjoint-set structure *)

(** A run of [ds_union] calls on one structure, one call per pair. *)
Definition ds_union_all (ds : DisjointSet) (ps : list (nat * nat))
  : option DisjointSet :=
  for_each_opt (fun d p => ds_union d p.1 p.2) ds ps.

(** The elements the pairs [ps] tie together, directly or through other
    elements. *)
Definition linked (ps : list (nat * nat)) : nat -> nat -> Prop :=
  rtc (sc (fun a b => (a, b) ∈ ps)).

(** What a run of unions keeps: the forest invariant with the number of
    merges as the rank bound, and the sets being the classes of the pairs
    seen. *)
Definition uf_run_inv (n : nat) (ds : DisjointSet) (seen : list (nat * nat))
  : Prop :=
  uf_inv n ds (Z.of_nat n - Z.of_nat (length (roots n (ds_parent ds)))) /\
  forall a b, (a < n)%nat -> (b < n)%nat ->
    (same_set (ds_parent ds) a b <-> linked seen a b).

(** ** Colour bounds *)

(** Number of colours marked as used. *)
Definition count_true (used : list bool) : nat :=
  length (filter (fun b => b = true) used).

(** State of the greedy loop before vertex [k] is treated, as far as the
    sizes of the colours go: a colour is at most the running maximum, the
    index and the number of entries of its vertex, every smaller colour
    sits on an earlier neighbour, and the maximum is reached. *)
Definition greedy_bounds_inv (g : Graph) (k : nat) (st : list Z * Z) : Prop :=
  length st.1 = num_vertices g /\
  (forall w, (w < k)%nat ->
     0 <= st.1 !!! w <= st.2 /\ st.1 !!! w <= Z.of_nat w /\
     st.1 !!! w <= Z.of_nat (length (neighbors g w)) /\
     forall c, 0 <= c < st.1 !!! w ->
       exists x, x ∈ neighbors g w /\ (x < w)%nat /\ st.1 !!! x = c) /\
  (forall w, (k <= w)%nat -> (w < num_vertices g)%nat -> st.1 !!! w = -1) /\
  (k = 0%nat -> st.2 = -1) /\
  ((0 < k)%nat -> exists w, (w < k)%nat /\ st.1 !!! w = st.2).

(** State of the DSATUR loop when [s] vertices have a colour, as far as
    the sizes of the colours go. *)
Definition dsatur_bounds_inv (g : Graph) (s : nat) (st : dsatur_state) : Prop :=
  length (ds_color st) = num_vertices g /\
  Forall (fun x => 0 <= x) (ds_sat_deg st) /\
  (forall w, (w < num_vertices g)%nat ->
     ds_color st !!! w = -1 \/
     (0 <= ds_color st !!! w <= ds_max_color st /\
      ds_color st !!! w < Z.of_nat s /\
      ds_color st !!! w <= Z.of_nat (length (neighbors g w)) /\
      forall c, 0 <= c < ds_color st !!! w ->
        exists x, x ∈ neighbors g w /\ ds_color st !!! x = c)) /\
  (uncolored (ds_color st) + s = num_vertices g)%nat /\
  (exists w, (w < num_vertices g)%nat /\ ds_color st !!! w = ds_max_color st) /\
  0 <= ds_max_color st.

(** ** Edge enumeration *)

(** The adjacency entries as pairs, in the order the loops of [get_edges]
    meet them, and the same as [Edge] values. *)
Definition entry_pairs (g : Graph) (vs : list nat) : list (nat * nat) :=
  concat (map (fun u => map (pair u) (neighbors g u)) vs).

Definition entry_edges (g : Graph) : list Edge :=
  map (fun p => mkEdge p.1 p.2) (entry_pairs g (seq 0 (num_vertices g))).

(** State of the undirected enumeration once the entries [seen] have been
    treated: the recorded edges are the normalised pairs of [seen], each
    once, and [processed] flags exactly their slots. *)
Definition edges_inv (g : Graph) (seen : list (nat * nat)) (st : edges_acc)
  : Prop :=
  let n := num_vertices g in
  length (acc_processed st) = (n * n)%nat /\
  (forall a b, (a < n)%nat -> (b < n)%nat ->
     (acc_processed st !!! (a * n + b)%nat = true <->
      mkEdge a b ∈ acc_edges st)) /\
  (forall e, e ∈ acc_edges st ->
     exists u x, (u, x) ∈ seen /\ e = mkEdge (u `min` x) (u `max` x)) /\
  (forall u x, (u, x) ∈ seen -> mkEdge (u `min` x) (u `max` x) ∈ acc_edges st) /\
  Forall (fun p => (p.1 < n)%nat /\ (p.2 < n)%nat) seen /\
  NoDup (acc_edges st).

(** ** Breadth-first search *)

Definition sizeof_int : Z := 4.

Record bfs_state : Type := mkBfs {
  bfs_visited : list bool;   (* bool visited[n] *)
  bfs_queue : list Z;        (* int queue[0 .. rear-1] *)
  bfs_front : nat;
  bfs_result : list Z        (* int result[0 .. count-1] *)
}.

(** Body of the loop over the entries of the dequeued vertex, for the
    entry [x]: [neigh = (int) x], skipped unless [(size_t) neigh < n]. *)
Definition bfs_visit (n : nat) (st : bfs_state) (x : nat) : bfs_state :=
  let neigh := to_int (Z.of_nat x) in
  if Z.of_nat n <=? to_size_t neigh then st
  else if (bfs_visited st !!! Z.to_nat neigh : bool) then st
  else mkBfs (<[Z.to_nat neigh := true]> (bfs_visited st))
             (bfs_queue st ++ [neigh])
             (bfs_front st) (bfs_result st).

(** One turn of [while (front < rear)]. *)
Definition bfs_step (g : Graph) (st : bfs_state) : bfs_state + bfs_state :=
  if (bfs_front st <? length (bfs_queue st))%nat then
    let v := bfs_queue st !!! bfs_front st in
    let st1 := mkBfs (bfs_visited st) (bfs_queue st)
                     (S (bfs_front st)) (bfs_result st ++ [v]) in
    inl (foldl (bfs_visit (num_vertices g)) st1 (neighbors g (Z.to_nat v)))
  else inr st.

(** [bfs(g, start)] on a non-NULL graph.  The inner option is the
    returned pointer ([None] is NULL): an array of [n] slots of which the
    first [count] hold the visit order and the others are left as
    [malloc] gave them ([None]); [count] itself is not returned.
    [alloc_ok] tells whether the three allocations succeed.  The outer
    [None] would be a run of the [while] loop longer than [n + 1]
    turns. *)
Definition bfs (alloc_ok : bool) (g : Graph) (start : nat)
  : option (option (list (option Z))) :=
  let n := num_vertices g in
  if (n <=? start)%nat then Some None
  else if (n =? 0)%nat || (SIZE_MAX / sizeof_int <? Z.of_nat n) then Some None
  else if negb alloc_ok then Some None
  else
    match while_fuel (bfs_step g) (S n)
            (mkBfs (<[start := true]> (replicate n false))
                   [to_int (Z.of_nat start)] 0 []) with
    | None => None
    | Some st =>
        Some (Some ((Some <$> bfs_result st)
                    ++ replicate (n - length (bfs_result st)) None))
    end.

(** State of the search while the entries [rest] of the vertex just
    dequeued are still to be treated ([rest] is empty at the head of the
    loop); [q] is the queue as vertices. *)
Definition bfs_inv (g : Graph) (start : nat) (rest : list nat)
    (st : bfs_state) : Prop :=
  exists q : list nat,
    bfs_queue st = Z.of_nat <$> q /\
    bfs_result st = Z.of_nat <$> take (bfs_front st) q /\
    length (bfs_visited st) = num_vertices g /\
    (bfs_front st <= length q)%nat /\
    NoDup q /\
    (forall v, v ∈ q -> (v < num_vertices g)%nat) /\
    (forall v, (v < num_vertices g)%nat ->
       (bfs_visited st !!! v = true <-> v ∈ q)) /\
    q !! 0%nat = Some start /\
    (forall j v, q !! j = Some v -> (0 < j)%nat ->
       exists i u, (i < j)%nat /\ (i < bfs_front st)%nat /\
                   q !! i = Some u /\ edge g u v) /\
    (forall x, x ∈ rest ->
       exists i u, (i < bfs_front st)%nat /\ q !! i = Some u /\ edge g u x) /\
    (forall i u v, (i < bfs_front st)%nat -> q !! i = Some u -> edge g u v ->
       v ∈ q \/ v ∈ rest).

(** ** Shortest paths *)

(** What the shortest-path routines are to return for [source] and
    [target]: [INT_MAX] when no walk along adjacency entries leads from
    the one to the other, and otherwise the least number of entries of
    such a walk. *)
Definition shortest_distance (g : Graph) (source target : nat) (r : Z) : Prop :=
  (r = INT_MAX /\ forall k, ~ nsteps (edge g) k source target) \/
  (exists d : nat, r = Z.of_nat d /\ nsteps (edge g) d source target /\
     forall k, nsteps (edge g) k source target -> (d <= k)%nat).

(** The distance array of a search from [source]: finite entries are
    lengths of walks that exist. *)
Definition dist_sound (g : Graph) (source : nat) (dist : list Z) : Prop :=
  length dist = num_vertices g /\
  dist !!! source = 0 /\
  (forall v, (v < num_vertices g)%nat -> 0 <= dist !!! v <= INT_MAX) /\
  (forall v, (v < num_vertices g)%nat -> dist !!! v <> INT_MAX ->
     nsteps (edge g) (Z.to_nat (dist !!! v)) source v).

(** [d'] is nowhere above [d]. *)
Definition dist_below (n : nat) (d' d : list Z) : Prop :=
  forall v, (v < n)%nat -> d' !!! v <= d !!! v.

(** State of Dijkstra's loop when [k] vertices are marked as visited: the
    array is sound, every entry out of a visited vertex has been relaxed,
    and no visited vertex is farther than an unvisited one. *)
Definition dijkstra_inv (g : Graph) (s : nat) (k : nat) (st : sp_state) : Prop :=
  let n := num_vertices g in
  dist_sound g s (sp_dist st) /\
  length (sp_visited st) = n /\
  (forall u v, (v < n)%nat -> sp_visited st !!! u = true -> edge g u v ->
     sp_dist st !!! v <= sp_dist st !!! u + 1) /\
  (forall u v, (u < n)%nat -> (v < n)%nat ->
     sp_visited st !!! u = true -> sp_visited st !!! v = false ->
     sp_dist st !!! u <= sp_dist st !!! v) /\
  (forall u, (u < n)%nat -> sp_visited st !!! u = true ->
     sp_dist st !!! u < INT_MAX) /\
  count_true (sp_visited st) = k.

(** ** Floyd-Warshall *)

(** A walk of [L >= 1] entries from [i] to [j] all of whose inner
    vertices are below [k]. *)
Inductive walk_via (g : Graph) (k : nat) : nat -> nat -> nat -> Prop :=
  | walk_via_edge i j : edge g i j -> walk_via g k 1 i j
  | walk_via_step i m j L :
      edge g i m -> (m < k)%nat -> walk_via g k L m j ->
      walk_via g k (S L) i j.

(** A distance matrix whose finite entries are lengths of walks that
    exist; a zero stands only on the diagonal, at a vertex without an
    entry to itself. *)
Definition fw_sound (g : Graph) (m : list (list Z)) : Prop :=
  let n := num_vertices g in
  length m = n /\
  (forall i, (i < n)%nat -> length (m !!! i) = n) /\
  (forall i j, (i < n)%nat -> (j < n)%nat -> 0 <= mat_get m i j <= INT_MAX) /\
  (forall i j, (i < n)%nat -> (j < n)%nat -> mat_get m i j = 0 ->
     i = j /\ i ∉ neighbors g i) /\
  (forall i j, (i < n)%nat -> (j < n)%nat -> mat_get m i j <> INT_MAX ->
     nsteps (edge g) (Z.to_nat (mat_get m i j)) i j).

Definition mat_below (n : nat) (m' m : list (list Z)) : Prop :=
  forall i j, (i < n)%nat -> (j < n)%nat -> mat_get m' i j <= mat_get m i j.

(** The matrix accounts for every walk whose inner vertices are below
    [k]. *)
Definition fw_complete (g : Graph) (k : nat) (m : list (list Z)) : Prop :=
  forall L i j, walk_via g k L i j -> Z.of_nat L < INT_MAX ->
    mat_get m i j <= Z.of_nat L.

(** The entry [(i, j)] has been relaxed through [k], as seen from the
    matrix [m0] the round started with. *)
Definition fw_relaxed (k i j : nat) (m0 m : list (list Z)) : Prop :=
  forall L1 L3 : nat,
    mat_get m0 i k <= Z.of_nat L1 -> mat_get m0 k j <= Z.of_nat L3 ->
    Z.of_nat (L1 + L3) < INT_MAX ->
    mat_get m i j <= Z.of_nat (L1 + L3).


(** ** Maximum flow (Edmonds-Karp) and minimum cut

    [edmonds_karp_max_flow] and [min_cut] index [visited], [parent] and
    [residual] with the adjacency entries as they are, without a range
    test: the model is meant for graphs whose entries are vertices. *)

Record ek_bfs_state : Type := mkEkBfs {
  ekb_visited : list bool;   (* bool visited[n] *)
  ekb_parent : list Z;       (* int parent[n] *)
  ekb_queue : list nat;      (* size_t queue[0 .. back-1] *)
  ekb_front : nat;
  ekb_found : bool
}.

(** Body of the loop over the entries of the dequeued vertex [u], for
    the entry [v]; once [found] is set the [break] skips the rest. *)
Definition ek_visit (residual : list (list Z)) (sink u : nat)
    (st : ek_bfs_state) (v : nat) : ek_bfs_state :=
  if ekb_found st then st
  else if negb (ekb_visited st !!! v) && (0 <? mat_get residual u v) then
    let parent' := <[v := to_int (Z.of_nat u)]> (ekb_parent st) in
    if (v =? sink)%nat
    then mkEkBfs (ekb_visited st) parent' (ekb_queue st) (ekb_front st) true
    else mkEkBfs (<[v := true]> (ekb_visited st)) parent'
                 (ekb_queue st ++ [v]) (ekb_front st) false
  else st.

(** One turn of [while (front < back)], with its [if (found) break]. *)
Definition ek_bfs_step (g : Graph) (residual : list (list Z)) (sink : nat)
    (st : ek_bfs_state) : ek_bfs_state + ek_bfs_state :=
  if (ekb_front st <? length (ekb_queue st))%nat then
    let u := ekb_queue st !!! ekb_front st in
    let st1 := mkEkBfs (ekb_visited st) (ekb_parent st) (ekb_queue st)
                       (S (ekb_front st)) (ekb_found st) in
    let st2 := foldl (ek_visit residual sink u) st1 (neighbors g u) in
    if ekb_found st2 then inr st2 else inl st2
  else inr st.

(** The search for an augmenting path; [None] would be a run longer than
    [n + 1] turns. *)
Definition ek_bfs (g : Graph) (residual : list (list Z)) (source sink : nat)
  : option ek_bfs_state :=
  let n := num_vertices g in
  while_fuel (ek_bfs_step g residual sink) (S n)
    (mkEkBfs (<[source := true]> (replicate n false)) (replicate n (-1))
             [source] 0 false).

(** [(size_t) parent[v]]. *)
Definition parent_of (parent : list Z) (v : nat) : nat :=
  Z.to_nat (to_size_t (parent !!! v)).

(** [for (v = sink; v != source; v = (size_t) parent[v])] computing
    [path_flow]. *)
Definition ek_bottleneck_step (residual : list (list Z)) (parent : list Z)
    (source : nat) (s : nat * Z) : (nat * Z) + Z :=
  if (s.1 =? source)%nat then inr s.2
  else
    let u := parent_of parent s.1 in
    inl (u, if mat_get residual u s.1 <? s.2 then mat_get residual u s.1 else s.2).

(** The same walk updating the residual capacities. *)
Definition ek_push_arc (parent : list Z) (path_flow : Z)
    (r : list (list Z)) (v : nat) : list (list Z) :=
  let u := parent_of parent v in
  let r1 := mat_set r u v (to_int (mat_get r u v - path_flow)) in
  mat_set r1 v u (to_int (mat_get r1 v u + path_flow)).

Definition ek_push_step (parent : list Z) (source : nat) (path_flow : Z)
    (s : nat * list (list Z)) : (nat * list (list Z)) + list (list Z) :=
  if (s.1 =? source)%nat then inr s.2
  else inl (parent_of parent s.1, ek_push_arc parent path_flow s.2 s.1).

(** How the augmenting loop ends. *)
Inductive ek_result : Type :=
  | EkDone (max_flow : Z) (residual : list (list Z))  (* left by a [break] *)
  | EkOverflow                                         (* the [return -1] of the overflow test *)
  | EkCut.                                             (* an inner loop cut short by its fuel *)

Record ek_state : Type := mkEk {
  ek_residual : list (list Z);
  ek_max_flow : Z;
  ek_round : nat
}.

(** One turn of [while (1)].  [round_ok k] tells whether the two
    allocations of turn [k] succeed. *)
Definition ek_step (round_ok : nat -> bool) (g : Graph) (source sink : nat)
    (st : ek_state) : ek_state + ek_result :=
  let n := num_vertices g in
  if negb (round_ok (ek_round st)) then inr (EkDone (ek_max_flow st) (ek_residual st))
  else
    match ek_bfs g (ek_residual st) source sink with
    | None => inr EkCut
    | Some b =>
        if negb (ekb_found b) then inr (EkDone (ek_max_flow st) (ek_residual st))
        else
          match while_fuel (ek_bottleneck_step (ek_residual st) (ekb_parent b) source)
                  (S n) (sink, INT_MAX) with
          | None => inr EkCut
          | Some path_flow =>
              match while_fuel (ek_push_step (ekb_parent b) source path_flow)
                      (S n) (sink, ek_residual st) with
              | None => inr EkCut
              | Some r' =>
                  if INT_MAX - path_flow <? ek_max_flow st then inr EkOverflow
                  else inl (mkEk r' (ek_max_flow st + path_flow) (S (ek_round st)))
              end
          end
    end.

(** The copy of the capacity matrix the loop starts from. *)
Definition ek_initial (n : nat) (capacity : list (list Z)) : list (list Z) :=
  map (fun i => map (fun j => mat_get capacity i j) (seq 0 n)) (seq 0 n).

(** The augmenting loop; [None] would be a run of more than [2 ^ 32]
    turns. *)
Definition ek_run (round_ok : nat -> bool) (g : Graph) (capacity : list (list Z))
    (source sink : nat) : option ek_result :=
  while_pow2 (ek_step round_ok g source sink) 32
    (mkEk (ek_initial (num_vertices g) capacity) 0 0).

(** [edmonds_karp_max_flow(g, capacity, source, sink)] on non-NULL
    arguments; [alloc_ok] tells whether [residual] and [parent] are
    allocated.  [None] is a run cut short by the fuel of a loop. *)
Definition edmonds_karp_max_flow (alloc_ok : bool) (round_ok : nat -> bool)
    (g : Graph) (capacity : list (list Z)) (source sink : nat) : option Z :=
  let n := num_vertices g in
  if (n <=? source)%nat || (n <=? sink)%nat || (source =? sink)%nat then Some (-1)
  else if negb alloc_ok then Some (-1)
  else
    match ek_run round_ok g capacity source sink with
    | Some (EkDone max_flow _) => Some max_flow
    | Some EkOverflow => Some (-1)
    | Some EkCut | None => None
    end.

(** The second search of [min_cut], without target. *)
Record mc_bfs_state : Type := mkMcBfs {
  mcb_reachable : list bool;
  mcb_queue : list nat;
  mcb_front : nat
}.

Definition mc_visit (residual : list (list Z)) (u : nat)
    (st : mc_bfs_state) (v : nat) : mc_bfs_state :=
  if negb (mcb_reachable st !!! v) && (0 <? mat_get residual u v)
  then mkMcBfs (<[v := true]> (mcb_reachable st)) (mcb_queue st ++ [v])
               (mcb_front st)
  else st.

Definition mc_bfs_step (g : Graph) (residual : list (list Z))
    (st : mc_bfs_state) : mc_bfs_state + mc_bfs_state :=
  if (mcb_front st <? length (mcb_queue st))%nat then
    let u := mcb_queue st !!! mcb_front st in
    inl (foldl (mc_visit residual u)
               (mkMcBfs (mcb_reachable st) (mcb_queue st) (S (mcb_front st)))
               (neighbors g u))
  else inr st.

(** The listing of the cut: [None] is a write past the [n * n] slots of
    [cut], which the C code does not test for. *)
Definition mc_cut_entry (capacity : list (list Z)) (reachable : list bool)
    (slots : Z) (u : nat) (cut : list Edge) (v : nat) : option (list Edge) :=
  if negb (reachable !!! v) && (0 <? mat_get capacity u v) then
    if slots <=? Z.of_nat (length cut) then None
    else Some (cut ++ [mkEdge (Z.to_nat (to_size_t (to_int (Z.of_nat u))))
                              (Z.to_nat (to_size_t (to_int (Z.of_nat v))))])
  else Some cut.

Definition mc_cut_vertex (g : Graph) (capacity : list (list Z))
    (reachable : list bool) (slots : Z) (cut : list Edge) (u : nat)
  : option (list Edge) :=
  if negb (reachable !!! u) then Some cut
  else for_each_opt (mc_cut_entry capacity reachable slots u) cut (neighbors g u).

Inductive mc_result : Type :=
  | McValue (value : Z) (cut : option (list Edge)) (ncut : nat)
  | McOutOfBounds.

(** [min_cut(g, capacity, source, sink, &cut, &ncut)] on non-NULL
    arguments: the returned value, [*out_cut] ([None] is NULL) and
    [*out_ncut].  [alloc_ok] and [round_ok] are as for
    [edmonds_karp_max_flow]; [late_ok] tells whether [reachable], the
    second [queue] and [cut] are allocated. *)
Definition min_cut (alloc_ok : bool) (round_ok : nat -> bool) (late_ok : bool)
    (g : Graph) (capacity : list (list Z)) (source sink : nat)
  : option mc_result :=
  let n := num_vertices g in
  if (n <=? source)%nat || (n <=? sink)%nat || (source =? sink)%nat
  then Some (McValue (-1) None 0)
  else if negb alloc_ok then Some (McValue (-1) None 0)
  else
    match ek_run round_ok g capacity source sink with
    | Some (EkDone max_flow residual) =>
        if negb late_ok then Some (McValue (-1) None 0)
        else
          match while_fuel (mc_bfs_step g residual) (S n)
                  (mkMcBfs (<[source := true]> (replicate n false)) [source] 0)
          with
          | None => None
          | Some b =>
              let slots :=
                to_size_t (Z.of_nat n * Z.of_nat n * sizeof_Edge) / sizeof_Edge in
              match for_each_opt (mc_cut_vertex g capacity (mcb_reachable b) slots)
                      [] (seq 0 n) with
              | None => Some McOutOfBounds
              | Some cut => Some (McValue max_flow (Some cut) (length cut))
              end
          end
    | Some EkOverflow => Some (McValue (-1) None 0)
    | Some EkCut | None => None
    end.

(** *** Notions for the flow proofs *)

(** An adjacency entry with residual capacity left. *)
Definition redge (g : Graph) (r : list (list Z)) (u v : nat) : Prop :=
  edge g u v /\ 0 < mat_get r u v.

(** Capacities the loop can work with: an [n x n] matrix of non-negative
    values in which the two directions of a pair do not add up beyond
    [INT_MAX]. *)
Definition capacity_ok (n : nat) (c : list (list Z)) : Prop :=
  length c = n /\
  (forall i, (i < n)%nat -> length (c !!! i) = n) /\
  (forall i j, (i < n)%nat -> (j < n)%nat -> 0 <= mat_get c i j) /\
  (forall i j, (i < n)%nat -> (j < n)%nat -> i <> j ->
     mat_get c i j + mat_get c j i <= INT_MAX).

(** A residual matrix of the capacities [c]: entries stay non-negative
    and each pair keeps its sum. *)
Definition residual_ok (n : nat) (c r : list (list Z)) : Prop :=
  length r = n /\
  (forall i, (i < n)%nat -> length (r !!! i) = n) /\
  (forall i j, (i < n)%nat -> (j < n)%nat -> 0 <= mat_get r i j) /\
  (forall i j, (i < n)%nat -> (j < n)%nat ->
     mat_get r i j + mat_get r j i = mat_get c i j + mat_get c j i).

(** Position of [v] in the queue, the length of the queue for a vertex
    that is not in it. *)
Definition position (q : list nat) (v : nat) : nat :=
  match list_find (fun x => x = v) q with
  | Some (i, _) => i
  | None => length q
  end.

(** The vertices met from [v] along the parent pointers, [source]
    excluded. *)
Fixpoint is_chain (parent : list Z) (source : nat) (v : nat) (c : list nat)
  : Prop :=
  match c with
  | [] => v = source
  | w :: c' => w = v /\ v <> source /\ is_chain parent source (parent_of parent v) c'
  end.

(** State of the search for an augmenting path while the entries [rest]
    of the dequeued vertex are still to be treated. *)
Definition ek_bfs_inv (g : Graph) (r : list (list Z)) (source sink : nat)
    (rest : list nat) (st : ek_bfs_state) : Prop :=
  let n := num_vertices g in
  let q := ekb_queue st in
  length (ekb_visited st) = n /\ length (ekb_parent st) = n /\
  (ekb_front st <= length q)%nat /\
  NoDup q /\ (forall v, v ∈ q -> (v < n)%nat) /\
  q !! 0%nat = Some source /\
  (forall v, (v < n)%nat -> (ekb_visited st !!! v = true <-> v ∈ q)) /\
  (sink ∉ q) /\
  (forall j v, q !! j = Some v -> (0 < j)%nat ->
     exists i u, (i < j)%nat /\ (i < ekb_front st)%nat /\ q !! i = Some u /\
                 redge g r u v /\ ekb_parent st !!! v = Z.of_nat u) /\
  (ekb_found st = false ->
     forall i u v, (i < ekb_front st)%nat -> q !! i = Some u -> redge g r u v ->
       v ∈ q \/ (S i = ekb_front st /\ v ∈ rest)) /\
  (ekb_found st = true ->
     exists i u, (i < ekb_front st)%nat /\ q !! i = Some u /\
                 redge g r u sink /\ ekb_parent st !!! sink = Z.of_nat u).

(** State of the second search of [min_cut]. *)
Definition mc_bfs_inv (g : Graph) (r : list (list Z)) (source : nat)
    (rest : list nat) (st : mc_bfs_state) : Prop :=
  let n := num_vertices g in
  let q := mcb_queue st in
  length (mcb_reachable st) = n /\
  (mcb_front st <= length q)%nat /\
  NoDup q /\ (forall v, v ∈ q -> (v < n)%nat) /\
  q !! 0%nat = Some source /\
  (forall v, (v < n)%nat -> (mcb_reachable st !!! v = true <-> v ∈ q)) /\
  (forall j v, q !! j = Some v -> (0 < j)%nat ->
     exists i u, (i < j)%nat /\ q !! i = Some u /\ redge g r u v) /\
  (forall i u v, (i < mcb_front st)%nat -> q !! i = Some u -> redge g r u v ->
     v ∈ q \/ (S i = mcb_front st /\ v ∈ rest)).

(** The entries the cut of [min_cut] is to list, in the order of the
    loops: from a vertex on the source side to a vertex on the other
    side, with capacity. *)
Definition cut_entries (g : Graph) (capacity : list (list Z))
    (side : nat -> bool) : list Edge :=
  map (fun p => mkEdge p.1 p.2)
      (filter (fun p => side p.1 = true /\ side p.2 = false /\
                        0 < mat_get capacity p.1 p.2)
              (entry_pairs g (seq 0 (num_vertices g)))).

(** Along a chain the positions go down. *)
Definition chain_desc (q : list nat) (parent : list Z) (c : list nat) : Prop :=
  Forall (fun w => (position q (parent_of parent w) < position q w)%nat) c.

(** The bottleneck of a chain, as the first walk computes it. *)
Definition chain_min (r : list (list Z)) (parent : list Z) (pf : Z)
    (c : list nat) : Z :=
  foldl (fun pf w =>
           if mat_get r (parent_of parent w) w <? pf
           then mat_get r (parent_of parent w) w else pf) pf c.

(** Net flow out of [x] as the residual matrix records it: capacity used
    on the pairs leaving [x], minus what came back. *)
Definition net_out (n : nat) (cap r : list (list Z)) (x : nat) : Z :=
  foldr Z.add 0 (map (fun j => mat_get cap x j - mat_get r x j) (seq 0 n)).

(** A flow of value [f] from [source] to [sink] read off a residual
    matrix: nothing is lost at the other vertices. *)
Definition flow_balance (n : nat) (cap r : list (list Z)) (source sink : nat)
    (f : Z) : Prop :=
  forall x, (x < n)%nat ->
    net_out n cap r x =
      if decide (x = source) then f else if decide (x = sink) then - f else 0.

(** A network on the graph 0->1, 1->2, 0->2: every entry with capacity
    1. *)
Definition cap_dag3 : list (list Z) := [[0; 1; 1]; [0; 0; 1]; [0; 0; 0]].

(** Eight vertices, directed, unit capacities on the entries: the paths
    0->1->2->3 (the shortest), 0->4->5->2 and 1->6->7->3.  [g_net8m] has
    the same entries and, besides, the reverse of each one, with
    capacity 0. *)
Definition g_net8 : Graph :=
  {| adj := [[1; 4]; [2; 6]; [3]; []; [5]; [2]; [7]; [3]]%nat;
     adj_size := [2; 2; 1; 0; 1; 1; 1; 1]%nat;
     num_vertices := 8; directed := true |}.

Definition g_net8m : Graph :=
  {| adj := [[1; 4]; [2; 6; 0]; [3; 1; 5]; [2; 7]; [5; 0]; [2; 4]; [7; 1]; [3; 6]]%nat;
     adj_size := [2; 3; 3; 2; 2; 2; 2; 2]%nat;
     num_vertices := 8; directed := true |}.

Definition cap_net8 : list (list Z) :=
  [[0; 1; 0; 0; 1; 0; 0; 0];
   [0; 0; 1; 0; 0; 0; 1; 0];
   [0; 0; 0; 1; 0; 0; 0; 0];
   [0; 0; 0; 0; 0; 0; 0; 0];
   [0; 0; 0; 0; 0; 1; 0; 0];
   [0; 0; 1; 0; 0; 0; 0; 0];
   [0; 0; 0; 0; 0; 0; 0; 1];
   [0; 0; 0; 1; 0; 0; 0; 0]].


(** ** Depth-first search (the iterative [dfs])

    The stack index [top] is a [size_t]: the loop test [top >= 0] holds
    whatever its value, so the only ways out of the loop are the
    accesses to [stack] themselves.  The model keeps the live part
    [stack[0 .. top]] of the array, top first; with the live part empty
    [top] is [SIZE_MAX]. *)

Inductive dfs_result : Type :=
  | DfsNull                       (* [return NULL] *)
  | DfsPath (path : list (option Z))   (* [return path] *)
  | DfsOutOfBounds.               (* an access outside [stack[0 .. n-1]] *)

Record dfs_state : Type := mkDfs {
  dfs_visited : list bool;
  dfs_stack : list Z;
  dfs_path : list Z
}.

(** Body of the loop over the entries of the visited vertex;
    [stack[++top] = neigh] with the [n] slots in use is [None]. *)
Definition dfs_push (n : nat) (st : dfs_state) (x : nat) : option dfs_state :=
  let neigh := to_int (Z.of_nat x) in
  if Z.of_nat n <=? to_size_t neigh then Some st
  else if (dfs_visited st !!! Z.to_nat neigh : bool) then Some st
  else if (n <=? length (dfs_stack st))%nat then None
  else Some (mkDfs (dfs_visited st) (neigh :: dfs_stack st) (dfs_path st)).

(** One turn of [while (top >= 0)]: there is no way out but an access
    outside the array. *)
Definition dfs_step (g : Graph) (st : dfs_state) : dfs_state + dfs_result :=
  let n := num_vertices g in
  match dfs_stack st with
  | [] => inr DfsOutOfBounds                  (* reads [stack[SIZE_MAX]] *)
  | v :: rest =>
      let st1 := mkDfs (dfs_visited st) rest (dfs_path st) in
      if Z.of_nat n <=? to_size_t v then inl st1
      else if (dfs_visited st !!! Z.to_nat v : bool) then inl st1
      else
        match for_each_opt (dfs_push n)
                (mkDfs (<[Z.to_nat v := true]> (dfs_visited st)) rest
                       (dfs_path st ++ [v]))
                (neighbors g (Z.to_nat v)) with
        | Some st2 => inl st2
        | None => inr DfsOutOfBounds
        end
  end.

(** [dfs(g, start)] on a non-NULL graph; [alloc_ok] tells whether the
    three allocations succeed.  [None] would be a run of the loop longer
    than [n + 2] turns plus one per adjacency entry. *)
Definition dfs (alloc_ok : bool) (g : Graph) (start : nat) : option dfs_result :=
  let n := num_vertices g in
  if (n <=? start)%nat then Some DfsNull
  else if (n =? 0)%nat || (SIZE_MAX / sizeof_int <? Z.of_nat n) then Some DfsNull
  else if negb alloc_ok then Some DfsNull
  else
    while_fuel (dfs_step g) (S (S (n + length (all_entries g))))
      (mkDfs (replicate n false) [to_int (Z.of_nat start)] []).

(** What is left to do: the stacked entries, and for every vertex not
    yet visited its own turn and its entries. *)
Definition dfs_todo (g : Graph) (st : dfs_state) : Z :=
  Z.of_nat (length (dfs_stack st)) +
  foldr Z.add 0
    (map (fun u => if (dfs_visited st !!! u : bool) then 0
                   else 1 + Z.of_nat (length (neighbors g u)))
         (seq 0 (num_vertices g))).

(** ** Cycle detection (undirected graphs)

    [has_cycle_util] is recursive; [depth] bounds the nesting of its
    calls and [None] is a chain of calls longer than that.  The result
    is the returned [bool] and the [visited] array as the call leaves
    it.  [parent] is a [size_t], [SIZE_MAX] for "none". *)

(** The loop over the entries of [u]; [rec v visited] is the nested call
    [has_cycle_util(g, v, visited, u)]. *)
Fixpoint hc_entries (rec : nat -> list bool -> option (bool * list bool))
    (n : nat) (parent : Z) (l : list nat) (visited : list bool)
  : option (bool * list bool) :=
  match l with
  | [] => Some (false, visited)
  | v :: l' =>
      if (n <=? v)%nat then hc_entries rec n parent l' visited
      else if negb (visited !!! v) then
        match rec v visited with
        | None => None
        | Some (true, visited') => Some (true, visited')
        | Some (false, visited') => hc_entries rec n parent l' visited'
        end
      else if negb (Z.of_nat v =? parent) then Some (true, visited)
      else hc_entries rec n parent l' visited
  end.

Fixpoint has_cycle_util (depth : nat) (g : Graph) (u : nat) (parent : Z)
    (visited : list bool) : option (bool * list bool) :=
  match depth with
  | O => None
  | S d =>
      if (num_vertices g <=? u)%nat then Some (false, visited)
      else
        hc_entries (fun v vis => has_cycle_util d g v (Z.of_nat u) vis)
          (num_vertices g) parent (neighbors g u) (<[u := true]> visited)
  end.

(** The loop of [has_cycle] over the vertices [vs]. *)
Fixpoint hc_roots (g : Graph) (vs : list nat) (visited : list bool)
  : option bool :=
  match vs with
  | [] => Some false
  | v :: vs' =>
      if negb (visited !!! v) then
        match has_cycle_util (num_vertices g) g v SIZE_MAX visited with
        | None => None
        | Some (true, _) => Some true
        | Some (false, visited') => hc_roots g vs' visited'
        end
      else hc_roots g vs' visited
  end.

(** [has_cycle(g)] on a non-NULL graph; [alloc_ok] tells whether
    [visited] is allocated. *)
Definition has_cycle (alloc_ok : bool) (g : Graph) : option bool :=
  let n := num_vertices g in
  if (n =? 0)%nat then Some false
  else if SIZE_MAX / 1 <? Z.of_nat n then Some false
  else if negb alloc_ok then Some false
  else hc_roots g (seq 0 n) (replicate n false).

(** A simple undirected graph as the store holds it: entries in range
    and mirrored, no entry from a vertex to itself, no entry twice. *)
Definition simple_graph (g : Graph) : Prop :=
  valid_adjacency g /\ mirrored g /\
  (forall u, (u < num_vertices g)%nat -> u ∉ neighbors g u) /\
  (forall u, (u < num_vertices g)%nat -> NoDup (neighbors g u)).

(** A cycle: at least three different vertices, each joined to the next
    and the last to the first. *)
Definition simple_cycle (g : Graph) (c : list nat) : Prop :=
  (3 <= length c)%nat /\ NoDup c /\
  (forall i a b, c !! i = Some a -> c !! S i = Some b -> edge g a b) /\
  (exists a b, last c = Some a /\ head c = Some b /\ edge g a b).

Definition has_simple_cycle (g : Graph) : Prop := exists c, simple_cycle g c.

(** Every visited vertex that is not on the chain of calls has all its
    neighbours visited. *)
Definition hc_closed (g : Graph) (visited : list bool) (stack : list nat)
  : Prop :=
  forall w x, (w < num_vertices g)%nat -> visited !!! w = true -> w ∉ stack ->
    x ∈ neighbors g w -> visited !!! x = true.

(** What a call of [has_cycle_util] for [u] may rely on: [stack] is the
    chain of calls above it, a path of the graph that ends at the
    parent. *)
Definition hc_pre (g : Graph) (u : nat) (parent : Z) (visited : list bool)
    (stack : list nat) : Prop :=
  (u < num_vertices g)%nat /\ visited !!! u = false /\
  length visited = num_vertices g /\
  NoDup stack /\
  (forall w, w ∈ stack -> (w < num_vertices g)%nat /\ visited !!! w = true) /\
  (forall i a b, stack !! i = Some a -> stack !! S i = Some b -> edge g a b) /\
  match last stack with
  | None => parent = SIZE_MAX
  | Some pk => parent = Z.of_nat pk /\ edge g pk u
  end /\
  hc_closed g visited stack.

(** The vertices a search visits, in the order of their visits, each with
    the parent it was called with: every vertex but the first has its
    parent before it, and every neighbour of a vertex is its parent or
    comes after it. *)
Definition hc_tree (g : Graph) (visited : list bool) (tree : list (nat * Z))
    (visited' : list bool) : Prop :=
  length visited' = num_vertices g /\
  NoDup (tree.*1) /\
  (forall w, w ∈ tree.*1 -> (w < num_vertices g)%nat /\ visited !!! w = false) /\
  (forall x, (x < num_vertices g)%nat ->
     (visited' !!! x = true <-> visited !!! x = true \/ x ∈ tree.*1)) /\
  count_true visited' = (count_true visited + length tree)%nat /\
  (forall i w q, tree !! i = Some (w, q) -> (0 < i)%nat ->
     exists w', w' ∈ tree.*1 /\ q = Z.of_nat w') /\
  (forall i w q x, tree !! i = Some (w, q) -> (0 < i)%nat -> x ∈ neighbors g w ->
     Z.of_nat x = q \/ exists j, (i < j)%nat /\ tree.*1 !! j = Some x).

(** The same for the first vertex, once its entries [done] have been
    treated. *)
Definition hc_head (g : Graph) (u : nat) (parent : Z) (tree : list (nat * Z))
    (done : list nat) : Prop :=
  tree !! 0%nat = Some (u, parent) /\
  (forall x, x ∈ done -> Z.of_nat x = parent \/ x ∈ tree.*1) /\
  (forall i w, tree !! i = Some (w, Z.of_nat u) -> (0 < i)%nat -> w ∈ done).

(** The searches from the roots treated so far, one after the other. *)
Definition hc_forest (g : Graph) (tree : list (nat * Z)) (visited : list bool)
  : Prop :=
  length visited = num_vertices g /\
  NoDup (tree.*1) /\
  (forall x, x ∈ tree.*1 -> (x < num_vertices g)%nat) /\
  (forall x, (x < num_vertices g)%nat ->
     (visited !!! x = true <-> x ∈ tree.*1)) /\
  count_true visited = length tree /\
  (forall w q, (w, q) ∈ tree -> q = SIZE_MAX \/ exists w', w' ∈ tree.*1 /\ q = Z.of_nat w') /\
  (forall i w q x, tree !! i = Some (w, q) -> x ∈ neighbors g w ->
     Z.of_nat x = q \/ exists j, (i < j)%nat /\ tree.*1 !! j = Some x).


(** ** Eulerian path (Hierholzer)

    [hierholzer_eulerian_path] works on a private copy of the adjacency
    lists from which it removes the entries it follows.  The model keeps
    the live part [adj_copy[v][0 .. adj_size_copy[v] - 1]] of every
    list, the live part of [stack] (top first) and the live part of
    [circuit] (in array order).  [stack] has [n + 1] slots and
    [circuit] has [n * n + 1]. *)

Inductive hh_result : Type :=
  | HhFalse                                            (* [return false] *)
  | HhTrue (out_path : option (list Z)) (out_len : Z)  (* [return true] *)
  | HhOutOfBounds.               (* an access outside one of the arrays *)

Record hh_state : Type := mkHh {
  hh_adj : list (list nat);
  hh_stack : list nat;
  hh_circuit : list Z
}.

(** Step 1: the vertices counted in [odd_count], in the order of the
    loop; the first of them is [first_odd]. *)
Definition hh_odd (g : Graph) : list nat :=
  if directed g then []
  else filter (fun v => Nat.odd (adj_size g !!! v) = true)
         (seq 0 (num_vertices g)).

(** The start the search really uses. *)
Definition hh_start (g : Graph) (start : nat) : nat :=
  match hh_odd g with
  | [a; _] => a
  | _ => start
  end.

(** The loop that removes the entry on the other side: the first [v]
    of the list is overwritten with the last entry, which is dropped. *)
Definition hh_unlink (l : list nat) (v : nat) : list nat :=
  match list_find (fun x => x = v) l with
  | Some (i, _) =>
      take (pred (length l)) (<[i := l !!! pred (length l)]> l)
  | None => l
  end.

(** One turn of [while (stack_size > 0)]; the loop leaves with the
    circuit, or with an access outside an array. *)
Definition hh_step (g : Graph) (st : hh_state)
  : hh_state + option (list Z) :=
  let n := num_vertices g in
  match hh_stack st with
  | [] => inr (Some (hh_circuit st))
  | v :: below =>
      if (n <=? v)%nat then inr None
      else
        match last (hh_adj st !!! v) with
        | Some u =>
            let adj1 := <[v := removelast (hh_adj st !!! v)]> (hh_adj st) in
            if directed g then
              if (n + 1 <=? length (hh_stack st))%nat then inr None
              else inl (mkHh adj1 (u :: hh_stack st) (hh_circuit st))
            else if (n <=? u)%nat then inr None
            else
              let adj2 := <[u := hh_unlink (adj1 !!! u) v]> adj1 in
              if (n + 1 <=? length (hh_stack st))%nat then inr None
              else inl (mkHh adj2 (u :: hh_stack st) (hh_circuit st))
        | None =>
            if (n * n + 1 <=? length (hh_circuit st))%nat then inr None
            else inl (mkHh (hh_adj st) below
                        (hh_circuit st ++ [to_int (Z.of_nat v)]))
        end
  end.

(** [hierholzer_eulerian_path(g, start, &path, &len)] on a non-NULL
    graph; [alloc_ok] tells whether the copies, [stack] and [circuit]
    are allocated, [late_ok] whether [path] is.  [None] would be a run
    of the loop longer than two turns per adjacency entry (one that
    stacks a vertex, one that takes it off) and two more. *)
Definition hierholzer_eulerian_path (alloc_ok late_ok : bool) (g : Graph)
    (start : nat) : option hh_result :=
  let n := num_vertices g in
  if (n <=? start)%nat then Some HhFalse
  else
    let odd_count := length (hh_odd g) in
    if negb (directed g) && negb (odd_count =? 0)%nat
       && negb (odd_count =? 2)%nat then Some HhFalse
    else if negb alloc_ok then Some HhFalse
    else
      match while_fuel (hh_step g) (S (S (2 * length (all_entries g))))
              (mkHh (map (neighbors g) (seq 0 n)) [hh_start g start] []) with
      | None => None
      | Some None => Some HhOutOfBounds
      | Some (Some circuit) =>
          if (0 <? length circuit)%nat then
            if late_ok then
              Some (HhTrue (Some (reverse circuit)) (Z.of_nat (length circuit)))
            else Some HhFalse
          else Some (HhTrue None 0)
      end.

(** The consecutive pairs of a sequence of vertices. *)
Fixpoint steps (w : list nat) : list (nat * nat) :=
  match w with
  | x :: (y :: _) as w' => (x, y) :: steps w'
  | _ => []
  end.

(** An edge of an undirected graph, whichever way it is followed. *)
Definition ekey (p : nat * nat) : nat * nat :=
  (p.1 `min` p.2, p.1 `max` p.2)%nat.

(** [t] starts at [s], follows adjacency entries, follows no edge
    twice, and follows every edge that can be reached from [s]. *)
Definition euler_trail (g : Graph) (s : nat) (t : list nat) : Prop :=
  head t = Some s /\
  (forall a b, (a, b) ∈ steps t -> edge g a b) /\
  NoDup (ekey <$> steps t) /\
  (forall a b, rtc (edge g) s a -> b ∈ neighbors g a ->
     ekey (a, b) ∈ ekey <$> steps t).

(** The edges followed so far: the stack is [hi ++ lo]; the vertices
    popped so far, followed by [lo], form one walk, and [hi] with the
    first vertex of [lo] another one. *)
Definition hh_used (circ hi lo : list nat) : list (nat * nat) :=
  steps (circ ++ lo) ++ steps (hi ++ take 1 lo).

Definition hh_inv (g : Graph) (s0 e : nat) (st : hh_state) : Prop :=
  let n := num_vertices g in
  exists circ hi lo,
    hh_circuit st = (fun v => to_int (Z.of_nat v)) <$> circ /\
    hh_stack st = hi ++ lo /\ (lo = [] -> hi = []) /\
    length (hh_adj st) = n /\
    (forall v, (v < n)%nat -> NoDup (hh_adj st !!! v)) /\
    (forall v u, (v < n)%nat ->
       (u ∈ hh_adj st !!! v <->
        u ∈ neighbors g v /\ ekey (v, u) ∉ ekey <$> hh_used circ hi lo)) /\
    (forall a b, (a, b) ∈ hh_used circ hi lo -> edge g a b) /\
    NoDup (ekey <$> hh_used circ hi lo) /\
    (forall w, w ∈ circ -> (w < n)%nat /\ hh_adj st !!! w = []) /\
    (forall v, (v < n)%nat ->
       Nat.odd (length (hh_adj st !!! v)) =
       xorb (bool_decide ((match circ with [] => Some e | _ => head lo end)
                          = Some v))
            (bool_decide (head (hh_stack st) = Some v))) /\
    (forall v, v ∈ hh_stack st -> (v < n)%nat) /\
    last (circ ++ hh_stack st) = Some s0 /\
    (2 * (length (hh_stack st) + length circ) + length (concat (hh_adj st))
     = length (all_entries g) + 2)%nat.

(** The bow tie: two triangles that share vertex 0. *)
Definition g_bowtie : Graph :=
  {| adj := [[1; 2; 3; 4]; [0; 2]; [0; 1]; [0; 4]; [0; 3]]%nat;
     adj_size := [4; 2; 2; 2; 2]%nat;
     num_vertices := 5; directed := false |}.

(** Directed, the entries 0->1 and 0->2. *)
Definition g_fork : Graph :=
  {| adj := [[1; 2]; []; []]%nat; adj_size := [2; 0; 0]%nat;
     num_vertices := 3; directed := true |}.


(** ** Bridges and articulation points

    The nested function [dfs] of [detect_bridges_articulations] works on
    the arrays of the enclosing call; the model passes them along as one
    state.  [ba_time] is the counter behind the pointer [time].  Both
    [time] and [children] count vertices.  The result of a call is
    [None] when the calls nest deeper than [depth], [Some None] when the
    call reads [visited] or writes [bridges] outside the array, and
    [Some (Some st)] when it returns. *)

Record ba_state : Type := mkBa {
  ba_visited : list bool;
  ba_num : list Z;            (* dfs_num *)
  ba_low : list Z;            (* dfs_low *)
  ba_parent : list Z;
  ba_artic : list bool;       (* is_artic *)
  ba_bridges : list Edge;     (* bridges[0 .. nbridges - 1] *)
  ba_time : Z
}.

Definition ba_set_parent (st : ba_state) (v : nat) (p : Z) : ba_state :=
  mkBa (ba_visited st) (ba_num st) (ba_low st) (<[v := p]> (ba_parent st))
       (ba_artic st) (ba_bridges st) (ba_time st).

Definition ba_set_low (st : ba_state) (u : nat) (x : Z) : ba_state :=
  mkBa (ba_visited st) (ba_num st) (<[u := x]> (ba_low st)) (ba_parent st)
       (ba_artic st) (ba_bridges st) (ba_time st).

Definition ba_set_artic (st : ba_state) (u : nat) : ba_state :=
  mkBa (ba_visited st) (ba_num st) (ba_low st) (ba_parent st)
       (<[u := true]> (ba_artic st)) (ba_bridges st) (ba_time st).

Definition ba_add_bridge (st : ba_state) (e : Edge) : ba_state :=
  mkBa (ba_visited st) (ba_num st) (ba_low st) (ba_parent st)
       (ba_artic st) (ba_bridges st ++ [e]) (ba_time st).

(** [visited[u] = true], then [dfs_num[u]] and [dfs_low[u]] take the
    counter, which is incremented. *)
Definition ba_enter (st : ba_state) (u : nat) : ba_state :=
  mkBa (<[u := true]> (ba_visited st)) (<[u := ba_time st]> (ba_num st))
       (<[u := ba_time st]> (ba_low st)) (ba_parent st) (ba_artic st)
       (ba_bridges st) (ba_time st + 1).

(** The state in which the loop of [v] starts, [top] being the parent
    written by the caller. *)
Definition ba_begin (st : ba_state) (v : nat) (top : Z) : ba_state :=
  ba_enter (ba_set_parent st v top) v.

(** What follows the nested call for the child [v] of [u]. *)
Definition ba_after_child (n : nat) (u v : nat) (st : ba_state)
  : option ba_state :=
  let st1 :=
    if ba_low st !!! v <? ba_low st !!! u
    then ba_set_low st u (ba_low st !!! v) else st in
  let st2 :=
    if ba_num st1 !!! u <? ba_low st1 !!! v then
      if (n * n <=? length (ba_bridges st1))%nat then None
      else Some (ba_add_bridge st1 (mkEdge u v))
    else Some st1 in
  match st2 with
  | None => None
  | Some st3 =>
      Some (if negb (ba_parent st3 !!! u =? -1)
               && (ba_num st3 !!! u <=? ba_low st3 !!! v)
            then ba_set_artic st3 u else st3)
  end.

(** The loop over the entries of [u]; [rec v st] is the nested call
    [dfs(v, time)]. *)
Fixpoint ba_entries (rec : nat -> ba_state -> option (option ba_state))
    (n : nat) (u : nat) (l : list nat) (children : Z) (st : ba_state)
  : option (option (ba_state * Z)) :=
  match l with
  | [] => Some (Some (st, children))
  | v :: l' =>
      if (n <=? v)%nat then Some None
      else if negb (ba_visited st !!! v) then
        match rec v (ba_set_parent st v (to_int (Z.of_nat u))) with
        | None => None
        | Some None => Some None
        | Some (Some st1) =>
            match ba_after_child n u v st1 with
            | None => Some None
            | Some st2 => ba_entries rec n u l' (children + 1) st2
            end
        end
      else if negb (to_size_t (ba_parent st !!! u) =? Z.of_nat v) then
        ba_entries rec n u l' children
          (if ba_num st !!! v <? ba_low st !!! u
           then ba_set_low st u (ba_num st !!! v) else st)
      else ba_entries rec n u l' children st
  end.

Fixpoint ba_dfs (depth : nat) (g : Graph) (u : nat) (st : ba_state)
  : option (option ba_state) :=
  match depth with
  | O => None
  | S d =>
      match ba_entries (ba_dfs d g) (num_vertices g) u (neighbors g u) 0
              (ba_enter st u) with
      | None => None
      | Some None => Some None
      | Some (Some (st1, children)) =>
          Some (Some (if (ba_parent st1 !!! u =? -1) && (1 <? children)
                      then ba_set_artic st1 u else st1))
      end
  end.

(** The loop over the roots: every call starts from [time], which
    stays 0. *)
Fixpoint ba_roots (g : Graph) (us : list nat) (st : ba_state)
  : option (option ba_state) :=
  match us with
  | [] => Some (Some st)
  | u :: us' =>
      if negb (ba_visited st !!! u) then
        match ba_dfs (num_vertices g) g u
                (mkBa (ba_visited st) (ba_num st) (ba_low st) (ba_parent st)
                      (ba_artic st) (ba_bridges st) 0) with
        | None => None
        | Some None => Some None
        | Some (Some st1) => ba_roots g us' st1
        end
      else ba_roots g us' st
  end.

Inductive ba_result : Type :=
  | BaError                                  (* [return -1] *)
  | BaOk (out_bridges : option (list Edge)) (out_nbridges : nat)
         (out_artics : option (list nat)) (out_nartics : nat)  (* [return 0] *)
  | BaOutOfBounds.

(** [detect_bridges_articulations(g, &bridges, &nbridges, &artics,
    &nartics)] on a non-NULL graph; [alloc_ok] tells whether the seven
    work arrays are allocated, [late_bridges] and [late_artics] whether
    the two result arrays are. *)
Definition detect_bridges_articulations
    (alloc_ok late_bridges late_artics : bool) (g : Graph)
  : option ba_result :=
  let n := num_vertices g in
  if directed g then Some BaError
  else if (n =? 0)%nat then Some (BaOk None 0 None 0)
  else if negb alloc_ok then Some BaError
  else
    match ba_roots g (seq 0 n)
            (mkBa (replicate n false) (replicate n (-1)) (replicate n (-1))
                  (replicate n (-1)) (replicate n false) [] 0) with
    | None => None
    | Some None => Some BaOutOfBounds
    | Some (Some st) =>
        let bridges := ba_bridges st in
        let artics :=
          filter (fun i => ba_artic st !!! i = true) (seq 0 n) in
        if (0 <? length bridges)%nat && negb late_bridges then Some BaError
        else if (0 <? length artics)%nat && negb late_artics
        then Some BaError
        else
          Some (BaOk (if (0 <? length bridges)%nat then Some bridges else None)
                     (length bridges)
                     (if (0 <? length artics)%nat then Some artics else None)
                     (length artics))
    end.

(** *** What the search computes

    [ba_up st z p]: [p] is the parent of [z]; [ba_desc st x z]: [z] is
    [x] or lies below [x] in the forest of the parent pointers. *)
Definition ba_up (n : nat) (st : ba_state) (z p : nat) : Prop :=
  (z < n)%nat /\ ba_parent st !!! z = Z.of_nat p.

Definition ba_desc (n : nat) (st : ba_state) (x z : nat) : Prop :=
  rtc (ba_up n st) z x.

Definition ba_shape (n : nat) (st : ba_state) : Prop :=
  length (ba_visited st) = n /\ length (ba_num st) = n /\
  length (ba_low st) = n /\ length (ba_parent st) = n /\
  length (ba_artic st) = n.

(** The calls in progress, outermost first: each was started from the
    one before it. *)
Fixpoint ba_chain (st : ba_state) (p : Z) (open : list nat) : Prop :=
  match open with
  | [] => True
  | s :: rest => ba_parent st !!! s = p /\ ba_chain st (Z.of_nat s) rest
  end.

Definition ba_top (open : list nat) : Z :=
  match last open with
  | Some s => Z.of_nat s
  | None => -1
  end.

Definition ba_started (st : ba_state) (open : list nat) (v : nat) : ba_state :=
  ba_begin st v (ba_top open).

(** [dfs_low[u]] once the entries [done] of [u] have been treated: the
    least [dfs_num] among the vertices below [u] and the ends of their
    entries, the entry to the parent left out. *)
Definition ba_low_part (g : Graph) (st : ba_state) (u : nat)
    (done : list nat) : Prop :=
  let n := num_vertices g in
  (forall z, ba_desc n st u z ->
     ba_low st !!! u <= ba_num st !!! z /\
     forall y, y ∈ neighbors g z -> z <> u \/ y ∈ done ->
       ~ ba_up n st z y -> ba_low st !!! u <= ba_num st !!! y) /\
  (exists z, ba_desc n st u z /\
     (ba_low st !!! u = ba_num st !!! z \/
      exists y, y ∈ neighbors g z /\ (z <> u \/ y ∈ done) /\
        ~ ba_up n st z y /\ ba_low st !!! u = ba_num st !!! y)).

Definition ba_low_ok (g : Graph) (st : ba_state) (x : nat) : Prop :=
  ba_low_part g st x (neighbors g x).

(** [is_artic[u]] while the loop of [u] runs, and when [u] returns. *)
Definition ba_artic_part (n : nat) (st : ba_state) (u : nat)
    (done : list nat) : Prop :=
  ba_artic st !!! u = true <->
  ba_parent st !!! u <> -1 /\
  exists v, v ∈ done /\ ba_up n st v u /\ ba_num st !!! u <= ba_low st !!! v.

Definition ba_artic_ok (n : nat) (st : ba_state) (x : nat) : Prop :=
  ba_artic st !!! x = true <->
  (ba_parent st !!! x <> -1 /\
   exists v, ba_up n st v x /\ ba_num st !!! x <= ba_low st !!! v) \/
  (ba_parent st !!! x = -1 /\
   exists v1 v2, v1 <> v2 /\ ba_up n st v1 x /\ ba_up n st v2 x).

(** The state between two steps of the search: [open] are the calls in
    progress, [unacc] the vertices whose edge to the parent has not been
    examined yet. *)
Definition ba_inv (g : Graph) (st : ba_state) (open unacc : list nat)
  : Prop :=
  let n := num_vertices g in
  ba_shape n st /\
  0 <= ba_time st /\
  (forall x, (x < n)%nat ->
     ba_parent st !!! x = -1 \/ exists p, ba_parent st !!! x = Z.of_nat p) /\
  (forall x, (x < n)%nat -> ba_visited st !!! x = false ->
     ba_parent st !!! x = -1 /\ ba_artic st !!! x = false) /\
  (forall x, (x < n)%nat -> ba_visited st !!! x = true ->
     0 <= ba_num st !!! x) /\
  (forall z p, ba_up n st z p ->
     (p < n)%nat /\ ba_visited st !!! p = true /\ z ∈ neighbors g p /\
     ba_num st !!! p < ba_num st !!! z) /\
  (forall z y, (z < n)%nat -> ba_visited st !!! z = true ->
     ba_visited st !!! y = true -> y ∈ neighbors g z ->
     ba_desc n st y z \/ ba_desc n st z y) /\
  NoDup open /\
  (forall s, s ∈ open ->
     (s < n)%nat /\ ba_visited st !!! s = true /\
     ba_num st !!! s < ba_time st) /\
  ba_chain st (-1) open /\
  (forall w x, (w < n)%nat -> ba_visited st !!! w = true -> (w ∉ open) ->
     x ∈ neighbors g w -> ba_visited st !!! x = true) /\
  (forall x, (x < n)%nat -> ba_visited st !!! x = true -> (x ∉ open) ->
     ba_low_ok g st x) /\
  (forall x, (x < n)%nat -> ba_visited st !!! x = true -> (x ∉ open) ->
     ba_artic_ok n st x) /\
  (forall a b, mkEdge a b ∈ ba_bridges st <->
     (b < n)%nat /\ ba_visited st !!! b = true /\ (b ∉ unacc) /\
     ba_up n st b a /\ ba_num st !!! a < ba_low st !!! b) /\
  NoDup (v2 <$> ba_bridges st).

(** What a call for [u] leaves of the state [st] it was started in. *)
Definition ba_frame (n : nat) (st st' : ba_state) : Prop :=
  forall x, (x < n)%nat -> ba_visited st !!! x = true ->
    ba_visited st' !!! x = true /\
    ba_num st' !!! x = ba_num st !!! x /\
    ba_low st' !!! x = ba_low st !!! x /\
    ba_parent st' !!! x = ba_parent st !!! x /\
    ba_artic st' !!! x = ba_artic st !!! x.

Definition ba_post (g : Graph) (open : list nat) (u : nat)
    (st st' : ba_state) : Prop :=
  let n := num_vertices g in
  ba_inv g st' open (open ++ [u]) /\
  ba_visited st' !!! u = true /\
  ba_parent st' !!! u = ba_top open /\
  ba_frame n st st' /\
  (forall z, (z < n)%nat -> ba_visited st' !!! z = true ->
     ba_visited st !!! z = false ->
     ba_desc n st' u z /\ ba_time st <= ba_num st' !!! z) /\
  ba_time st < ba_time st' /\
  (count_true (ba_visited st) < count_true (ba_visited st'))%nat.

(** Between two entries of [u], [done] being treated. *)
Definition ba_loop_inv (g : Graph) (open : list nat) (u : nat)
    (st0 : ba_state) (done : list nat) (children : Z) (st : ba_state)
  : Prop :=
  let n := num_vertices g in
  ba_inv g st (open ++ [u]) (open ++ [u]) /\
  ba_parent st !!! u = ba_top open /\
  ba_visited st0 !!! u = false /\
  ba_low_part g st u done /\
  ba_artic_part n st u done /\
  children
  = Z.of_nat (length (filter (fun y => ba_parent st !!! y = Z.of_nat u) done)) /\
  (forall y, y ∈ done -> ba_visited st !!! y = true) /\
  (forall y, ba_up n st y u -> y ∈ done) /\
  ba_frame n st0 st /\
  (forall z, (z < n)%nat -> ba_visited st !!! z = true ->
     ba_visited st0 !!! z = false ->
     ba_desc n st u z /\ ba_time st0 <= ba_num st !!! z) /\
  ba_time st0 < ba_time st /\
  (count_true (ba_visited st0) < count_true (ba_visited st))%nat.

(** *** Bridges and cut vertices of a graph *)

(** The entries of the graph but the two between [a] and [b]. *)
Definition edge_without (g : Graph) (a b : nat) (x y : nat) : Prop :=
  edge g x y /\ ~ (x = a /\ y = b) /\ ~ (x = b /\ y = a).

(** The entries of the graph that do not touch [w]. *)
Definition edge_avoiding (g : Graph) (w : nat) (x y : nat) : Prop :=
  edge g x y /\ x <> w /\ y <> w.

Definition is_bridge (g : Graph) (a b : nat) : Prop :=
  edge g a b /\ ~ rtc (edge_without g a b) a b.

Definition is_cut_vertex (g : Graph) (w : nat) : Prop :=
  exists a b, a <> w /\ b <> w /\ rtc (edge g) a b /\
    ~ rtc (edge_avoiding g w) a b.


(** ** Shortest paths with the path requested

    The calls of the three routines with [out_path] and [out_len] given.
    A result is the returned [int] with what is left in [*out_path]
    ([None] for NULL) and in [*out_len], or the report that an array is
    accessed outside its slots. *)

Inductive sp_result : Type :=
  | SpValue (ret : Z) (out_path : option (list Z)) (out_len : nat)
  | SpOutOfBounds.

(** The walk along [prev] from [v] back to [source], made twice by
    [dijkstra_shortest_path] and [bellman_ford_shortest_path]: once to
    count and once to fill the array.  The result lists the vertices
    met, [v] first.  [Some None]: [prev] is read outside its [n] slots.
    [None]: the walk is not over after [fuel] reads. *)
Fixpoint sp_back (fuel : nat) (prev : list Z) (n source : nat) (v : Z)
  : option (option (list Z)) :=
  if v =? Z.of_nat source then Some (Some [v])
  else
    match fuel with
    | O => None
    | S fuel' =>
        if Z.of_nat n <=? v then Some None
        else
          match sp_back fuel' prev n source (prev !!! Z.to_nat v) with
          | Some (Some l) => Some (Some (v :: l))
          | r => r
          end
    end.

(** The end of both routines: the array is filled from its last slot
    down, each vertex stored as [(int) v].  [path_ok] tells whether the
    array is allocated.  A walk of [n] reads that has not met [source]
    has met a vertex twice and goes on for ever. *)
Definition sp_reconstruct (path_ok : bool) (n source target : nat)
    (st : sp_state) : option sp_result :=
  let result := sp_dist st !!! target in
  if result =? INT_MAX then Some (SpValue result None 0)
  else
    match sp_back n (sp_prev st) n source (Z.of_nat target) with
    | None => None
    | Some None => Some SpOutOfBounds
    | Some (Some chain) =>
        if path_ok
        then Some (SpValue result (Some (to_int <$> reverse chain)) (length chain))
        else Some (SpValue result None 0)
    end.

Definition dijkstra_shortest_path_out (path_ok : bool) (g : Graph)
    (source target : nat) : option sp_result :=
  let n := num_vertices g in
  if (n <=? source)%nat || (n <=? target)%nat then Some (SpValue INT_MAX None 0)
  else
    let st0 := mkSp (<[source := 0]> (replicate n INT_MAX))
                    (replicate n false)
                    (replicate n SIZE_MAX) in
    sp_reconstruct path_ok n source target (dijkstra_loop g target n st0).

Definition bellman_ford_shortest_path_out (path_ok : bool) (g : Graph)
    (source target : nat) : option sp_result :=
  let n := num_vertices g in
  if (n <=? source)%nat || (n <=? target)%nat then Some (SpValue INT_MAX None 0)
  else
    let st0 := mkSp (<[source := 0]> (replicate n INT_MAX))
                    []
                    (replicate n SIZE_MAX) in
    sp_reconstruct path_ok n source target (bf_loop g (n - 1) st0).

(** [_reconstruct_floyd_path]: the loop that stores the vertices from
    [target] back in [tmp], with [room] slots of [tmp] left.  The result
    lists what is stored, [source] not yet among it. *)
Inductive fb_result : Type :=
  | FbDone (stored : list Z)
  | FbFalse
  | FbOutOfBounds.

Fixpoint fw_back (room : nat) (row : list Z) (n source : nat) (v : Z)
  : fb_result :=
  if v =? Z.of_nat source then FbDone []
  else
    match room with
    | O => FbFalse
    | S room' =>
        if Z.of_nat n <=? v then FbOutOfBounds
        else if row !!! Z.to_nat v =? SIZE_MAX then FbFalse
        else
          match fw_back room' row n source (row !!! Z.to_nat v) with
          | FbDone l => FbDone (to_int v :: l)
          | r => r
          end
    end.

Inductive rf_result : Type :=
  | RfTrue (out_path : list Z) (out_len : nat)
  | RfFalse
  | RfOutOfBounds.

(** [tmp_ok] and [path_ok] tell whether [tmp] and [path] are allocated.
    After the loop [source] is stored at [tmp[idx]] without a test of
    [idx]. *)
Definition _reconstruct_floyd_path (tmp_ok path_ok : bool) (n : nat)
    (data : FloydPathData) (source target : nat) : rf_result :=
  if (n <=? source)%nat || (n <=? target)%nat then RfFalse
  else if mat_get (fw_dist data) source target =? INT_MAX then RfFalse
  else if negb tmp_ok then RfFalse
  else
    match fw_back n (fw_pred data !!! source) n source (Z.of_nat target) with
    | FbFalse => RfFalse
    | FbOutOfBounds => RfOutOfBounds
    | FbDone l =>
        if (n <=? length l)%nat then RfOutOfBounds
        else
          let tmp := l ++ [to_int (Z.of_nat source)] in
          if path_ok then RfTrue (reverse tmp) (length tmp) else RfFalse
    end.

Definition floyd_warshall_shortest_path_out (tmp_ok path_ok : bool) (g : Graph)
    (source target : nat) : sp_result :=
  let n := num_vertices g in
  if (n <=? source)%nat || (n <=? target)%nat then SpValue INT_MAX None 0
  else
    let data := _floyd_warshall_all_pairs g in
    let dist := mat_get (fw_dist data) source target in
    if dist =? INT_MAX then SpValue dist None 0
    else
      match _reconstruct_floyd_path tmp_ok path_ok n data source target with
      | RfTrue p len => SpValue dist (Some p) len
      | RfFalse => SpValue dist None 0
      | RfOutOfBounds => SpOutOfBounds
      end.

(** *** What a returned path is *)

(** Every vertex of [p] has an entry for the next one. *)
Definition walk_along (g : Graph) (p : list nat) : Prop :=
  forall i a b, p !! i = Some a -> p !! S i = Some b -> edge g a b.

(** [p] leads from [source] to [target] along entries, and no walk from
    [source] to [target] has fewer entries. *)
Definition shortest_path (g : Graph) (source target : nat) (p : list nat) : Prop :=
  head p = Some source /\ last p = Some target /\ walk_along g p /\
  forall k, nsteps (edge g) k source target -> (length p <= S k)%nat.

(** *** Invariants of the predecessor arrays *)

(** [c] lists the vertices met from [v] back to [source] along [f],
    [v] first and [source] left out. *)
Fixpoint back_chain (f : list Z) (n source v : nat) (c : list nat) : Prop :=
  match c with
  | [] => v = source
  | x :: c' =>
      x = v /\ v <> source /\ (v < n)%nat /\
      exists u, f !!! v = Z.of_nat u /\ back_chain f n source u c'
  end.

(** [f] leads every reached vertex one entry back, to a vertex that is
    one nearer by the distances [dist]. *)
Definition back_step (g : Graph) (source : nat) (f dist : list Z) : Prop :=
  let n := num_vertices g in
  (forall v, (v < n)%nat -> 0 <= dist !!! v) /\
  forall v, (v < n)%nat -> v <> source -> dist !!! v <> INT_MAX ->
    exists u, (u < n)%nat /\ f !!! v = Z.of_nat u /\ edge g u v /\
      if decide (u = source) then dist !!! v = 1
      else dist !!! u <> INT_MAX /\ dist !!! v = dist !!! u + 1.

(** Dijkstra: the predecessor of a reached vertex is a visited vertex
    one nearer. *)
Definition dijkstra_prev_inv (g : Graph) (source : nat) (st : sp_state) : Prop :=
  let n := num_vertices g in
  length (sp_dist st) = n /\ length (sp_visited st) = n /\
  length (sp_prev st) = n /\
  forall v, (v < n)%nat -> v <> source -> sp_dist st !!! v <> INT_MAX ->
    exists u, (u < n)%nat /\ sp_prev st !!! v = Z.of_nat u /\ edge g u v /\
      sp_visited st !!! u = true /\ sp_dist st !!! v = sp_dist st !!! u + 1.

(** Bellman-Ford: the predecessor of a reached vertex is at least one
    nearer. *)
Definition bf_prev_inv (g : Graph) (source : nat) (st : sp_state) : Prop :=
  let n := num_vertices g in
  length (sp_dist st) = n /\ length (sp_prev st) = n /\
  forall v, (v < n)%nat -> v <> source -> sp_dist st !!! v <> INT_MAX ->
    exists u, (u < n)%nat /\ sp_prev st !!! v = Z.of_nat u /\ edge g u v /\
      sp_dist st !!! u + 1 <= sp_dist st !!! v.

(** Floyd-Warshall: behind a finite entry [(i, j)] off the diagonal
    there is a walk of that many entries whose last entry is the one of
    [pred[i][j]] for [j]. *)
Definition fw_pred_inv (g : Graph) (d : FloydPathData) : Prop :=
  let n := num_vertices g in
  fw_sound g (fw_dist d) /\
  length (fw_pred d) = n /\
  (forall i, (i < n)%nat -> length (fw_pred d !!! i) = n) /\
  forall i j, (i < n)%nat -> (j < n)%nat -> i <> j ->
    mat_get (fw_dist d) i j <> INT_MAX ->
    exists p, (p < n)%nat /\ mat_get (fw_pred d) i j = Z.of_nat p /\
      edge g p j /\
      nsteps (edge g) (Z.to_nat (mat_get (fw_dist d) i j) - 1)%nat i p.

(** * Properties of the graph store *)

Section store_arith.

Lemma to_size_t_small z : 0 <= z <= SIZE_MAX -> to_size_t z = z.
Proof.
  intros Hz. unfold to_size_t, SIZE_MAX in *. apply Z.mod_small. lia.
Qed.

Lemma checa_overflow_false a b :
  0 < a -> 0 <= b -> _checa_overflow a b = false -> a * b <= SIZE_MAX.
Proof.
  intros Ha Hb H. unfold _checa_overflow in H.
  apply andb_false_iff in H as [H|H].
  - apply Z.ltb_ge in H. lia.
  - apply Z.ltb_ge in H.
    pose proof (Z.mul_div_le SIZE_MAX a Ha). nia.
Qed.

Lemma checa_overflow_true a b :
  _checa_overflow a b = true -> SIZE_MAX < a * b.
Proof.
  unfold _checa_overflow. intros H.
  apply andb_true_iff in H as [Ha Hb].
  apply Z.ltb_lt in Ha, Hb.
  pose proof (Z.mod_pos_bound SIZE_MAX a Ha).
  pose proof (Z.div_mod SIZE_MAX a ltac:(lia)). nia.
Qed.

End store_arith.

(** ** Reading a state after a field update *)

Lemma neighbors_set_adj_ne g v buf x :
  x <> v -> neighbors (set_adj g v buf) x = neighbors g x.
Proof.
  intros Hx. unfold neighbors, set_adj; simpl.
  by rewrite list_lookup_total_insert_ne.
Qed.

Lemma neighbors_set_adj_size_ne g v k x :
  x <> v -> neighbors (set_adj_size g v k) x = neighbors g x.
Proof.
  intros Hx. unfold neighbors, set_adj_size; simpl.
  by rewrite list_lookup_total_insert_ne.
Qed.

Lemma neighbors_set_both g v buf k :
  (v < length (adj g))%nat -> (v < length (adj_size g))%nat ->
  neighbors (set_adj_size (set_adj g v buf) v k) v = take k buf.
Proof.
  intros H1 H2. unfold neighbors, set_adj_size, set_adj; simpl.
  by rewrite !list_lookup_total_insert_eq.
Qed.

Lemma wf_set_both g v buf k :
  wf_graph g -> (k <= length buf)%nat -> Z.of_nat k * sizeof_size_t <= SIZE_MAX ->
  wf_graph (set_adj_size (set_adj g v buf) v k).
Proof.
  intros [H0 H1 H2 H3 H4] Hk Hb. split; simpl.
  - done.
  - by rewrite length_insert.
  - by rewrite length_insert.
  - intros x Hx. destruct (decide (x = v)) as [->|Hne].
    + rewrite !list_lookup_total_insert_eq; lia.
    + rewrite !list_lookup_total_insert_ne by done. by apply H3.
  - intros x Hx. destruct (decide (x = v)) as [->|Hne].
    + rewrite !list_lookup_total_insert_eq; lia.
    + rewrite !list_lookup_total_insert_ne by done. by apply H4.
Qed.

(** ** One insertion *)

Lemma push_neighbor_inl ok g v w g' :
  wf_graph g -> (v < num_vertices g)%nat ->
  push_neighbor ok g v w = inl g' ->
  wf_graph g' /\ num_vertices g' = num_vertices g /\ directed g' = directed g /\
  adj_size g' !!! v = S (adj_size g !!! v) /\
  neighbors g' v = neighbors g v ++ [w] /\
  (forall x, x <> v -> neighbors g' x = neighbors g x) /\
  neighbors (set_adj_size g' v (pred (adj_size g' !!! v))) v = neighbors g v.
Proof.
  intros Hwf Hv. unfold push_neighbor.
  pose proof (wf_capacity g Hwf v Hv) as Hcap.
  pose proof (wf_bytes g Hwf v Hv) as Hby.
  pose proof (wf_adj_len g Hwf) as Hl1. pose proof (wf_size_len g Hwf) as Hl2.
  set (sz := adj_size g !!! v) in *.
  unfold sizeof_size_t in *.
  rewrite (to_size_t_small (Z.of_nat sz + 1)) by (unfold SIZE_MAX in *; lia).
  destruct (_checa_overflow _ _) eqn:Hov; [done|].
  apply checa_overflow_false in Hov; [|lia..].
  rewrite to_size_t_small by lia.
  unfold safe_realloc.
  destruct (Z.eqb_spec ((Z.of_nat sz + 1) * 8) 0) as [?|_]; [lia|].
  destruct ok; [|done]. intros [= <-].
  replace (Z.to_nat ((Z.of_nat sz + 1) * 8 / sizeof_size_t)) with (S sz)
    by (unfold sizeof_size_t; rewrite Z.div_mul by lia; lia).
  assert (Htk : take sz (<[sz:=w]> (resize (S sz) 0%nat (adj g !!! v)))
                = take sz (adj g !!! v)).
  { rewrite take_insert_ge by lia. rewrite take_resize_le by lia.
    by rewrite resize_le by lia. }
  split_and!.
  - apply wf_set_both; [done| |unfold sizeof_size_t; lia].
    rewrite length_insert, length_resize. lia.
  - done.
  - done.
  - simpl. rewrite list_lookup_total_insert_eq; [done|lia].
  - rewrite neighbors_set_both by lia.
    erewrite take_S_r.
    + by rewrite Htk.
    + apply list_lookup_insert_eq. rewrite length_resize. lia.
  - intros x Hx. by rewrite neighbors_set_adj_size_ne, neighbors_set_adj_ne.
  - unfold neighbors; simpl.
    rewrite !list_lookup_total_insert_eq by (rewrite ?length_insert; lia).
    simpl. done.
Qed.

Lemma push_neighbor_inr ok g v w e :
  push_neighbor ok g v w = inr e -> e = -3 \/ e = -4.
Proof.
  unfold push_neighbor. destruct (_checa_overflow _ _); [intros [= <-]; by left|].
  destruct (safe_realloc _ _ _); [done|]. intros [= <-]. by right.
Qed.

Lemma push_neighbor_ok g v w :
  wf_graph g -> (v < num_vertices g)%nat ->
  Z.of_nat (S (adj_size g !!! v)) * sizeof_size_t <= SIZE_MAX ->
  exists g', push_neighbor true g v w = inl g'.
Proof.
  intros Hwf Hv Hb. unfold push_neighbor.
  set (sz := adj_size g !!! v) in *. unfold sizeof_size_t in *.
  rewrite (to_size_t_small (Z.of_nat sz + 1)) by (unfold SIZE_MAX in *; lia).
  destruct (_checa_overflow _ _) eqn:Hov.
  { apply checa_overflow_true in Hov. lia. }
  rewrite to_size_t_small by lia. unfold safe_realloc.
  destruct (Z.eqb_spec ((Z.of_nat sz + 1) * 8) 0) as [?|_]; [lia|]. eauto.
Qed.

(** ** One removal *)

Lemma shift_left_spec c : forall buf j,
  (j + c < length buf)%nat ->
  shift_left buf j c = take j buf ++ take c (drop (S j) buf) ++ drop (j + c) buf.
Proof.
  induction c as [|c IH]; intros buf j Hlen; simpl.
  - rewrite Nat.add_0_r. by rewrite take_drop.
  - rewrite IH by (rewrite length_insert; lia).
    rewrite !drop_insert_lt by lia.
    assert (Hj : (S j < length buf)%nat) by lia.
    destruct (lookup_lt_is_Some_2 buf (S j) Hj) as [y Hy].
    rewrite (list_lookup_total_correct _ _ _ Hy).
    erewrite (take_S_r (<[j:=y]> buf) j y)
      by (apply list_lookup_insert_eq; lia).
    rewrite take_insert_ge by lia.
    rewrite (drop_S buf y (S j) Hy). simpl.
    rewrite <- !app_assoc. simpl.
    by replace (j + S c)%nat with (S (j + c)) by lia.
Qed.

Lemma remove_first_notin w l : w ∉ l -> remove_first w l = l.
Proof.
  intros Hn. unfold remove_first.
  destruct (list_find _ l) as [[i y]|] eqn:Hf; [|done].
  apply list_find_Some in Hf as (Hl & -> & _).
  exfalso. apply Hn. by eapply list_elem_of_lookup_2.
Qed.

Lemma remove_first_middle w l l' :
  w ∉ l -> remove_first w (l ++ w :: l') = l ++ l'.
Proof.
  intros Hn. unfold remove_first.
  destruct (list_find _ (l ++ w :: l')) as [[i y]|] eqn:Hf.
  - apply list_find_Some in Hf as (Hl & -> & Hmin).
    destruct (decide (i < length l)%nat) as [Hlt|Hge].
    + rewrite lookup_app_l in Hl by done.
      exfalso. apply Hn. by eapply list_elem_of_lookup_2.
    + destruct (decide (i = length l)) as [->|Hne].
      * rewrite delete_take_drop, take_app_length.
        rewrite drop_app_ge by lia.
        by replace (S (length l) - length l)%nat with 1%nat by lia.
      * exfalso. apply (Hmin (length l) w); [|lia|done].
        by rewrite list_lookup_middle.
  - apply list_find_None in Hf. rewrite Forall_app in Hf.
    destruct Hf as [_ Hf]. by inversion Hf.
Qed.

Lemma remove_first_app_new w l : w ∉ l -> remove_first w (l ++ [w]) = l.
Proof. intros Hn. rewrite remove_first_middle by done. by rewrite app_nil_r. Qed.

Lemma remove_first_length w l :
  w ∈ l -> S (length (remove_first w l)) = length l.
Proof.
  intros Hin. unfold remove_first.
  destruct (list_find _ l) as [[i y]|] eqn:Hf.
  - apply list_find_Some in Hf as (Hl & _). apply lookup_lt_Some in Hl.
    rewrite length_delete by (apply lookup_lt_is_Some_2; done). lia.
  - apply list_find_None in Hf. rewrite Forall_forall in Hf.
    by specialize (Hf w Hin).
Qed.

Lemma drop_neighbor_spec ok g v w :
  wf_graph g -> (v < num_vertices g)%nat ->
  match drop_neighbor ok g v w with
  | NotFound => w ∉ neighbors g v
  | ReallocFailed g' =>
      ok = false /\ w ∈ neighbors g v /\
      wf_graph g' /\ num_vertices g' = num_vertices g /\ directed g' = directed g /\
      neighbors g' v = remove_first w (neighbors g v) /\
      (forall x, x <> v -> neighbors g' x = neighbors g x)
  | Removed g' =>
      w ∈ neighbors g v /\
      wf_graph g' /\ num_vertices g' = num_vertices g /\ directed g' = directed g /\
      neighbors g' v = remove_first w (neighbors g v) /\
      (forall x, x <> v -> neighbors g' x = neighbors g x)
  end.
Proof.
  intros Hwf Hv. unfold drop_neighbor.
  pose proof (wf_capacity g Hwf v Hv) as Hcap.
  pose proof (wf_bytes g Hwf v Hv) as Hby.
  pose proof (wf_adj_len g Hwf) as Hl1. pose proof (wf_size_len g Hwf) as Hl2.
  unfold remove_first.
  destruct (list_find _ (neighbors g v)) as [[i y]|] eqn:Hf.
  2:{ apply list_find_None in Hf. rewrite Forall_forall in Hf.
      intros Hin. by apply (Hf w). }
  pose proof Hf as Hf'.
  apply list_find_Some in Hf' as (Hl & -> & Hmin).
  assert (Hin : w ∈ neighbors g v) by (by eapply list_elem_of_lookup_2).
  pose proof (lookup_lt_Some _ _ _ Hl) as Hi.
  unfold neighbors in Hi, Hl. rewrite length_take in Hi.
  set (sz := adj_size g !!! v) in *. set (buf := adj g !!! v) in *.
  assert (Hsz : (i < sz)%nat) by lia.
  set (buf' := shift_left buf i (sz - 1 - i)).
  assert (Hbuf' : take (pred sz) buf' = delete i (take sz buf)).
  { unfold buf'. rewrite shift_left_spec by lia.
    rewrite delete_take_drop, take_take.
    replace (i `min` sz)%nat with i by lia.
    assert (E : drop (S i) (take sz buf) = take (sz - 1 - i) (drop (S i) buf)).
    { rewrite take_drop_commute. do 2 f_equal. lia. }
    rewrite E, app_assoc. rewrite take_app_length'; [done|].
    rewrite length_app, !length_take, length_drop. lia. }
  assert (Hlen' : length buf' = length buf).
  { unfold buf'. rewrite shift_left_spec by lia.
    rewrite !length_app, !length_take, !length_drop. lia. }
  assert (Hg1 : forall nb, (pred sz <= length nb)%nat ->
            take (pred sz) nb = delete i (take sz buf) ->
            let g' := set_adj (set_adj_size (set_adj g v buf') v (pred sz)) v nb in
            wf_graph g' /\ num_vertices g' = num_vertices g /\
            directed g' = directed g /\
            neighbors g' v = delete i (neighbors g v) /\
            (forall x, x <> v -> neighbors g' x = neighbors g x)).
  { intros nb Hnb Htk g'. split_and!; try done.
    - destruct Hwf as [H0 H1 H2 H3 H4]. split; simpl.
      + done.
      + by rewrite !length_insert.
      + by rewrite length_insert.
      + intros x Hx. destruct (decide (x = v)) as [->|Hne].
        * rewrite !list_lookup_total_insert_eq by (rewrite ?length_insert; lia).
          done.
        * rewrite !list_lookup_total_insert_ne by done. by apply H3.
      + intros x Hx. destruct (decide (x = v)) as [->|Hne].
        * rewrite !list_lookup_total_insert_eq by lia.
          fold sz in Hby. unfold sizeof_size_t in *. lia.
        * rewrite !list_lookup_total_insert_ne by done. by apply H4.
    - unfold g', neighbors; simpl.
      rewrite !list_lookup_total_insert_eq by (rewrite ?length_insert; lia).
      done.
    - intros x Hx. unfold g', neighbors; simpl.
      by rewrite !list_lookup_total_insert_ne. }
  unfold safe_realloc, sizeof_size_t in *.
  rewrite to_size_t_small by lia.
  destruct (Z.eqb_spec (Z.of_nat (pred sz) * 8) 0) as [Hz|Hnz].
  - assert (Hp : pred sz = 0%nat) by lia.
    replace (0 <? pred sz)%nat with false by (symmetry; apply Nat.ltb_ge; lia).
    split; [done|]. apply Hg1; [rewrite Hp; simpl; lia|].
    rewrite <- Hbuf'. rewrite Hp. done.
  - replace (Z.to_nat (Z.of_nat (pred sz) * 8 / 8)) with (pred sz)
      by (rewrite Z.div_mul by lia; lia).
    destruct ok.
    + split; [done|]. apply Hg1.
      * by rewrite length_resize.
      * rewrite take_resize_eq, resize_le by lia. done.
    + replace (0 <? pred sz)%nat with true by (symmetry; apply Nat.ltb_lt; lia).
      split; [done|]. split; [done|].
      specialize (Hg1 buf' ltac:(lia) Hbuf').
      assert (Hid : set_adj (set_adj_size (set_adj g v buf') v (pred sz)) v buf'
                    = set_adj_size (set_adj g v buf') v (pred sz)).
      { unfold set_adj, set_adj_size; simpl. f_equal.
        by rewrite list_insert_insert_eq. }
      rewrite Hid in Hg1. exact Hg1.
Qed.

(** ** [add_edge] and [remove_edge] as seen through [neighbors] *)

Lemma wf_set_adj_size_le g v k :
  wf_graph g -> (k <= adj_size g !!! v)%nat -> wf_graph (set_adj_size g v k).
Proof.
  intros [H0 H1 H2 H3 H4] Hk. split; simpl.
  - done.
  - done.
  - by rewrite length_insert.
  - intros x Hx. destruct (decide (x = v)) as [->|Hne].
    + rewrite list_lookup_total_insert_eq by lia. specialize (H3 v Hx). lia.
    + rewrite list_lookup_total_insert_ne by done. by apply H3.
  - intros x Hx. destruct (decide (x = v)) as [->|Hne].
    + rewrite list_lookup_total_insert_eq by lia. specialize (H4 v Hx).
      unfold sizeof_size_t in *. lia.
    + rewrite list_lookup_total_insert_ne by done. by apply H4.
Qed.

(** What a call of [add_edge] with in-range vertices does: either both
    insertions happened and the result is 0, or the result is an error
    code and every adjacency list reads as before. *)
Lemma add_edge_cases ok1 ok2 g src dest :
  wf_graph g -> (src < num_vertices g)%nat -> (dest < num_vertices g)%nat ->
  let r := add_edge ok1 ok2 g src dest in
  wf_graph r.1 /\ num_vertices r.1 = num_vertices g /\ directed r.1 = directed g /\
  ((r.2 = 0 /\
    forall x, neighbors r.1 x =
      (neighbors g x ++ (if decide (x = src) then [dest] else []))
      ++ (if negb (directed g) && bool_decide (x = dest) then [src] else []))
   \/
   ((r.2 = -3 \/ r.2 = -4) /\ same_graph g r.1)).
Proof.
  intros Hwf Hs Hd. unfold add_edge.
  replace (num_vertices g <=? src)%nat with false
    by (symmetry; apply Nat.leb_gt; lia).
  replace (num_vertices g <=? dest)%nat with false
    by (symmetry; apply Nat.leb_gt; lia).
  simpl orb. cbv iota.
  destruct (push_neighbor ok1 g src dest) as [g1|e] eqn:H1.
  2:{ simpl. split_and!; try done. right. split.
      - by eapply push_neighbor_inr.
      - by split; [|split]. }
  apply push_neighbor_inl in H1 as (Hwf1 & Hn1 & Hdir1 & Hsz1 & Hnb1 & Hoth1 & Hback1);
    [|done..].
  destruct (directed g) eqn:Hdir.
  { simpl. split_and!; try done. left. split; [done|].
    intros x. rewrite app_nil_r. destruct (decide (x = src)) as [->|Hne].
    - done.
    - rewrite app_nil_r. by apply Hoth1. }
  destruct (push_neighbor ok2 g1 dest src) as [g2|e] eqn:H2.
  - apply push_neighbor_inl in H2 as (Hwf2 & Hn2 & Hdir2 & Hsz2 & Hnb2 & Hoth2 & _);
      [|done|lia].
    simpl. split_and!; [done|congruence|congruence|]. left. split; [done|].
    intros x. destruct (bool_decide_reflect (x = dest)) as [->|Hne]; simpl.
    + rewrite Hnb2. f_equal. destruct (decide (dest = src)) as [->|Hne'].
      * done.
      * rewrite app_nil_r. by apply Hoth1.
    + rewrite app_nil_r. rewrite Hoth2 by done.
      destruct (decide (x = src)) as [->|Hne'].
      * done.
      * rewrite app_nil_r. by apply Hoth1.
  - simpl. split_and!.
    + apply wf_set_adj_size_le; [done|lia].
    + done.
    + done.
    + right. split; [by eapply push_neighbor_inr|].
      split; [done|]. split; [simpl; congruence|].
      intros x Hx. destruct (decide (x = src)) as [->|Hne].
      * done.
      * rewrite neighbors_set_adj_size_ne by done. by apply Hoth1.
Qed.

(** What a call of [remove_edge] with in-range vertices does. *)
Lemma remove_edge_cases ok1 ok2 g src dest :
  wf_graph g -> (src < num_vertices g)%nat -> (dest < num_vertices g)%nat ->
  let r := remove_edge ok1 ok2 g src dest in
  wf_graph r.1 /\ num_vertices r.1 = num_vertices g /\ directed r.1 = directed g /\
  ((r.2 = -3 /\ (dest ∉ neighbors g src) /\ r.1 = g)
   \/
   (r.2 = 0 /\ dest ∈ neighbors g src /\
    forall x, neighbors r.1 x =
      let l := if decide (x = src) then remove_first dest (neighbors g x)
               else neighbors g x in
      if negb (directed g) && bool_decide (x = dest) then remove_first src l
      else l)
   \/
   (r.2 = -4 /\ (ok1 = false \/ ok2 = false))).
Proof.
  intros Hwf Hs Hd. unfold remove_edge.
  replace (num_vertices g <=? src)%nat with false
    by (symmetry; apply Nat.leb_gt; lia).
  replace (num_vertices g <=? dest)%nat with false
    by (symmetry; apply Nat.leb_gt; lia).
  simpl orb. cbv iota.
  pose proof (drop_neighbor_spec ok1 g src dest Hwf Hs) as H1.
  destruct (drop_neighbor ok1 g src dest) as [|g1|g1].
  - simpl. split_and!; try done. by left.
  - destruct H1 as (-> & Hin & Hwf1 & Hn1 & Hd1 & Hnb1 & Hoth1).
    simpl. split_and!; try done. right; right. eauto.
  - destruct H1 as (Hin & Hwf1 & Hn1 & Hd1 & Hnb1 & Hoth1).
    destruct (directed g) eqn:Hdir.
    { simpl. split_and!; try done. right; left. split_and!; try done.
      intros x. destruct (decide (x = src)) as [->|Hne]; [done|by apply Hoth1]. }
    assert (Hd' : (dest < num_vertices g1)%nat) by lia.
    pose proof (drop_neighbor_spec ok2 g1 dest src Hwf1 Hd') as H2.
    assert (Hl : forall x, neighbors g1 x =
              if decide (x = src) then remove_first dest (neighbors g x)
              else neighbors g x).
    { intros x. destruct (decide (x = src)) as [->|Hne]; [done|by apply Hoth1]. }
    destruct (drop_neighbor ok2 g1 dest src) as [|g2|g2].
    + simpl. split_and!; try done. right; left. split_and!; try done.
      intros x. simpl. rewrite <- Hl.
      destruct (bool_decide_reflect (x = dest)) as [->|Hne]; [|done].
      by rewrite remove_first_notin.
    + destruct H2 as (-> & _ & Hwf2 & Hn2 & Hd2 & _).
      simpl. split_and!; [done|congruence|congruence|]. right; right. eauto.
    + destruct H2 as (_ & Hwf2 & Hn2 & Hd2 & Hnb2 & Hoth2).
      simpl. split_and!; [done|congruence|congruence|]. right; left.
      split_and!; try done.
      intros x. simpl. rewrite <- Hl.
      destruct (bool_decide_reflect (x = dest)) as [->|Hne]; [done|].
      by apply Hoth2.
Qed.

(** ** Counting occurrences *)

Lemma occurrences_app w l l' :
  occurrences w (l ++ l') = (occurrences w l + occurrences w l')%nat.
Proof. unfold occurrences. by rewrite filter_app, length_app. Qed.

Lemma occurrences_nil w : occurrences w [] = 0%nat.
Proof. done. Qed.

Lemma occurrences_cons w x l :
  occurrences w (x :: l) =
  ((if decide (x = w) then 1 else 0) + occurrences w l)%nat.
Proof.
  unfold occurrences. rewrite filter_cons. by destruct (decide (x = w)).
Qed.

Lemma occurrences_remove_first_ne w x l :
  x <> w -> occurrences x (remove_first w l) = occurrences x l.
Proof.
  intros Hne. unfold remove_first.
  destruct (list_find _ l) as [[i y]|] eqn:Hf; [|done].
  apply list_find_Some in Hf as (Hl & -> & _).
  rewrite delete_take_drop.
  rewrite <- (take_drop_middle l i w Hl) at 3.
  rewrite !occurrences_app, occurrences_cons.
  destruct (decide (w = x)); [congruence|lia].
Qed.

Lemma occurrences_remove_first_eq w l :
  occurrences w (remove_first w l) = pred (occurrences w l).
Proof.
  unfold remove_first.
  destruct (list_find _ l) as [[i y]|] eqn:Hf.
  - apply list_find_Some in Hf as (Hl & -> & _).
    rewrite delete_take_drop.
    rewrite <- (take_drop_middle l i w Hl) at 3.
    rewrite !occurrences_app, occurrences_cons.
    destruct (decide (w = w)); [lia|done].
  - apply list_find_None in Hf. unfold occurrences.
    induction Hf as [|x l Hx _ IH]; [done|].
    rewrite filter_cons. by destruct (decide (x = w)).
Qed.

Lemma occurrences_pos w l : w ∈ l <-> (0 < occurrences w l)%nat.
Proof.
  unfold occurrences. induction l as [|x l IH].
  - split; [by intros ?%elem_of_nil|simpl; lia].
  - rewrite elem_of_cons, filter_cons. destruct (decide (x = w)) as [->|Hne].
    + simpl. split; [lia|by left].
    + rewrite <- IH. split; [intros [?|?]; [congruence|done]|by right].
Qed.

(** Case analysis on a vertex index below a concrete bound. *)
Ltac each_vertex v tac :=
  first [ exfalso; lia | destruct v as [|v]; [tac | each_vertex v tac] ].

Ltac wf_concrete :=
  split; [by vm_compute | reflexivity | reflexivity
         | intros v Hv; simpl in Hv; each_vertex v ltac:(simpl; lia)
         | intros v Hv; simpl in Hv; each_vertex v ltac:(by vm_compute) ].

(** Case analysis on the members of a concrete list. *)
Ltac split_elem_of H :=
  repeat (apply elem_of_cons in H as [->|H]); [..|by apply elem_of_nil in H].

Lemma wf_g_single : wf_graph g_single.
Proof. wf_concrete. Qed.

Lemma wf_g_fan : wf_graph g_fan.
Proof. wf_concrete. Qed.

Lemma wf_g_double : wf_graph g_double.
Proof. wf_concrete. Qed.

Lemma wf_g_pair : wf_graph g_pair.
Proof. wf_concrete. Qed.

Lemma create_graph_wf n dir g :
  create_graph true n dir = Some g ->
  wf_graph g /\ num_vertices g = n /\ directed g = dir /\
  forall v, neighbors g v = [].
Proof.
  unfold create_graph.
  destruct (_ || _) eqn:Hn; [done|].
  apply orb_false_iff in Hn as [_ Hn]. apply Z.ltb_ge in Hn.
  destruct (_checa_overflow _ _); [done|].
  intros [= <-]. split_and!; try done.
  - split; simpl.
    + done.
    + by rewrite length_replicate.
    + by rewrite length_replicate.
    + intros v Hv. rewrite !lookup_total_replicate_2 by done. simpl. lia.
    + intros v Hv. rewrite !lookup_total_replicate_2 by done. by vm_compute.
  - intros v. unfold neighbors; simpl.
    destruct (decide (v < n)%nat).
    + by rewrite !lookup_total_replicate_2.
    + rewrite (list_lookup_total_alt (replicate n 0%nat)).
      rewrite (proj1 (lookup_replicate_None n 0%nat v)) by lia. done.
Qed.

(** ** Symmetry is kept by both edit operations, one path apart *)

Lemma add_edge_symmetric ok1 ok2 g u v :
  wf_graph g -> directed g = false ->
  (u < num_vertices g)%nat -> (v < num_vertices g)%nat ->
  symmetric g -> symmetric (add_edge ok1 ok2 g u v).1.
Proof.
  intros Hwf Hdir Hu Hv Hsym.
  destruct (add_edge_cases ok1 ok2 g u v Hwf Hu Hv)
    as (_ & Hn & _ & [[_ Hnb]|[_ (_ & _ & Hsame)]]).
  - intros a b Ha Hb Hab. rewrite Hn in Ha, Hb.
    rewrite !Hnb, Hdir. simpl. rewrite !occurrences_app.
    rewrite (Hsym a b Ha Hb Hab).
    repeat case_decide; repeat case_bool_decide; subst;
      rewrite ?occurrences_cons, ?occurrences_nil;
      repeat case_decide; try congruence; lia.
  - intros a b Ha Hb Hab. rewrite Hn in Ha, Hb.
    rewrite !Hsame by done. by apply Hsym.
Qed.

Lemma remove_edge_symmetric ok1 ok2 g u v :
  wf_graph g -> directed g = false ->
  (u < num_vertices g)%nat -> (v < num_vertices g)%nat ->
  symmetric g -> (remove_edge ok1 ok2 g u v).2 <> -4 ->
  symmetric (remove_edge ok1 ok2 g u v).1.
Proof.
  intros Hwf Hdir Hu Hv Hsym Hrc.
  destruct (remove_edge_cases ok1 ok2 g u v Hwf Hu Hv)
    as (_ & Hn & _ & [(_ & _ & ->)|[(_ & Hin & Hnb)|[? _]]]); [done| |done].
  intros a b Ha Hb Hab. rewrite Hn in Ha, Hb.
  rewrite !Hnb, Hdir. simpl.
  pose proof (Hsym a b Ha Hb Hab) as Hs.
  destruct (decide (u = v)) as [->|Huv].
  - repeat case_decide; repeat case_bool_decide; subst; try congruence;
      rewrite ?occurrences_remove_first_ne by congruence; done.
  - assert (Hin' : (0 < occurrences u (neighbors g v))%nat).
    { rewrite <- (Hsym u v Hu Hv Huv). by apply occurrences_pos. }
    apply occurrences_pos in Hin.
    repeat case_decide; repeat case_bool_decide; subst; try congruence;
      rewrite ?occurrences_remove_first_eq;
      rewrite ?occurrences_remove_first_ne by congruence;
      rewrite ?occurrences_remove_first_eq; try done.
    + rewrite Hs; done.
    + rewrite Hs; done.
Qed.

(** ** Self-loops *)

(** C5, as stated, fails: on the one-vertex undirected graph a successful
    [add_edge(g, 0, 0)] leaves the adjacency list of 0 with two entries
    more, not one. *)
Lemma add_edge_self_loop_counterexample :
  create_graph true 1 false = Some g_single /\
  (add_edge true true g_single 0 0).2 = 0 /\
  neighbors g_single 0 = [] /\
  neighbors (add_edge true true g_single 0 0).1 0 = [0; 0]%nat /\
  length (neighbors (add_edge true true g_single 0 0).1 0)
    <> S (length (neighbors g_single 0)).
Proof. by vm_compute. Qed.

(** C5 (amended): on an undirected graph a successful [add_edge(g, u, u)]
    appends [u] twice to the adjacency list of [u], so its length grows by
    exactly two per call. *)
Theorem add_edge_self_loop_twice ok1 ok2 g u :
  wf_graph g -> directed g = false -> (u < num_vertices g)%nat ->
  (add_edge ok1 ok2 g u u).2 = 0 ->
  neighbors (add_edge ok1 ok2 g u u).1 u = neighbors g u ++ [u; u] /\
  length (neighbors (add_edge ok1 ok2 g u u).1 u)
    = (length (neighbors g u) + 2)%nat.
Proof.
  intros Hwf Hdir Hu Hrc.
  destruct (add_edge_cases ok1 ok2 g u u Hwf Hu Hu)
    as (_ & _ & _ & [[_ Hnb]|[[Hr|Hr] _]]); [|lia..].
  assert (E : neighbors (add_edge ok1 ok2 g u u).1 u = neighbors g u ++ [u; u]).
  { rewrite Hnb, Hdir. simpl. rewrite decide_True, bool_decide_true by done.
    by rewrite <- app_assoc. }
  split; [done|]. rewrite E, length_app. simpl. lia.
Qed.

Lemma add_edge_self_loop_twice_witness :
  wf_graph g_single /\ directed g_single = false /\
  (0 < num_vertices g_single)%nat /\
  (add_edge true true g_single 0 0).2 = 0 /\
  neighbors (add_edge true true g_single 0 0).1 0
    = neighbors g_single 0 ++ [0; 0]%nat /\
  length (neighbors (add_edge true true g_single 0 0).1 0)
    = (length (neighbors g_single 0) + 2)%nat.
Proof.
  split; [exact wf_g_single|].
  split; [reflexivity|]. split; [simpl; lia|]. split; [reflexivity|].
  apply (add_edge_self_loop_twice true true g_single 0).
  - exact wf_g_single.
  - reflexivity.
  - simpl; lia.
  - reflexivity.
Defined.

(** ** Adding then removing an edge *)

(** C6, as stated, fails: when [v] already occurs in the list of [u], the
    added entry goes to the end and the removal takes the first
    occurrence.  On the directed graph with edges 0->1, 0->2 the list
    [1; 2] of vertex 0 comes back as [2; 1]. *)
Lemma add_remove_round_trip_counterexample :
  (add_edge true true g_fan 0 1).2 = 0 /\
  (remove_edge true true (add_edge true true g_fan 0 1).1 0 1).2 = 0 /\
  neighbors g_fan 0 = [1; 2]%nat /\
  neighbors (remove_edge true true (add_edge true true g_fan 0 1).1 0 1).1 0
    = [2; 1]%nat /\
  ~ same_graph g_fan
      (remove_edge true true (add_edge true true g_fan 0 1).1 0 1).1.
Proof.
  split_and!; try by vm_compute.
  intros (_ & _ & H). specialize (H 0%nat ltac:(simpl; lia)).
  vm_compute in H. discriminate.
Qed.

(** C6 (amended): if [v] does not yet occur in the adjacency list of [u]
    (and, on an undirected graph, [u] does not occur in the list of [v]),
    a successful [add_edge(g, u, v)] followed by a successful
    [remove_edge(g, u, v)] gives back every adjacency list, contents and
    order. *)
Theorem add_edge_remove_edge_restores ok1 ok2 ok3 ok4 g u v :
  wf_graph g -> (u < num_vertices g)%nat -> (v < num_vertices g)%nat ->
  v ∉ neighbors g u ->
  (directed g = false -> u ∉ neighbors g v) ->
  (add_edge ok1 ok2 g u v).2 = 0 ->
  (remove_edge ok3 ok4 (add_edge ok1 ok2 g u v).1 u v).2 = 0 ->
  same_graph g (remove_edge ok3 ok4 (add_edge ok1 ok2 g u v).1 u v).1.
Proof.
  intros Hwf Hu Hv Hnew Hnew' Hadd Hrem.
  destruct (add_edge_cases ok1 ok2 g u v Hwf Hu Hv)
    as (Hwf1 & Hn1 & Hd1 & [[_ Hnb1]|[[Hr|Hr] _]]); [|lia..].
  set (g1 := (add_edge ok1 ok2 g u v).1) in *.
  assert (Hu1 : (u < num_vertices g1)%nat) by lia.
  assert (Hv1 : (v < num_vertices g1)%nat) by lia.
  destruct (remove_edge_cases ok3 ok4 g1 u v Hwf1 Hu1 Hv1)
    as (Hwf2 & Hn2 & Hd2 & [(Hr & _)|[(_ & _ & Hnb2)|[Hr _]]]); [lia| |lia].
  split; [congruence|]. split; [congruence|].
  intros x Hx. rewrite Hnb2, Hd1. simpl. rewrite !Hnb1.
  destruct (directed g) eqn:Hdir; simpl.
  - rewrite app_nil_r. destruct (decide (x = u)) as [->|Hne].
    + by rewrite remove_first_app_new.
    + by rewrite app_nil_r.
  - specialize (Hnew' eq_refl).
    destruct (decide (x = u)) as [Hxu|Hxu];
      destruct (bool_decide_reflect (x = v)) as [Hxv|Hxv]; subst.
    + rewrite <- app_assoc. simpl.
      rewrite (remove_first_middle v (neighbors g v) [v]) by done.
      by rewrite remove_first_app_new.
    + rewrite app_nil_r. by rewrite remove_first_app_new.
    + rewrite app_nil_r. by rewrite remove_first_app_new.
    + by rewrite !app_nil_r.
Qed.

Lemma add_edge_remove_edge_restores_witness :
  wf_graph g_pair /\ (0 < num_vertices g_pair)%nat /\
  (1 < num_vertices g_pair)%nat /\
  (1%nat ∉ neighbors g_pair 0) /\
  (directed g_pair = false -> 0%nat ∉ neighbors g_pair 1) /\
  (add_edge true true g_pair 0 1).2 = 0 /\
  (remove_edge true true (add_edge true true g_pair 0 1).1 0 1).2 = 0 /\
  same_graph g_pair
    (remove_edge true true (add_edge true true g_pair 0 1).1 0 1).1.
Proof.
  assert (H1 : 1%nat ∉ neighbors g_pair 0) by (vm_compute; apply not_elem_of_nil).
  assert (H2 : directed g_pair = false -> 0%nat ∉ neighbors g_pair 1)
    by (intros _; vm_compute; apply not_elem_of_nil).
  split; [exact wf_g_pair|]. split; [simpl; lia|]. split; [simpl; lia|].
  split; [exact H1|]. split; [exact H2|].
  split; [reflexivity|]. split; [reflexivity|].
  apply (add_edge_remove_edge_restores true true true true g_pair 0 1).
  - exact wf_g_pair.
  - simpl; lia.
  - simpl; lia.
  - exact H1.
  - exact H2.
  - reflexivity.
  - reflexivity.
Defined.

(** ** Atomicity of [add_edge] on undirected graphs *)

(** C7: on an undirected graph, [add_edge] with in-range vertices either
    returns 0 after appending [v] to the list of [u] and [u] to the list
    of [v], or returns an error code and every adjacency list reads as
    before the call (a refused second insertion undoes the first); in
    both cases a symmetric state stays symmetric. *)
Theorem add_edge_undirected_atomic ok1 ok2 g u v :
  wf_graph g -> directed g = false ->
  (u < num_vertices g)%nat -> (v < num_vertices g)%nat ->
  ((add_edge ok1 ok2 g u v).2 = 0 /\
   (forall x, neighbors (add_edge ok1 ok2 g u v).1 x =
      (neighbors g x ++ (if decide (x = u) then [v] else []))
      ++ (if decide (x = v) then [u] else []))
   \/
   (add_edge ok1 ok2 g u v).2 < 0 /\ same_graph g (add_edge ok1 ok2 g u v).1)
  /\ wf_graph (add_edge ok1 ok2 g u v).1
  /\ (symmetric g -> symmetric (add_edge ok1 ok2 g u v).1).
Proof.
  intros Hwf Hdir Hu Hv. split; [|split].
  - destruct (add_edge_cases ok1 ok2 g u v Hwf Hu Hv)
      as (_ & _ & _ & [[Hr Hnb]|[Hr Hsame]]).
    + left. split; [done|]. intros x. rewrite Hnb, Hdir. simpl.
      by destruct (decide (x = v)); [rewrite bool_decide_true|rewrite bool_decide_false].
    + right. split; [lia|done].
  - by apply add_edge_cases.
  - by apply add_edge_symmetric.
Qed.

Lemma add_edge_undirected_atomic_witness :
  wf_graph g_double /\ directed g_double = false /\
  (0 < num_vertices g_double)%nat /\ (1 < num_vertices g_double)%nat /\
  (((add_edge true false g_double 0 1).2 = 0 /\
   (forall x, neighbors (add_edge true false g_double 0 1).1 x =
      (neighbors g_double x ++ (if decide (x = 0%nat) then [1%nat] else []))
      ++ (if decide (x = 1%nat) then [0%nat] else []))
   \/
   (add_edge true false g_double 0 1).2 < 0 /\
   same_graph g_double (add_edge true false g_double 0 1).1)
  /\ wf_graph (add_edge true false g_double 0 1).1
  /\ (symmetric g_double -> symmetric (add_edge true false g_double 0 1).1)).
Proof.
  split; [exact wf_g_double|]. split; [reflexivity|].
  split; [simpl; lia|]. split; [simpl; lia|].
  apply (add_edge_undirected_atomic true false g_double 0 1).
  - exact wf_g_double.
  - reflexivity.
  - simpl; lia.
  - simpl; lia.
Defined.

(** The rollback is visible on a concrete run: the second realloc fails,
    the call returns -4 and both lists read as before. *)
Example add_edge_rollback_run :
  (add_edge true false g_double 0 1).2 = -4 /\
  neighbors (add_edge true false g_double 0 1).1 0 = [1; 1]%nat /\
  neighbors (add_edge true false g_double 0 1).1 1 = [0; 0]%nat.
Proof. by vm_compute. Qed.

(** ** The mirror invariant across edits *)

Lemma symmetric_g_double : symmetric g_double.
Proof.
  intros a b Ha Hb Hab. simpl in Ha, Hb.
  destruct a as [|[|a]]; destruct b as [|[|b]]; try lia; by vm_compute.
Qed.

(** C9 fails on one error path of the code: [remove_edge] on the
    symmetric undirected state with the edge {0,1} stored twice, when the
    shrinking realloc of the first list fails, returns -4 after the entry
    was already taken out of the list of 0 and before the list of 1 is
    touched; the state it leaves is not symmetric. *)
Theorem remove_edge_realloc_failure_breaks_symmetry :
  wf_graph g_double /\ symmetric g_double /\
  (remove_edge false true g_double 0 1).2 = -4 /\
  neighbors (remove_edge false true g_double 0 1).1 0 = [1]%nat /\
  neighbors (remove_edge false true g_double 0 1).1 1 = [0; 0]%nat /\
  ~ symmetric (remove_edge false true g_double 0 1).1.
Proof.
  split; [exact wf_g_double|]. split; [exact symmetric_g_double|].
  split_and!; try by vm_compute.
  intros H. specialize (H 0%nat 1%nat ltac:(simpl; lia) ltac:(simpl; lia) ltac:(lia)).
  vm_compute in H. discriminate.
Qed.

(** * Reasoning about loops *)

Section while_rules.
Context {St Res : Type}.
Variable step : St -> St + Res.

(** Invariant and variant: a loop whose every turn keeps [I] and lowers
    the measure leaves with a result satisfying [Q] before the fuel runs
    out. *)
Lemma while_fuel_rule (I : St -> Prop) (mu : St -> nat) (Q : Res -> Prop) :
  (forall s, I s ->
     match step s with
     | inl s' => I s' /\ (mu s' < mu s)%nat
     | inr r => Q r
     end) ->
  forall fuel s, I s -> (mu s < fuel)%nat ->
    exists r, while_fuel step fuel s = Some r /\ Q r.
Proof.
  intros Hstep. induction fuel as [|fuel IH]; intros s HI Hmu; [lia|].
  simpl. specialize (Hstep s HI). destruct (step s) as [s'|r].
  - destruct Hstep as [HI' Hlt]. apply IH; [done|lia].
  - eauto.
Qed.

(** More fuel does not change a result. *)
Lemma while_fuel_mono fuel fuel' s r :
  (fuel <= fuel')%nat ->
  while_fuel step fuel s = Some r -> while_fuel step fuel' s = Some r.
Proof.
  revert fuel' s. induction fuel as [|fuel IH]; intros fuel' s Hle; [done|].
  destruct fuel' as [|fuel']; [lia|]. simpl.
  destruct (step s); [|done]. apply IH. lia.
Qed.

Lemma run_turns_add k1 k2 s :
  run_turns step (k1 + k2) s =
  match run_turns step k1 s with
  | inl s' => run_turns step k2 s'
  | inr r => inr r
  end.
Proof.
  revert s. induction k1 as [|k1 IH]; intros s; simpl; [done|].
  destruct (step s); [apply IH|done].
Qed.

Lemma run_pow2_turns d s : run_pow2 step d s = run_turns step (2 ^ d) s.
Proof.
  revert s. induction d as [|d IH]; intros s.
  - simpl. by destruct (step s).
  - simpl run_pow2. rewrite IH.
    replace (2 ^ S d)%nat with (2 ^ d + 2 ^ d)%nat by (simpl; lia).
    rewrite run_turns_add. destruct (run_turns step (2 ^ d) s); [apply IH|done].
Qed.

Lemma while_pow2_rule (I : St -> Prop) (mu : St -> nat) (Q : Res -> Prop) :
  (forall s, I s ->
     match step s with
     | inl s' => I s' /\ (mu s' < mu s)%nat
     | inr r => Q r
     end) ->
  forall d s, I s -> (mu s < 2 ^ d)%nat ->
    exists r, while_pow2 step d s = Some r /\ Q r.
Proof.
  intros Hstep d s HI Hmu. unfold while_pow2. rewrite run_pow2_turns.
  generalize dependent s. generalize (2 ^ d)%nat as k.
  induction k as [|k IH]; intros s HI Hmu; [lia|].
  simpl. specialize (Hstep s HI). destruct (step s) as [s'|r].
  - destruct Hstep as [HI' Hlt]. apply IH; [done|lia].
  - eauto.
Qed.

End while_rules.

Lemma for_each_opt_app {A St : Type} (body : St -> A -> option St) l1 l2 s :
  for_each_opt body s (l1 ++ l2) =
  match for_each_opt body s l1 with
  | Some s' => for_each_opt body s' l2
  | None => None
  end.
Proof.
  revert s. induction l1 as [|x l1 IH]; intros s; simpl; [done|].
  destruct (body s x); [apply IH|done].
Qed.

Lemma for_each_opt_concat {A B St : Type} (body : St -> A -> option St)
    (f : B -> list A) l s :
  for_each_opt (fun s u => for_each_opt body s (f u)) s l =
  for_each_opt body s (concat (map f l)).
Proof.
  revert s. induction l as [|u l IH]; intros s; simpl; [done|].
  rewrite for_each_opt_app. destruct (for_each_opt body s (f u)); [apply IH|done].
Qed.

(** * Edge enumeration on a graph without edges *)

Lemma get_edges_vertex_no_entries g capacity st v :
  neighbors g v = [] -> get_edges_vertex g capacity st v = Some st.
Proof.
  intros Hnb. unfold get_edges_vertex. rewrite Hnb.
  by destruct (adj g !!! v).
Qed.

Lemma get_edges_loop_no_entries g capacity st (vs : list nat) :
  (forall v, v ∈ vs -> neighbors g v = []) ->
  for_each_opt (get_edges_vertex g capacity) st vs = Some st.
Proof.
  induction vs as [|v vs IH]; intros Hall; simpl; [done|].
  rewrite get_edges_vertex_no_entries by (apply Hall; by left).
  apply IH. intros x Hx. apply Hall. by right.
Qed.

(** C10: on a graph all of whose adjacency lists are empty, [get_edges]
    returns NULL and leaves [*num_edges] at 0, whatever the allocations
    do; the pointer alone does not tell this run from an error. *)
Theorem get_edges_edgeless_returns_null ok_edges ok_processed g :
  (forall v, (v < num_vertices g)%nat -> neighbors g v = []) ->
  get_edges ok_edges ok_processed g = (None, 0%nat).
Proof.
  intros Hempty. unfold get_edges.
  repeat (match goal with |- context [if ?b then _ else _] => destruct b end;
          [reflexivity|]).
  rewrite get_edges_loop_no_entries; [done|].
  intros v Hv. apply Hempty. apply elem_of_seq in Hv. lia.
Qed.

Lemma get_edges_edgeless_returns_null_witness :
  (forall v, (v < num_vertices g_pair)%nat -> neighbors g_pair v = []) /\
  get_edges true true g_pair = (None, 0%nat).
Proof.
  assert (H : forall v, (v < num_vertices g_pair)%nat -> neighbors g_pair v = []).
  { intros v Hv. simpl in Hv. destruct v as [|[|v]]; [reflexivity..|lia]. }
  split; [exact H|].
  exact (get_edges_edgeless_returns_null true true g_pair H).
Defined.

(** The same call on a graph with one edge returns the array. *)
Example get_edges_one_edge :
  get_edges true true (add_edge true true g_pair 0 1).1
    = (Some [mkEdge 0 1], 1%nat).
Proof. by vm_compute. Qed.

(** * Shortest paths: the three routines side by side *)

Lemma wf_g_loop : wf_graph g_loop.
Proof.
  wf_concrete.
Qed.

Lemma valid_g_loop : valid_adjacency g_loop.
Proof.
  intros u v Hu Hin. simpl in Hu. destruct u as [|u]; [|lia].
  vm_compute in Hin. apply list_elem_of_singleton in Hin. subst. simpl. lia.
Qed.

(** C1 fails on the code: on the one-vertex graph with the self-loop
    0->0, whose only adjacency entry is valid, the distance from 0 to 0
    is 0 for Dijkstra and Bellman-Ford and 1 for Floyd-Warshall, whose
    initialisation overwrites the diagonal entry with the edge weight. *)
Theorem floyd_warshall_self_loop_disagrees :
  wf_graph g_loop /\ valid_adjacency g_loop /\
  dijkstra_shortest_path g_loop 0 0 = 0 /\
  bellman_ford_shortest_path g_loop 0 0 = 0 /\
  floyd_warshall_shortest_path g_loop 0 0 = 1.
Proof.
  split; [exact wf_g_loop|]. split; [exact valid_g_loop|].
  by vm_compute.
Qed.

(** The three agree on the 4-cycle of the specification's scenario. *)
Example shortest_paths_agree_on_cycle4 :
  forall s t, (s < 4)%nat -> (t < 4)%nat ->
    dijkstra_shortest_path g_cycle4 s t = bellman_ford_shortest_path g_cycle4 s t /\
    dijkstra_shortest_path g_cycle4 s t = floyd_warshall_shortest_path g_cycle4 s t.
Proof.
  intros s t Hs Ht.
  destruct s as [|[|[|[|s]]]]; try lia;
    destruct t as [|[|[|[|t]]]]; try lia; by vm_compute.
Qed.

(** * Vertex colouring *)

Lemma to_int_small z : - 2 ^ 31 <= z <= INT_MAX -> to_int z = z.
Proof.
  intros Hz. unfold to_int, INT_MAX in *.
  rewrite Z.mod_small by lia. lia.
Qed.

Lemma wf_vertex_count_int g :
  wf_graph g -> Z.to_nat (to_int (Z.of_nat (num_vertices g))) = num_vertices g.
Proof.
  intros Hwf. pose proof (wf_count g Hwf) as H. unfold GRAFO_MAX_VERTICES in H.
  rewrite to_int_small by (unfold INT_MAX; lia). lia.
Qed.

(** ** The search for the smallest free colour *)

Lemma first_unused_spec used count : forall c, 0 <= c ->
  let r := first_unused used c count in
  c <= r <= c + Z.of_nat count /\
  (forall x, c <= x < r -> used !!! Z.to_nat x = true) /\
  (r < c + Z.of_nat count -> used !!! Z.to_nat r = false).
Proof.
  induction count as [|k IH]; intros c Hc; simpl.
  - split; [lia|]. split; intros; lia.
  - destruct (used !!! Z.to_nat c) eqn:Hu.
    + specialize (IH (c + 1) ltac:(lia)). simpl in IH.
      destruct IH as (Hr & Hall & Hfree).
      split; [lia|]. split.
      * intros x Hx. destruct (decide (x = c)) as [->|Hne]; [done|].
        apply Hall. lia.
      * intros Hlt. apply Hfree. lia.
    + split; [lia|]. split; [intros; lia|done].
Qed.

Lemma lookup_total_replicate_false n x :
  (x < n)%nat -> replicate n false !!! x = false.
Proof. intros Hx. by rewrite lookup_total_replicate_2. Qed.

(** ** Marking the colours in use *)

Section marking.
Context {A : Type} (P : A -> bool) (f : A -> nat).

Local Abbreviation mark := (mark_with P f).

Lemma mark_fold_length l : forall used,
  length (foldl mark used l) = length used.
Proof.
  induction l as [|w l IH]; intros used; simpl; [done|].
  rewrite IH. unfold mark. destruct (P w); [by rewrite length_insert|done].
Qed.

Lemma mark_fold_mono l : forall used x,
  used !!! x = true -> foldl mark used l !!! x = true.
Proof.
  induction l as [|w l IH]; intros used x Hx; simpl; [done|].
  apply IH. unfold mark. destruct (P w); [|done].
  destruct (decide (f w = x)) as [<-|Hne].
  - destruct (decide (f w < length used)%nat).
    + by rewrite list_lookup_total_insert_eq.
    + by rewrite list_insert_ge by lia.
  - by rewrite list_lookup_total_insert_ne.
Qed.

Lemma mark_fold_marks l : forall used w,
  w ∈ l -> P w = true -> (f w < length used)%nat ->
  foldl mark used l !!! f w = true.
Proof.
  induction l as [|y l IH]; intros used w Hin HP Hlen; simpl.
  - by apply elem_of_nil in Hin.
  - apply elem_of_cons in Hin as [->|Hin].
    + apply mark_fold_mono. unfold mark. rewrite HP.
      by rewrite list_lookup_total_insert_eq.
    + apply IH; [done|done|].
      unfold mark. destruct (P y); [by rewrite length_insert|done].
Qed.

Lemma mark_fold_origin l : forall used x,
  foldl mark used l !!! x = true ->
  used !!! x = true \/ exists w, w ∈ l /\ P w = true /\ f w = x.
Proof.
  induction l as [|y l IH]; intros used x Hx; simpl in Hx; [by left|].
  apply IH in Hx as [Hx|(w & Hw & HP & Hf)].
  - unfold mark in Hx. destruct (P y) eqn:HP; [|by left].
    destruct (decide (f y = x)) as [<-|Hne].
    + right. exists y. split; [by left|done].
    + rewrite list_lookup_total_insert_ne in Hx by done. by left.
  - right. exists w. split; [by right|done].
Qed.

(** The colour picked after marking: it is at most [bound] when every
    marked colour is below [bound], and it differs from every marked
    colour. *)
Lemma pick_color_spec n l (bound : nat) :
  (bound < n)%nat ->
  (forall w, w ∈ l -> P w = true -> (f w < bound)%nat) ->
  let c := first_unused (foldl mark (replicate n false) l) 0 n in
  0 <= c <= Z.of_nat bound /\
  (forall w, w ∈ l -> P w = true -> Z.of_nat (f w) <> c).
Proof.
  intros Hb Hlt c.
  destruct (first_unused_spec (foldl mark (replicate n false) l) n 0 ltac:(lia))
    as (Hr & Hall & Hfree). fold c in Hr, Hall, Hfree.
  assert (Hc : c <= Z.of_nat bound).
  { destruct (decide (c <= Z.of_nat bound)) as [|Hgt]; [done|exfalso].
    specialize (Hall (Z.of_nat bound) ltac:(lia)).
    rewrite Nat2Z.id in Hall.
    apply mark_fold_origin in Hall as [Hall|(w & Hw & HP & Hf)].
    - by rewrite lookup_total_replicate_false in Hall.
    - specialize (Hlt w Hw HP). lia. }
  split; [lia|].
  intros w Hw HP Heq.
  specialize (Hfree ltac:(lia)). rewrite <- Heq, Nat2Z.id in Hfree.
  rewrite mark_fold_marks in Hfree; [done..|].
  rewrite length_replicate. specialize (Hlt w Hw HP). lia.
Qed.
End marking.

(** ** Counting the vertices still without a colour *)

Lemma uncolored_replicate n : uncolored (replicate n (-1)) = n.
Proof.
  unfold uncolored. induction n as [|n IH]; [done|].
  cbn [replicate]. rewrite filter_cons, decide_True by done.
  cbn [length]. by rewrite IH.
Qed.

Lemma uncolored_app l l' : uncolored (l ++ l') = (uncolored l + uncolored l')%nat.
Proof. unfold uncolored. by rewrite filter_app, length_app. Qed.

Lemma uncolored_insert color i c :
  (i < length color)%nat -> color !!! i = -1 -> c <> -1 ->
  S (uncolored (<[i := c]> color)) = uncolored color.
Proof.
  intros Hi Hc Hne.
  destruct (lookup_lt_is_Some_2 color i Hi) as [y Hy].
  rewrite (list_lookup_total_correct _ _ _ Hy) in Hc. subst y.
  rewrite insert_take_drop by done.
  rewrite <- (take_drop_middle color i (-1) Hy) at 3.
  rewrite !uncolored_app.
  assert (E1 : uncolored (c :: drop (S i) color) = uncolored (drop (S i) color)).
  { unfold uncolored. by rewrite filter_cons, decide_False. }
  assert (E2 : uncolored (-1 :: drop (S i) color)
               = S (uncolored (drop (S i) color))).
  { unfold uncolored. by rewrite filter_cons, decide_True. }
  rewrite E1, E2. lia.
Qed.

Lemma uncolored_zero color i :
  uncolored color = 0%nat -> (i < length color)%nat -> color !!! i <> -1.
Proof.
  unfold uncolored. revert i. induction color as [|c color IH]; intros i H Hi.
  - simpl in Hi. lia.
  - rewrite filter_cons in H. destruct (decide (c = -1)) as [->|Hne].
    + simpl in H. lia.
    + destruct i as [|i]; [done|]. simpl. apply IH; [done|simpl in Hi; lia].
Qed.

Lemma uncolored_pos color :
  (0 < uncolored color)%nat -> exists i, (i < length color)%nat /\ color !!! i = -1.
Proof.
  unfold uncolored. induction color as [|c color IH]; intros H.
  - simpl in H. lia.
  - rewrite filter_cons in H. destruct (decide (c = -1)) as [->|Hne].
    + exists 0%nat. simpl. split; [lia|done].
    + destruct (IH H) as (i & Hi & Hc). exists (S i). simpl. split; [lia|done].
Qed.

(** ** The greedy routine *)

Lemma greedy_step_inv g k st :
  wf_graph g -> valid_adjacency g -> mirrored g ->
  (k < num_vertices g)%nat ->
  greedy_inv g k st.1 -> greedy_inv g (S k) (greedy_step g st k).1.
Proof.
  intros Hwf Hval Hmir Hk (Hlen & Hcol & Hunc & Hprop).
  destruct st as [color mx]. simpl in *.
  rewrite (wf_vertex_count_int g Hwf).
  set (n := num_vertices g) in *.
  pose proof (pick_color_spec
                (fun w => (w <? n)%nat && (0 <=? color !!! w))
                (fun w => Z.to_nat (color !!! w))
                n (neighbors g k) k Hk) as Hpick.
  simpl in Hpick.
  change (foldl _ (replicate n false) (neighbors g k))
    with (foldl (greedy_mark n color) (replicate n false) (neighbors g k)) in Hpick.
  set (c := first_unused _ 0 n) in *.
  assert (Hmarked : forall w, w ∈ neighbors g k ->
            (w <? n)%nat && (0 <=? color !!! w) = true -> (w < k)%nat).
  { intros w Hw HP. apply andb_true_iff in HP as [Hwn Hcw].
    apply Nat.ltb_lt in Hwn. apply Z.leb_le in Hcw.
    destruct (decide (w < k)%nat) as [|Hge]; [done|].
    rewrite Hunc in Hcw by lia. lia. }
  destruct Hpick as (Hc & Hdiff).
  { intros w Hw HP. specialize (Hmarked w Hw HP).
    specialize (Hcol w Hmarked). lia. }
  assert (Hnew : forall b, (b < k)%nat -> b ∈ neighbors g k -> color !!! b <> c).
  { intros b Hb Hin Heq.
    specialize (Hcol b Hb).
    apply (Hdiff b Hin); [|lia].
    apply andb_true_iff. split; [apply Nat.ltb_lt; lia|apply Z.leb_le; lia]. }
  split_and!.
  - by rewrite length_insert.
  - intros w Hw. destruct (decide (w = k)) as [->|Hne].
    + rewrite list_lookup_total_insert_eq by lia. lia.
    + rewrite list_lookup_total_insert_ne by done. apply Hcol. lia.
  - intros w Hw Hwn. rewrite list_lookup_total_insert_ne by lia.
    apply Hunc; lia.
  - intros a b Ha Hb Hab Hin.
    destruct (decide (a = k)) as [->|Hak]; destruct (decide (b = k)) as [->|Hbk].
    + done.
    + rewrite list_lookup_total_insert_eq by lia.
      rewrite list_lookup_total_insert_ne by done.
      intros Heq. apply (Hnew b); [lia|done|done].
    + rewrite list_lookup_total_insert_eq by lia.
      rewrite list_lookup_total_insert_ne by done.
      apply Hnew; [lia|]. apply Hmir; [lia|done].
    + rewrite !list_lookup_total_insert_ne by done.
      apply Hprop; [lia|lia|done|done].
Qed.

Lemma greedy_loop_inv g k :
  wf_graph g -> valid_adjacency g -> mirrored g ->
  (k <= num_vertices g)%nat ->
  greedy_inv g k
    (foldl (greedy_step g) (replicate (num_vertices g) (-1), -1) (seq 0 k)).1.
Proof.
  intros Hwf Hval Hmir. induction k as [|k IH]; intros Hk.
  - simpl. split_and!.
    + by rewrite length_replicate.
    + intros; lia.
    + intros w _ Hw. by rewrite lookup_total_replicate_2.
    + intros; lia.
  - rewrite seq_S, foldl_app. simpl.
    apply greedy_step_inv; [done..|lia|]. apply IH. lia.
Qed.

Lemma greedy_sequential_coloring_proper g color k :
  wf_graph g -> valid_adjacency g -> mirrored g ->
  greedy_sequential_coloring g = (Some color, k) ->
  proper_coloring g color.
Proof.
  intros Hwf Hval Hmir. unfold greedy_sequential_coloring.
  destruct (num_vertices g =? 0)%nat; [done|]. intros [= <- _].
  destruct (greedy_loop_inv g (num_vertices g) Hwf Hval Hmir ltac:(lia))
    as (_ & _ & _ & Hprop).
  intros u v Hu Hin Huv. apply Hprop; [done| |done|done].
  by eapply Hval.
Qed.

(** ** DSATUR *)

Lemma Forall_nonneg_lookup (l : list Z) i :
  Forall (fun x => 0 <= x) l -> 0 <= l !!! i.
Proof.
  intros H. destruct (decide (i < length l)%nat) as [Hi|Hi].
  - by apply (Forall_lookup_total_1 (fun x => 0 <= x)).
  - rewrite list_lookup_total_alt, lookup_ge_None_2 by lia. done.
Qed.

Lemma dsatur_saturate_fold b c l : forall st,
  Forall (fun x => 0 <= x) (ds_sat_deg st) ->
  ds_color (foldl (dsatur_saturate b c) st l) = ds_color st /\
  Forall (fun x => 0 <= x) (ds_sat_deg (foldl (dsatur_saturate b c) st l)).
Proof.
  induction l as [|u l IH]; intros st Hsat; simpl; [done|].
  assert (Hst : ds_color (dsatur_saturate b c st u) = ds_color st /\
                Forall (fun x => 0 <= x) (ds_sat_deg (dsatur_saturate b c st u))).
  { unfold dsatur_saturate. destruct (_ && _); [|done]. simpl.
    split; [done|]. apply Forall_insert; [done|].
    pose proof (Forall_nonneg_lookup _ u Hsat). lia. }
  destruct Hst as [Hc Hs]. destruct (IH _ Hs) as [Hc' Hs'].
  split; [congruence|done].
Qed.

Lemma dsatur_select_spec (degree : list nat) st (l : list nat) :
  Forall (fun x => 0 <= x) (ds_sat_deg st) ->
  let r := foldl (fun (acc : Z * option nat) v =>
           if negb (ds_color st !!! v =? -1) then acc
           else if (acc.1 <? ds_sat_deg st !!! v)
                   || ((ds_sat_deg st !!! v =? acc.1)
                       && (match acc.2 with
                           | Some cand => degree !!! cand
                           | None => 0%nat
                           end <? degree !!! v)%nat)
           then (ds_sat_deg st !!! v, Some v) else acc)
        (-1, None) l in
  match r.2 with
  | Some v => v ∈ l /\ ds_color st !!! v = -1
  | None => r.1 = -1 /\ forall v, v ∈ l -> ds_color st !!! v <> -1
  end.
Proof.
  intros Hsat. induction l as [|x l IH] using rev_ind; simpl.
  - split; [done|]. intros v Hv. by apply elem_of_nil in Hv.
  - rewrite foldl_app. simpl.
    set (acc := foldl _ _ l) in *. simpl in IH.
    destruct (Z.eqb_spec (ds_color st !!! x) (-1)) as [Hx|Hx]; simpl.
    + destruct (_ || _) eqn:Hsel; simpl.
      * split; [apply elem_of_app; right; by left|done].
      * destruct (acc.2) as [v|] eqn:Hacc.
        -- destruct IH as [Hin Hc]. split; [apply elem_of_app; by left|done].
        -- destruct IH as [H1 _]. apply orb_false_iff in Hsel as [Hsel _].
           apply Z.ltb_ge in Hsel.
           pose proof (Forall_nonneg_lookup _ x Hsat). lia.
    + destruct (acc.2) as [v|] eqn:Hacc.
      * destruct IH as [Hin Hc]. split; [apply elem_of_app; by left|done].
      * destruct IH as [H1 Hall]. split; [done|].
        intros v Hv. apply elem_of_app in Hv as [Hv|Hv]; [by apply Hall|].
        apply list_elem_of_singleton in Hv. by subst.
Qed.

Lemma dsatur_first_lt (degree : list nat) n : (0 < n)%nat -> (dsatur_first degree n < n)%nat.
Proof.
  intros Hn. unfold dsatur_first.
  assert (H : forall l first, (first < n)%nat -> Forall (fun v => (v < n)%nat) l ->
            (foldl (fun first v =>
                      if (degree !!! first <? degree !!! v)%nat then v else first)
                   first l < n)%nat).
  { induction l as [|v l IH]; intros first Hf Hl; simpl; [done|].
    inversion Hl; subst. apply IH; [|done]. by destruct (_ <? _)%nat. }
  apply H; [done|]. apply Forall_forall. intros v Hv.
  apply elem_of_seq in Hv. lia.
Qed.

Lemma dsatur_loop_inv g degree steps : forall s st,
  wf_graph g -> valid_adjacency g -> mirrored g ->
  dsatur_inv g s st -> (s + steps = num_vertices g)%nat ->
  dsatur_inv g (num_vertices g) (dsatur_loop g degree steps st).
Proof.
  induction steps as [|k IH]; intros s st Hwf Hval Hmir Hinv Hs.
  - simpl. by replace (num_vertices g) with s by lia.
  - simpl. rewrite (wf_vertex_count_int g Hwf).
    set (n := num_vertices g) in *.
    destruct Hinv as (Hlen & Hsat & Hrange & Hcount & Hprop).
    pose proof (dsatur_select_spec degree st (seq 0 n) Hsat) as Hsel.
    simpl in Hsel. fold (dsatur_select degree n st) in Hsel.
    destruct ((dsatur_select degree n st).2) as [cand|].
    2:{ exfalso. destruct Hsel as [_ Hall].
        destruct (uncolored_pos (ds_color st) ltac:(lia)) as (i & Hi & Hc).
        apply (Hall i); [|done]. apply elem_of_seq. lia. }
    destruct Hsel as [Hcand Hcc]. apply elem_of_seq in Hcand.
    set (color := ds_color st) in *.
    pose proof (pick_color_spec
                  (fun u => negb (color !!! u =? -1))
                  (fun u => Z.to_nat (color !!! u))
                  n (neighbors g cand) s ltac:(lia)) as Hpick.
    simpl in Hpick.
    change (foldl _ (replicate n false) (neighbors g cand))
      with (foldl (dsatur_mark color) (replicate n false) (neighbors g cand))
      in Hpick.
    set (c := first_unused _ 0 n) in *.
    destruct Hpick as (Hc & Hdiff).
    { intros u Hu HP. apply negb_true_iff in HP.
      apply Z.eqb_neq in HP.
      assert (Hun : (u < n)%nat) by (eapply Hval; [|done]; lia).
      destruct (Hrange u Hun) as [?|?]; [done|lia]. }
    assert (Hnew : forall b, b ∈ neighbors g cand -> color !!! b <> -1 ->
              color !!! b <> c).
    { intros b Hin Hb Heq.
      assert (Hbn : (b < n)%nat) by (eapply Hval; [|done]; lia).
      destruct (Hrange b Hbn) as [?|?]; [done|].
      apply (Hdiff b Hin); [|lia].
      apply negb_true_iff. by apply Z.eqb_neq. }
    set (st1 := mkDsatur _ _ _ _).
    destruct (dsatur_saturate_fold true c (neighbors g cand) st1 Hsat)
      as [Hcol' Hsat'].
    apply (IH (S s)); [done..| |lia].
    unfold dsatur_inv. rewrite Hcol'. simpl. fold color.
    split_and!.
    + by rewrite length_insert.
    + done.
    + intros w Hw. destruct (decide (w = cand)) as [->|Hne].
      * rewrite list_lookup_total_insert_eq by lia. right. lia.
      * rewrite list_lookup_total_insert_ne by done.
        destruct (Hrange w Hw) as [?|?]; [by left|right; lia].
    + pose proof (uncolored_insert color cand c ltac:(lia) Hcc ltac:(lia)). lia.
    + intros a b Ha Hb Hab Hin.
      destruct (decide (a = cand)) as [->|Hak];
        destruct (decide (b = cand)) as [->|Hbk].
      * done.
      * rewrite list_lookup_total_insert_eq by lia.
        rewrite list_lookup_total_insert_ne by done.
        intros _ Hbc Heq. by apply (Hnew b).
      * rewrite list_lookup_total_insert_eq by lia.
        rewrite list_lookup_total_insert_ne by done.
        intros Hac _. apply Hnew; [|done]. by apply Hmir.
      * rewrite !list_lookup_total_insert_ne by done. by apply Hprop.
Qed.

Lemma dsatur_coloring_proper g rc color k :
  wf_graph g -> valid_adjacency g -> mirrored g ->
  dsatur_coloring g = (rc, Some color, k) ->
  proper_coloring g color.
Proof.
  intros Hwf Hval Hmir. unfold dsatur_coloring.
  destruct (Nat.eqb_spec (num_vertices g) 0) as [|Hn]; [done|].
  intros [= _ <- _].
  set (n := num_vertices g) in *.
  set (degree := map _ (seq 0 n)).
  pose proof (dsatur_first_lt degree n ltac:(lia)) as Hfirst.
  set (first := dsatur_first degree n) in *.
  set (st0 := mkDsatur _ _ _ _).
  assert (Hsat0 : Forall (fun x => 0 <= x) (ds_sat_deg st0)).
  { simpl. apply Forall_replicate. lia. }
  destruct (dsatur_saturate_fold false 0 (neighbors g first) st0 Hsat0)
    as [Hcol1 Hsat1].
  set (st1 := foldl _ st0 _) in *.
  assert (Hinv1 : dsatur_inv g 1 st1).
  { unfold dsatur_inv. rewrite Hcol1. simpl. fold n. split_and!.
    - by rewrite length_insert, length_replicate.
    - done.
    - intros w Hw. destruct (decide (w = first)) as [->|Hne].
      + rewrite list_lookup_total_insert_eq by (rewrite length_replicate; lia).
        right. lia.
      + rewrite list_lookup_total_insert_ne by done.
        left. by rewrite lookup_total_replicate_2.
    - pose proof (uncolored_insert (replicate n (-1)) first 0) as H.
      rewrite length_replicate, uncolored_replicate in H.
      rewrite lookup_total_replicate_2 in H by done.
      specialize (H Hfirst eq_refl ltac:(lia)). lia.
    - intros a b Ha Hb Hab Hin Hca Hcb.
      destruct (decide (a = first)) as [->|Hne].
      + rewrite list_lookup_total_insert_ne in Hcb by done.
        by rewrite lookup_total_replicate_2 in Hcb.
      + rewrite list_lookup_total_insert_ne in Hca by done.
        by rewrite lookup_total_replicate_2 in Hca. }
  pose proof (dsatur_loop_inv g degree (n - 1) 1 st1 Hwf Hval Hmir Hinv1
                ltac:(fold n; lia)) as (Hlen & _ & _ & Hcount & Hprop).
  fold n in Hlen, Hcount, Hprop.
  intros u v Hu Hin Huv.
  assert (Hv : (v < n)%nat) by (eapply Hval; [|done]; done).
  apply Hprop; try done.
  - apply uncolored_zero; lia.
  - apply uncolored_zero; lia.
Qed.

(** ** The claim *)

Lemma wf_g_arrow : wf_graph g_arrow.
Proof.
  wf_concrete.
Qed.

Lemma valid_g_arrow : valid_adjacency g_arrow.
Proof.
  intros u v Hu Hin. simpl in Hu. destruct u as [|[|u]]; [| |lia].
  - vm_compute in Hin. apply list_elem_of_singleton in Hin. subst. simpl. lia.
  - vm_compute in Hin. by apply elem_of_nil in Hin.
Qed.

(** C8, as stated, fails: both routines look only at the adjacency list
    of the vertex being coloured, so on the directed graph with the single
    edge 0->1 (a valid entry) vertex 0 is coloured before vertex 1 has a
    colour, vertex 1 has no entry to look at, and both get colour 0. *)
Lemma coloring_directed_counterexample :
  wf_graph g_arrow /\ valid_adjacency g_arrow /\
  1%nat ∈ neighbors g_arrow 0 /\
  greedy_sequential_coloring g_arrow = (Some [0; 0], 1) /\
  dsatur_coloring g_arrow = (0, Some [0; 0], 1) /\
  ~ proper_coloring g_arrow [0; 0].
Proof.
  split; [exact wf_g_arrow|]. split; [exact valid_g_arrow|].
  assert (Hin : 1%nat ∈ neighbors g_arrow 0) by (vm_compute; by left).
  split; [exact Hin|]. split; [by vm_compute|]. split; [by vm_compute|].
  intros H. by apply (H 0%nat 1%nat ltac:(simpl; lia) Hin ltac:(lia)).
Qed.

(** C8 (amended): on a graph with valid adjacency entries in which every
    entry is mirrored (as [add_edge] keeps it on undirected graphs), the
    colour array returned by [greedy_sequential_coloring] and the one
    returned by [dsatur_coloring] give different colours to the two ends
    of every adjacency entry that joins two different vertices. *)
Theorem colorings_proper_on_mirrored g :
  wf_graph g -> valid_adjacency g -> mirrored g ->
  (forall color k, greedy_sequential_coloring g = (Some color, k) ->
     proper_coloring g color) /\
  (forall rc color k, dsatur_coloring g = (rc, Some color, k) ->
     proper_coloring g color).
Proof.
  intros Hwf Hval Hmir. split.
  - intros color k. by apply greedy_sequential_coloring_proper.
  - intros rc color k. by apply dsatur_coloring_proper.
Qed.

Lemma wf_g_cycle4 : wf_graph g_cycle4.
Proof.
  wf_concrete.
Qed.

Lemma valid_g_cycle4 : valid_adjacency g_cycle4.
Proof.
  intros u v Hu Hin. simpl in Hu.
  destruct u as [|[|[|[|u]]]]; [..|lia];
    vm_compute in Hin; split_elem_of Hin; simpl; lia.
Qed.

Lemma mirrored_g_cycle4 : mirrored g_cycle4.
Proof.
  intros u v Hu Hin. simpl in Hu.
  destruct u as [|[|[|[|u]]]]; [..|lia];
    vm_compute in Hin; split_elem_of Hin; vm_compute; repeat constructor.
Qed.

Lemma colorings_proper_on_mirrored_witness :
  wf_graph g_cycle4 /\ valid_adjacency g_cycle4 /\ mirrored g_cycle4 /\
  (forall color k, greedy_sequential_coloring g_cycle4 = (Some color, k) ->
     proper_coloring g_cycle4 color) /\
  (forall rc color k, dsatur_coloring g_cycle4 = (rc, Some color, k) ->
     proper_coloring g_cycle4 color).
Proof.
  split; [exact wf_g_cycle4|]. split; [exact valid_g_cycle4|].
  split; [exact mirrored_g_cycle4|].
  exact (colorings_proper_on_mirrored g_cycle4
           wf_g_cycle4 valid_g_cycle4 mirrored_g_cycle4).
Defined.

(** Both routines do return an array on a graph with at least one
    vertex; on the 4-cycle both use two colours. *)
Example colorings_on_cycle4 :
  greedy_sequential_coloring g_cycle4 = (Some [0; 1; 0; 1], 2) /\
  dsatur_coloring g_cycle4 = (0, Some [0; 1; 0; 1], 2).
Proof. by vm_compute. Qed.

Lemma colorings_return_array g :
  (0 < num_vertices g)%nat ->
  (exists color k, greedy_sequential_coloring g = (Some color, k)) /\
  (exists color k, dsatur_coloring g = (0, Some color, k)).
Proof.
  intros Hn. unfold greedy_sequential_coloring, dsatur_coloring.
  destruct (Nat.eqb_spec (num_vertices g) 0) as [|_]; [lia|].
  split; eauto.
Qed.

(** * The graph store: guards, error codes and invariants *)

(** The overflow guard is exact: on [size_t] operands it answers true
    exactly when the product does not fit [size_t]. *)
Theorem checa_overflow_exact a b :
  0 <= a -> 0 <= b ->
  (_checa_overflow a b = true <-> SIZE_MAX < a * b).
Proof.
  intros Ha Hb. split; [apply checa_overflow_true|].
  intros Hlt. destruct (_checa_overflow a b) eqn:E; [done|].
  destruct (decide (a = 0)) as [->|Hne]; [unfold SIZE_MAX in Hlt; lia|].
  apply checa_overflow_false in E; lia.
Qed.

Lemma checa_overflow_exact_witness :
  0 <= 2 ^ 61 /\ 0 <= 8 /\
  (_checa_overflow (2 ^ 61) 8 = true <-> SIZE_MAX < 2 ^ 61 * 8).
Proof.
  split; [lia|]. split; [lia|].
  apply (checa_overflow_exact (2 ^ 61) 8); lia.
Defined.

(** [create_graph] refuses exactly the vertex counts 0 and above
    [GRAFO_MAX_VERTICES] (and a failed allocation); a graph it returns
    has the requested count and kind, no entry at all, and is a state on
    which the other operations work. *)
Theorem create_graph_contract ok n dir :
  (create_graph ok n dir = None <->
     n = 0%nat \/ GRAFO_MAX_VERTICES < Z.of_nat n \/ ok = false) /\
  (forall g, create_graph ok n dir = Some g ->
     wf_graph g /\ num_vertices g = n /\ directed g = dir /\
     (forall v, neighbors g v = []) /\
     (forall v, (v < n)%nat -> get_degree g v = 0)).
Proof.
  assert (Hguard : (0 < n)%nat -> Z.of_nat n <= GRAFO_MAX_VERTICES ->
            _checa_overflow (Z.of_nat n) 8 = false).
  { intros H0 Hmax. destruct (_checa_overflow _ _) eqn:E; [|done].
    apply checa_overflow_true in E.
    unfold GRAFO_MAX_VERTICES, SIZE_MAX in *. lia. }
  split.
  - unfold create_graph.
    destruct (Nat.eqb_spec n 0) as [->|Hn]; simpl.
    { split; [by left|done]. }
    destruct (Z.ltb_spec GRAFO_MAX_VERTICES (Z.of_nat n)) as [Hbig|Hok].
    { split; [intros _; right; by left|done]. }
    rewrite Hguard by lia.
    destruct ok.
    + split; [done|]. intros [?|[?|?]]; [lia|lia|done].
    + split; [intros _; right; by right|done].
  - intros g Hg.
    assert (Hok : ok = true).
    { unfold create_graph in Hg. destruct (_ || _); [done|].
      destruct (_checa_overflow _ _); [done|]. by destruct ok. }
    subst ok. destruct (create_graph_wf n dir g Hg) as (Hwf & Hn & Hd & Hnb).
    split_and!; try done.
    intros v Hv. unfold get_degree. rewrite Hn.
    replace (n <=? v)%nat with false by (symmetry; apply Nat.leb_gt; lia).
    unfold create_graph in Hg. destruct (_ || _); [done|].
    destruct (_checa_overflow _ _); [done|]. injection Hg as <-. simpl.
    by rewrite lookup_total_replicate_2.
Qed.

(** ** What a removal leaves *)

Lemma remove_first_subset w l x : x ∈ remove_first w l -> x ∈ l.
Proof.
  unfold remove_first. destruct (list_find _ l) as [[i y]|]; [|done].
  intros Hx. by eapply list_elem_of_delete_inv.
Qed.

Lemma drop_neighbor_subset ok g v w :
  wf_graph g -> (v < num_vertices g)%nat ->
  match drop_neighbor ok g v w with
  | NotFound => True
  | ReallocFailed g' | Removed g' =>
      wf_graph g' /\ num_vertices g' = num_vertices g /\
      forall x y, y ∈ neighbors g' x -> y ∈ neighbors g x
  end.
Proof.
  intros Hwf Hv. pose proof (drop_neighbor_spec ok g v w Hwf Hv) as H.
  destruct (drop_neighbor ok g v w) as [|g'|g']; [done| |].
  - destruct H as (_ & _ & Hwf' & Hn & _ & Hnb & Hoth).
    split; [done|]. split; [done|]. intros x y Hy.
    destruct (decide (x = v)) as [->|Hne].
    + rewrite Hnb in Hy. by eapply remove_first_subset.
    + by rewrite Hoth in Hy.
  - destruct H as (_ & Hwf' & Hn & _ & Hnb & Hoth).
    split; [done|]. split; [done|]. intros x y Hy.
    destruct (decide (x = v)) as [->|Hne].
    + rewrite Hnb in Hy. by eapply remove_first_subset.
    + by rewrite Hoth in Hy.
Qed.

(** ** The stored-index invariant *)

(** Both edit operations keep the store well formed and keep every
    stored neighbour index below the vertex count, on every path:
    success, refusal of an out-of-range index, failed reallocation. *)
Theorem edits_keep_valid_adjacency ok1 ok2 g u v :
  wf_graph g -> valid_adjacency g ->
  (wf_graph (add_edge ok1 ok2 g u v).1 /\
   valid_adjacency (add_edge ok1 ok2 g u v).1) /\
  (wf_graph (remove_edge ok1 ok2 g u v).1 /\
   valid_adjacency (remove_edge ok1 ok2 g u v).1).
Proof.
  intros Hwf Hval. split.
  - destruct (decide (u < num_vertices g)%nat) as [Hu|Hu];
      [destruct (decide (v < num_vertices g)%nat) as [Hv|Hv]|].
    + destruct (add_edge_cases ok1 ok2 g u v Hwf Hu Hv)
        as (Hwf' & Hn & _ & [[_ Hnb]|[_ (_ & _ & Hsame)]]).
      * split; [done|]. intros a b Ha Hb. rewrite Hn in *.
        rewrite Hnb in Hb.
        apply elem_of_app in Hb as [Hb|Hb];
          [apply elem_of_app in Hb as [Hb|Hb]|].
        -- by eapply Hval.
        -- destruct (decide (a = u)); [|by apply elem_of_nil in Hb].
           apply list_elem_of_singleton in Hb. by subst.
        -- destruct (negb (directed g) && bool_decide (a = v));
             [|by apply elem_of_nil in Hb].
           apply list_elem_of_singleton in Hb. by subst.
      * split; [done|]. intros a b Ha Hb. rewrite Hn in *.
        rewrite Hsame in Hb by done. by eapply Hval.
    + unfold add_edge.
      replace (num_vertices g <=? v)%nat with true
        by (symmetry; apply Nat.leb_le; lia).
      by rewrite orb_true_r.
    + unfold add_edge.
      replace (num_vertices g <=? u)%nat with true
        by (symmetry; apply Nat.leb_le; lia).
      done.
  - unfold remove_edge.
    destruct (_ || _) eqn:Hrange; [done|].
    apply orb_false_iff in Hrange as [Hu Hv].
    apply Nat.leb_gt in Hu, Hv.
    pose proof (drop_neighbor_subset ok1 g u v Hwf Hu) as H1.
    destruct (drop_neighbor ok1 g u v) as [|g1|g1]; [done| |].
    + destruct H1 as (Hwf1 & Hn1 & Hsub1). split; [done|].
      intros a b Ha Hb. simpl in *. rewrite Hn1 in *. eapply Hval; eauto.
    + destruct H1 as (Hwf1 & Hn1 & Hsub1).
      assert (Hval1 : valid_adjacency g1).
      { intros a b Ha Hb. rewrite Hn1 in *. eapply Hval; eauto. }
      destruct (directed g); [done|].
      pose proof (drop_neighbor_subset ok2 g1 v u Hwf1 ltac:(lia)) as H2.
      destruct (drop_neighbor ok2 g1 v u) as [|g2|g2]; [done| |].
      * destruct H2 as (Hwf2 & Hn2 & Hsub2). split; [done|].
        intros a b Ha Hb. simpl in *. rewrite Hn2 in *. eapply Hval1; eauto.
      * destruct H2 as (Hwf2 & Hn2 & Hsub2). split; [done|].
        intros a b Ha Hb. simpl in *. rewrite Hn2 in *. eapply Hval1; eauto.
Qed.

Lemma edits_keep_valid_adjacency_witness :
  wf_graph g_cycle4 /\ valid_adjacency g_cycle4 /\
  (wf_graph (add_edge true true g_cycle4 0 2).1 /\
   valid_adjacency (add_edge true true g_cycle4 0 2).1) /\
  (wf_graph (remove_edge true true g_cycle4 0 2).1 /\
   valid_adjacency (remove_edge true true g_cycle4 0 2).1).
Proof.
  split; [exact wf_g_cycle4|]. split; [exact valid_g_cycle4|].
  exact (edits_keep_valid_adjacency true true g_cycle4 0 2
           wf_g_cycle4 valid_g_cycle4).
Defined.

(** ** Error codes *)

(** The code -2 is returned for, and only for, an out-of-range vertex
    index, by both edit operations, and then the structure is returned
    untouched. *)
Theorem out_of_range_code ok1 ok2 g u v :
  wf_graph g ->
  ((add_edge ok1 ok2 g u v).2 = -2 <->
     (num_vertices g <= u)%nat \/ (num_vertices g <= v)%nat) /\
  ((remove_edge ok1 ok2 g u v).2 = -2 <->
     (num_vertices g <= u)%nat \/ (num_vertices g <= v)%nat) /\
  ((num_vertices g <= u)%nat \/ (num_vertices g <= v)%nat ->
     (add_edge ok1 ok2 g u v).1 = g /\ (remove_edge ok1 ok2 g u v).1 = g).
Proof.
  intros Hwf.
  destruct (decide (u < num_vertices g)%nat) as [Hu|Hu];
    [destruct (decide (v < num_vertices g)%nat) as [Hv|Hv]|].
  - destruct (add_edge_cases ok1 ok2 g u v Hwf Hu Hv)
      as (_ & _ & _ & [[Ha _]|[Ha _]]);
    destruct (remove_edge_cases ok1 ok2 g u v Hwf Hu Hv)
      as (_ & _ & _ & [(Hr & _)|[(Hr & _)|(Hr & _)]]);
    split_and!; try (split; lia); intros [?|?]; lia.
  - unfold add_edge, remove_edge.
    replace (num_vertices g <=? v)%nat with true
      by (symmetry; apply Nat.leb_le; lia).
    rewrite orb_true_r. simpl. split_and!; try done; split; try done;
      intros _; right; lia.
  - unfold add_edge, remove_edge.
    replace (num_vertices g <=? u)%nat with true
      by (symmetry; apply Nat.leb_le; lia).
    simpl. split_and!; try done; split; try done; intros _; left; lia.
Qed.

Lemma out_of_range_code_witness :
  wf_graph g_pair /\
  ((add_edge true true g_pair 0 5).2 = -2 <->
     (num_vertices g_pair <= 0)%nat \/ (num_vertices g_pair <= 5)%nat) /\
  ((remove_edge true true g_pair 0 5).2 = -2 <->
     (num_vertices g_pair <= 0)%nat \/ (num_vertices g_pair <= 5)%nat) /\
  ((num_vertices g_pair <= 0)%nat \/ (num_vertices g_pair <= 5)%nat ->
     (add_edge true true g_pair 0 5).1 = g_pair /\
     (remove_edge true true g_pair 0 5).1 = g_pair).
Proof.
  split; [exact wf_g_pair|].
  exact (out_of_range_code true true g_pair 0 5 wf_g_pair).
Defined.

(** ** [remove_edge] when the reallocations succeed *)

(** With in-range vertices: if [v] is not in the list of [u] the call
    returns -3 and the very same structure; otherwise it returns 0, the
    list of [u] loses its first [v] and keeps the order of the rest, and
    on an undirected graph the list of [v] loses its first [u] if it has
    one (a missing mirror entry is tolerated). *)
Theorem remove_edge_contract g u v :
  wf_graph g -> (u < num_vertices g)%nat -> (v < num_vertices g)%nat ->
  (v ∉ neighbors g u -> remove_edge true true g u v = (g, -3)) /\
  (v ∈ neighbors g u ->
     (remove_edge true true g u v).2 = 0 /\
     forall x, neighbors (remove_edge true true g u v).1 x =
       let l := if decide (x = u) then remove_first v (neighbors g x)
                else neighbors g x in
       if negb (directed g) && bool_decide (x = v) then remove_first u l
       else l).
Proof.
  intros Hwf Hu Hv.
  destruct (remove_edge_cases true true g u v Hwf Hu Hv)
    as (_ & _ & _ & [(Hr & Hnin & Hg)|[(Hr & Hin & Hnb)|(_ & [?|?])]]).
  - split; [|done]. intros _.
    destruct (remove_edge true true g u v) as [g' rc]. simpl in *. by subst.
  - split; [done|]. by intros _.
  - done.
  - done.
Qed.

Lemma remove_edge_contract_witness :
  wf_graph g_fan /\ (0 < num_vertices g_fan)%nat /\
  (1 < num_vertices g_fan)%nat /\
  (1%nat ∉ neighbors g_fan 0 -> remove_edge true true g_fan 0 1 = (g_fan, -3)) /\
  (1%nat ∈ neighbors g_fan 0 ->
     (remove_edge true true g_fan 0 1).2 = 0 /\
     forall x, neighbors (remove_edge true true g_fan 0 1).1 x =
       let l := if decide (x = 0%nat) then remove_first 1 (neighbors g_fan x)
                else neighbors g_fan x in
       if negb (directed g_fan) && bool_decide (x = 1%nat) then remove_first 0 l
       else l).
Proof.
  split; [exact wf_g_fan|]. split; [simpl; lia|]. split; [simpl; lia|].
  apply (remove_edge_contract g_fan 0 1).
  - exact wf_g_fan.
  - simpl; lia.
  - simpl; lia.
Defined.

(** What "first occurrence" means for [remove_first]. *)
Example remove_edge_first_occurrence :
  neighbors (remove_edge true true
               (add_edge true true (add_edge true true g_fan 0 1).1 0 2).1 0 1).1 0
    = [2; 1; 2]%nat.
Proof. by vm_compute. Qed.

(** ** Degrees *)

Lemma get_degree_length g x :
  wf_graph g -> (x < num_vertices g)%nat ->
  get_degree g x = Z.of_nat (length (neighbors g x)).
Proof.
  intros Hwf Hx. unfold get_degree, neighbors.
  replace (num_vertices g <=? x)%nat with false
    by (symmetry; apply Nat.leb_gt; lia).
  rewrite length_take_le; [done|]. by apply wf_capacity.
Qed.

(** [get_degree] counts entries: a successful [add_edge(g, u, v)] raises
    the degree of [u] by one and, on an undirected graph, that of [v] by
    one as well, so an undirected self-loop raises its vertex by two;
    every other degree is unchanged. *)
Theorem get_degree_after_add_edge ok1 ok2 g u v x :
  wf_graph g ->
  (u < num_vertices g)%nat -> (v < num_vertices g)%nat ->
  (x < num_vertices g)%nat ->
  (add_edge ok1 ok2 g u v).2 = 0 ->
  get_degree (add_edge ok1 ok2 g u v).1 x =
    get_degree g x + (if decide (x = u) then 1 else 0)
    + (if negb (directed g) && bool_decide (x = v) then 1 else 0).
Proof.
  intros Hwf Hu Hv Hx Hrc.
  destruct (add_edge_cases ok1 ok2 g u v Hwf Hu Hv)
    as (Hwf' & Hn & _ & [[_ Hnb]|[[?|?] _]]); [|lia..].
  rewrite !get_degree_length by (done || lia).
  rewrite Hnb, !length_app.
  destruct (decide (x = u)); destruct (negb (directed g) && bool_decide (x = v));
    simpl; lia.
Qed.

Lemma get_degree_after_add_edge_witness :
  wf_graph g_single /\
  (0 < num_vertices g_single)%nat /\ (0 < num_vertices g_single)%nat /\
  (0 < num_vertices g_single)%nat /\
  (add_edge true true g_single 0 0).2 = 0 /\
  get_degree (add_edge true true g_single 0 0).1 0 =
    get_degree g_single 0 + (if decide (0%nat = 0%nat) then 1 else 0)
    + (if negb (directed g_single) && bool_decide (0%nat = 0%nat) then 1 else 0).
Proof.
  split; [exact wf_g_single|]. split; [simpl; lia|]. split; [simpl; lia|].
  split; [simpl; lia|]. split; [reflexivity|].
  apply (get_degree_after_add_edge true true g_single 0 0 0).
  - exact wf_g_single.
  - simpl; lia.
  - simpl; lia.
  - simpl; lia.
  - reflexivity.
Defined.

(** ** The mirror invariant under the edit operations *)

(** On an undirected graph, [add_edge] keeps the mirror invariant on every
    return, failed reallocations included, and [remove_edge] keeps it on
    every return except the code -4 of a failed reallocation. *)
Theorem edits_keep_symmetric ok1 ok2 g u v :
  wf_graph g -> directed g = false ->
  (u < num_vertices g)%nat -> (v < num_vertices g)%nat ->
  symmetric g ->
  symmetric (add_edge ok1 ok2 g u v).1 /\
  ((remove_edge ok1 ok2 g u v).2 <> -4 ->
   symmetric (remove_edge ok1 ok2 g u v).1).
Proof.
  intros Hwf Hdir Hu Hv Hsym. split.
  - by apply add_edge_symmetric.
  - intros Hrc. by apply remove_edge_symmetric.
Qed.

Lemma edits_keep_symmetric_witness :
  wf_graph g_double /\ directed g_double = false /\
  (0 < num_vertices g_double)%nat /\ (1 < num_vertices g_double)%nat /\
  symmetric g_double /\
  symmetric (add_edge true false g_double 0 1).1 /\
  ((remove_edge true true g_double 0 1).2 <> -4 ->
   symmetric (remove_edge true true g_double 0 1).1).
Proof.
  split; [exact wf_g_double|]. split; [reflexivity|].
  split; [simpl; lia|]. split; [simpl; lia|].
  split; [exact symmetric_g_double|].
  split.
  - apply (edits_keep_symmetric true false g_double 0 1).
    + exact wf_g_double.
    + reflexivity.
    + simpl; lia.
    + simpl; lia.
    + exact symmetric_g_double.
  - apply (edits_keep_symmetric true true g_double 0 1).
    + exact wf_g_double.
    + reflexivity.
    + simpl; lia.
    + simpl; lia.
    + exact symmetric_g_double.
Defined.

(** * Topological order *)

(** ** Finite sets of vertices *)

Lemma repeat_or_NoDup (l : list nat) :
  NoDup l \/
  exists i j x, (i < j)%nat /\ l !! i = Some x /\ l !! j = Some x.
Proof.
  induction l as [|a l IH]; [left; constructor|].
  destruct (decide (a ∈ l)) as [Hin|Hnin].
  - right. apply list_elem_of_lookup_1 in Hin as [j Hj].
    exists 0%nat, (S j), a. split; [lia|done].
  - destruct IH as [Hnd|(i & j & x & Hij & Hi & Hj)].
    + left. by constructor.
    + right. exists (S i), (S j), x. split; [lia|done].
Qed.

Lemma bounded_NoDup_length (l : list nat) n :
  NoDup l -> (forall x, x ∈ l -> (x < n)%nat) -> (length l <= n)%nat.
Proof.
  intros Hnd Hlt.
  assert (Hsub : l ⊆+ seq 0 n).
  { apply NoDup_submseteq; [done|]. intros x Hx. apply elem_of_seq.
    specialize (Hlt x Hx). lia. }
  apply submseteq_length in Hsub. by rewrite length_seq in Hsub.
Qed.

Lemma full_NoDup_perm (l : list nat) n :
  NoDup l -> (forall x, x ∈ l -> (x < n)%nat) -> length l = n ->
  l ≡ₚ seq 0 n.
Proof.
  intros Hnd Hlt Hlen.
  apply submseteq_length_Permutation.
  - apply NoDup_submseteq; [done|]. intros x Hx. apply elem_of_seq.
    specialize (Hlt x Hx). lia.
  - rewrite length_seq. lia.
Qed.

(** In a non-empty set of vertices each of which has a predecessor in
    the set, some vertex reaches itself. *)
Lemma cycle_from_predecessors n (R : nat -> nat -> Prop) (U : nat -> Prop) :
  (forall v, U v -> (v < n)%nat) ->
  (forall v, U v -> exists u, U u /\ R u v) ->
  (exists v, U v) ->
  exists w, tc R w w.
Proof.
  intros Hlt Hpred [v0 Hv0].
  assert (Hwalk : forall k v, U v ->
            exists l, length l = k /\ Forall U l /\ chain R (l ++ [v])).
  { induction k as [|k IH]; intros v Hv.
    - exists []. split; [done|]. split; [constructor|].
      intros i j x y Hij Hi Hj. simpl in *.
      destruct j as [|j]; [lia|]. by destruct j.
    - destruct (Hpred v Hv) as (u & Hu & Huv).
      destruct (IH u Hu) as (l & Hlen & HU & Hch).
      exists (l ++ [u]). split; [rewrite length_app; simpl; lia|].
      split; [apply Forall_app; split; [done|by constructor]|].
      intros i j x y Hij Hi Hj.
      assert (Hl : length (l ++ [u]) = S k) by (rewrite length_app; simpl; lia).
      destruct (decide (j < S k)%nat) as [Hj'|Hj'].
      + rewrite lookup_app_l in Hi by lia. rewrite lookup_app_l in Hj by lia.
        by apply (Hch i j).
      + pose proof (lookup_lt_Some _ _ _ Hj) as Hjl.
        rewrite length_app in Hjl. simpl in Hjl.
        assert (j = S k) as -> by lia.
        rewrite lookup_app_r in Hj by lia.
        replace (S k - length (l ++ [u]))%nat with 0%nat in Hj by lia.
        injection Hj as <-.
        rewrite lookup_app_l in Hi by lia.
        destruct (decide (i = k)) as [->|Hne].
        * rewrite lookup_app_r in Hi by lia.
          replace (k - length l)%nat with 0%nat in Hi by lia.
          injection Hi as <-. by apply tc_once.
        * eapply tc_r; [|exact Huv].
          apply (Hch i k); [lia|done|].
          rewrite lookup_app_r by lia.
          by replace (k - length l)%nat with 0%nat by lia. }
  destruct (Hwalk n v0 Hv0) as (l & Hlen & HU & Hch).
  destruct (repeat_or_NoDup (l ++ [v0])) as [Hnd|(i & j & x & Hij & Hi & Hj)].
  - exfalso.
    assert (length (l ++ [v0]) <= n)%nat.
    { apply bounded_NoDup_length; [done|].
      intros x Hx. apply elem_of_app in Hx as [Hx|Hx].
      - apply Hlt. by rewrite Forall_forall in HU; apply HU.
      - apply list_elem_of_singleton in Hx. subst. by apply Hlt. }
    rewrite length_app in *. simpl in *. lia.
  - exists x. by apply (Hch i j).
Qed.

(** A relation that embeds in the order of positions of a duplicate-free
    list has no cycle. *)
Lemma no_cycle_in_order (R : nat -> nat -> Prop) (l : list nat) :
  NoDup l ->
  (forall u v, R u v ->
     exists i j, (i < j)%nat /\ l !! i = Some u /\ l !! j = Some v) ->
  forall w, ~ tc R w w.
Proof.
  intros Hnd Hord.
  assert (Htc : forall u v, tc R u v ->
            exists i j, (i < j)%nat /\ l !! i = Some u /\ l !! j = Some v).
  { intros u v H. induction H as [u v H|u v w H _ IH].
    - by apply Hord.
    - destruct (Hord u v H) as (i & j & Hij & Hi & Hj).
      destruct IH as (j' & k & Hjk & Hj' & Hk).
      assert (j = j') as <- by (by eapply NoDup_lookup).
      exists i, k. split; [lia|done]. }
  intros w Hw. destruct (Htc w w Hw) as (i & j & Hij & Hi & Hj).
  assert (i = j) by (by eapply NoDup_lookup). lia.
Qed.

(** ** Entries and their counts *)

Lemma elem_of_concat_map {A B : Type} (f : B -> list A) (l : list B) (x : A) :
  x ∈ concat (map f l) <-> exists u, u ∈ l /\ x ∈ f u.
Proof.
  induction l as [|a l IH]; simpl.
  - split; [by intros ?%elem_of_nil|by intros (u & ?%elem_of_nil & _)].
  - rewrite elem_of_app, IH. split.
    + intros [H|(u & Hu & Hx)]; [exists a; split; [by left|done]|].
      exists u. split; [by right|done].
    + intros (u & Hu & Hx). apply elem_of_cons in Hu as [->|Hu]; [by left|].
      right. eauto.
Qed.

Lemma occurrences_le_length w l : (occurrences w l <= length l)%nat.
Proof. unfold occurrences. apply length_filter. Qed.

Lemma occurrences_zero w l : occurrences w l = 0%nat <-> w ∉ l.
Proof.
  pose proof (occurrences_pos w l) as H. split.
  - intros H0 Hin. apply H in Hin. lia.
  - intros Hnin. destruct (occurrences w l) eqn:E; [done|].
    exfalso. apply Hnin, H. lia.
Qed.

Lemma elem_of_all_entries g v :
  v ∈ all_entries g <-> exists u, edge g u v.
Proof.
  unfold all_entries, edge. rewrite elem_of_concat_map.
  split; intros (u & Hu & Hv); exists u.
  - apply elem_of_seq in Hu. split; [lia|done].
  - split; [apply elem_of_seq; lia|done].
Qed.

Lemma elem_of_pending g taken v :
  v ∈ pending g taken <-> exists u, edge g u v /\ u ∉ taken.
Proof.
  unfold pending, edge. rewrite elem_of_concat_map.
  split.
  - intros (u & Hu & Hv). apply list_elem_of_filter in Hu as [Hnt Hu].
    apply elem_of_seq in Hu. exists u. split; [split; [lia|done]|done].
  - intros (u & [Hu Hv] & Hnt). exists u. split; [|done].
    apply list_elem_of_filter. split; [done|]. apply elem_of_seq. lia.
Qed.

Lemma filter_not_taken_nil (l : list nat) :
  filter (fun u => u ∉ []) l = l.
Proof.
  induction l as [|a l IH]; [done|].
  rewrite filter_cons, decide_True by apply not_elem_of_nil. by rewrite IH.
Qed.

Lemma pending_nil g : pending g [] = all_entries g.
Proof. unfold pending, all_entries. by rewrite filter_not_taken_nil. Qed.

Lemma filter_not_taken_snoc_absent (l taken : list nat) u :
  u ∉ l ->
  filter (fun w => w ∉ taken ++ [u]) l = filter (fun w => w ∉ taken) l.
Proof.
  induction l as [|a l IH]; intros Hu; [done|].
  apply not_elem_of_cons in Hu as [Hne Hu].
  rewrite !filter_cons, IH by done.
  destruct (decide (a ∉ taken)) as [Ha|Ha].
  - rewrite decide_True; [done|].
    rewrite elem_of_app, list_elem_of_singleton. intros [?|?]; [done|congruence].
  - rewrite decide_False; [done|].
    intros Hn. apply Ha. intros Hin. apply Hn. apply elem_of_app. by left.
Qed.

Lemma occurrences_filter_split (f : nat -> list nat) (l taken : list nat) u v :
  NoDup l -> u ∈ l -> u ∉ taken ->
  occurrences v (concat (map f (filter (fun w => w ∉ taken) l))) =
  (occurrences v (concat (map f (filter (fun w => w ∉ taken ++ [u]) l)))
   + occurrences v (f u))%nat.
Proof.
  intros Hnd Hin Hnt. induction l as [|a l IH]; [by apply elem_of_nil in Hin|].
  apply NoDup_cons in Hnd as [Ha Hnd].
  rewrite !filter_cons.
  destruct (decide (a = u)) as [->|Hne].
  - rewrite decide_True by done.
    rewrite decide_False
      by (intros Hn; apply Hn; apply elem_of_app; right; by left).
    rewrite filter_not_taken_snoc_absent by done.
    simpl. rewrite occurrences_app. lia.
  - apply elem_of_cons in Hin as [?|Hin]; [congruence|].
    specialize (IH Hnd Hin).
    destruct (decide (a ∉ taken)) as [Hat|Hat].
    + rewrite decide_True.
      * simpl. rewrite !occurrences_app. lia.
      * rewrite elem_of_app, list_elem_of_singleton.
        intros [?|?]; [done|congruence].
    + rewrite decide_False; [done|].
      intros Hn. apply Hat. intros Hin'. apply Hn. apply elem_of_app. by left.
Qed.

Lemma pending_snoc g taken u v :
  (u < num_vertices g)%nat -> u ∉ taken ->
  occurrences v (pending g taken) =
  (occurrences v (pending g (taken ++ [u])) + occurrences v (neighbors g u))%nat.
Proof.
  intros Hu Hnt. unfold pending.
  apply occurrences_filter_split; [apply NoDup_seq| |done].
  apply elem_of_seq. lia.
Qed.

(** ** The in-degree count *)

Lemma topo_count_entries n l : forall deg,
  length deg = n ->
  (forall x, x ∈ l -> (x < n)%nat) ->
  (forall v, (v < n)%nat ->
     0 <= deg !!! v /\ deg !!! v + Z.of_nat (occurrences v l) <= SIZE_MAX) ->
  exists deg', for_each_opt (topo_count_entry n) deg l = Some deg' /\
    length deg' = n /\
    forall v, (v < n)%nat -> deg' !!! v = deg !!! v + Z.of_nat (occurrences v l).
Proof.
  induction l as [|x l IH]; intros deg Hlen Hval Hbound; simpl.
  - exists deg. split; [done|]. split; [done|].
    intros v Hv. rewrite occurrences_nil. lia.
  - assert (Hx : (x < n)%nat) by (apply Hval; by left).
    unfold topo_count_entry at 1.
    replace (n <=? x)%nat with false by (symmetry; apply Nat.leb_gt; lia).
    destruct (Hbound x Hx) as [Hx0 Hx1].
    rewrite occurrences_cons, decide_True in Hx1 by done.
    rewrite to_size_t_small by lia.
    destruct (IH (<[x := deg !!! x + 1]> deg)) as (deg' & Hrun & Hlen' & Hdeg').
    + by rewrite length_insert.
    + intros y Hy. apply Hval. by right.
    + intros v Hv. destruct (Hbound v Hv) as [Hv0 Hv1].
      rewrite occurrences_cons in Hv1.
      destruct (decide (v = x)) as [->|Hne].
      * rewrite list_lookup_total_insert_eq by lia.
        rewrite decide_True in Hv1 by done. lia.
      * rewrite list_lookup_total_insert_ne by done.
        rewrite decide_False in Hv1 by done. lia.
    + exists deg'. split; [done|]. split; [done|].
      intros v Hv. rewrite (Hdeg' v Hv), occurrences_cons.
      destruct (decide (v = x)) as [->|Hne].
      * rewrite list_lookup_total_insert_eq by lia.
        rewrite decide_True by done. lia.
      * rewrite list_lookup_total_insert_ne by done.
        rewrite decide_False by done. lia.
Qed.

Lemma topo_count_spec g :
  valid_adjacency g -> entries_fit g ->
  exists deg, topo_count g = Some deg /\
    length deg = num_vertices g /\
    forall v, (v < num_vertices g)%nat ->
      deg !!! v = Z.of_nat (occurrences v (all_entries g)).
Proof.
  intros Hval Hfit. unfold topo_count.
  rewrite (for_each_opt_concat (topo_count_entry (num_vertices g)) (neighbors g)).
  fold (all_entries g).
  destruct (topo_count_entries (num_vertices g) (all_entries g)
              (replicate (num_vertices g) 0)) as (deg & Hrun & Hlen & Hdeg).
  - by rewrite length_replicate.
  - intros x Hx. apply elem_of_all_entries in Hx as (u & Hu & Hx).
    by eapply Hval.
  - intros v Hv. rewrite lookup_total_replicate_2 by done.
    pose proof (occurrences_le_length v (all_entries g)).
    unfold entries_fit in Hfit. lia.
  - exists deg. split; [done|]. split; [done|].
    intros v Hv. rewrite (Hdeg v Hv), lookup_total_replicate_2 by done. lia.
Qed.

(** ** Kahn's loop *)

Lemma topo_release_inv g st v rest :
  (v < num_vertices g)%nat ->
  topo_inv g (v :: rest) st -> topo_inv g rest (topo_release st v).
Proof.
  intros Hv (Hlen & Hfront & Hord & Hnd & Hlt & Hdeg & Hmax & Hzero & Hpos).
  pose proof (Hdeg v Hv) as Hdv. rewrite occurrences_cons, decide_True in Hdv by done.
  pose proof (Hmax v Hv) as Hmv.
  unfold topo_release.
  rewrite to_size_t_small by lia.
  set (d := ts_in_degree st !!! v - 1).
  assert (Hvq : v ∉ ts_queue st).
  { intros Hin. apply (Hzero v Hv) in Hin. lia. }
  unfold topo_inv; simpl. split_and!.
  - by rewrite length_insert.
  - destruct (d =? 0); [rewrite length_app; simpl; lia|done].
  - destruct (d =? 0); [|done]. by rewrite take_app_le.
  - destruct (d =? 0); [|done]. apply NoDup_app. split; [done|]. split.
    + intros x Hx Hx'. apply list_elem_of_singleton in Hx'. by subst.
    + apply NoDup_singleton.
  - intros x Hx. destruct (d =? 0); [|by apply Hlt].
    apply elem_of_app in Hx as [Hx|Hx]; [by apply Hlt|].
    apply list_elem_of_singleton in Hx. by subst.
  - intros w Hw. destruct (decide (w = v)) as [->|Hne].
    + rewrite list_lookup_total_insert_eq by lia. unfold d. lia.
    + rewrite list_lookup_total_insert_ne by done.
      rewrite (Hdeg w Hw), occurrences_cons, decide_False by done. lia.
  - intros w Hw. destruct (decide (w = v)) as [->|Hne].
    + rewrite list_lookup_total_insert_eq by lia. unfold d. lia.
    + rewrite list_lookup_total_insert_ne by done. by apply Hmax.
  - intros w Hw. destruct (decide (w = v)) as [->|Hne].
    + rewrite list_lookup_total_insert_eq by lia.
      destruct (Z.eqb_spec d 0) as [Hd|Hd].
      * split; [done|]. intros _. apply elem_of_app. right. by left.
      * split; [done|lia].
    + rewrite list_lookup_total_insert_ne by done.
      rewrite <- (Hzero w Hw).
      destruct (d =? 0); [|done].
      rewrite elem_of_app, list_elem_of_singleton.
      split; [intros [?|?]; [done|congruence]|intros ?; by left].
  - intros j w u Hj He.
    destruct (Z.eqb_spec d 0) as [Hd|Hd]; [|by apply (Hpos j w u)].
    destruct (decide (j < length (ts_queue st))%nat) as [Hjl|Hjl].
    + rewrite lookup_app_l in Hj by done.
      destruct (Hpos j w u Hj He) as (i & Hi & Hiu).
      exists i. split; [done|]. rewrite lookup_app_l by lia. done.
    + pose proof (lookup_lt_Some _ _ _ Hj) as Hjl'.
      rewrite length_app in Hjl'. simpl in Hjl'.
      assert (j = length (ts_queue st)) as -> by lia.
      rewrite list_lookup_middle in Hj by done. injection Hj as <-.
      assert (Hnp : v ∉ pending g (ts_order st)).
      { apply occurrences_zero. unfold d in Hd. lia. }
      assert (Hu : u ∈ ts_order st).
      { destruct (decide (u ∈ ts_order st)) as [|Hnu]; [done|].
        exfalso. apply Hnp. apply elem_of_pending. eauto. }
      rewrite Hord in Hu. apply elem_of_take in Hu as (i & Hi & Hif).
      exists i. split; [lia|]. by rewrite lookup_app_l by lia.
Qed.

Lemma topo_release_fold g rest : forall st,
  (forall v, v ∈ rest -> (v < num_vertices g)%nat) ->
  topo_inv g rest st ->
  topo_inv g [] (foldl topo_release st rest) /\
  ts_front (foldl topo_release st rest) = ts_front st.
Proof.
  induction rest as [|v rest IH]; intros st Hval Hinv; simpl; [done|].
  destruct (IH (topo_release st v)) as [Hinv' Hfront'].
  - intros x Hx. apply Hval. by right.
  - apply topo_release_inv; [|done]. apply Hval. by left.
  - split; [done|]. by rewrite Hfront'.
Qed.

Lemma topo_step_inv g st :
  valid_adjacency g -> topo_inv g [] st ->
  match topo_step g st with
  | inl st' =>
      topo_inv g [] st' /\
      (num_vertices g - ts_front st' < num_vertices g - ts_front st)%nat
  | inr r => topo_inv g [] r /\ ts_front r = length (ts_queue r)
  end.
Proof.
  intros Hval Hinv. unfold topo_step.
  destruct (Nat.ltb_spec (ts_front st) (length (ts_queue st))) as [Hlt|Hge].
  2:{ split; [done|]. destruct Hinv as (_ & Hfront & _). lia. }
  destruct Hinv as (Hlen & Hfront & Hord & Hnd & Hbound & Hdeg & Hmax & Hzero & Hpos).
  destruct (lookup_lt_is_Some_2 _ _ Hlt) as [u Hu].
  rewrite (list_lookup_total_correct _ _ _ Hu).
  assert (Hun : (u < num_vertices g)%nat).
  { apply Hbound. by eapply list_elem_of_lookup_2. }
  assert (Hnew : u ∉ ts_order st).
  { rewrite Hord. intros Hin. apply elem_of_take in Hin as (i & Hi & Hif).
    assert (i = ts_front st) by (by eapply NoDup_lookup). lia. }
  pose proof (bounded_NoDup_length _ _ Hnd Hbound) as Hqn.
  set (st1 := mkTopo _ _ _ _).
  assert (Hinv1 : topo_inv g (neighbors g u) st1).
  { unfold topo_inv, st1; simpl. split_and!; try done.
    - rewrite Hord. by erewrite take_S_r.
    - intros v Hv. rewrite (Hdeg v Hv), occurrences_nil.
      rewrite (pending_snoc g (ts_order st) u v Hun Hnew). lia. }
  destruct (topo_release_fold g (neighbors g u) st1) as [Hinv' Hfront'];
    [|done|].
  { intros v Hv. by eapply Hval. }
  split; [done|]. rewrite Hfront'. simpl. lia.
Qed.

Lemma topo_initial_inv g deg :
  length deg = num_vertices g ->
  (forall v, (v < num_vertices g)%nat ->
     deg !!! v = Z.of_nat (occurrences v (all_entries g))) ->
  entries_fit g ->
  topo_inv g []
    (mkTopo deg (filter (fun v => deg !!! v = 0) (seq 0 (num_vertices g))) 0 []).
Proof.
  intros Hlen Hdeg Hfit. unfold topo_inv; simpl. split_and!; try done.
  - lia.
  - apply NoDup_filter, NoDup_seq.
  - intros v Hv. apply list_elem_of_filter in Hv as [_ Hv].
    apply elem_of_seq in Hv. lia.
  - intros v Hv. rewrite pending_nil, occurrences_nil, (Hdeg v Hv). lia.
  - intros v Hv. rewrite (Hdeg v Hv).
    pose proof (occurrences_le_length v (all_entries g)).
    unfold entries_fit in Hfit. lia.
  - intros v Hv. rewrite list_elem_of_filter, elem_of_seq. split; [tauto|].
    intros H0. split; [done|lia].
  - intros j v u Hj He. exfalso.
    apply list_elem_of_lookup_2, list_elem_of_filter in Hj as [H0 Hv].
    apply elem_of_seq in Hv. rewrite Hdeg in H0 by lia.
    assert (Hin : v ∈ all_entries g) by (apply elem_of_all_entries; eauto).
    apply occurrences_pos in Hin. lia.
Qed.

(** ** The result of [topological_sort] *)


Lemma valid_g_dag3 : valid_adjacency g_dag3.
Proof.
  intros u v Hu Hin. simpl in Hu.
  destruct u as [|[|[|u]]]; [..|lia];
    vm_compute in Hin; split_elem_of Hin; simpl; lia.
Qed.

Lemma entries_fit_g_dag3 : entries_fit g_dag3.
Proof. by vm_compute. Qed.


(** The scenario of the specification, and a cycle. *)
Example topological_sort_scenario :
  topological_sort g_dag3 = Some (Some [0; 1; 2]%nat) /\
  topological_sort g_ring3 = Some None.
Proof. by vm_compute. Qed.

(** * Union-find and Kruskal *)

(** ** Representatives *)

Lemma is_root_fixed parent x r : is_root parent x r -> parent !!! r = r.
Proof. induction 1; done. Qed.

Lemma is_root_functional parent x r1 r2 :
  is_root parent x r1 -> is_root parent x r2 -> r1 = r2.
Proof.
  intros H1. revert r2. induction H1 as [x Hx|x r Hx _ IH]; intros r2 H2.
  - inversion H2; subst; [done|congruence].
  - inversion H2; subst; [congruence|]. by apply IH.
Qed.

Lemma is_root_of_root parent x r :
  parent !!! x = x -> is_root parent x r -> r = x.
Proof. intros Hx H. inversion H; subst; [done|congruence]. Qed.

Lemma same_set_sym parent a b : same_set parent a b -> same_set parent b a.
Proof. intros (r & Ha & Hb). by exists r. Qed.

Lemma same_set_trans parent a b c :
  same_set parent a b -> same_set parent b c -> same_set parent a c.
Proof.
  intros (r & Ha & Hb) (r' & Hb' & Hc).
  assert (r = r') as <- by (by eapply is_root_functional).
  by exists r.
Qed.

(** Path compression: pointing [x] at its own representative changes no
    representative. *)
Lemma is_root_compress parent x r :
  (x < length parent)%nat -> is_root parent x r ->
  forall y r', is_root (<[x := r]> parent) y r' <-> is_root parent y r'.
Proof.
  intros Hx Hr.
  destruct (decide (parent !!! x = x)) as [Hfix|Hmove].
  { assert (r = x) as -> by (by eapply is_root_of_root).
    assert (Hsome : parent !! x = Some x).
    { apply list_lookup_alt. split; [done|done]. }
    by rewrite list_insert_id. }
  assert (Hrx : r <> x).
  { intros ->. apply Hmove. by eapply is_root_fixed. }
  assert (Hrr : parent !!! r = r) by (by eapply is_root_fixed).
  intros y r'. split.
  - induction 1 as [y Hy|y r' Hy _ IH].
    + destruct (decide (y = x)) as [->|Hne].
      * rewrite list_lookup_total_insert_eq in Hy by done. congruence.
      * rewrite list_lookup_total_insert_ne in Hy by done. by constructor.
    + destruct (decide (y = x)) as [->|Hne].
      * rewrite list_lookup_total_insert_eq in IH by done.
        assert (r' = r) as -> by (by eapply is_root_of_root).
        done.
      * rewrite list_lookup_total_insert_ne in Hy, IH by done.
        by apply is_root_up.
  - induction 1 as [y Hy|y r' Hy Hup IH].
    + apply is_root_here.
      rewrite list_lookup_total_insert_ne by congruence. done.
    + destruct (decide (y = x)) as [->|Hne].
      * assert (r' = r) as ->.
        { eapply is_root_functional; [|exact Hr]. by apply is_root_up. }
        apply is_root_up.
        -- rewrite list_lookup_total_insert_eq by done. done.
        -- rewrite list_lookup_total_insert_eq by done.
           apply is_root_here. by rewrite list_lookup_total_insert_ne.
      * apply is_root_up.
        -- by rewrite list_lookup_total_insert_ne.
        -- by rewrite list_lookup_total_insert_ne.
Qed.

(** Linking the representative [a] under the representative [b]. *)
Lemma is_root_link parent a b :
  (a < length parent)%nat ->
  parent !!! a = a -> parent !!! b = b -> a <> b ->
  forall y r', is_root (<[a := b]> parent) y r' <->
    (is_root parent y a /\ r' = b) \/ (is_root parent y r' /\ r' <> a).
Proof.
  intros Hlen Ha Hb Hab y r'. split.
  - induction 1 as [y Hy|y r' Hy _ IH].
    + destruct (decide (y = a)) as [->|Hne].
      * rewrite list_lookup_total_insert_eq in Hy by done. congruence.
      * rewrite list_lookup_total_insert_ne in Hy by done.
        right. split; [by constructor|done].
    + destruct (decide (y = a)) as [->|Hne].
      * rewrite list_lookup_total_insert_eq in IH by done.
        left. split; [by constructor|].
        destruct IH as [[H _]|[H _]].
        -- exfalso. apply Hab. by eapply is_root_of_root.
        -- by eapply is_root_of_root.
      * rewrite list_lookup_total_insert_ne in Hy, IH by done.
        destruct IH as [[H ->]|[H Hr]].
        -- left. split; [by apply is_root_up|done].
        -- right. split; [by apply is_root_up|done].
  - intros [[H ->]|[H Hr]].
    + remember a as a' eqn:Ea in H. revert Ea.
      induction H as [y Hy|y r Hy Hup IH]; intros ->.
      * apply is_root_up.
        -- rewrite list_lookup_total_insert_eq by done. congruence.
        -- rewrite list_lookup_total_insert_eq by done.
           apply is_root_here. by rewrite list_lookup_total_insert_ne.
      * assert (y <> a) by congruence.
        apply is_root_up.
        -- by rewrite list_lookup_total_insert_ne.
        -- rewrite list_lookup_total_insert_ne by done. by apply IH.
    + induction H as [y Hy|y r Hy Hup IH].
      * apply is_root_here. by rewrite list_lookup_total_insert_ne.
      * assert (y <> a) by congruence.
        apply is_root_up.
        -- by rewrite list_lookup_total_insert_ne.
        -- rewrite list_lookup_total_insert_ne by done. by apply IH.
Qed.

(** ** [ds_find] *)

Lemma is_root_rank n ds B x r :
  uf_inv n ds B -> (x < n)%nat -> is_root (ds_parent ds) x r ->
  ds_rank ds !!! x <= ds_rank ds !!! r /\ (r < n)%nat.
Proof.
  intros (_ & _ & _ & Hpar & Hrk & _) Hx H.
  induction H as [x Hfix|x r Hmove _ IH]; [split; [lia|done]|].
  destruct (IH (Hpar x Hx)) as [Hle Hr].
  specialize (Hrk x Hx Hmove). split; [lia|done].
Qed.

(** [ds_find] returns the representative of [x]; the compression it
    performs keeps the forest, the ranks and every representative. *)
Lemma ds_find_spec n ds B : forall depth x,
  uf_inv n ds B -> (x < n)%nat ->
  B - ds_rank ds !!! x < Z.of_nat depth ->
  exists ds' r, ds_find depth ds x = Some (ds', r) /\
    is_root (ds_parent ds) x r /\ (r < n)%nat /\
    uf_inv n ds' B /\ ds_rank ds' = ds_rank ds /\
    (forall y r', is_root (ds_parent ds') y r' <-> is_root (ds_parent ds) y r') /\
    (forall y, ds_parent ds' !!! y = y <-> ds_parent ds !!! y = y).
Proof.
  induction depth as [|d IH]; intros x Hinv Hx Hd.
  { destruct Hinv as (_ & _ & _ & _ & _ & Hb). specialize (Hb x Hx). lia. }
  simpl. destruct (Nat.eqb_spec (ds_parent ds !!! x) x) as [Hfix|Hmove].
  { exists ds, x. rewrite Hfix. split; [done|]. split; [by constructor|].
    split_and!; done. }
  pose proof Hinv as (Hn & Hlp & Hlr & Hpar & Hrk & Hb).
  destruct (IH (ds_parent ds !!! x) Hinv (Hpar x Hx)) as
    (ds1 & r & -> & Hroot & Hr & Hinv1 & Hrank1 & Hsame1 & Hfix1).
  { specialize (Hrk x Hx Hmove). lia. }
  destruct Hinv1 as (Hn1 & Hlp1 & Hlr1 & Hpar1 & Hrk1 & Hb1).
  assert (Hxr : is_root (ds_parent ds) x r) by (by apply is_root_up).
  assert (Hxr1 : is_root (ds_parent ds1) x r) by (by apply Hsame1).
  assert (Hrx : r <> x).
  { intros ->. apply Hmove. by eapply is_root_fixed. }
  eexists _, r. split.
  { simpl. by rewrite list_lookup_total_insert_eq by lia. }
  split; [done|]. split; [done|]. split; [|split; [done|split]].
  - split_and!; simpl; try done.
    + by rewrite length_insert.
    + intros y Hy. destruct (decide (y = x)) as [->|Hne].
      * by rewrite list_lookup_total_insert_eq by lia.
      * rewrite list_lookup_total_insert_ne by done. by apply Hpar1.
    + intros y Hy. destruct (decide (y = x)) as [->|Hne].
      * rewrite list_lookup_total_insert_eq by lia. intros _.
        rewrite Hrank1.
        destruct (is_root_rank n ds B _ r Hinv (Hpar x Hx) Hroot) as [Hle _].
        specialize (Hrk x Hx Hmove). lia.
      * rewrite list_lookup_total_insert_ne by done. by apply Hrk1.
  - intros y r'. simpl. rewrite is_root_compress by (done || lia).
    apply Hsame1.
  - intros y. simpl. destruct (decide (y = x)) as [->|Hne].
    + rewrite list_lookup_total_insert_eq by lia. split; [done|congruence].
    + rewrite list_lookup_total_insert_ne by done. apply Hfix1.
Qed.

Lemma root_exists n ds B x :
  uf_inv n ds B -> (x < n)%nat ->
  exists r, is_root (ds_parent ds) x r /\ (r < n)%nat /\ ds_parent ds !!! r = r.
Proof.
  intros Hinv Hx.
  destruct (ds_find_spec n ds B (S (Z.to_nat B)) x Hinv Hx)
    as (ds' & r & _ & Hr & Hrn & _).
  { destruct Hinv as (_ & _ & _ & _ & _ & Hb). specialize (Hb x Hx). lia. }
  exists r. split; [done|]. split; [done|]. by eapply is_root_fixed.
Qed.

Lemma same_set_refl n ds B x :
  uf_inv n ds B -> (x < n)%nat -> same_set (ds_parent ds) x x.
Proof.
  intros Hinv Hx. destruct (root_exists n ds B x Hinv Hx) as (r & Hr & _).
  by exists r.
Qed.

(** ** Counting representatives *)

Lemma filter_length_drop_one (P Q : nat -> Prop)
    `{forall x, Decision (P x)} `{forall x, Decision (Q x)} (l : list nat) a :
  NoDup l -> a ∈ l -> P a -> ~ Q a ->
  (forall y, y ∈ l -> y <> a -> (P y <-> Q y)) ->
  length (filter P l) = S (length (filter Q l)).
Proof.
  intros Hnd Hin HPa HQa Hiff. induction l as [|x l IH].
  { by apply elem_of_nil in Hin. }
  apply NoDup_cons in Hnd as [Hx Hnd].
  rewrite !filter_cons.
  destruct (decide (x = a)) as [->|Hne].
  - rewrite decide_True, decide_False by done. simpl. f_equal.
    f_equal. clear IH Hin. induction l as [|y l IH]; [done|].
    apply not_elem_of_cons in Hx as [Hya Hx].
    apply NoDup_cons in Hnd as [_ Hnd].
    rewrite !filter_cons.
    assert (Hy : P y <-> Q y).
    { apply Hiff; [right; by left|done]. }
    rewrite IH; [|done|done|].
    + destruct (decide (P y)), (decide (Q y)); tauto || done.
    + intros z Hz Hza. apply Hiff; [|done].
      apply elem_of_cons in Hz as [->|Hz]; [by left|right; by right].
  - apply elem_of_cons in Hin as [?|Hin]; [congruence|].
    assert (Hy : P x <-> Q x) by (apply Hiff; [by left|done]).
    specialize (IH Hnd Hin).
    destruct (decide (P x)), (decide (Q x)); simpl; try tauto;
      rewrite IH; try done; intros z Hz Hza; (apply Hiff; [by right|done]).
Qed.

Lemma filter_ext_elem (P Q : nat -> Prop)
    `{forall x, Decision (P x)} `{forall x, Decision (Q x)} (l : list nat) :
  (forall y, y ∈ l -> (P y <-> Q y)) -> filter P l = filter Q l.
Proof.
  induction l as [|x l IH]; intros Hiff; [done|].
  rewrite !filter_cons, IH by (intros y Hy; apply Hiff; by right).
  assert (Hx : P x <-> Q x) by (apply Hiff; by left).
  destruct (decide (P x)), (decide (Q x)); tauto || done.
Qed.

Lemma roots_link n parent a b :
  (a < n)%nat -> length parent = n -> parent !!! a = a -> a <> b ->
  length (roots n parent) = S (length (roots n (<[a := b]> parent))).
Proof.
  intros Ha Hlen Hfix Hab. unfold roots.
  apply (filter_length_drop_one _ _ _ a).
  - apply NoDup_seq.
  - apply elem_of_seq. lia.
  - done.
  - rewrite list_lookup_total_insert_eq by lia. congruence.
  - intros y _ Hy. by rewrite list_lookup_total_insert_ne.
Qed.

Lemma roots_same n parent parent' :
  (forall y, parent' !!! y = y <-> parent !!! y = y) ->
  roots n parent' = roots n parent.
Proof. intros H. unfold roots. apply filter_ext_elem. intros y _. apply H. Qed.

Lemma roots_single n ds B a b :
  uf_inv n ds B -> length (roots n (ds_parent ds)) = 1%nat ->
  (a < n)%nat -> (b < n)%nat -> same_set (ds_parent ds) a b.
Proof.
  intros Hinv Hone Ha Hb.
  destruct (root_exists n ds B a Hinv Ha) as (ra & Hra & Hran & Hfa).
  destruct (root_exists n ds B b Hinv Hb) as (rb & Hrb & Hrbn & Hfb).
  assert (Hina : ra ∈ roots n (ds_parent ds)).
  { apply list_elem_of_filter. split; [done|]. apply elem_of_seq. lia. }
  assert (Hinb : rb ∈ roots n (ds_parent ds)).
  { apply list_elem_of_filter. split; [done|]. apply elem_of_seq. lia. }
  destruct (roots n (ds_parent ds)) as [|r0 [|? ?]]; simpl in Hone; try lia.
  apply list_elem_of_singleton in Hina, Hinb. subst.
  by exists r0.
Qed.

Lemma roots_all_same n ds B :
  uf_inv n ds B -> (0 < n)%nat ->
  (forall a b, (a < n)%nat -> (b < n)%nat -> same_set (ds_parent ds) a b) ->
  length (roots n (ds_parent ds)) = 1%nat.
Proof.
  intros Hinv Hn Hall.
  destruct (root_exists n ds B 0%nat Hinv Hn) as (r0 & _ & Hr0n & Hf0).
  assert (Hin0 : r0 ∈ roots n (ds_parent ds)).
  { apply list_elem_of_filter. split; [done|]. apply elem_of_seq. lia. }
  assert (Hnd : NoDup (roots n (ds_parent ds))) by apply NoDup_filter, NoDup_seq.
  destruct (roots n (ds_parent ds)) as [|a [|b l]] eqn:E.
  - by apply elem_of_nil in Hin0.
  - done.
  - exfalso.
    assert (Ha : a ∈ roots n (ds_parent ds)) by (rewrite E; by left).
    assert (Hb : b ∈ roots n (ds_parent ds)) by (rewrite E; right; by left).
    apply list_elem_of_filter in Ha as [Hfa Ha], Hb as [Hfb Hb].
    apply elem_of_seq in Ha, Hb.
    destruct (Hall a b ltac:(lia) ltac:(lia)) as (r & Hra & Hrb).
    apply (is_root_of_root _ _ _ Hfa) in Hra.
    apply (is_root_of_root _ _ _ Hfb) in Hrb. subst.
    apply NoDup_cons in Hnd as [Hnd _]. apply Hnd. by left.
Qed.

(** ** [ds_union] *)

Lemma uf_inv_link n ds B a b rank' :
  uf_inv n ds B -> (a < n)%nat -> (b < n)%nat ->
  ds_parent ds !!! a = a -> ds_parent ds !!! b = b -> a <> b ->
  length rank' = n ->
  (forall z, z <> b -> rank' !!! z = ds_rank ds !!! z) ->
  ds_rank ds !!! b <= rank' !!! b <= B + 1 ->
  ds_rank ds !!! a < rank' !!! b ->
  uf_inv n (mkDS (<[a := b]> (ds_parent ds)) rank' (ds_n ds)) (B + 1).
Proof.
  intros (Hn & Hlp & Hlr & Hpar & Hrk & Hb) Ha Hbn Hfa Hfb Hab Hlen Hoth Hbb Hlt.
  split_and!; simpl; try done.
  - by rewrite length_insert.
  - intros z Hz. destruct (decide (z = a)) as [->|Hne].
    + by rewrite list_lookup_total_insert_eq by lia.
    + rewrite list_lookup_total_insert_ne by done. by apply Hpar.
  - intros z Hz. destruct (decide (z = a)) as [->|Hne].
    + rewrite list_lookup_total_insert_eq by lia. intros _.
      rewrite (Hoth a) by done. lia.
    + rewrite list_lookup_total_insert_ne by done. intros Hmove.
      assert (z <> b) by congruence.
      rewrite (Hoth z) by done. specialize (Hrk z Hz Hmove).
      destruct (decide (ds_parent ds !!! z = b)) as [Hpb|Hpb].
      * rewrite Hpb in *. lia.
      * rewrite (Hoth _ Hpb). lia.
  - intros z Hz. specialize (Hb z Hz).
    destruct (decide (z = b)) as [->|Hne]; [lia|].
    rewrite (Hoth z Hne). lia.
Qed.

(** What linking the representative [a] of one of [x], [y] under the
    representative [b] of the other does to the partition. *)
Lemma link_same_set parent parent' x y a b :
  (is_root parent x a /\ is_root parent y b) \/
  (is_root parent y a /\ is_root parent x b) ->
  a <> b ->
  (forall z r', is_root parent' z r' <->
     (is_root parent z a /\ r' = b) \/ (is_root parent z r' /\ r' <> a)) ->
  same_set parent' x y /\
  (forall u v, same_set parent u v -> same_set parent' u v) /\
  (forall u v, same_set parent' u v ->
     same_set parent u v \/
     (same_set parent u x /\ same_set parent y v) \/
     (same_set parent u y /\ same_set parent x v)).
Proof.
  intros Hxy Hab Hlink.
  assert (Hb : is_root parent b b).
  { destruct Hxy as [[_ H]|[_ H]]; apply is_root_here; by eapply is_root_fixed. }
  split; [|split].
  - exists b. destruct Hxy as [[Hx Hy]|[Hy Hx]].
    + split; apply Hlink; [by left|right; split; [done|congruence]].
    + split; apply Hlink; [right; split; [done|congruence]|by left].
  - intros u v (r & Hu & Hv). destruct (decide (r = a)) as [->|Hne].
    + exists b. split; apply Hlink; by left.
    + exists r. split; apply Hlink; by right.
  - intros u v (r & Hu & Hv).
    apply Hlink in Hu as [[Hu ->]|[Hu Hr]]; apply Hlink in Hv as [[Hv E]|[Hv Hr']].
    + left. by exists a.
    + right. destruct Hxy as [[Hx Hy]|[Hy Hx]].
      * left. split; [by exists a|by exists b].
      * right. split; [by exists a|by exists b].
    + subst r. right. destruct Hxy as [[Hx Hy]|[Hy Hx]].
      * right. split; [by exists b|by exists a].
      * left. split; [by exists b|by exists a].
    + left. by exists r.
Qed.

(** [ds_union] on two elements of different sets merges the two sets and
    nothing else, and leaves one representative fewer; on two elements of
    one set it changes no representative. *)
Lemma ds_union_spec n ds B x y :
  uf_inv n ds B -> (x < n)%nat -> (y < n)%nat -> B < Z.of_nat n ->
  exists ds', ds_union ds x y = Some ds' /\
    (same_set (ds_parent ds) x y ->
       uf_inv n ds' B /\
       (forall z, ds_parent ds' !!! z = z <-> ds_parent ds !!! z = z) /\
       (forall z r', is_root (ds_parent ds') z r' <-> is_root (ds_parent ds) z r')) /\
    (~ same_set (ds_parent ds) x y ->
       uf_inv n ds' (B + 1) /\
       length (roots n (ds_parent ds)) = S (length (roots n (ds_parent ds'))) /\
       same_set (ds_parent ds') x y /\
       (forall u v, same_set (ds_parent ds) u v -> same_set (ds_parent ds') u v) /\
       (forall u v, same_set (ds_parent ds') u v ->
          same_set (ds_parent ds) u v \/
          (same_set (ds_parent ds) u x /\ same_set (ds_parent ds) y v) \/
          (same_set (ds_parent ds) u y /\ same_set (ds_parent ds) x v))).
Proof.
  intros Hinv Hx Hy HB. unfold ds_union.
  pose proof Hinv as (Hn & _ & _ & _ & _ & Hb).
  rewrite Hn.
  destruct (ds_find_spec n ds B n x Hinv Hx) as
    (ds1 & rx & -> & Hrx & Hrxn & Hinv1 & Hrank1 & Hsame1 & Hfix1).
  { specialize (Hb x Hx). lia. }
  destruct (ds_find_spec n ds1 B n y Hinv1 Hy) as
    (ds2 & ry & -> & Hry & Hryn & Hinv2 & Hrank2 & Hsame2 & Hfix2).
  { destruct Hinv1 as (_ & _ & _ & _ & _ & Hb1). specialize (Hb1 y Hy). lia. }
  assert (Hsame : forall z r', is_root (ds_parent ds2) z r' <->
                               is_root (ds_parent ds) z r').
  { intros z r'. rewrite Hsame2. apply Hsame1. }
  assert (Hfix : forall z, ds_parent ds2 !!! z = z <-> ds_parent ds !!! z = z).
  { intros z. rewrite Hfix2. apply Hfix1. }
  assert (Hry0 : is_root (ds_parent ds) y ry) by (by apply Hsame1).
  assert (Hss : same_set (ds_parent ds) x y <-> rx = ry).
  { split.
    - intros (r & Hxr & Hyr).
      rewrite (is_root_functional _ _ _ _ Hrx Hxr).
      by rewrite (is_root_functional _ _ _ _ Hry0 Hyr).
    - intros ->. by exists ry. }
  destruct (Nat.eqb_spec rx ry) as [Heq|Hne].
  { eexists. split; [done|]. split; [done|]. intros Hns. exfalso. by apply Hns, Hss. }
  assert (Hfx : ds_parent ds2 !!! rx = rx).
  { apply Hfix. by eapply is_root_fixed. }
  assert (Hfy : ds_parent ds2 !!! ry = ry).
  { apply Hfix. by eapply is_root_fixed. }
  pose proof Hinv2 as (Hn2 & Hlp2 & Hlr2 & _ & _ & Hb2).
  assert (Hxy2 : is_root (ds_parent ds2) x rx /\ is_root (ds_parent ds2) y ry).
  { split; by apply Hsame. }
  assert (Hfinish : forall a b rank',
            (a = rx /\ b = ry) \/ (a = ry /\ b = rx) ->
            length rank' = n ->
            (forall z, z <> b -> rank' !!! z = ds_rank ds2 !!! z) ->
            ds_rank ds2 !!! b <= rank' !!! b <= B + 1 ->
            ds_rank ds2 !!! a < rank' !!! b ->
            let ds' := mkDS (<[a := b]> (ds_parent ds2)) rank' (ds_n ds2) in
            (same_set (ds_parent ds) x y ->
               uf_inv n ds' B /\
               (forall z, ds_parent ds' !!! z = z <-> ds_parent ds !!! z = z) /\
               (forall z r', is_root (ds_parent ds') z r' <->
                             is_root (ds_parent ds) z r')) /\
            (~ same_set (ds_parent ds) x y ->
               uf_inv n ds' (B + 1) /\
               length (roots n (ds_parent ds)) = S (length (roots n (ds_parent ds'))) /\
               same_set (ds_parent ds') x y /\
               (forall u v, same_set (ds_parent ds) u v -> same_set (ds_parent ds') u v) /\
               (forall u v, same_set (ds_parent ds') u v ->
                  same_set (ds_parent ds) u v \/
                  (same_set (ds_parent ds) u x /\ same_set (ds_parent ds) y v) \/
                  (same_set (ds_parent ds) u y /\ same_set (ds_parent ds) x v)))).
  { intros a b rank' Hab Hlen Hoth Hbb Hlt ds'.
    split; [intros Hs; exfalso; by apply Hne, Hss|]. intros _.
    assert (Han : (a < n)%nat) by (destruct Hab as [[-> _]|[-> _]]; done).
    assert (Hbn : (b < n)%nat) by (destruct Hab as [[_ ->]|[_ ->]]; done).
    assert (Hfa : ds_parent ds2 !!! a = a) by (destruct Hab as [[-> _]|[-> _]]; done).
    assert (Hfb : ds_parent ds2 !!! b = b) by (destruct Hab as [[_ ->]|[_ ->]]; done).
    assert (Hab' : a <> b) by (destruct Hab as [[-> ->]|[-> ->]]; congruence).
    split; [by apply uf_inv_link|].
    split.
    { rewrite <- (roots_same n (ds_parent ds) (ds_parent ds2)) by done.
      unfold ds'; simpl. apply roots_link; [done|lia|done|done]. }
    pose proof (is_root_link (ds_parent ds2) a b ltac:(lia) Hfa Hfb Hab') as Hlink.
    assert (Hcase : (is_root (ds_parent ds2) x a /\ is_root (ds_parent ds2) y b) \/
                    (is_root (ds_parent ds2) y a /\ is_root (ds_parent ds2) x b)).
    { destruct Hxy2. destruct Hab as [[-> ->]|[-> ->]]; [by left|by right]. }
    destruct (link_same_set (ds_parent ds2) (ds_parent ds') x y a b Hcase Hab' Hlink)
      as (Hj & Hmono & Hsound).
    assert (Hss2 : forall u v, same_set (ds_parent ds2) u v <->
                               same_set (ds_parent ds) u v).
    { intros u v. unfold same_set. by setoid_rewrite Hsame. }
    split; [done|]. split.
    - intros u v Huv. by apply Hmono, Hss2.
    - intros u v Huv. rewrite <- !Hss2. by apply Hsound. }
  destruct (Z.ltb_spec (ds_rank ds2 !!! rx) (ds_rank ds2 !!! ry)) as [Hlt|Hge].
  { eexists. split; [done|].
    apply (Hfinish rx ry (ds_rank ds2)); [by left|done|done| |done].
    specialize (Hb2 ry Hryn). lia. }
  destruct (Z.ltb_spec (ds_rank ds2 !!! ry) (ds_rank ds2 !!! rx)) as [Hlt|Hge'].
  { eexists. split; [done|].
    apply (Hfinish ry rx (ds_rank ds2)); [by right|done|done| |done].
    specialize (Hb2 rx Hrxn). lia. }
  eexists. split; [done|].
  apply (Hfinish ry rx (<[rx := ds_rank ds2 !!! rx + 1]> (ds_rank ds2)));
    [by right|by rewrite length_insert| | |].
  - intros z Hz. by rewrite list_lookup_total_insert_ne.
  - rewrite list_lookup_total_insert_eq by lia. specialize (Hb2 rx Hrxn). lia.
  - rewrite list_lookup_total_insert_eq by lia. lia.
Qed.

(** ** Kruskal's loop *)

Lemma elem_of_kruskal_edges g e :
  e ∈ kruskal_edges g <->
  exists u v, e = mkWEdge u v 1 /\ edge g u v /\
              ~ (directed g = false /\ (v < u)%nat).
Proof.
  unfold kruskal_edges, kruskal_entries, edge.
  rewrite elem_of_concat_map. split.
  - intros (u & Hu & He). apply elem_of_seq in Hu.
    apply list_elem_of_fmap in He as (v & -> & Hv).
    apply list_elem_of_filter in Hv as [Hkeep Hv].
    exists u, v. split; [done|]. split; [split; [lia|done]|done].
  - intros (u & v & -> & [Hu Hv] & Hkeep). exists u.
    split; [apply elem_of_seq; lia|].
    apply list_elem_of_fmap. exists v. split; [done|].
    by apply list_elem_of_filter.
Qed.

Lemma adjacent_sym g u v : adjacent g u v -> adjacent g v u.
Proof. intros [H|H]; [by right|by left]. Qed.

Lemma rtc_adjacent_sym g u v : rtc (adjacent g) u v -> rtc (adjacent g) v u.
Proof.
  induction 1 as [|u w v Huw _ IH]; [done|].
  eapply rtc_r; [exact IH|]. by apply adjacent_sym.
Qed.

Lemma roots_create n : roots n (seq 0 n) = seq 0 n.
Proof.
  unfold roots.
  assert (H : forall l : list nat, Forall (fun x => seq 0 n !!! x = x) l ->
            filter (fun x => seq 0 n !!! x = x) l = l).
  { induction l as [|x l IH]; intros Hl; [done|].
    inversion Hl; subst. rewrite filter_cons, decide_True by done.
    by rewrite IH. }
  apply H. apply Forall_forall. intros x Hx. apply elem_of_seq in Hx.
  rewrite lookup_total_seq_lt by lia. done.
Qed.

Lemma kruskal_initial_inv g :
  kruskal_inv g [] (mkKruskal (ds_create (num_vertices g)) [] 0).
Proof.
  unfold kruskal_inv; simpl. set (n := num_vertices g).
  assert (Hid : forall x, (x < n)%nat -> seq 0 n !!! x = x).
  { intros x Hx. by rewrite lookup_total_seq_lt. }
  split_and!.
  - split_and!; simpl; try done.
    + by rewrite length_seq.
    + by rewrite length_replicate.
    + intros x Hx. by rewrite Hid.
    + intros x Hx Hmove. exfalso. apply Hmove. by apply Hid.
    + intros x Hx. rewrite lookup_total_replicate_2 by done. lia.
  - rewrite roots_create, length_seq. lia.
  - done.
  - intros a b Ha Hb (r & Hra & Hrb).
    apply (is_root_of_root _ _ _ (Hid a Ha)) in Hra.
    apply (is_root_of_root _ _ _ (Hid b Hb)) in Hrb. by subst.
  - constructor.
  - constructor.
Qed.

Lemma kruskal_loop_spec g todo : forall st seen,
  (0 < num_vertices g)%nat ->
  kruskal_inv g seen st ->
  Forall (fun e => (we_v1 e < num_vertices g)%nat /\
                   (we_v2 e < num_vertices g)%nat /\
                   adjacent g (we_v1 e) (we_v2 e) /\ weight e = 1) todo ->
  exists st', kruskal_loop (num_vertices g) todo st = Some st' /\
    exists seen', kruskal_inv g seen' st' /\
      (length (ks_mst st') = (num_vertices g - 1)%nat \/ seen' = seen ++ todo).
Proof.
  set (n := num_vertices g).
  induction todo as [|e todo IH]; intros st seen Hn Hinv Htodo; simpl.
  { exists st. split; [done|]. exists seen. split; [done|].
    right. by rewrite app_nil_r. }
  inversion Htodo as [|? ? (Hu & Hv & Hadj & Hw) Htodo']; subst.
  pose proof Hinv as (Huf & Hroots & Htot & Hsound & Hseen & Hmst).
  fold n in Huf, Hroots, Hsound.
  destruct (Nat.ltb_spec (length (ks_mst st)) (n - 1)) as [Hlt|Hge].
  2:{ exists st. split; [done|]. exists seen. split; [done|]. left.
      destruct (root_exists n _ _ 0%nat Huf Hn) as (r0 & _ & Hr0 & Hf0).
      assert (Hin : r0 ∈ roots n (ds_parent (ks_ds st))).
      { apply list_elem_of_filter. split; [done|]. apply elem_of_seq. lia. }
      destruct (roots n (ds_parent (ks_ds st))); [by apply elem_of_nil in Hin|].
      simpl in Hroots. lia. }
  set (B := Z.of_nat (length (ks_mst st))) in *.
  pose proof Huf as (_ & _ & _ & _ & _ & Hb).
  destruct (ds_find_spec n (ks_ds st) B n (we_v1 e) Huf Hu) as
    (ds1 & ru & -> & Hru & Hrun & Huf1 & Hrank1 & Hsame1 & Hfix1).
  { specialize (Hb _ Hu). lia. }
  destruct (ds_find_spec n ds1 B n (we_v2 e) Huf1 Hv) as
    (ds2 & rv & -> & Hrv & Hrvn & Huf2 & Hrank2 & Hsame2 & Hfix2).
  { destruct Huf1 as (_ & _ & _ & _ & _ & Hb1). specialize (Hb1 _ Hv). lia. }
  assert (Hsame : forall z r', is_root (ds_parent ds2) z r' <->
                               is_root (ds_parent (ks_ds st)) z r').
  { intros z r'. rewrite Hsame2. apply Hsame1. }
  assert (Hss : forall a b, same_set (ds_parent ds2) a b <->
                            same_set (ds_parent (ks_ds st)) a b).
  { intros a b. unfold same_set. by setoid_rewrite Hsame. }
  assert (Hroots2 : roots n (ds_parent ds2) = roots n (ds_parent (ks_ds st))).
  { apply roots_same. intros z. rewrite Hfix2. apply Hfix1. }
  assert (Hrv0 : is_root (ds_parent (ks_ds st)) (we_v2 e) rv) by (by apply Hsame1).
  destruct (Nat.eqb_spec ru rv) as [Heq|Hne].
  - destruct (IH (mkKruskal ds2 (ks_mst st) (ks_total st)) (seen ++ [e]) Hn)
      as (st' & Hloop & seen' & Hinv' & Hend); [|done|].
    { unfold kruskal_inv; simpl. fold n B. split_and!; try done.
      - by rewrite Hroots2.
      - intros a b Ha Hb' Hab. apply Hsound; [done|done|]. by apply Hss.
      - apply Forall_app. split.
        + eapply Forall_impl; [exact Hseen|]. intros x Hx. by apply Hss.
        + constructor; [|constructor]. apply Hss. subst rv. by exists ru. }
    exists st'. split; [done|]. exists seen'. split; [done|].
    destruct Hend as [?|Hend]; [by left|right]. by rewrite Hend, <- app_assoc.
  - assert (Hns : ~ same_set (ds_parent ds2) (we_v1 e) (we_v2 e)).
    { intros Hs. apply Hss in Hs as (r & Hr1 & Hr2). apply Hne.
      rewrite (is_root_functional _ _ _ _ Hru Hr1).
      by rewrite (is_root_functional _ _ _ _ Hrv0 Hr2). }
    destruct (ds_union_spec n ds2 B (we_v1 e) (we_v2 e) Huf2 Hu Hv ltac:(lia))
      as (ds3 & -> & _ & Hun).
    destruct (Hun Hns) as (Huf3 & Hroots3 & Hjoin & Hmono & Hsnd).
    destruct (IH (mkKruskal ds3 (ks_mst st ++ [e]) (ks_total st + weight e))
                 (seen ++ [e]) Hn)
      as (st' & Hloop & seen' & Hinv' & Hend); [|done|].
    { unfold kruskal_inv; simpl. fold n. rewrite length_app. simpl.
      replace (Z.of_nat (length (ks_mst st) + 1)) with (B + 1) by lia.
      split_and!.
      - done.
      - rewrite Hroots2 in Hroots3. lia.
      - rewrite Htot, Hw. lia.
      - intros a b Ha Hb' Hab.
        destruct (Hsnd a b Hab) as [H|[[H1 H2]|[H1 H2]]].
        + apply Hsound; [done|done|]. by apply Hss.
        + apply Hss in H1, H2.
          eapply rtc_trans; [apply (Hsound a (we_v1 e)); done|].
          eapply rtc_l; [exact Hadj|]. by apply Hsound.
        + apply Hss in H1, H2.
          eapply rtc_trans; [apply (Hsound a (we_v2 e)); done|].
          eapply rtc_l; [apply adjacent_sym; exact Hadj|]. by apply Hsound.
      - apply Forall_app. split.
        + eapply Forall_impl; [exact Hseen|]. intros x Hx. by apply Hmono, Hss.
        + by constructor.
      - apply Forall_app. split; [done|]. by constructor. }
    exists st'. split; [done|]. exists seen'. split; [done|].
    destruct Hend as [?|Hend]; [by left|right]. by rewrite Hend, <- app_assoc.
Qed.

(** ** [kruskal_mst] *)

Lemma adjacent_in_range g u v :
  valid_adjacency g -> adjacent g u v ->
  (u < num_vertices g)%nat /\ (v < num_vertices g)%nat.
Proof.
  intros Hval [[Hu Hv]|[Hv Hu]]; split; try done; by eapply Hval.
Qed.

Lemma adjacent_kruskal_edge g u v :
  valid_adjacency g -> (directed g = false -> mirrored g) ->
  adjacent g u v ->
  exists e, e ∈ kruskal_edges g /\
    ((we_v1 e = u /\ we_v2 e = v) \/ (we_v1 e = v /\ we_v2 e = u)).
Proof.
  intros Hval Hmir Hadj.
  destruct (adjacent_in_range g u v Hval Hadj) as [Hu Hv].
  destruct (directed g) eqn:Hdir.
  - destruct Hadj as [He|He].
    + exists (mkWEdge u v 1). split; [|by left].
      apply elem_of_kruskal_edges. exists u, v. split; [done|]. split; [done|].
      rewrite Hdir. by intros [? _].
    + exists (mkWEdge v u 1). split; [|by right].
      apply elem_of_kruskal_edges. exists v, u. split; [done|]. split; [done|].
      rewrite Hdir. by intros [? _].
  - specialize (Hmir eq_refl).
    assert (Huv : edge g u v /\ edge g v u).
    { destruct Hadj as [[? Hin]|[? Hin]].
      - split; [done|]. split; [done|]. by apply Hmir.
      - split; [|done]. split; [done|]. by apply Hmir. }
    destruct Huv as [Huv Hvu].
    destruct (decide (u <= v)%nat) as [Hle|Hgt].
    + exists (mkWEdge u v 1). split; [|by left].
      apply elem_of_kruskal_edges. exists u, v. split; [done|]. split; [done|].
      intros [_ ?]. lia.
    + exists (mkWEdge v u 1). split; [|by right].
      apply elem_of_kruskal_edges. exists v, u. split; [done|]. split; [done|].
      intros [_ ?]. lia.
Qed.


Lemma sort_by_weight_perm l : sort_by_weight l ≡ₚ l.
Proof. apply merge_sort_Permutation. Qed.


(** The scenario of the specification: the 4-cycle gives weight 3 and 3
    edges; two isolated vertices give the error value. *)
Example kruskal_mst_scenario :
  (exists mst, kruskal_mst sort_by_weight g_cycle4 = Some (3, Some mst, 3%nat)) /\
  kruskal_mst sort_by_weight g_pair = Some (-1, None, 0%nat).
Proof. split; [eexists|]; by vm_compute. Qed.


(** * The disjoint-set structure decides connectivity *)

Lemma linked_sym ps a b : linked ps a b -> linked ps b a.
Proof.
  intros H. induction H as [a|a c b Hac _ IH]; [apply rtc_refl|].
  eapply rtc_r; [exact IH|]. by apply sc_symmetric.
Qed.

Lemma linked_mono ps qs a b :
  (forall p, p ∈ ps -> p ∈ qs) -> linked ps a b -> linked qs a b.
Proof.
  intros Hsub H. induction H as [a|a c b Hac _ IH]; [apply rtc_refl|].
  eapply rtc_l; [|exact IH]. destruct Hac as [?|?]; [left|right]; by apply Hsub.
Qed.

Lemma linked_snoc ps x y a b :
  linked (ps ++ [(x, y)]) a b <->
  linked ps a b \/ (linked ps a x /\ linked ps y b)
  \/ (linked ps a y /\ linked ps x b).
Proof.
  split.
  - intros H. induction H as [a|a c b Hac _ IH]; [left; apply rtc_refl|].
    assert (Hstep : linked ps a c \/ (a = x /\ c = y) \/ (a = y /\ c = x)).
    { destruct Hac as [Hac|Hac]; apply elem_of_app in Hac as [Hac|Hac].
      - left. apply rtc_once. by left.
      - apply list_elem_of_singleton in Hac. right; left.
        by inversion Hac.
      - left. apply rtc_once. by right.
      - apply list_elem_of_singleton in Hac. right; right.
        by inversion Hac. }
    destruct Hstep as [Hs|[[-> ->]|[-> ->]]].
    + destruct IH as [IH|[[IH1 IH2]|[IH1 IH2]]].
      * left. by etrans.
      * right; left. split; [by etrans|done].
      * right; right. split; [by etrans|done].
    + destruct IH as [IH|[[IH1 IH2]|[IH1 IH2]]].
      * right; left. split; [apply rtc_refl|done].
      * left. etrans; [apply linked_sym; exact IH1|exact IH2].
      * left. done.
    + destruct IH as [IH|[[IH1 IH2]|[IH1 IH2]]].
      * right; right. split; [apply rtc_refl|done].
      * left. done.
      * left. etrans; [apply linked_sym; exact IH1|exact IH2].
  - assert (Hm : forall u v, linked ps u v -> linked (ps ++ [(x, y)]) u v).
    { intros u v. apply linked_mono. intros p Hp. apply elem_of_app. by left. }
    assert (Hxy : linked (ps ++ [(x, y)]) x y).
    { apply rtc_once. left. apply elem_of_app. right. by apply list_elem_of_singleton. }
    intros [H|[[H1 H2]|[H1 H2]]].
    + by apply Hm.
    + etrans; [apply Hm, H1|]. etrans; [exact Hxy|]. by apply Hm.
    + etrans; [apply Hm, H1|]. etrans; [apply linked_sym, Hxy|]. by apply Hm.
Qed.

Lemma roots_nonempty n ds B :
  uf_inv n ds B -> (0 < n)%nat -> (0 < length (roots n (ds_parent ds)))%nat.
Proof.
  intros Hinv Hn. destruct (root_exists n ds B 0%nat Hinv Hn) as (r & _ & Hr & Hfix).
  assert (Hin : r ∈ roots n (ds_parent ds)).
  { unfold roots. apply list_elem_of_filter. split; [done|].
    apply elem_of_seq. lia. }
  destruct (roots n (ds_parent ds)); [by apply elem_of_nil in Hin|simpl; lia].
Qed.

Lemma same_set_cases n ds B x y :
  uf_inv n ds B -> (x < n)%nat -> (y < n)%nat ->
  same_set (ds_parent ds) x y \/ ~ same_set (ds_parent ds) x y.
Proof.
  intros Hinv Hx Hy.
  destruct (root_exists n ds B x Hinv Hx) as (rx & Hrx & _).
  destruct (root_exists n ds B y Hinv Hy) as (ry & Hry & _).
  destruct (decide (rx = ry)) as [->|Hne]; [left; by exists ry|right].
  intros (r & H1 & H2). apply Hne.
  rewrite (is_root_functional _ _ _ _ Hrx H1).
  by rewrite (is_root_functional _ _ _ _ Hry H2).
Qed.

Lemma uf_run_step n ds seen x y :
  uf_run_inv n ds seen -> (x < n)%nat -> (y < n)%nat ->
  exists ds', ds_union ds x y = Some ds' /\ uf_run_inv n ds' (seen ++ [(x, y)]).
Proof.
  intros [Hinv Hsets] Hx Hy.
  pose proof (roots_nonempty n ds _ Hinv ltac:(lia)) as Hne.
  destruct (ds_union_spec n ds _ x y Hinv Hx Hy ltac:(lia))
    as (ds' & Hun & Hsame & Hdiff).
  exists ds'. split; [done|].
  destruct (same_set_cases n ds _ x y Hinv Hx Hy) as [Hs|Hs].
  - destruct (Hsame Hs) as (Hinv' & Hfix & Hroot).
    split.
    + by rewrite (roots_same n (ds_parent ds) (ds_parent ds')).
    + intros a b Ha Hb.
      assert (Hss : same_set (ds_parent ds') a b <-> same_set (ds_parent ds) a b).
      { unfold same_set. by setoid_rewrite Hroot. }
      rewrite Hss, linked_snoc, (Hsets a b Ha Hb).
      apply Hsets in Hs; [|done..].
      split; [by left|]. intros [H|[[H1 H2]|[H1 H2]]]; [done| |].
      * etrans; [exact H1|]. by etrans.
      * etrans; [exact H1|]. etrans; [apply linked_sym, Hs|done].
  - destruct (Hdiff Hs) as (Hinv' & Hroots & Hjoin & Hmono & Hsnd).
    split.
    + replace (Z.of_nat n - Z.of_nat (length (roots n (ds_parent ds'))))
        with (Z.of_nat n - Z.of_nat (length (roots n (ds_parent ds))) + 1)
        by lia. done.
    + intros a b Ha Hb. rewrite linked_snoc. split.
      * intros Hab. destruct (Hsnd a b Hab) as [H|[[H1 H2]|[H1 H2]]].
        -- left. by apply Hsets.
        -- right; left. split; by apply Hsets.
        -- right; right. split; by apply Hsets.
      * intros [H|[[H1 H2]|[H1 H2]]].
        -- apply Hmono. by apply Hsets.
        -- apply Hsets in H1, H2; [|done..].
           eapply same_set_trans; [apply Hmono, H1|].
           eapply same_set_trans; [exact Hjoin|]. by apply Hmono.
        -- apply Hsets in H1, H2; [|done..].
           eapply same_set_trans; [apply Hmono, H1|].
           eapply same_set_trans; [apply same_set_sym, Hjoin|]. by apply Hmono.
Qed.

Lemma uf_run_all n ps : forall ds seen,
  uf_run_inv n ds seen ->
  Forall (fun p => (p.1 < n)%nat /\ (p.2 < n)%nat) ps ->
  exists ds', ds_union_all ds ps = Some ds' /\ uf_run_inv n ds' (seen ++ ps).
Proof.
  induction ps as [|[x y] ps IH]; intros ds seen Hinv Hps.
  { exists ds. by rewrite app_nil_r. }
  inversion Hps as [|? ? [Hx Hy] Hps']; subst. simpl in Hx, Hy.
  destruct (uf_run_step n ds seen x y Hinv Hx Hy) as (ds1 & Hun & Hinv1).
  destruct (IH ds1 (seen ++ [(x, y)]) Hinv1 Hps') as (ds' & Hall & Hinv').
  exists ds'. unfold ds_union_all in *. simpl. rewrite Hun.
  split; [done|]. by rewrite <- app_assoc in Hinv'.
Qed.

Lemma uf_run_initial n : uf_run_inv n (ds_create n) [].
Proof.
  assert (Hid : forall x, (x < n)%nat -> seq 0 n !!! x = x).
  { intros x Hx. by rewrite lookup_total_seq_lt. }
  split.
  - simpl. rewrite roots_create, length_seq.
    replace (Z.of_nat n - Z.of_nat n) with 0 by lia.
    split_and!; simpl; try done.
    + by rewrite length_seq.
    + by rewrite length_replicate.
    + intros x Hx. by rewrite Hid.
    + intros x Hx Hmove. exfalso. apply Hmove. by apply Hid.
    + intros x Hx. rewrite lookup_total_replicate_2 by done. lia.
  - intros a b Ha Hb. simpl. split.
    + intros (r & Hra & Hrb).
      apply (is_root_of_root _ _ _ (Hid a Ha)) in Hra.
      apply (is_root_of_root _ _ _ (Hid b Hb)) in Hrb. subst. apply rtc_refl.
    + intros H. assert (a = b) as ->.
      { induction H as [|? ? ? [Hin|Hin] _ _]; [done|by apply elem_of_nil in Hin..]. }
      exists b. split; constructor; by apply Hid.
Qed.

(** Starting from [ds_create(n)], any run of [ds_union] calls on in-range
    pairs goes through, and afterwards two [ds_find] calls return the same
    representative exactly for the elements the pairs tie together:
    path compression and union by rank never merge or split a class on
    their own. *)
Theorem ds_union_find_connectivity n ps :
  Forall (fun p => (p.1 < n)%nat /\ (p.2 < n)%nat) ps ->
  exists ds, ds_union_all (ds_create n) ps = Some ds /\
    forall x y, (x < n)%nat -> (y < n)%nat ->
      exists ds1 rx ds2 ry,
        ds_find n ds x = Some (ds1, rx) /\
        ds_find n ds1 y = Some (ds2, ry) /\
        (rx = ry <-> linked ps x y).
Proof.
  intros Hps.
  destruct (uf_run_all n ps (ds_create n) [] (uf_run_initial n) Hps)
    as (ds & Hall & Hinv & Hsets).
  exists ds. split; [done|]. intros x y Hx Hy.
  pose proof (roots_nonempty n ds _ Hinv ltac:(lia)) as Hne.
  pose proof Hinv as (_ & _ & _ & _ & _ & Hb).
  destruct (ds_find_spec n ds _ n x Hinv Hx) as
    (ds1 & rx & Hf1 & Hrx & _ & Hinv1 & Hrank1 & Hsame1 & _).
  { specialize (Hb _ Hx). lia. }
  destruct (ds_find_spec n ds1 _ n y Hinv1 Hy) as
    (ds2 & ry & Hf2 & Hry & _ & _ & _ & _ & _).
  { destruct Hinv1 as (_ & _ & _ & _ & _ & Hb1). specialize (Hb1 _ Hy). lia. }
  exists ds1, rx, ds2, ry. split; [done|]. split; [done|].
  apply Hsame1 in Hry. simpl in Hsets. rewrite <- (Hsets x y Hx Hy). split.
  - intros ->. by exists ry.
  - intros (r & H1 & H2).
    rewrite (is_root_functional _ _ _ _ Hrx H1).
    by rewrite (is_root_functional _ _ _ _ Hry H2).
Qed.

Lemma ds_union_find_connectivity_witness :
  Forall (fun p => (p.1 < 4)%nat /\ (p.2 < 4)%nat) [(0, 1); (2, 3); (1, 0)]%nat /\
  exists ds, ds_union_all (ds_create 4) [(0, 1); (2, 3); (1, 0)]%nat = Some ds /\
    forall x y, (x < 4)%nat -> (y < 4)%nat ->
      exists ds1 rx ds2 ry,
        ds_find 4 ds x = Some (ds1, rx) /\
        ds_find 4 ds1 y = Some (ds2, ry) /\
        (rx = ry <-> linked [(0, 1); (2, 3); (1, 0)]%nat x y).
Proof.
  assert (H : Forall (fun p : nat * nat => (p.1 < 4)%nat /\ (p.2 < 4)%nat)
                [(0, 1); (2, 3); (1, 0)]%nat).
  { repeat constructor. }
  split; [exact H|].
  exact (ds_union_find_connectivity 4 [(0, 1); (2, 3); (1, 0)]%nat H).
Defined.


(** * How many colours the colouring routines use *)

Lemma count_true_replicate n : count_true (replicate n false) = 0%nat.
Proof.
  unfold count_true. induction n as [|n IH]; [done|].
  cbn [replicate]. by rewrite filter_cons, decide_False.
Qed.

Lemma count_true_insert used i :
  (count_true (<[i := true]> used) <= S (count_true used))%nat.
Proof.
  unfold count_true. revert i. induction used as [|b used IH]; intros i; [simpl; lia|].
  destruct i as [|i]; simpl.
  - rewrite !filter_cons. destruct (decide (true = true)); [|done].
    destruct (decide (b = true)); simpl; lia.
  - rewrite !filter_cons. specialize (IH i).
    destruct (decide (b = true)); simpl; lia.
Qed.

Lemma count_true_prefix used : forall c,
  (c <= length used)%nat -> (forall x, (x < c)%nat -> used !!! x = true) ->
  (c <= count_true used)%nat.
Proof.
  unfold count_true. induction used as [|b used IH]; intros c Hc Hall.
  - simpl in Hc. lia.
  - destruct c as [|c]; [lia|]. simpl in Hc.
    pose proof (Hall 0%nat ltac:(lia)) as H0. simpl in H0. subst b.
    rewrite filter_cons, decide_True by done. simpl.
    apply le_n_S. apply IH; [lia|]. intros x Hx. apply (Hall (S x)). lia.
Qed.

Lemma count_true_mark {A : Type} (P : A -> bool) (f : A -> nat) l : forall used,
  (count_true (foldl (mark_with P f) used l) <= count_true used + length l)%nat.
Proof.
  induction l as [|w l IH]; intros used; simpl; [lia|].
  etrans; [apply IH|]. unfold mark_with. destruct (P w); [|lia].
  pose proof (count_true_insert used (f w)). lia.
Qed.

(** The colour picked after marking the entries [l]: at most [length l],
    and every smaller colour was marked by one of the entries. *)
Lemma pick_color_small {A : Type} (P : A -> bool) (f : A -> nat) n (l : list A) :
  let c := first_unused (foldl (mark_with P f) (replicate n false) l) 0 n in
  0 <= c <= Z.of_nat n /\ c <= Z.of_nat (length l) /\
  forall x, 0 <= x < c -> exists w, w ∈ l /\ P w = true /\ Z.of_nat (f w) = x.
Proof.
  intros c.
  destruct (first_unused_spec (foldl (mark_with P f) (replicate n false) l) n 0
              ltac:(lia)) as (Hr & Hall & _). fold c in Hr, Hall.
  split; [lia|]. split.
  - pose proof (count_true_prefix (foldl (mark_with P f) (replicate n false) l)
                  (Z.to_nat c)) as Hp.
    rewrite mark_fold_length, length_replicate in Hp.
    specialize (Hp ltac:(lia)).
    pose proof (count_true_mark P f l (replicate n false)) as Hm.
    rewrite count_true_replicate in Hm.
    assert (Z.to_nat c <= count_true (foldl (mark_with P f) (replicate n false) l))%nat.
    { apply Hp. intros x Hx. rewrite <- (Nat2Z.id x). apply Hall. lia. }
    lia.
  - intros x Hx. specialize (Hall x Hx).
    apply mark_fold_origin in Hall as [Hall|(w & Hw & HP & Hf)].
    + rewrite lookup_total_replicate_false in Hall by lia. done.
    + exists w. split; [done|]. split; [done|]. lia.
Qed.

Lemma greedy_bounds_step g k st :
  wf_graph g -> (k < num_vertices g)%nat ->
  greedy_bounds_inv g k st -> greedy_bounds_inv g (S k) (greedy_step g st k).
Proof.
  intros Hwf Hk (Hlen & Hcol & Hunc & Hmx0 & Hmx).
  destruct st as [color mx]. unfold greedy_step. simpl in *.
  rewrite (wf_vertex_count_int g Hwf).
  set (n := num_vertices g) in *.
  pose proof (pick_color_small
                (fun w => (w <? n)%nat && (0 <=? color !!! w))
                (fun w => Z.to_nat (color !!! w))
                n (neighbors g k)) as Hpick.
  simpl in Hpick.
  change (foldl _ (replicate n false) (neighbors g k))
    with (foldl (greedy_mark n color) (replicate n false) (neighbors g k)) in Hpick.
  set (c := first_unused _ 0 n) in *.
  destruct Hpick as (Hc & Hdeg & Hsmall).
  assert (Hearlier : forall x, 0 <= x < c ->
            exists w, w ∈ neighbors g k /\ (w < k)%nat /\ color !!! w = x).
  { intros x Hx. destruct (Hsmall x Hx) as (w & Hw & HP & Hf).
    apply andb_true_iff in HP as [Hwn Hcw].
    apply Nat.ltb_lt in Hwn. apply Z.leb_le in Hcw.
    exists w. split; [done|]. split; [|lia].
    destruct (decide (w < k)%nat) as [|Hge]; [done|].
    rewrite Hunc in Hcw by lia. lia. }
  assert (Hck : c <= Z.of_nat k).
  { destruct (decide (c <= Z.of_nat k)) as [|Hgt]; [done|exfalso].
    destruct (Hearlier (Z.of_nat k) ltac:(lia)) as (w & _ & Hw & Hcw).
    destruct (Hcol w Hw) as (_ & Hle & _). lia. }
  set (mx' := if mx <? c then c else mx).
  assert (Hmx' : mx <= mx' /\ c <= mx' /\ (mx' = c \/ (mx' = mx /\ c <= mx))).
  { unfold mx'. destruct (Z.ltb_spec mx c); lia. }
  unfold greedy_bounds_inv. cbn [fst snd]. fold mx'.
  split_and!.
  - by rewrite length_insert.
  - intros w Hw. destruct (decide (w = k)) as [->|Hne].
    + rewrite list_lookup_total_insert_eq by lia.
      split_and!; [lia|lia|done|done|].
      intros x Hx. destruct (Hearlier x Hx) as (y & Hy & Hyk & Hcy).
      exists y. split; [done|]. split; [done|].
      by rewrite list_lookup_total_insert_ne by lia.
    + rewrite list_lookup_total_insert_ne by done.
      destruct (Hcol w ltac:(lia)) as (H1 & H2 & H3 & H4).
      split_and!; [lia|lia|done|done|].
      intros x Hx. destruct (H4 x Hx) as (y & Hy & Hyw & Hcy).
      exists y. split; [done|]. split; [done|].
      by rewrite list_lookup_total_insert_ne by lia.
  - intros w Hw Hwn. rewrite list_lookup_total_insert_ne by lia.
    apply Hunc; lia.
  - lia.
  - intros _. destruct Hmx' as (_ & _ & [->|[-> Hle]]).
    + exists k. split; [lia|]. by rewrite list_lookup_total_insert_eq by lia.
    + destruct (decide (k = 0%nat)) as [->|Hk0]; [specialize (Hmx0 eq_refl); lia|].
      destruct (Hmx ltac:(lia)) as (w & Hw & Hcw).
      exists w. split; [lia|]. by rewrite list_lookup_total_insert_ne by lia.
Qed.

Lemma greedy_bounds_loop g k :
  wf_graph g -> (k <= num_vertices g)%nat ->
  greedy_bounds_inv g k
    (foldl (greedy_step g) (replicate (num_vertices g) (-1), -1) (seq 0 k)).
Proof.
  intros Hwf. induction k as [|k IH]; intros Hk.
  - simpl. split_and!; simpl.
    + by rewrite length_replicate.
    + intros; lia.
    + intros w _ Hw. by rewrite lookup_total_replicate_2.
    + done.
    + lia.
  - rewrite seq_S, foldl_app. simpl.
    apply greedy_bounds_step; [done|lia|]. apply IH. lia.
Qed.



(** ** DSATUR *)

Lemma dsatur_saturate_fold_max b c l : forall st,
  ds_max_color (foldl (dsatur_saturate b c) st l) = ds_max_color st.
Proof.
  induction l as [|u l IH]; intros st; simpl; [done|].
  rewrite IH. unfold dsatur_saturate. by destruct (_ && _).
Qed.

Lemma dsatur_bounds_loop g degree steps : forall s st,
  wf_graph g -> valid_adjacency g ->
  dsatur_bounds_inv g s st -> (s + steps = num_vertices g)%nat ->
  dsatur_bounds_inv g (num_vertices g) (dsatur_loop g degree steps st).
Proof.
  induction steps as [|k IH]; intros s st Hwf Hval Hinv Hs.
  - simpl. by replace (num_vertices g) with s by lia.
  - simpl. rewrite (wf_vertex_count_int g Hwf).
    set (n := num_vertices g) in *.
    destruct Hinv as (Hlen & Hsat & Hrange & Hcount & Hmax & Hmx0).
    pose proof (dsatur_select_spec degree st (seq 0 n) Hsat) as Hsel.
    simpl in Hsel. fold (dsatur_select degree n st) in Hsel.
    destruct ((dsatur_select degree n st).2) as [cand|].
    2:{ exfalso. destruct Hsel as [_ Hall].
        destruct (uncolored_pos (ds_color st) ltac:(lia)) as (i & Hi & Hc).
        apply (Hall i); [|done]. apply elem_of_seq. lia. }
    destruct Hsel as [Hcand Hcc]. apply elem_of_seq in Hcand.
    set (color := ds_color st) in *.
    pose proof (pick_color_small
                  (fun u => negb (color !!! u =? -1))
                  (fun u => Z.to_nat (color !!! u))
                  n (neighbors g cand)) as Hpick.
    simpl in Hpick.
    change (foldl _ (replicate n false) (neighbors g cand))
      with (foldl (dsatur_mark color) (replicate n false) (neighbors g cand))
      in Hpick.
    set (c := first_unused _ 0 n) in *.
    destruct Hpick as (Hc & Hdeg & Hsmall).
    assert (Hnb : forall x, 0 <= x < c ->
              exists w, w ∈ neighbors g cand /\ (w < n)%nat /\ color !!! w = x /\
                        w <> cand).
    { intros x Hx. destruct (Hsmall x Hx) as (w & Hw & HP & Hf).
      apply negb_true_iff in HP. apply Z.eqb_neq in HP.
      assert (Hwn : (w < n)%nat) by (eapply Hval; [|done]; lia).
      exists w. split; [done|]. split; [done|].
      destruct (Hrange w Hwn) as [?|(? & _)]; [done|].
      split; [lia|]. intros ->. done. }
    assert (Hcs : c <= Z.of_nat s).
    { destruct (decide (c <= Z.of_nat s)) as [|Hgt]; [done|exfalso].
      destruct (Hnb (Z.of_nat s) ltac:(lia)) as (w & _ & Hwn & Hcw & _).
      destruct (Hrange w Hwn) as [?|(_ & ? & _)]; lia. }
    set (st1 := mkDsatur _ _ _ _).
    destruct (dsatur_saturate_fold true c (neighbors g cand) st1 Hsat)
      as [Hcol' Hsat'].
    apply (IH (S s)); [done..| |lia].
    unfold dsatur_bounds_inv.
    rewrite Hcol', dsatur_saturate_fold_max. simpl. fold color.
    set (mx := ds_max_color st) in *.
    set (mx' := if mx <? c then c else mx).
    assert (Hmx' : mx <= mx' /\ c <= mx' /\ (mx' = c \/ mx' = mx)).
    { unfold mx'. destruct (Z.ltb_spec mx c); lia. }
    split_and!.
    + by rewrite length_insert.
    + done.
    + intros w Hw. destruct (decide (w = cand)) as [->|Hne].
      * rewrite list_lookup_total_insert_eq by lia. right.
        split_and!; [lia|lia|lia|done|].
        intros x Hx. destruct (Hnb x Hx) as (y & Hy & _ & Hcy & Hyc).
        exists y. split; [done|]. by rewrite list_lookup_total_insert_ne.
      * rewrite list_lookup_total_insert_ne by done.
        destruct (Hrange w Hw) as [?|(H1 & H2 & H3 & H4)]; [by left|right].
        split_and!; [lia|lia|lia|done|].
        intros x Hx. destruct (H4 x Hx) as (y & Hy & Hcy).
        exists y. split; [done|].
        destruct (decide (y = cand)) as [->|Hyc]; [lia|].
        by rewrite list_lookup_total_insert_ne.
    + pose proof (uncolored_insert color cand c ltac:(lia) Hcc ltac:(lia)). lia.
    + destruct Hmx' as (_ & _ & [->| ->]).
      * exists cand. split; [lia|]. by rewrite list_lookup_total_insert_eq by lia.
      * destruct Hmax as (w & Hw & Hcw). exists w. split; [done|].
        destruct (decide (w = cand)) as [->|Hne]; [lia|].
        by rewrite list_lookup_total_insert_ne.
    + lia.
Qed.




(** * Edge enumeration *)

Lemma to_size_t_vertex g x :
  wf_graph g -> (x < num_vertices g)%nat ->
  to_int (Z.of_nat x) = Z.of_nat x /\ to_size_t (Z.of_nat x) = Z.of_nat x.
Proof.
  intros Hwf Hx. pose proof (wf_count g Hwf) as H. unfold GRAFO_MAX_VERTICES in H.
  split.
  - apply to_int_small. unfold INT_MAX. lia.
  - unfold to_size_t. apply Z.mod_small. lia.
Qed.

(** The two nested loops as one loop over the entries. *)
Lemma get_edges_vertex_entries g capacity st v :
  get_edges_vertex g capacity st v =
  for_each_opt (fun s p => get_edges_entry g capacity p.1 s p.2) st
    (map (pair v) (neighbors g v)).
Proof.
  unfold get_edges_vertex.
  assert (H : forall l s,
            for_each_opt (get_edges_entry g capacity v) s l =
            for_each_opt (fun s p => get_edges_entry g capacity p.1 s p.2) s
              (map (pair v) l)).
  { induction l as [|x l IH]; intros s; simpl; [done|].
    destruct (get_edges_entry g capacity v s x); [apply IH|done]. }
  destruct (adj g !!! v) eqn:Hadj; [|apply H].
  unfold neighbors. rewrite Hadj, take_nil. done.
Qed.

Lemma get_edges_loop_entries g capacity vs : forall st,
  for_each_opt (get_edges_vertex g capacity) st vs =
  for_each_opt (fun s p => get_edges_entry g capacity p.1 s p.2) st
    (entry_pairs g vs).
Proof.
  unfold entry_pairs.
  induction vs as [|v vs IH]; intros st; simpl; [done|].
  rewrite for_each_opt_app, get_edges_vertex_entries.
  destruct (for_each_opt _ st (map (pair v) (neighbors g v))); [apply IH|done].
Qed.

Lemma entry_pairs_in_range g vs :
  valid_adjacency g -> Forall (fun v => (v < num_vertices g)%nat) vs ->
  Forall (fun p => (p.1 < num_vertices g)%nat /\ (p.2 < num_vertices g)%nat)
    (entry_pairs g vs).
Proof.
  intros Hval Hvs. apply Forall_forall. intros [u x] Hin.
  apply elem_of_concat_map in Hin as (u' & Hu' & Hin).
  apply list_elem_of_fmap in Hin as (x' & [= -> ->] & Hx).
  rewrite Forall_forall in Hvs. specialize (Hvs _ Hu'). simpl.
  split; [done|]. by eapply Hval.
Qed.

Lemma elem_of_entry_pairs g u x :
  (u, x) ∈ entry_pairs g (seq 0 (num_vertices g)) <-> edge g u x.
Proof.
  unfold entry_pairs, edge. rewrite elem_of_concat_map. split.
  - intros (u' & Hu' & Hin).
    apply list_elem_of_fmap in Hin as (x' & [= -> ->] & Hx).
    apply elem_of_seq in Hu'. split; [lia|done].
  - intros [Hu Hx]. exists u. split; [apply elem_of_seq; lia|].
    apply list_elem_of_fmap. by exists x.
Qed.

(** ** Directed graphs *)

Lemma get_edges_directed_loop g capacity l : forall st,
  wf_graph g -> directed g = true ->
  Forall (fun p => (p.1 < num_vertices g)%nat /\ (p.2 < num_vertices g)%nat) l ->
  Z.of_nat (length (acc_edges st)) <= capacity ->
  for_each_opt (fun s p => get_edges_entry g capacity p.1 s p.2) st l =
  if Z.of_nat (length (acc_edges st) + length l) <=? capacity
  then Some (mkAcc (acc_edges st ++ map (fun p => mkEdge p.1 p.2) l)
                   (acc_processed st))
  else None.
Proof.
  intros st Hwf Hdir Hl. revert st.
  induction Hl as [|[u x] l [Hu Hx] _ IH]; intros st Hcap; simpl in *.
  - rewrite Nat.add_0_r, app_nil_r.
    destruct (Z.leb_spec (Z.of_nat (length (acc_edges st))) capacity); [|lia].
    by destruct st.
  - unfold get_edges_entry at 1. rewrite Hdir.
    destruct (to_size_t_vertex g x Hwf Hx) as [-> ->].
    destruct (to_size_t_vertex g u Hwf Hu) as [-> ->].
    rewrite !Nat2Z.id.
    destruct (Z.leb_spec (Z.of_nat (num_vertices g)) (Z.of_nat x)); [lia|].
    destruct (Z.leb_spec capacity (Z.of_nat (length (acc_edges st)))) as [Hfull|Hroom].
    + destruct (Z.leb_spec (Z.of_nat (length (acc_edges st) + S (length l))) capacity);
        [lia|done].
    + rewrite IH by (simpl; rewrite length_app; simpl; lia).
      simpl. rewrite length_app. simpl.
      replace (length (acc_edges st) + 1 + length l)%nat
        with (length (acc_edges st) + S (length l))%nat by lia.
      by rewrite <- app_assoc.
Qed.

Lemma get_edges_capacity g :
  wf_graph g -> (0 < num_vertices g)%nat ->
  let n := Z.of_nat (num_vertices g) in
  (n =? 0) = false /\ (SIZE_MAX / sizeof_Edge <? n) = false /\
  to_size_t (n * n) = n * n /\
  ((n * n =? 0) || (SIZE_MAX / sizeof_Edge <? n * n)) = false.
Proof.
  intros Hwf Hn n. pose proof (wf_count g Hwf) as H.
  unfold GRAFO_MAX_VERTICES in H. fold n in H.
  assert (Hq : SIZE_MAX / sizeof_Edge = 1152921504606846975) by reflexivity.
  rewrite Hq.
  assert (Hnn : 0 < n * n <= 100000000) by nia.
  split; [apply Z.eqb_neq; lia|]. split; [apply Z.ltb_ge; lia|].
  split; [unfold to_size_t; apply Z.mod_small; lia|].
  apply orb_false_iff. split; [apply Z.eqb_neq; lia|apply Z.ltb_ge; lia].
Qed.

(** On a directed graph, [get_edges] returns the adjacency entries one by
    one, in the order of the vertices and of their lists, duplicates
    included, as long as there are at most [n * n] of them; with more
    entries it gives up (NULL and 0), as it does on a graph without
    entries.  The allocation of [processed] is never attempted. *)
Theorem get_edges_directed ok_processed g :
  wf_graph g -> valid_adjacency g -> directed g = true ->
  (0 < num_vertices g)%nat ->
  get_edges true ok_processed g =
    if (0 <? length (entry_edges g))%nat
       && (Z.of_nat (length (entry_edges g))
             <=? Z.of_nat (num_vertices g) * Z.of_nat (num_vertices g))
    then (Some (entry_edges g), length (entry_edges g))
    else (None, 0%nat).
Proof.
  intros Hwf Hval Hdir Hn. unfold get_edges.
  destruct (get_edges_capacity g Hwf Hn) as (-> & -> & -> & ->).
  rewrite Hdir. simpl negb. cbv iota. simpl andb. cbv iota.
  rewrite get_edges_loop_entries.
  rewrite (get_edges_directed_loop g); [|done|done| |simpl; lia].
  2:{ apply entry_pairs_in_range; [done|]. apply Forall_forall.
      intros v Hv. apply elem_of_seq in Hv. lia. }
  simpl. unfold entry_edges. rewrite length_map.
  destruct (Z.leb_spec (Z.of_nat (length (entry_pairs g (seq 0 (num_vertices g)))))
              (Z.of_nat (num_vertices g) * Z.of_nat (num_vertices g))).
  - simpl. destruct (entry_pairs g (seq 0 (num_vertices g))) as [|p l]; [done|].
    simpl. by rewrite length_map.
  - by rewrite andb_false_r.
Qed.

Lemma get_edges_directed_witness :
  wf_graph g_dag3 /\ valid_adjacency g_dag3 /\ directed g_dag3 = true /\
  (0 < num_vertices g_dag3)%nat /\
  get_edges true false g_dag3 =
    if (0 <? length (entry_edges g_dag3))%nat
       && (Z.of_nat (length (entry_edges g_dag3))
             <=? Z.of_nat (num_vertices g_dag3) * Z.of_nat (num_vertices g_dag3))
    then (Some (entry_edges g_dag3), length (entry_edges g_dag3))
    else (None, 0%nat).
Proof.
  assert (Hwf : wf_graph g_dag3) by wf_concrete.
  assert (Hn : (0 < num_vertices g_dag3)%nat) by (simpl; lia).
  split; [exact Hwf|]. split; [exact valid_g_dag3|]. split; [reflexivity|].
  split; [exact Hn|].
  exact (get_edges_directed false g_dag3 Hwf valid_g_dag3 eq_refl Hn).
Defined.

(** ** Undirected graphs *)

Lemma slot_injective n a b a' b' :
  (b < n)%nat -> (b' < n)%nat ->
  (a * n + b = a' * n + b')%nat -> a = a' /\ b = b'.
Proof.
  intros Hb Hb' Heq.
  assert (a = a') as -> by nia. split; [done|lia].
Qed.

Lemma slot_bound n a b : (a < n)%nat -> (b < n)%nat -> (a * n + b < n * n)%nat.
Proof. intros Ha Hb. nia. Qed.

Lemma get_edges_entry_undirected g u x st :
  wf_graph g -> directed g = false ->
  (u < num_vertices g)%nat -> (x < num_vertices g)%nat ->
  let n := num_vertices g in
  let a := (u `min` x)%nat in
  let b := (u `max` x)%nat in
  get_edges_entry g (Z.of_nat n * Z.of_nat n) u st x =
  if (acc_processed st !!! (a * n + b)%nat : bool) then Some st
  else if Z.of_nat n * Z.of_nat n <=? Z.of_nat (length (acc_edges st)) then None
  else Some (mkAcc (acc_edges st ++ [mkEdge a b])
                   (<[(a * n + b)%nat := true]> (acc_processed st))).
Proof.
  intros Hwf Hdir Hu Hx n a b. unfold get_edges_entry. rewrite Hdir. fold n.
  destruct (to_size_t_vertex g x Hwf Hx) as [-> Hsx].
  destruct (to_size_t_vertex g u Hwf Hu) as [-> Hsu].
  rewrite Hsx.
  destruct (Z.leb_spec (Z.of_nat n) (Z.of_nat x)); [lia|].
  assert (Hmn : (if Z.of_nat u <? Z.of_nat x then Z.of_nat u else Z.of_nat x)
                = Z.of_nat a).
  { unfold a. destruct (Z.ltb_spec (Z.of_nat u) (Z.of_nat x)); lia. }
  assert (Hmx : (if Z.of_nat u <? Z.of_nat x then Z.of_nat x else Z.of_nat u)
                = Z.of_nat b).
  { unfold b. destruct (Z.ltb_spec (Z.of_nat u) (Z.of_nat x)); lia. }
  rewrite Hmn, Hmx.
  assert (Ha : (a < n)%nat) by (unfold a; lia).
  assert (Hb : (b < n)%nat) by (unfold b; lia).
  destruct (to_size_t_vertex g a Hwf Ha) as [_ ->].
  destruct (to_size_t_vertex g b Hwf Hb) as [_ ->].
  pose proof (slot_bound n a b Ha Hb) as Hslot.
  pose proof (wf_count g Hwf) as Hcount. unfold GRAFO_MAX_VERTICES in Hcount.
  fold n in Hcount.
  assert (Hidx : to_size_t (Z.of_nat a * Z.of_nat n + Z.of_nat b)
                 = Z.of_nat (a * n + b)).
  { unfold to_size_t. rewrite Z.mod_small by nia. lia. }
  rewrite Hidx, Nat2Z.id, !Nat2Z.id.
  destruct (Z.leb_spec (Z.of_nat n * Z.of_nat n) (Z.of_nat (a * n + b))); [nia|].
  done.
Qed.

Lemma edges_step g seen st u x :
  wf_graph g -> directed g = false ->
  (u < num_vertices g)%nat -> (x < num_vertices g)%nat ->
  edges_inv g seen st ->
  exists st',
    get_edges_entry g (Z.of_nat (num_vertices g) * Z.of_nat (num_vertices g)) u st x
      = Some st' /\
    edges_inv g (seen ++ [(u, x)]) st'.
Proof.
  intros Hwf Hdir Hu Hx (Hlen & Hproc & Hfrom & Hto & Hrange & Hnd).
  rewrite get_edges_entry_undirected by done.
  set (n := num_vertices g) in *.
  set (a := (u `min` x)%nat). set (b := (u `max` x)%nat).
  assert (Ha : (a < n)%nat) by (unfold a; lia).
  assert (Hb : (b < n)%nat) by (unfold b; lia).
  assert (Hrange' : Forall (fun p : nat * nat => (p.1 < n)%nat /\ (p.2 < n)%nat)
                      (seen ++ [(u, x)])).
  { apply Forall_app. split; [done|]. by repeat constructor. }
  destruct (acc_processed st !!! (a * n + b)%nat) eqn:Hp.
  - exists st. split; [done|].
    apply Hproc in Hp; [|done..].
    unfold edges_inv. fold n. split_and!; try done.
    + intros e He. destruct (Hfrom e He) as (u' & x' & Hin & ->).
      exists u', x'. split; [|done]. apply elem_of_app. by left.
    + intros u' x' Hin. apply elem_of_app in Hin as [Hin|Hin]; [by apply Hto|].
      apply list_elem_of_singleton in Hin. by inversion Hin; subst.
  - assert (Hnew : mkEdge a b ∉ acc_edges st).
    { intros Hin. apply Hproc in Hin; [|done..]. congruence. }
    assert (Hin_range : forall e, e ∈ acc_edges st ++ [mkEdge a b] ->
              (v1 e < n)%nat /\ (v2 e < n)%nat).
    { intros e He. apply elem_of_app in He as [He|He].
      - destruct (Hfrom e He) as (u' & x' & Hin & ->).
        rewrite Forall_forall in Hrange. destruct (Hrange _ Hin). simpl in *. lia.
      - apply list_elem_of_singleton in He. by subst. }
    assert (Hnd' : NoDup (acc_edges st ++ [mkEdge a b])).
    { apply NoDup_app. split; [done|]. split.
      - intros e He Hs. apply list_elem_of_singleton in Hs. by subst.
      - apply NoDup_singleton. }
    assert (Hroom : (length (acc_edges st) < n * n)%nat).
    { pose proof (bounded_NoDup_length
                    (map (fun e => (v1 e * n + v2 e)%nat) (acc_edges st ++ [mkEdge a b]))
                    (n * n)) as Hbound.
      rewrite length_map, length_app in Hbound. simpl in Hbound.
      assert (length (acc_edges st) + 1 <= n * n)%nat; [|lia].
      apply Hbound.
      - apply NoDup_fmap_2_strong; [|done].
        intros e e' He He' Heq.
        destruct (Hin_range e He) as [_ Hr1], (Hin_range e' He') as [_ Hr2].
        destruct (slot_injective n (v1 e) (v2 e) (v1 e') (v2 e')) as [Hi1 Hi2];
          [done..|].
        destruct e, e'. simpl in *. by subst.
      - intros i Hi. apply list_elem_of_fmap in Hi as (e & -> & He).
        destruct (Hin_range e He). by apply slot_bound. }
    destruct (Z.leb_spec (Z.of_nat n * Z.of_nat n) (Z.of_nat (length (acc_edges st))));
      [nia|].
    eexists. split; [done|].
    unfold edges_inv. simpl. fold n. split_and!; try done.
    + by rewrite length_insert.
    + intros a' b' Ha' Hb'.
      destruct (decide (a' * n + b' = a * n + b)%nat) as [Heq|Hne].
      * apply slot_injective in Heq as [-> ->]; [|done..].
        rewrite list_lookup_total_insert_eq
          by (rewrite Hlen; by apply slot_bound).
        split; [|done]. intros _. apply elem_of_app. right.
        by apply list_elem_of_singleton.
      * rewrite list_lookup_total_insert_ne by done.
        rewrite Hproc by done. rewrite elem_of_app. split; [by left|].
        intros [Hold|Hold]; [done|]. apply list_elem_of_singleton in Hold.
        inversion Hold; subst. done.
    + intros e He. apply elem_of_app in He as [He|He].
      * destruct (Hfrom e He) as (u' & x' & Hin & ->).
        exists u', x'. split; [|done]. apply elem_of_app. by left.
      * apply list_elem_of_singleton in He. subst.
        exists u, x. split; [|done]. apply elem_of_app. right.
        by apply list_elem_of_singleton.
    + intros u' x' Hin. apply elem_of_app.
      apply elem_of_app in Hin as [Hin|Hin]; [left; by apply Hto|right].
      apply list_elem_of_singleton in Hin. inversion Hin; subst.
      by apply list_elem_of_singleton.
Qed.

Lemma edges_loop g l : forall seen st,
  wf_graph g -> directed g = false ->
  Forall (fun p => (p.1 < num_vertices g)%nat /\ (p.2 < num_vertices g)%nat) l ->
  edges_inv g seen st ->
  exists st',
    for_each_opt
      (fun s p => get_edges_entry g
                    (Z.of_nat (num_vertices g) * Z.of_nat (num_vertices g)) p.1 s p.2)
      st l = Some st' /\
    edges_inv g (seen ++ l) st'.
Proof.
  induction l as [|[u x] l IH]; intros seen st Hwf Hdir Hl Hinv.
  - exists st. by rewrite app_nil_r.
  - inversion Hl as [|? ? [Hu Hx] Hl']; subst. simpl in Hu, Hx.
    destruct (edges_step g seen st u x Hwf Hdir Hu Hx Hinv) as (st1 & Hst & Hinv1).
    destruct (IH _ st1 Hwf Hdir Hl' Hinv1) as (st' & Hloop & Hinv').
    exists st'. simpl. rewrite Hst. split; [done|].
    by rewrite <- app_assoc in Hinv'.
Qed.

(** On an undirected graph, [get_edges] never runs out of room: it
    returns each pair of vertices joined by an entry exactly once, as
    (smaller, larger), whether the entry is stored on one side or on
    both and however often; [*num_edges] is the length of the array, and
    the result is NULL exactly when there is no entry at all. *)
Theorem get_edges_undirected g :
  wf_graph g -> valid_adjacency g -> directed g = false ->
  (0 < num_vertices g)%nat ->
  exists es,
    get_edges true true g =
      (match es with [] => None | _ => Some es end, length es) /\
    NoDup es /\
    forall a b, mkEdge a b ∈ es <-> (a <= b)%nat /\ (edge g a b \/ edge g b a).
Proof.
  intros Hwf Hval Hdir Hn. unfold get_edges.
  destruct (get_edges_capacity g Hwf Hn) as (-> & -> & -> & ->).
  rewrite Hdir. simpl negb. cbv iota. simpl andb. cbv iota.
  rewrite get_edges_loop_entries.
  set (n := num_vertices g) in *.
  assert (Hinit : edges_inv g []
            (mkAcc [] (replicate (Z.to_nat (Z.of_nat n * Z.of_nat n)) false))).
  { unfold edges_inv. simpl. fold n.
    rewrite <- Nat2Z.inj_mul, Nat2Z.id. split_and!.
    - by rewrite length_replicate.
    - intros a b Ha Hb.
      rewrite lookup_total_replicate_2 by (by apply slot_bound).
      split; [done|]. by intros ?%elem_of_nil.
    - by intros e ?%elem_of_nil.
    - by intros u x ?%elem_of_nil.
    - constructor.
    - constructor. }
  destruct (edges_loop g (entry_pairs g (seq 0 n)) []
              (mkAcc [] (replicate (Z.to_nat (Z.of_nat n * Z.of_nat n)) false))
              Hwf Hdir) as
    (st & Hloop & _ & _ & Hfrom & Hto & _ & Hnd); [|exact Hinit|].
  { apply entry_pairs_in_range; [done|]. apply Forall_forall.
    intros v Hv. apply elem_of_seq in Hv. fold n. lia. }
  fold n in Hloop. rewrite Hloop.
  simpl in Hfrom, Hto. fold n in Hfrom, Hto.
  exists (acc_edges st). split; [by destruct (acc_edges st)|]. split; [done|].
  intros a b. split.
  - intros Hin. destruct (Hfrom _ Hin) as (u & x & Hux & Heq).
    apply elem_of_entry_pairs in Hux. inversion Heq; subst.
    split; [lia|].
    destruct (decide (u <= x)%nat).
    + left. by rewrite Nat.min_l, Nat.max_r by lia.
    + right. by rewrite Nat.min_r, Nat.max_l by lia.
  - intros [Hab [He|He]]; apply elem_of_entry_pairs in He; apply Hto in He.
    + by rewrite Nat.min_l, Nat.max_r in He by lia.
    + by rewrite Nat.min_r, Nat.max_l in He by lia.
Qed.

Lemma get_edges_undirected_witness :
  wf_graph g_cycle4 /\ valid_adjacency g_cycle4 /\ directed g_cycle4 = false /\
  (0 < num_vertices g_cycle4)%nat /\
  exists es,
    get_edges true true g_cycle4 =
      (match es with [] => None | _ => Some es end, length es) /\
    NoDup es /\
    forall a b, mkEdge a b ∈ es <->
      (a <= b)%nat /\ (edge g_cycle4 a b \/ edge g_cycle4 b a).
Proof.
  assert (Hn : (0 < num_vertices g_cycle4)%nat) by (simpl; lia).
  split; [exact wf_g_cycle4|]. split; [exact valid_g_cycle4|].
  split; [reflexivity|]. split; [exact Hn|].
  exact (get_edges_undirected g_cycle4 wf_g_cycle4 valid_g_cycle4 eq_refl Hn).
Defined.


(** * Breadth-first search *)

Lemma bfs_visit_inv g start x rest st :
  wf_graph g -> (x < num_vertices g)%nat ->
  bfs_inv g start (x :: rest) st ->
  bfs_inv g start rest (bfs_visit (num_vertices g) st x) /\
  bfs_front (bfs_visit (num_vertices g) st x) = bfs_front st.
Proof.
  intros Hwf Hx (q & Hq & Hres & Hlen & Hfront & Hnd & Hrange & Hvis & Hstart
                 & Hparent & Hrest & Hclosed).
  unfold bfs_visit.
  destruct (to_size_t_vertex g x Hwf Hx) as [-> ->]. rewrite Nat2Z.id.
  set (n := num_vertices g) in *.
  destruct (Z.leb_spec (Z.of_nat n) (Z.of_nat x)); [lia|].
  destruct (bfs_visited st !!! x) eqn:Hv.
  - split; [|done]. exists q. split_and!; try done.
    + intros y Hy. apply Hrest. by right.
    + intros i u v Hi Hu He. destruct (Hclosed i u v Hi Hu He) as [?|Hin]; [by left|].
      apply elem_of_cons in Hin as [->|?]; [left|by right]. by apply Hvis.
  - assert (Hnew : x ∉ q).
    { intros Hin. apply Hvis in Hin; [|done]. congruence. }
    split; [|done]. exists (q ++ [x]). simpl. split_and!.
    + by rewrite Hq, fmap_app.
    + rewrite take_app_le by lia. done.
    + by rewrite length_insert.
    + rewrite length_app. simpl. lia.
    + apply NoDup_app. split; [done|]. split; [|apply NoDup_singleton].
      intros y Hy Hs. apply list_elem_of_singleton in Hs. by subst.
    + intros v Hin. apply elem_of_app in Hin as [Hin|Hin]; [by apply Hrange|].
      apply list_elem_of_singleton in Hin. by subst.
    + intros v Hvn. destruct (decide (v = x)) as [->|Hne].
      * rewrite list_lookup_total_insert_eq by lia. split; [|done].
        intros _. apply elem_of_app. right. by apply list_elem_of_singleton.
      * rewrite list_lookup_total_insert_ne by done. rewrite Hvis by done.
        rewrite elem_of_app. split; [by left|]. intros [?|Hs]; [done|].
        apply list_elem_of_singleton in Hs. done.
    + destruct q; [done|]. done.
    + intros j v Hj Hpos.
      destruct (decide (j < length q)%nat) as [Hlt|Hge].
      * rewrite lookup_app_l in Hj by done.
        destruct (Hparent j v Hj Hpos) as (i & u & Hij & Hif & Hu & He).
        exists i, u. split_and!; try done. rewrite lookup_app_l by lia. done.
      * rewrite lookup_app_r in Hj by lia.
        destruct (j - length q)%nat eqn:Hd; [|by destruct n0]. simpl in Hj.
        inversion Hj; subst v.
        destruct (Hrest x ltac:(by left)) as (i & u & Hif & Hu & He).
        exists i, u. split_and!; [lia|done| |done].
        rewrite lookup_app_l by lia. done.
    + intros y Hy. destruct (Hrest y ltac:(by right)) as (i & u & Hif & Hu & He).
      exists i, u. split_and!; [done| |done]. rewrite lookup_app_l by lia. done.
    + intros i u v Hi Hu He. rewrite lookup_app_l in Hu by lia.
      rewrite elem_of_app.
      destruct (Hclosed i u v Hi Hu He) as [?|Hin]; [by left; left|].
      apply elem_of_cons in Hin as [->|?]; [left; right|by right].
      by apply list_elem_of_singleton.
Qed.

Lemma bfs_visit_fold g start rest : forall st,
  wf_graph g -> Forall (fun x => (x < num_vertices g)%nat) rest ->
  bfs_inv g start rest st ->
  bfs_inv g start [] (foldl (bfs_visit (num_vertices g)) st rest) /\
  bfs_front (foldl (bfs_visit (num_vertices g)) st rest) = bfs_front st.
Proof.
  induction rest as [|x rest IH]; intros st Hwf Hr Hinv; simpl; [done|].
  inversion Hr as [|? ? Hx Hr']; subst.
  destruct (bfs_visit_inv g start x rest st Hwf Hx Hinv) as [Hinv1 Hf1].
  destruct (IH _ Hwf Hr' Hinv1) as [Hinv2 Hf2].
  split; [done|congruence].
Qed.

Lemma bfs_step_inv g start st :
  wf_graph g -> valid_adjacency g ->
  bfs_inv g start [] st ->
  match bfs_step g st with
  | inl st' =>
      bfs_inv g start [] st' /\
      (num_vertices g - bfs_front st' < num_vertices g - bfs_front st)%nat
  | inr st' =>
      bfs_inv g start [] st' /\ bfs_front st' = length (bfs_queue st')
  end.
Proof.
  intros Hwf Hval Hinv. unfold bfs_step.
  pose proof Hinv as (q & Hq & Hres & Hlen & Hfront & Hnd & Hrange & Hvis & Hstart
                      & Hparent & Hrest & Hclosed).
  assert (Hql : length (bfs_queue st) = length q) by (by rewrite Hq, length_fmap).
  rewrite Hql.
  destruct (Nat.ltb_spec (bfs_front st) (length q)) as [Hlt|Hge].
  2:{ split; [done|]. lia. }
  destruct (lookup_lt_is_Some_2 q (bfs_front st) Hlt) as [u Hu].
  assert (Hun : (u < num_vertices g)%nat).
  { apply Hrange. by eapply list_elem_of_lookup_2. }
  assert (Hzu : bfs_queue st !!! bfs_front st = Z.of_nat u).
  { apply list_lookup_total_correct. by rewrite Hq, list_lookup_fmap, Hu. }
  rewrite Hzu, Nat2Z.id.
  pose proof (bounded_NoDup_length q (num_vertices g) Hnd Hrange) as Hbound.
  set (st1 := mkBfs _ _ _ _).
  assert (Hinv1 : bfs_inv g start (neighbors g u) st1).
  { exists q. unfold st1. simpl. split_and!; try done.
    - rewrite Hres. erewrite take_S_r by done. by rewrite fmap_app.
    - intros j v Hj Hpos. destruct (Hparent j v Hj Hpos) as (i & w & ? & ? & ? & ?).
      exists i, w. split_and!; try done. lia.
    - intros x Hx. exists (bfs_front st), u. split_and!; [lia|done|].
      split; [done|done].
    - intros i w v Hi Hw He.
      destruct (decide (i = bfs_front st)) as [->|Hne].
      + rewrite Hu in Hw. inversion Hw; subst w. right. by destruct He.
      + destruct (Hclosed i w v ltac:(lia) Hw He) as [?|Hin]; [by left|].
        by apply elem_of_nil in Hin. }
  destruct (bfs_visit_fold g start (neighbors g u) st1 Hwf) as [Hinv2 Hf2];
    [|done|].
  { apply Forall_forall. intros x Hx. by eapply Hval. }
  split; [done|]. rewrite Hf2. simpl. lia.
Qed.

(** On a well-formed graph with valid adjacency entries and an in-range
    start vertex, [bfs] finishes and returns an array of [n] slots whose
    written part lists, without repetition and beginning with [start],
    exactly the vertices that can be reached from [start] along
    adjacency entries; every vertex but the first comes after a vertex
    that has it as a neighbour.  The slots after the written part are
    never assigned. *)
Theorem bfs_visits_reachable g start :
  wf_graph g -> valid_adjacency g -> (start < num_vertices g)%nat ->
  exists order : list nat,
    bfs true g start =
      Some (Some ((Some <$> (Z.of_nat <$> order))
                  ++ replicate (num_vertices g - length order) None)) /\
    NoDup order /\
    order !! 0%nat = Some start /\
    (forall v, v ∈ order <-> rtc (edge g) start v) /\
    (forall j v, order !! j = Some v -> (0 < j)%nat ->
       exists i u, (i < j)%nat /\ order !! i = Some u /\ edge g u v).
Proof.
  intros Hwf Hval Hs. unfold bfs.
  set (n := num_vertices g) in *.
  destruct (Nat.leb_spec n start) as [|_]; [lia|].
  destruct (Nat.eqb_spec n 0) as [|_]; [lia|].
  pose proof (wf_count g Hwf) as Hcount. unfold GRAFO_MAX_VERTICES in Hcount.
  fold n in Hcount.
  assert (Hq4 : SIZE_MAX / sizeof_int = 4611686018427387903) by reflexivity.
  rewrite Hq4.
  destruct (Z.ltb_spec 4611686018427387903 (Z.of_nat n)); [lia|].
  simpl negb. simpl orb. cbv iota.
  destruct (to_size_t_vertex g start Hwf Hs) as [-> _].
  set (st0 := mkBfs _ _ _ _).
  assert (Hinv0 : bfs_inv g start [] st0).
  { exists [start]. unfold st0. simpl. fold n. split_and!; try done.
    - by rewrite length_insert, length_replicate.
    - lia.
    - apply NoDup_singleton.
    - intros v Hv. apply list_elem_of_singleton in Hv. by subst.
    - intros v Hv. rewrite list_elem_of_singleton.
      destruct (decide (v = start)) as [->|Hne].
      + rewrite list_lookup_total_insert_eq by (rewrite length_replicate; lia).
        done.
      + rewrite list_lookup_total_insert_ne by done.
        rewrite lookup_total_replicate_2 by done. done.
    - intros j v Hj Hpos. destruct j; [lia|]. done.
    - by intros x ?%elem_of_nil.
    - intros; lia. }
  destruct (while_fuel_rule (bfs_step g) (bfs_inv g start [])
              (fun st => (n - bfs_front st)%nat)
              (fun st => bfs_inv g start [] st /\
                         bfs_front st = length (bfs_queue st))
              (fun st H => bfs_step_inv g start st Hwf Hval H)
              (S n) st0 Hinv0 ltac:(simpl; lia))
    as (st & -> & Hinv & Hend).
  destruct Hinv as (q & Hq & Hres & Hlen & Hfront & Hnd & Hrange & Hvis & Hstart
                    & Hparent & _ & Hclosed).
  rewrite Hq, length_fmap in Hend.
  rewrite Hend, firstn_all in Hres.
  exists q. rewrite Hres, length_fmap. split; [done|]. split; [done|].
  split; [done|]. split.
  - intros v. split.
    + intros Hin. apply list_elem_of_lookup_1 in Hin as [j Hj].
      revert v Hj. induction j as [j IH] using lt_wf_ind. intros v Hj.
      destruct (decide (j = 0)%nat) as [->|Hpos].
      { rewrite Hstart in Hj. inversion Hj. apply rtc_refl. }
      destruct (Hparent j v Hj ltac:(lia)) as (i & u & Hij & _ & Hu & He).
      eapply rtc_r; [by apply (IH i Hij u)|done].
    + intros Hreach.
      apply (rtc_ind_r (R:=edge g) (fun v => v ∈ q) start); [| |exact Hreach].
      { by eapply list_elem_of_lookup_2. }
      intros b c _ Hbc IH.
      apply list_elem_of_lookup_1 in IH as [i Hi].
      destruct (Hclosed i b c) as [?|Hin]; [|done|done|done|].
      * rewrite Hend. by eapply lookup_lt_Some.
      * by apply elem_of_nil in Hin.
  - intros j v Hj Hpos. destruct (Hparent j v Hj Hpos) as (i & u & ? & _ & ? & ?).
    by exists i, u.
Qed.

Lemma bfs_visits_reachable_witness :
  wf_graph g_dag3 /\ valid_adjacency g_dag3 /\ (1 < num_vertices g_dag3)%nat /\
  exists order : list nat,
    bfs true g_dag3 1 =
      Some (Some ((Some <$> (Z.of_nat <$> order))
                  ++ replicate (num_vertices g_dag3 - length order) None)) /\
    NoDup order /\
    order !! 0%nat = Some 1%nat /\
    (forall v, v ∈ order <-> rtc (edge g_dag3) 1%nat v) /\
    (forall j v, order !! j = Some v -> (0 < j)%nat ->
       exists i u, (i < j)%nat /\ order !! i = Some u /\ edge g_dag3 u v).
Proof.
  assert (Hwf : wf_graph g_dag3) by wf_concrete.
  assert (Hs : (1 < num_vertices g_dag3)%nat) by (simpl; lia).
  split; [exact Hwf|]. split; [exact valid_g_dag3|]. split; [exact Hs|].
  exact (bfs_visits_reachable g_dag3 1 Hwf valid_g_dag3 Hs).
Defined.

(** From vertex 1 of the graph 0->1, 1->2, 0->2 the search writes two of
    the three slots. *)
Example bfs_scenario :
  bfs true g_dag3 1 = Some (Some [Some 1; Some 2; None]).
Proof. by vm_compute. Qed.


(** * Walks along adjacency entries *)

Lemma walk_in_range g k s v :
  valid_adjacency g -> (s < num_vertices g)%nat ->
  nsteps (edge g) k s v -> (v < num_vertices g)%nat.
Proof.
  intros Hval Hs Hw. revert v Hw. induction k as [|k IH]; intros v Hw.
  - inversion Hw; by subst.
  - apply nsteps_inv_r in Hw as (y & Hy & [Hyn Hin]). by eapply Hval.
Qed.

(** The vertices a walk goes through, each with the part of the walk
    before it and the part after it. *)
Lemma walk_list (R : relation nat) k s v :
  nsteps R k s v ->
  exists p, length p = S k /\
    forall i w, p !! i = Some w -> nsteps R i s w /\ nsteps R (k - i) w v.
Proof.
  induction 1 as [x|k x y z Hxy Hyz (p & Hlen & Hp)].
  - exists [x]. split; [done|]. intros i w Hi.
    destruct i; [|done]. inversion Hi; subst. split; constructor.
  - exists (x :: p). split; [simpl; lia|]. intros i w Hi.
    destruct i as [|i].
    + inversion Hi; subst. split; [constructor|]. simpl. by econstructor.
    + simpl in Hi. destruct (Hp i w Hi) as [H1 H2]. split; [|done].
      by econstructor.
Qed.

(** A walk between two vertices can be cut down to fewer than [n]
    entries. *)
Lemma walk_shortcut g k s v :
  valid_adjacency g -> (s < num_vertices g)%nat ->
  nsteps (edge g) k s v ->
  exists k', (k' < num_vertices g)%nat /\ (k' <= k)%nat /\ nsteps (edge g) k' s v.
Proof.
  intros Hval Hs. revert v. induction k as [k IH] using lt_wf_ind. intros v Hw.
  destruct (decide (k < num_vertices g)%nat) as [Hlt|Hge]; [by exists k|].
  destruct (walk_list _ k s v Hw) as (p & Hlen & Hp).
  destruct (repeat_or_NoDup p) as [Hnd|(i & j & x & Hij & Hi & Hj)].
  - exfalso.
    pose proof (bounded_NoDup_length p (num_vertices g) Hnd) as Hb.
    assert (length p <= num_vertices g)%nat; [|lia].
    apply Hb. intros w Hin. apply list_elem_of_lookup_1 in Hin as [a Ha].
    destruct (Hp a w Ha) as [H1 _]. by eapply walk_in_range.
  - destruct (Hp i x Hi) as [H1 _]. destruct (Hp j x Hj) as [_ H2].
    apply lookup_lt_Some in Hj.
    destruct (IH (i + (k - j))%nat ltac:(lia) v) as (k' & Hk' & Hle & Hw').
    { by eapply nsteps_trans. }
    exists k'. split; [done|]. split; [lia|done].
Qed.

Lemma shortest_distance_unique g s t r r' :
  wf_graph g -> valid_adjacency g -> (s < num_vertices g)%nat ->
  shortest_distance g s t r -> shortest_distance g s t r' -> r = r'.
Proof.
  intros Hwf Hval Hs [[-> Hno]|(d & -> & Hd & Hmin)] [[-> Hno']|(d' & -> & Hd' & Hmin')].
  - done.
  - by apply Hno in Hd'.
  - by apply Hno' in Hd.
  - specialize (Hmin _ Hd'). specialize (Hmin' _ Hd). lia.
Qed.


(** * Bellman-Ford *)

Lemma dist_below_refl n d : dist_below n d d.
Proof. intros v _. lia. Qed.

Lemma dist_below_trans n d1 d2 d3 :
  dist_below n d1 d2 -> dist_below n d2 d3 -> dist_below n d1 d3.
Proof. intros H1 H2 v Hv. specialize (H1 v Hv). specialize (H2 v Hv). lia. Qed.

(** One relaxation. *)
Lemma bf_relax_spec g s u acc v :
  (u < num_vertices g)%nat ->
  dist_sound g s (sp_dist acc.1) -> sp_dist acc.1 !!! u <> INT_MAX ->
  v ∈ neighbors g u ->
  let acc' := bf_relax (num_vertices g) u acc v in
  dist_sound g s (sp_dist acc'.1) /\
  dist_below (num_vertices g) (sp_dist acc'.1) (sp_dist acc.1) /\
  ((v < num_vertices g)%nat -> sp_dist acc'.1 !!! v <= sp_dist acc.1 !!! u + 1) /\
  (acc'.2 = false -> acc.2 = false /\ sp_dist acc'.1 = sp_dist acc.1) /\
  (acc.2 = true -> acc'.2 = true).
Proof.
  intros Hu (Hlen & Hsrc & Hrng & Hsnd) Hfin Hin acc'. unfold acc', bf_relax.
  destruct (Nat.leb_spec (num_vertices g) v) as [Hge|Hlt].
  { split_and!; try done; [apply dist_below_refl|lia]. }
  destruct (Z.ltb_spec (sp_dist acc.1 !!! u + 1) (sp_dist acc.1 !!! v)) as [Hless|Hno].
  2:{ split_and!; try done. apply dist_below_refl. }
  simpl.
  pose proof (Hrng u Hu) as Hru. pose proof (Hrng v Hlt) as Hrv.
  assert (Huv : u <> v) by (intros ->; lia).
  split_and!.
  - split_and!.
    + by rewrite length_insert.
    + destruct (decide (v = s)) as [->|Hne]; [lia|].
      by rewrite list_lookup_total_insert_ne.
    + intros w Hw. destruct (decide (w = v)) as [->|Hne].
      * rewrite list_lookup_total_insert_eq by lia. lia.
      * rewrite list_lookup_total_insert_ne by done. by apply Hrng.
    + intros w Hw. destruct (decide (w = v)) as [->|Hne].
      * rewrite list_lookup_total_insert_eq by lia. intros _.
        replace (Z.to_nat (sp_dist acc.1 !!! u + 1))
          with (S (Z.to_nat (sp_dist acc.1 !!! u))) by lia.
        eapply nsteps_r; [by apply Hsnd|]. by split.
      * rewrite list_lookup_total_insert_ne by done. by apply Hsnd.
  - intros w Hw. destruct (decide (w = v)) as [->|Hne].
    + rewrite list_lookup_total_insert_eq by lia. lia.
    + rewrite list_lookup_total_insert_ne by done. lia.
  - intros _. rewrite list_lookup_total_insert_eq by lia. lia.
  - done.
  - done.
Qed.

(** The entries [l] of one vertex. *)
Lemma bf_relax_fold g s u l : forall acc,
  (u < num_vertices g)%nat ->
  dist_sound g s (sp_dist acc.1) -> sp_dist acc.1 !!! u <> INT_MAX ->
  (forall v, v ∈ l -> v ∈ neighbors g u) ->
  let acc' := foldl (bf_relax (num_vertices g) u) acc l in
  dist_sound g s (sp_dist acc'.1) /\
  dist_below (num_vertices g) (sp_dist acc'.1) (sp_dist acc.1) /\
  (forall v, v ∈ l -> (v < num_vertices g)%nat ->
     sp_dist acc'.1 !!! v <= sp_dist acc.1 !!! u + 1) /\
  (acc'.2 = false -> acc.2 = false /\ sp_dist acc'.1 = sp_dist acc.1) /\
  (acc.2 = true -> acc'.2 = true).
Proof.
  induction l as [|v l IH]; intros acc Hu Hsound Hfin Hsub; simpl.
  { split_and!; try done; [apply dist_below_refl|by intros v ?%elem_of_nil]. }
  assert (Hv0 : v ∈ neighbors g u) by (apply Hsub; by left).
  destruct (bf_relax_spec g s u acc v Hu Hsound Hfin Hv0)
    as (Hs1 & Hb1 & Hv1 & Hf1 & Ht1).
  set (acc1 := bf_relax (num_vertices g) u acc v) in *.
  assert (Hfin1 : sp_dist acc1.1 !!! u <> INT_MAX).
  { specialize (Hb1 u Hu). destruct Hsound as (_ & _ & Hrng & _).
    specialize (Hrng u Hu). lia. }
  assert (Hsub1 : forall w, w ∈ l -> w ∈ neighbors g u).
  { intros w Hw. apply Hsub. by right. }
  destruct (IH acc1 Hu Hs1 Hfin1 Hsub1) as (Hs2 & Hb2 & Hv2 & Hf2 & Ht2).
  split_and!.
  - done.
  - by eapply dist_below_trans.
  - intros w Hw Hwn. apply elem_of_cons in Hw as [->|Hw].
    + specialize (Hb2 v Hwn). specialize (Hv1 Hwn). lia.
    + specialize (Hv2 w Hw Hwn). specialize (Hb1 u Hu). lia.
  - intros Hfalse. destruct (Hf2 Hfalse) as [H1 H2].
    destruct (Hf1 H1) as [H3 H4]. split; [done|congruence].
  - intros Htrue. by apply Ht2, Ht1.
Qed.

(** The vertices [us] of one pass, started from the array [d0]. *)
Lemma bf_vertex_fold g s us : forall acc d0,
  (forall u, u ∈ us -> (u < num_vertices g)%nat) ->
  dist_sound g s (sp_dist acc.1) ->
  dist_below (num_vertices g) (sp_dist acc.1) d0 ->
  let acc' := foldl (bf_vertex g) acc us in
  dist_sound g s (sp_dist acc'.1) /\
  dist_below (num_vertices g) (sp_dist acc'.1) (sp_dist acc.1) /\
  (forall u v, u ∈ us -> d0 !!! u < INT_MAX -> v ∈ neighbors g u ->
     (v < num_vertices g)%nat -> sp_dist acc'.1 !!! v <= d0 !!! u + 1) /\
  (acc'.2 = false -> acc.2 = false /\ sp_dist acc'.1 = sp_dist acc.1) /\
  (acc.2 = true -> acc'.2 = true).
Proof.
  induction us as [|u us IH]; intros acc d0 Hus Hsound Hbelow; simpl.
  { split_and!; try done; [apply dist_below_refl|].
    by intros u v ?%elem_of_nil. }
  assert (Hu : (u < num_vertices g)%nat) by (apply Hus; by left).
  assert (Hstep :
    let acc1 := bf_vertex g acc u in
    dist_sound g s (sp_dist acc1.1) /\
    dist_below (num_vertices g) (sp_dist acc1.1) (sp_dist acc.1) /\
    (forall v, d0 !!! u < INT_MAX -> v ∈ neighbors g u ->
       (v < num_vertices g)%nat -> sp_dist acc1.1 !!! v <= d0 !!! u + 1) /\
    (acc1.2 = false -> acc.2 = false /\ sp_dist acc1.1 = sp_dist acc.1) /\
    (acc.2 = true -> acc1.2 = true)).
  { unfold bf_vertex.
    destruct (Z.eqb_spec (sp_dist acc.1 !!! u) INT_MAX) as [Hinf|Hfin].
    - split_and!; try done; [apply dist_below_refl|].
      intros v Hd0. specialize (Hbelow u Hu).
      destruct Hsound as (_ & _ & Hrng & _). specialize (Hrng u Hu). lia.
    - destruct (bf_relax_fold g s u (neighbors g u) acc Hu Hsound Hfin)
        as (H1 & H2 & H3 & H4 & H5); [done|].
      split_and!; try done.
      intros v _ Hv Hvn. specialize (H3 v Hv Hvn). specialize (Hbelow u Hu). lia. }
  destruct Hstep as (Hs1 & Hb1 & Hv1 & Hf1 & Ht1).
  set (acc1 := bf_vertex g acc u) in *.
  assert (Hus1 : forall w, w ∈ us -> (w < num_vertices g)%nat).
  { intros w Hw. apply Hus. by right. }
  assert (Hbelow1 : dist_below (num_vertices g) (sp_dist acc1.1) d0).
  { by eapply dist_below_trans. }
  destruct (IH acc1 d0 Hus1 Hs1 Hbelow1) as (Hs2 & Hb2 & Hv2 & Hf2 & Ht2).
  split_and!.
  - done.
  - by eapply dist_below_trans.
  - intros w v Hw Hd0 Hv Hvn. apply elem_of_cons in Hw as [->|Hw].
    + specialize (Hv1 v Hd0 Hv Hvn). specialize (Hb2 v Hvn). lia.
    + by apply (Hv2 w v).
  - intros Hfalse. destruct (Hf2 Hfalse) as [H1 H2].
    destruct (Hf1 H1) as [H3 H4]. split; [done|congruence].
  - intros Htrue. by apply Ht2, Ht1.
Qed.

Lemma bf_pass_spec g s st :
  dist_sound g s (sp_dist st) ->
  let r := bf_pass g st in
  dist_sound g s (sp_dist r.1) /\
  dist_below (num_vertices g) (sp_dist r.1) (sp_dist st) /\
  (forall u v, edge g u v -> sp_dist st !!! u < INT_MAX ->
     (v < num_vertices g)%nat -> sp_dist r.1 !!! v <= sp_dist st !!! u + 1) /\
  (r.2 = false -> sp_dist r.1 = sp_dist st).
Proof.
  intros Hsound. unfold bf_pass.
  destruct (bf_vertex_fold g s (seq 0 (num_vertices g)) (st, false) (sp_dist st))
    as (H1 & H2 & H3 & H4 & _).
  { intros u Hu. apply elem_of_seq in Hu. lia. }
  { done. }
  { apply dist_below_refl. }
  split_and!; try done.
  - intros u v [Hu Hv] Hfin Hvn. apply (H3 u v); try done.
    apply elem_of_seq. lia.
  - intros Hf. by destruct (H4 Hf).
Qed.

(** The loop over the passes: after it the array is sound, and the
    entry of the end of a walk is at most the length of the walk, for
    every walk of at most [k + iters] entries. *)
Lemma bf_loop_spec g s iters : forall st k,
  wf_graph g -> valid_adjacency g -> (s < num_vertices g)%nat ->
  dist_sound g s (sp_dist st) ->
  (forall j v, (j <= k)%nat -> nsteps (edge g) j s v ->
     sp_dist st !!! v <= Z.of_nat j) ->
  let st' := bf_loop g iters st in
  dist_sound g s (sp_dist st') /\
  (forall j v, (j <= k + iters)%nat -> nsteps (edge g) j s v ->
     sp_dist st' !!! v <= Z.of_nat j).
Proof.
  induction iters as [|iters IH]; intros st k Hwf Hval Hs Hsound Hk; simpl.
  { split; [done|]. intros j v Hj. apply Hk. lia. }
  pose proof (wf_count g Hwf) as Hcount. unfold GRAFO_MAX_VERTICES in Hcount.
  destruct (bf_pass_spec g s st Hsound) as (Hs1 & Hb1 & He1 & Hf1).
  set (r := bf_pass g st) in *.
  assert (Hk1 : forall j v, (j <= S k)%nat -> nsteps (edge g) j s v ->
            sp_dist r.1 !!! v <= Z.of_nat j).
  { intros j v Hj Hw.
    pose proof (walk_in_range g j s v Hval Hs Hw) as Hvn.
    destruct (decide (j <= k)%nat) as [Hle|Hgt].
    { specialize (Hk j v Hle Hw). specialize (Hb1 v Hvn). lia. }
    assert (j = S k) as -> by lia.
    apply nsteps_inv_r in Hw as (y & Hy & Hyv).
    pose proof (Hk k y ltac:(lia) Hy) as Hyk.
    destruct (walk_shortcut g k s y Hval Hs Hy) as (k' & Hk' & Hle' & Hy').
    pose proof (Hk k' y Hle' Hy') as Hyk'.
    assert (Hyfin : sp_dist st !!! y < INT_MAX) by (unfold INT_MAX; lia).
    specialize (He1 y v Hyv Hyfin Hvn). lia. }
  destruct (r.2) eqn:Hupd.
  - destruct (IH r.1 (S k) Hwf Hval Hs Hs1 Hk1) as [H1 H2].
    split; [done|]. intros j v Hj. apply H2. lia.
  - split; [done|].
    specialize (Hf1 eq_refl).
    intros j v _. revert v.
    induction j as [j IHj] using lt_wf_ind. intros v Hw.
    destruct j as [|j].
    { inversion Hw; subst. destruct Hs1 as (_ & Hsrc & _). rewrite Hsrc. lia. }
    pose proof (walk_in_range g _ s v Hval Hs Hw) as Hvn.
    apply nsteps_inv_r in Hw as (y & Hy & Hyv).
    pose proof (IHj j ltac:(lia) y Hy) as Hyj.
    destruct (walk_shortcut g j s y Hval Hs Hy) as (k' & Hk' & Hle' & Hy').
    pose proof (IHj k' ltac:(lia) y Hy') as Hyk'.
    rewrite Hf1 in Hyj, Hyk'.
    assert (Hyfin : sp_dist st !!! y < INT_MAX) by (unfold INT_MAX; lia).
    specialize (He1 y v Hyv Hyfin Hvn). lia.
Qed.

Lemma bellman_ford_distance g source target :
  wf_graph g -> valid_adjacency g ->
  (source < num_vertices g)%nat -> (target < num_vertices g)%nat ->
  shortest_distance g source target (bellman_ford_shortest_path g source target).
Proof.
  intros Hwf Hval Hs Ht. unfold bellman_ford_shortest_path.
  set (n := num_vertices g) in *.
  destruct (Nat.leb_spec n source) as [|_]; [lia|].
  destruct (Nat.leb_spec n target) as [|_]; [lia|]. simpl.
  pose proof (wf_count g Hwf) as Hcount. unfold GRAFO_MAX_VERTICES in Hcount.
  fold n in Hcount.
  set (st0 := mkSp _ _ _).
  assert (Hsound0 : dist_sound g source (sp_dist st0)).
  { unfold st0. simpl. fold n. split_and!.
    - by rewrite length_insert, length_replicate.
    - by rewrite list_lookup_total_insert_eq by (rewrite length_replicate; lia).
    - intros v Hv. destruct (decide (v = source)) as [->|Hne].
      + rewrite list_lookup_total_insert_eq by (rewrite length_replicate; lia).
        unfold INT_MAX. lia.
      + rewrite list_lookup_total_insert_ne by done.
        rewrite lookup_total_replicate_2 by done. unfold INT_MAX. lia.
    - intros v Hv. destruct (decide (v = source)) as [->|Hne].
      + rewrite list_lookup_total_insert_eq by (rewrite length_replicate; lia).
        intros _. constructor.
      + rewrite list_lookup_total_insert_ne by done.
        by rewrite lookup_total_replicate_2. }
  destruct (bf_loop_spec g source (n - 1) st0 0 Hwf Hval Hs Hsound0) as [Hsound Hmin].
  { intros j v Hj Hw. assert (j = 0%nat) as -> by lia. inversion Hw; subst.
    destruct Hsound0 as (_ & -> & _). lia. }
  fold n in Hmin. set (st := bf_loop g (n - 1) st0) in *.
  destruct Hsound as (_ & _ & Hrng & Hsnd). fold n in Hrng, Hsnd.
  assert (Hall : forall k, nsteps (edge g) k source target ->
            sp_dist st !!! target <= Z.of_nat k /\ sp_dist st !!! target < Z.of_nat n).
  { intros k Hw.
    destruct (walk_shortcut g k source target Hval Hs Hw) as (k' & Hk' & Hle & Hw').
    fold n in Hk'. specialize (Hmin k' target ltac:(lia) Hw'). lia. }
  destruct (decide (sp_dist st !!! target = INT_MAX)) as [Hinf|Hfin].
  - left. split; [done|]. intros k Hw. destruct (Hall k Hw) as [_ Hlt].
    unfold INT_MAX in Hinf. lia.
  - right. exists (Z.to_nat (sp_dist st !!! target)).
    specialize (Hrng target Ht). split; [lia|]. split; [by apply Hsnd|].
    intros k Hw. destruct (Hall k Hw). lia.
Qed.




(** * Dijkstra *)

Lemma count_true_le (l : list bool) : (count_true l <= length l)%nat.
Proof. unfold count_true. apply length_filter. Qed.

Lemma count_true_mark_new (l : list bool) : forall i,
  (i < length l)%nat -> l !!! i = false ->
  count_true (<[i := true]> l) = S (count_true l).
Proof.
  unfold count_true. induction l as [|b l IH]; intros i Hi Hf; simpl in *.
  - lia.
  - destruct i as [|i]; simpl in *.
    + subst b. rewrite !filter_cons.
      destruct (decide (true = true)); [|done].
      destruct (decide (false = true)); [done|]. done.
    + rewrite !filter_cons.
      destruct (decide (b = true)); simpl; rewrite IH; (lia || done).
Qed.

Lemma count_true_full (l : list bool) : forall i,
  count_true l = length l -> (i < length l)%nat -> l !!! i = true.
Proof.
  unfold count_true. induction l as [|b l IH]; intros i Hc Hi; simpl in *.
  - lia.
  - rewrite filter_cons in Hc. pose proof (length_filter (fun b => b = true) l).
    destruct (decide (b = true)) as [->|Hb]; simpl in Hc; [|lia].
    destruct i as [|i]; [done|]. simpl. apply IH; lia.
Qed.

(** A sound array that is below the length of every walk to [t] holds
    the distance of [t]. *)
Lemma shortest_distance_intro g s t (dist : list Z) :
  wf_graph g -> valid_adjacency g ->
  (s < num_vertices g)%nat -> (t < num_vertices g)%nat ->
  dist_sound g s dist ->
  (forall j, nsteps (edge g) j s t -> dist !!! t <= Z.of_nat j) ->
  shortest_distance g s t (dist !!! t).
Proof.
  intros Hwf Hval Hs Ht (_ & _ & Hrng & Hsnd) Hmin.
  pose proof (wf_count g Hwf) as Hcount. unfold GRAFO_MAX_VERTICES in Hcount.
  assert (Hall : forall k, nsteps (edge g) k s t ->
            dist !!! t <= Z.of_nat k /\ dist !!! t < Z.of_nat (num_vertices g)).
  { intros k Hw.
    destruct (walk_shortcut g k s t Hval Hs Hw) as (k' & Hk' & Hle & Hw').
    specialize (Hmin k' Hw'). lia. }
  destruct (decide (dist !!! t = INT_MAX)) as [Hinf|Hfin].
  - left. split; [done|]. intros k Hw. destruct (Hall k Hw) as [_ Hlt].
    unfold INT_MAX in Hinf. lia.
  - right. exists (Z.to_nat (dist !!! t)).
    specialize (Hrng t Ht). split; [lia|]. split; [by apply Hsnd|].
    intros k Hw. destruct (Hall k Hw). lia.
Qed.

(** The scan for the nearest unvisited vertex. *)
Lemma dijkstra_select_spec (l : list nat) n st :
  let r := foldl (fun (acc : Z * nat) v =>
                    if negb (sp_visited st !!! v) && (sp_dist st !!! v <? acc.1)
                    then (sp_dist st !!! v, v) else acc)
                 (INT_MAX, n) l in
  (r = (INT_MAX, n) /\
   forall v, v ∈ l -> sp_visited st !!! v = false -> INT_MAX <= sp_dist st !!! v)
  \/
  (r.2 ∈ l /\ sp_visited st !!! r.2 = false /\ r.1 = sp_dist st !!! r.2 /\
   r.1 < INT_MAX /\
   forall v, v ∈ l -> sp_visited st !!! v = false -> r.1 <= sp_dist st !!! v).
Proof.
  induction l as [|x l IH] using rev_ind; simpl.
  - left. split; [done|]. by intros v ?%elem_of_nil.
  - rewrite foldl_app. simpl. set (acc := foldl _ _ l) in *. simpl in IH.
    destruct (sp_visited st !!! x) eqn:Hvx; simpl.
    { destruct IH as [[Hr Hall]|(Hin & Hv & Hd & Hlt & Hall)].
      - left. split; [done|]. intros v Hv Hvv.
        apply elem_of_app in Hv as [Hv|Hv]; [by apply Hall|].
        apply list_elem_of_singleton in Hv. subst. congruence.
      - right. split_and!; try done; [apply elem_of_app; by left|].
        intros v Hv' Hvv.
        apply elem_of_app in Hv' as [Hv'|Hv']; [by apply Hall|].
        apply list_elem_of_singleton in Hv'. subst. congruence. }
    destruct (Z.ltb_spec (sp_dist st !!! x) acc.1) as [Hless|Hge]; simpl.
    + right. split_and!; try done.
      * apply elem_of_app. right. by apply list_elem_of_singleton.
      * destruct IH as [[Hr _]|(_ & _ & _ & Hlt & _)]; [rewrite Hr in Hless|];
          simpl in *; lia.
      * intros v Hv Hvv. apply elem_of_app in Hv as [Hv|Hv].
        -- destruct IH as [[Hr Hall]|(_ & _ & _ & _ & Hall)].
           ++ specialize (Hall v Hv Hvv). rewrite Hr in Hless. simpl in *. lia.
           ++ specialize (Hall v Hv Hvv). lia.
        -- apply list_elem_of_singleton in Hv. subst. lia.
    + destruct IH as [[Hr Hall]|(Hin & Hv & Hd & Hlt & Hall)].
      * left. split; [done|]. intros v Hv Hvv.
        apply elem_of_app in Hv as [Hv|Hv]; [by apply Hall|].
        apply list_elem_of_singleton in Hv. subst. rewrite Hr in Hge. done.
      * right. split_and!; try done; [apply elem_of_app; by left|].
        intros v Hv' Hvv.
        apply elem_of_app in Hv' as [Hv'|Hv']; [by apply Hall|].
        apply list_elem_of_singleton in Hv'. by subst.
Qed.

(** The relaxation of the entries [l] of the vertex [u] just marked. *)
Lemma dijkstra_relax_fold g s u l : forall st,
  (u < num_vertices g)%nat ->
  dist_sound g s (sp_dist st) -> length (sp_visited st) = num_vertices g ->
  sp_visited st !!! u = true -> sp_dist st !!! u < INT_MAX ->
  (forall v, v ∈ l -> v ∈ neighbors g u) ->
  let st' := foldl (dijkstra_relax (num_vertices g) u) st l in
  sp_visited st' = sp_visited st /\
  dist_sound g s (sp_dist st') /\
  (forall v, (v < num_vertices g)%nat ->
     sp_dist st' !!! v = sp_dist st !!! v \/
     (sp_dist st' !!! v = sp_dist st !!! u + 1 /\
      sp_dist st' !!! v < sp_dist st !!! v /\ sp_visited st !!! v = false)) /\
  (forall v, v ∈ l -> (v < num_vertices g)%nat -> sp_visited st !!! v = false ->
     sp_dist st' !!! v <= sp_dist st !!! u + 1).
Proof.
  induction l as [|x l IH]; intros st Hu Hsound Hlen Hvu Hfin Hsub; simpl.
  { split_and!; try done; [by left|by intros v ?%elem_of_nil]. }
  set (n := num_vertices g) in *.
  assert (Hx : x ∈ neighbors g u) by (apply Hsub; by left).
  assert (Hsub1 : forall v, v ∈ l -> v ∈ neighbors g u).
  { intros v Hv. apply Hsub. by right. }
  assert (Hone :
    let st1 := dijkstra_relax n u st x in
    sp_visited st1 = sp_visited st /\
    dist_sound g s (sp_dist st1) /\
    (forall v, (v < n)%nat ->
       sp_dist st1 !!! v = sp_dist st !!! v \/
       (sp_dist st1 !!! v = sp_dist st !!! u + 1 /\
        sp_dist st1 !!! v < sp_dist st !!! v /\ sp_visited st !!! v = false)) /\
    ((x < n)%nat -> sp_visited st !!! x = false ->
       sp_dist st1 !!! x <= sp_dist st !!! u + 1)).
  { unfold dijkstra_relax.
    destruct (Nat.leb_spec n x) as [Hge|Hlt].
    { split_and!; first [done | by left | lia]. }
    destruct (sp_visited st !!! x) eqn:Hvx; simpl.
    { split_and!; first [done | by left]. }
    destruct (Z.eqb_spec (sp_dist st !!! u) INT_MAX) as [|_]; [lia|]. simpl.
    destruct (Z.ltb_spec (sp_dist st !!! u + 1) (sp_dist st !!! x)) as [Hless|Hno].
    2:{ split_and!; first [done | by left | intros; lia]. }
    simpl. destruct Hsound as (Hl & Hsrc & Hrng & Hsnd).
    pose proof (Hrng u Hu) as Hru. pose proof (Hrng x Hlt) as Hrx.
    fold n in Hl.
    split_and!.
    - done.
    - split_and!.
      + by rewrite length_insert.
      + destruct (decide (x = s)) as [->|Hne]; [lia|].
        by rewrite list_lookup_total_insert_ne.
      + intros w Hw. destruct (decide (w = x)) as [->|Hne].
        * rewrite list_lookup_total_insert_eq by lia. lia.
        * rewrite list_lookup_total_insert_ne by done. by apply Hrng.
      + intros w Hw. destruct (decide (w = x)) as [->|Hne].
        * rewrite list_lookup_total_insert_eq by lia. intros _.
          replace (Z.to_nat (sp_dist st !!! u + 1))
            with (S (Z.to_nat (sp_dist st !!! u))) by lia.
          eapply nsteps_r; [apply Hsnd; [done|lia]|]. by split.
        * rewrite list_lookup_total_insert_ne by done. by apply Hsnd.
    - intros w Hw. destruct (decide (w = x)) as [->|Hne].
      + right. rewrite list_lookup_total_insert_eq by lia. done.
      + left. by rewrite list_lookup_total_insert_ne.
    - intros _ _. rewrite list_lookup_total_insert_eq by lia. lia. }
  destruct Hone as (Hv1 & Hs1 & Hd1 & Hx1).
  set (st1 := dijkstra_relax n u st x) in *.
  assert (Hu1 : sp_dist st1 !!! u = sp_dist st !!! u).
  { destruct (Hd1 u Hu) as [?|(_ & _ & ?)]; [done|congruence]. }
  destruct (IH st1 Hu Hs1) as (Hv2 & Hs2 & Hd2 & Hx2);
    [congruence|congruence|lia|done|].
  rewrite Hu1 in Hd2, Hx2. rewrite Hv1 in Hv2, Hd2, Hx2.
  split_and!; try done.
  - intros v Hv. destruct (Hd2 v Hv) as [He|(He & Hlt & Hvv)].
    + destruct (Hd1 v Hv) as [He1|(He1 & Hlt1 & Hvv1)]; [left|right]; [congruence|].
      split_and!; [congruence|lia|done].
    + right. split_and!; [done| |done].
      destruct (Hd1 v Hv) as [He1|(He1 & Hlt1 & Hvv1)]; lia.
  - intros v Hv Hvn Hvv. apply elem_of_cons in Hv as [->|Hv].
    + specialize (Hx1 Hvn Hvv).
      destruct (Hd2 x Hvn) as [He|(He & _)]; lia.
    + by apply Hx2.
Qed.

(** A walk from the source either ends on a visited vertex whose entry is
    at most its length, or passes an unvisited vertex whose entry is. *)
Lemma dijkstra_frontier g s k st :
  valid_adjacency g -> (s < num_vertices g)%nat ->
  dijkstra_inv g s k st ->
  forall j v, nsteps (edge g) j s v ->
    (sp_visited st !!! v = true /\ sp_dist st !!! v <= Z.of_nat j) \/
    (exists y, (y < num_vertices g)%nat /\ sp_visited st !!! y = false /\
               sp_dist st !!! y <= Z.of_nat j).
Proof.
  intros Hval Hs (Hsound & Hlen & Hrel & Hord & Hfin & _).
  induction j as [|j IH]; intros v Hw.
  - inversion Hw; subst. destruct Hsound as (_ & Hsrc & _).
    destruct (sp_visited st !!! v) eqn:Hv; [left|right].
    + split; [done|]. rewrite Hsrc. lia.
    + exists v. split_and!; [done|done|]. rewrite Hsrc. lia.
  - pose proof (walk_in_range g _ s v Hval Hs Hw) as Hvn.
    apply nsteps_inv_r in Hw as (y & Hy & Hyv).
    destruct (IH y Hy) as [[Hvy Hdy]|(z & Hz & Hvz & Hdz)].
    + specialize (Hrel y v Hvn Hvy Hyv).
      destruct (sp_visited st !!! v) eqn:Hv; [left|right].
      * split; [done|lia].
      * exists v. split_and!; [done|done|lia].
    + right. exists z. split_and!; [done|done|lia].
Qed.

Lemma dijkstra_loop_spec g s t count : forall k st,
  wf_graph g -> valid_adjacency g ->
  (s < num_vertices g)%nat -> (t < num_vertices g)%nat ->
  dijkstra_inv g s k st -> (k + count = num_vertices g)%nat ->
  let st' := dijkstra_loop g t count st in
  dist_sound g s (sp_dist st') /\
  forall j, nsteps (edge g) j s t -> sp_dist st' !!! t <= Z.of_nat j.
Proof.
  induction count as [|count IH]; intros k st Hwf Hval Hs Ht Hinv Hk; simpl.
  - pose proof Hinv as (Hsound & Hlen & _ & _ & _ & Hcnt).
    split; [done|]. intros j Hw.
    destruct (dijkstra_frontier g s k st Hval Hs Hinv j t Hw)
      as [[_ ?]|(y & Hy & Hvy & _)]; [done|].
    rewrite (count_true_full (sp_visited st) y) in Hvy; [done|lia|lia].
  - set (n := num_vertices g) in *.
    pose proof (wf_count g Hwf) as Hcount. unfold GRAFO_MAX_VERTICES in Hcount.
    fold n in Hcount.
    pose proof Hinv as (Hsound & Hlen & Hrel & Hord & Hfin & Hcnt).
    fold n in Hlen, Hrel, Hord, Hfin.
    pose proof (dijkstra_select_spec (seq 0 n) n st) as Hsel.
    simpl in Hsel. fold (dijkstra_select n st) in Hsel.
    destruct Hsel as [[Hr Hall]|(Hin & Hvu & Hdu & Hlt & Hmin)].
    { rewrite Hr. simpl. rewrite Nat.eqb_refl. simpl. split; [done|].
      intros j Hw.
      destruct (walk_shortcut g j s t Hval Hs Hw) as (j' & Hj' & Hle & Hw').
      fold n in Hj'.
      destruct (dijkstra_frontier g s k st Hval Hs Hinv j' t Hw')
        as [[_ ?]|(y & Hy & Hvy & Hdy)]; [lia|].
      specialize (Hall y ltac:(apply elem_of_seq; fold n; lia) Hvy).
      unfold INT_MAX in Hall. lia. }
    set (u := (dijkstra_select n st).2) in *.
    apply elem_of_seq in Hin.
    assert (Hun : (u < n)%nat) by lia.
    rewrite Hdu in Hlt.
    assert (Hmin' : forall v, (v < n)%nat -> sp_visited st !!! v = false ->
              sp_dist st !!! u <= sp_dist st !!! v).
    { intros v Hv Hvv. rewrite <- Hdu. apply Hmin; [|done].
      apply elem_of_seq. lia. }
    destruct (Nat.eqb_spec u n) as [|_]; [lia|].
    destruct (Z.eqb_spec (sp_dist st !!! u) INT_MAX) as [|_]; [lia|]. simpl.
    destruct (Nat.eqb_spec u t) as [Hut|Hut]; simpl.
    { split; [done|]. intros j Hw. subst t.
      destruct (dijkstra_frontier g s k st Hval Hs Hinv j u Hw)
        as [[? _]|(y & Hy & Hvy & Hdy)]; [congruence|].
      specialize (Hmin' y Hy Hvy). lia. }
    set (st1 := mkSp _ _ _).
    destruct (dijkstra_relax_fold g s u (neighbors g u) st1 Hun) as
      (Hv2 & Hs2 & Hd2 & Hx2); try done.
    { simpl. by rewrite length_insert. }
    { simpl. by rewrite list_lookup_total_insert_eq by lia. }
    fold n in Hv2, Hd2, Hx2.
    set (st2 := foldl _ st1 _) in *.
    simpl in Hv2, Hd2, Hx2.
    assert (Hvis2 : forall a, (a < n)%nat ->
              sp_visited st2 !!! a = true <-> a = u \/ sp_visited st !!! a = true).
    { intros a Ha. rewrite Hv2. destruct (decide (a = u)) as [->|Hne].
      - rewrite list_lookup_total_insert_eq by lia. split; [by left|done].
      - rewrite list_lookup_total_insert_ne by done. split; [by right|].
        by intros [?|?]. }
    assert (Hkeep : forall a, (a < n)%nat -> sp_visited st2 !!! a = true ->
              sp_dist st2 !!! a = sp_dist st !!! a).
    { intros a Ha Hva. destruct (Hd2 a Ha) as [?|(_ & _ & Hf)]; [done|].
      rewrite Hv2 in Hva. congruence. }
    assert (Hlow : forall a, (a < n)%nat ->
              sp_dist st2 !!! a = sp_dist st !!! a \/
              (sp_dist st2 !!! a = sp_dist st !!! u + 1 /\
               sp_dist st2 !!! a < sp_dist st !!! a)).
    { intros a Ha. destruct (Hd2 a Ha) as [?|(? & ? & _)]; [by left|by right]. }
    apply (IH (S k) st2 Hwf Hval Hs Ht); [|lia].
    unfold dijkstra_inv. fold n. split_and!.
    + done.
    + rewrite Hv2. by rewrite length_insert.
    + intros a v Hv Hva Hav.
      assert (Ha : (a < n)%nat) by (by destruct Hav).
      rewrite (Hkeep a Ha Hva).
      destruct (proj1 (Hvis2 a Ha) Hva) as [->|Hva0].
      * destruct (sp_visited st2 !!! v) eqn:Hvv.
        -- rewrite (Hkeep v Hv Hvv).
           destruct (proj1 (Hvis2 v Hv) Hvv) as [->|Hvv0]; [lia|].
           specialize (Hord v u Hv Hun Hvv0 Hvu). lia.
        -- apply Hx2; [by destruct Hav|done|]. by rewrite <- Hv2.
      * specialize (Hrel a v Hv Hva0 Hav).
        destruct (Hlow v Hv) as [->|[_ ?]]; lia.
    + intros a b Ha Hb Hva Hvb.
      rewrite (Hkeep a Ha Hva).
      assert (Hbu : b <> u).
      { intros ->. assert (sp_visited st2 !!! u = true) by (apply Hvis2; auto).
        congruence. }
      assert (Hvb0 : sp_visited st !!! b = false).
      { destruct (sp_visited st !!! b) eqn:E; [|done].
        assert (sp_visited st2 !!! b = true) by (apply Hvis2; auto). congruence. }
      destruct (proj1 (Hvis2 a Ha) Hva) as [->|Hva0].
      * specialize (Hmin' b Hb Hvb0). destruct (Hlow b Hb) as [->|[-> _]]; lia.
      * pose proof (Hord a b Ha Hb Hva0 Hvb0).
        pose proof (Hord a u Ha Hun Hva0 Hvu).
        destruct (Hlow b Hb) as [->|[-> _]]; lia.
    + intros a Ha Hva. rewrite (Hkeep a Ha Hva).
      destruct (proj1 (Hvis2 a Ha) Hva) as [->|Hva0]; [done|]. by apply Hfin.
    + rewrite Hv2. rewrite count_true_mark_new by (done || lia). by rewrite Hcnt.
Qed.

Lemma dijkstra_distance g source target :
  wf_graph g -> valid_adjacency g ->
  (source < num_vertices g)%nat -> (target < num_vertices g)%nat ->
  shortest_distance g source target (dijkstra_shortest_path g source target).
Proof.
  intros Hwf Hval Hs Ht. unfold dijkstra_shortest_path.
  set (n := num_vertices g) in *.
  destruct (Nat.leb_spec n source) as [|_]; [lia|].
  destruct (Nat.leb_spec n target) as [|_]; [lia|]. simpl.
  set (st0 := mkSp _ _ _).
  assert (Hinv0 : dijkstra_inv g source 0 st0).
  { unfold dijkstra_inv, st0. simpl. fold n. split_and!.
    - split_and!.
      + by rewrite length_insert, length_replicate.
      + by rewrite list_lookup_total_insert_eq by (rewrite length_replicate; lia).
      + intros v Hv. destruct (decide (v = source)) as [->|Hne].
        * rewrite list_lookup_total_insert_eq by (rewrite length_replicate; lia).
          unfold INT_MAX. lia.
        * rewrite list_lookup_total_insert_ne by done.
          rewrite lookup_total_replicate_2 by done. unfold INT_MAX. lia.
      + intros v Hv. destruct (decide (v = source)) as [->|Hne].
        * rewrite list_lookup_total_insert_eq by (rewrite length_replicate; lia).
          intros _. constructor.
        * rewrite list_lookup_total_insert_ne by done.
          by rewrite lookup_total_replicate_2.
    - by rewrite length_replicate.
    - intros u v Hv Hvu [Hu _]. fold n in Hu.
      by rewrite lookup_total_replicate_2 in Hvu.
    - intros u v Hu Hv Hvu. by rewrite lookup_total_replicate_2 in Hvu.
    - intros u Hu Hvu. by rewrite lookup_total_replicate_2 in Hvu.
    - apply count_true_replicate. }
  destruct (dijkstra_loop_spec g source target n 0 st0 Hwf Hval Hs Ht Hinv0)
    as [Hsound Hmin]; [fold n; lia|].
  by apply shortest_distance_intro.
Qed.






(** * Floyd-Warshall *)

(** ** Matrices *)

Lemma mat_get_set m i j x a b :
  (i < length m)%nat -> (j < length (m !!! i))%nat ->
  mat_get (mat_set m i j x) a b =
  if decide (a = i /\ b = j) then x else mat_get m a b.
Proof.
  intros Hi Hj. unfold mat_get, mat_set.
  destruct (decide (a = i)) as [->|Hai].
  - rewrite list_lookup_total_insert_eq by done.
    destruct (decide (b = j)) as [->|Hbj].
    + rewrite list_lookup_total_insert_eq by done.
      by rewrite decide_True.
    + rewrite list_lookup_total_insert_ne by done.
      rewrite decide_False; [done|]. by intros [_ ?].
  - rewrite list_lookup_total_insert_ne by done.
    rewrite decide_False; [done|]. by intros [? _].
Qed.

Lemma mat_set_shape n m i j x :
  length m = n -> (forall a, (a < n)%nat -> length (m !!! a) = n) ->
  length (mat_set m i j x) = n /\
  forall a, (a < n)%nat -> length (mat_set m i j x !!! a) = n.
Proof.
  intros Hl Hr. unfold mat_set. split; [by rewrite length_insert|].
  intros a Ha. destruct (decide (a = i)) as [->|Hne].
  - rewrite list_lookup_total_insert_eq by lia. rewrite length_insert. by apply Hr.
  - rewrite list_lookup_total_insert_ne by done. by apply Hr.
Qed.

Lemma mat_below_refl n m : mat_below n m m.
Proof. intros i j _ _. lia. Qed.

Lemma mat_below_trans n m1 m2 m3 :
  mat_below n m1 m2 -> mat_below n m2 m3 -> mat_below n m1 m3.
Proof.
  intros H1 H2 i j Hi Hj. specialize (H1 i j Hi Hj). specialize (H2 i j Hi Hj). lia.
Qed.

(** ** Walks through vertices below [k] *)

Lemma walk_via_nsteps g k L i j : walk_via g k L i j -> nsteps (edge g) L i j.
Proof.
  induction 1 as [i j He|i m j L He Hm _ IH].
  - by apply nsteps_once.
  - by econstructor.
Qed.

Lemma nsteps_walk_via g L i j :
  valid_adjacency g -> nsteps (edge g) (S L) i j ->
  walk_via g (num_vertices g) (S L) i j.
Proof.
  intros Hval. revert i. induction L as [|L IH]; intros i Hw.
  - apply walk_via_edge. by apply nsteps_once_inv.
  - inversion Hw as [|? ? m ? He Hrest]; subst.
    apply (walk_via_step g _ i m j); [done| |by apply IH].
    destruct He as [Hi Hin]. by eapply Hval.
Qed.

(** A walk that may pass [k] either avoids it or splits at its first and
    last passage. *)
Lemma walk_via_split g k L i j :
  walk_via g (S k) L i j ->
  walk_via g k L i j \/
  exists L1 L3, (L1 + L3 <= L)%nat /\ walk_via g k L1 i k /\ walk_via g k L3 k j.
Proof.
  induction 1 as [i j He|i m j L He Hm Hrest IH].
  - left. by constructor.
  - destruct (decide (m = k)) as [->|Hne].
    + right. destruct IH as [Hrest'|(L1 & L3 & Hle & _ & H3)].
      * exists 1%nat, L. split; [lia|]. split; [by constructor|done].
      * exists 1%nat, L3. split; [lia|]. split; [by constructor|done].
    + assert (Hmk : (m < k)%nat) by lia.
      destruct IH as [Hrest'|(L1 & L3 & Hle & H1 & H3)].
      * left. by eapply walk_via_step.
      * right. exists (S L1), L3. split; [lia|]. split; [|done].
        by eapply walk_via_step.
Qed.

(** ** The initial matrix *)

Lemma fw_init_row_fold n i (l : list nat) : forall r : list Z * list Z,
  length r.1 = n ->
  let r' := foldl (fun (r : list Z * list Z) v =>
                     if (v <? n)%nat
                     then (<[v := 1]> r.1, <[v := Z.of_nat i]> r.2) else r) r l in
  length r'.1 = n /\
  forall j, (j < n)%nat ->
    (j ∈ l /\ r'.1 !!! j = 1) \/ ((j ∉ l) /\ r'.1 !!! j = r.1 !!! j).
Proof.
  induction l as [|v l IH] using rev_ind; intros r Hlen; simpl.
  - split; [done|]. intros j Hj. right. split; [by intros ?%elem_of_nil|done].
  - rewrite foldl_app. simpl. destruct (IH r Hlen) as [Hl Hj]. simpl in *.
    set (r1 := foldl _ r l) in *.
    destruct (Nat.ltb_spec v n) as [Hv|Hv]; simpl.
    + split; [by rewrite length_insert|]. intros j Hjn.
      destruct (decide (j = v)) as [->|Hne].
      * left. split; [apply elem_of_app; right; by apply list_elem_of_singleton|].
        by rewrite list_lookup_total_insert_eq by lia.
      * rewrite list_lookup_total_insert_ne by done.
        destruct (Hj j Hjn) as [[Hin Hv1]|[Hnin Hv1]]; [left|right].
        -- split; [apply elem_of_app; by left|done].
        -- split; [|done]. intros Hin. apply elem_of_app in Hin as [?|Hs]; [done|].
           apply list_elem_of_singleton in Hs. done.
    + split; [done|]. intros j Hjn.
      destruct (Hj j Hjn) as [[Hin Hv1]|[Hnin Hv1]]; [left|right].
      * split; [apply elem_of_app; by left|done].
      * split; [|done]. intros Hin. apply elem_of_app in Hin as [?|Hs]; [done|].
        apply list_elem_of_singleton in Hs. lia.
Qed.

Lemma fw_init_spec g :
  let n := num_vertices g in
  let m := fw_dist (fw_init g) in
  length m = n /\
  (forall i, (i < n)%nat -> length (m !!! i) = n) /\
  forall i j, (i < n)%nat -> (j < n)%nat ->
    mat_get m i j =
      if decide (j ∈ neighbors g i) then 1
      else if decide (i = j) then 0 else INT_MAX.
Proof.
  intros n m. unfold m, fw_init. simpl. fold n.
  assert (Hrow : forall i, (i < n)%nat ->
            map fst (map (fw_init_row g) (seq 0 n)) !!! i = (fw_init_row g i).1).
  { intros i Hi. rewrite list_lookup_total_alt, !list_lookup_fmap.
    rewrite lookup_seq_lt by done. done. }
  assert (Hspec : forall i, (i < n)%nat ->
            length (fw_init_row g i).1 = n /\
            forall j, (j < n)%nat ->
              (fw_init_row g i).1 !!! j =
                if decide (j ∈ neighbors g i) then 1
                else if decide (i = j) then 0 else INT_MAX).
  { intros i Hi. unfold fw_init_row. fold n.
    set (r0 := (map _ (seq 0 n), replicate n SIZE_MAX)).
    destruct (fw_init_row_fold n i (neighbors g i) r0) as [Hl Hj].
    { unfold r0. simpl. by rewrite length_map, length_seq. }
    split; [done|]. intros j Hjn.
    destruct (Hj j Hjn) as [[Hin ->]|[Hnin ->]].
    - by rewrite decide_True.
    - rewrite decide_False by done. unfold r0. simpl.
      rewrite list_lookup_total_alt, list_lookup_fmap.
      rewrite lookup_seq_lt by done. simpl.
      destruct (Nat.eqb_spec i j); [by rewrite decide_True|by rewrite decide_False]. }
  split_and!.
  - by rewrite !length_map, length_seq.
  - intros i Hi. rewrite Hrow by done. by apply Hspec.
  - intros i j Hi Hj. unfold mat_get. rewrite Hrow by done. by apply Hspec.
Qed.

Lemma fw_init_sound g :
  valid_adjacency g -> fw_sound g (fw_dist (fw_init g)).
Proof.
  intros Hval. destruct (fw_init_spec g) as (Hl & Hr & Hget).
  unfold fw_sound. split_and!; try done.
  - intros i j Hi Hj. rewrite Hget by done. unfold INT_MAX.
    repeat case_decide; lia.
  - intros i j Hi Hj. rewrite Hget by done. unfold INT_MAX.
    repeat case_decide; try lia. intros _. subst. done.
  - intros i j Hi Hj. rewrite Hget by done.
    repeat case_decide; try done; intros _.
    + apply nsteps_once. by split.
    + subst. constructor.
Qed.

Lemma walk_via_range g k L i j :
  valid_adjacency g -> walk_via g k L i j ->
  (i < num_vertices g)%nat /\ (j < num_vertices g)%nat.
Proof.
  intros Hval. induction 1 as [i j [Hi Hin]|i m j L [Hi Hin] Hm _ [_ IH]].
  - split; [done|]. by eapply Hval.
  - done.
Qed.

Lemma fw_init_complete g :
  valid_adjacency g -> fw_complete g 0 (fw_dist (fw_init g)).
Proof.
  intros Hval. destruct (fw_init_spec g) as (Hl & Hr & Hget).
  intros L i j Hw _. destruct (walk_via_range g 0 L i j Hval Hw) as [Hi Hj].
  inversion Hw as [? ? He|? ? ? ? ? Hm]; subst; [|lia].
  destruct He as [_ Hin].
  rewrite Hget by done. rewrite decide_True by done. lia.
Qed.

(** ** The relaxation loops *)

Lemma fw_inner_spec g k i j d m0 :
  (k < num_vertices g)%nat -> (i < num_vertices g)%nat -> (j < num_vertices g)%nat ->
  fw_sound g (fw_dist d) -> mat_below (num_vertices g) (fw_dist d) m0 ->
  let d' := fw_inner k i d j in
  fw_sound g (fw_dist d') /\
  mat_below (num_vertices g) (fw_dist d') (fw_dist d) /\
  fw_relaxed k i j m0 (fw_dist d').
Proof.
  intros Hk Hi Hj Hsound Hbelow d'. unfold d', fw_inner.
  set (n := num_vertices g) in *.
  pose proof Hsound as (Hl & Hr & Hrng & Hzero & Hwalk). fold n in Hl, Hr, Hrng, Hzero, Hwalk.
  pose proof (Hrng i k Hi Hk) as Hra. pose proof (Hrng k j Hk Hj) as Hrb.
  pose proof (Hrng i j Hi Hj) as Hrc.
  pose proof (Hbelow i k Hi Hk) as Hba. pose proof (Hbelow k j Hk Hj) as Hbb.
  set (a := mat_get (fw_dist d) i k) in *.
  set (b := mat_get (fw_dist d) k j) in *.
  set (c := mat_get (fw_dist d) i j) in *.
  destruct (Z.eqb_spec b INT_MAX) as [Hb|Hb].
  { split; [done|]. split; [apply mat_below_refl|].
    intros L1 L3 H1 H3 Hlt. lia. }
  destruct (Z.ltb_spec (INT_MAX - b) a) as [Hov|Hov].
  { split; [done|]. split; [apply mat_below_refl|].
    intros L1 L3 H1 H3 Hlt. lia. }
  destruct (Z.ltb_spec (a + b) c) as [Hless|Hno].
  2:{ split; [done|]. split; [apply mat_below_refl|].
      intros L1 L3 H1 H3 Hlt. fold c. lia. }
  simpl.
  assert (Hget : forall x y, mat_get (mat_set (fw_dist d) i j (a + b)) x y =
            if decide (x = i /\ y = j) then a + b else mat_get (fw_dist d) x y).
  { intros x y. apply mat_get_set; [lia|]. rewrite Hr by done. done. }
  destruct (mat_set_shape n (fw_dist d) i j (a + b) Hl Hr) as [Hl' Hr'].
  split_and!.
  - unfold fw_sound. fold n. split_and!; try done.
    + intros x y Hx Hy. rewrite Hget. case_decide; [lia|by apply Hrng].
    + intros x y Hx Hy. rewrite Hget. case_decide as Hxy; [|by apply Hzero].
      intros Hz. exfalso.
      assert (a = 0) by lia. assert (b = 0) by lia.
      destruct (Hzero i k Hi Hk ltac:(done)) as [-> _].
      destruct (Hzero k j Hk Hj ltac:(done)) as [-> _].
      unfold a, c in *. lia.
    + intros x y Hx Hy. rewrite Hget. case_decide as Hxy; [|by apply Hwalk].
      destruct Hxy as [-> ->]. intros _.
      replace (Z.to_nat (a + b)) with (Z.to_nat a + Z.to_nat b)%nat by lia.
      eapply nsteps_trans; [apply Hwalk; [done|done|fold a; lia]|].
      apply Hwalk; [done|done|done].
  - intros x y Hx Hy. rewrite Hget. case_decide as Hxy; [|lia].
    destruct Hxy as [-> ->]. fold c. lia.
  - intros L1 L3 H1 H3 Hlt. rewrite Hget, decide_True by done. lia.
Qed.

Lemma fw_relaxed_below n k i j m0 m m' :
  (i < n)%nat -> (j < n)%nat ->
  mat_below n m' m -> fw_relaxed k i j m0 m -> fw_relaxed k i j m0 m'.
Proof.
  intros Hi Hj Hb Hr L1 L3 H1 H3 Hlt.
  specialize (Hr L1 L3 H1 H3 Hlt). specialize (Hb i j Hi Hj). lia.
Qed.

Lemma fw_inner_fold g k i m0 (js : list nat) : forall d,
  (k < num_vertices g)%nat -> (i < num_vertices g)%nat ->
  (forall j, j ∈ js -> (j < num_vertices g)%nat) ->
  fw_sound g (fw_dist d) -> mat_below (num_vertices g) (fw_dist d) m0 ->
  let d' := foldl (fw_inner k i) d js in
  fw_sound g (fw_dist d') /\
  mat_below (num_vertices g) (fw_dist d') (fw_dist d) /\
  forall j, j ∈ js -> fw_relaxed k i j m0 (fw_dist d').
Proof.
  induction js as [|j js IH]; intros d Hk Hi Hjs Hsound Hbelow; simpl.
  { split; [done|]. split; [apply mat_below_refl|]. by intros j ?%elem_of_nil. }
  assert (Hj : (j < num_vertices g)%nat) by (apply Hjs; by left).
  assert (Hjs' : forall x, x ∈ js -> (x < num_vertices g)%nat).
  { intros x Hx. apply Hjs. by right. }
  destruct (fw_inner_spec g k i j d m0 Hk Hi Hj Hsound Hbelow) as (Hs1 & Hb1 & Hr1).
  set (d1 := fw_inner k i d j) in *.
  assert (Hbelow1 : mat_below (num_vertices g) (fw_dist d1) m0).
  { by eapply mat_below_trans. }
  destruct (IH d1 Hk Hi Hjs' Hs1 Hbelow1) as (Hs2 & Hb2 & Hr2).
  split; [done|]. split; [by eapply mat_below_trans|].
  intros x Hx. apply elem_of_cons in Hx as [->|Hx]; [|by apply Hr2].
  by eapply fw_relaxed_below.
Qed.

Lemma fw_middle_spec g k i d m0 :
  (k < num_vertices g)%nat -> (i < num_vertices g)%nat ->
  fw_sound g (fw_dist d) -> mat_below (num_vertices g) (fw_dist d) m0 ->
  let d' := fw_middle (num_vertices g) k d i in
  fw_sound g (fw_dist d') /\
  mat_below (num_vertices g) (fw_dist d') (fw_dist d) /\
  forall j, (j < num_vertices g)%nat -> fw_relaxed k i j m0 (fw_dist d').
Proof.
  intros Hk Hi Hsound Hbelow d'. unfold d', fw_middle.
  destruct (Z.eqb_spec (mat_get (fw_dist d) i k) INT_MAX) as [Hinf|Hfin].
  - split; [done|]. split; [apply mat_below_refl|].
    intros j Hj L1 L3 H1 H3 Hlt. specialize (Hbelow i k Hi Hk). lia.
  - destruct (fw_inner_fold g k i m0 (seq 0 (num_vertices g)) d Hk Hi)
      as (H1 & H2 & H3); try done.
    { intros j Hj. apply elem_of_seq in Hj. lia. }
    split; [done|]. split; [done|].
    intros j Hj. apply H3. apply elem_of_seq. lia.
Qed.

Lemma fw_middle_fold g k m0 (rows : list nat) : forall d,
  (k < num_vertices g)%nat ->
  (forall i, i ∈ rows -> (i < num_vertices g)%nat) ->
  fw_sound g (fw_dist d) -> mat_below (num_vertices g) (fw_dist d) m0 ->
  let d' := foldl (fw_middle (num_vertices g) k) d rows in
  fw_sound g (fw_dist d') /\
  mat_below (num_vertices g) (fw_dist d') (fw_dist d) /\
  forall i j, i ∈ rows -> (j < num_vertices g)%nat ->
    fw_relaxed k i j m0 (fw_dist d').
Proof.
  induction rows as [|i rows IH]; intros d Hk Hrows Hsound Hbelow; simpl.
  { split; [done|]. split; [apply mat_below_refl|]. by intros i j ?%elem_of_nil. }
  assert (Hi : (i < num_vertices g)%nat) by (apply Hrows; by left).
  assert (Hrows' : forall x, x ∈ rows -> (x < num_vertices g)%nat).
  { intros x Hx. apply Hrows. by right. }
  destruct (fw_middle_spec g k i d m0 Hk Hi Hsound Hbelow) as (Hs1 & Hb1 & Hr1).
  set (d1 := fw_middle (num_vertices g) k d i) in *.
  assert (Hbelow1 : mat_below (num_vertices g) (fw_dist d1) m0).
  { by eapply mat_below_trans. }
  destruct (IH d1 Hk Hrows' Hs1 Hbelow1) as (Hs2 & Hb2 & Hr2).
  split; [done|]. split; [by eapply mat_below_trans|].
  intros x j Hx Hj. apply elem_of_cons in Hx as [->|Hx]; [|by apply Hr2].
  eapply fw_relaxed_below; [exact Hi|exact Hj|exact Hb2|]. by apply Hr1.
Qed.

(** One round of the outer loop lets the walks pass one more vertex. *)
Lemma fw_round g k d :
  valid_adjacency g -> (k < num_vertices g)%nat ->
  fw_sound g (fw_dist d) -> fw_complete g k (fw_dist d) ->
  let d' := foldl (fw_middle (num_vertices g) k) d (seq 0 (num_vertices g)) in
  fw_sound g (fw_dist d') /\
  mat_below (num_vertices g) (fw_dist d') (fw_dist d) /\
  fw_complete g (S k) (fw_dist d').
Proof.
  intros Hval Hk Hsound Hcomp.
  destruct (fw_middle_fold g k (fw_dist d) (seq 0 (num_vertices g)) d Hk)
    as (Hs & Hb & Hr); try done.
  { intros i Hi. apply elem_of_seq in Hi. lia. }
  { apply mat_below_refl. }
  split; [done|]. split; [done|].
  intros L i j Hw HL.
  destruct (walk_via_range g _ L i j Hval Hw) as [Hi Hj].
  destruct (walk_via_split g k L i j Hw) as [Hw'|(L1 & L3 & Hle & H1 & H3)].
  - specialize (Hcomp L i j Hw' HL). specialize (Hb i j Hi Hj). lia.
  - pose proof (Hcomp L1 i k H1 ltac:(lia)) as Hd1.
    pose proof (Hcomp L3 k j H3 ltac:(lia)) as Hd3.
    assert (Hin : i ∈ seq 0 (num_vertices g)) by (apply elem_of_seq; lia).
    specialize (Hr i j Hin Hj L1 L3 Hd1 Hd3 ltac:(lia)). lia.
Qed.

Lemma fw_rounds g k :
  valid_adjacency g -> (k <= num_vertices g)%nat ->
  let d := foldl (fun d k => foldl (fw_middle (num_vertices g) k) d
                               (seq 0 (num_vertices g)))
                 (fw_init g) (seq 0 k) in
  fw_sound g (fw_dist d) /\
  mat_below (num_vertices g) (fw_dist d) (fw_dist (fw_init g)) /\
  fw_complete g k (fw_dist d).
Proof.
  intros Hval. induction k as [|k IH]; intros Hk.
  - simpl. split; [by apply fw_init_sound|]. split; [apply mat_below_refl|].
    by apply fw_init_complete.
  - rewrite seq_S, foldl_app. simpl.
    destruct (IH ltac:(lia)) as (Hs & Hb & Hc).
    destruct (fw_round g k _ Hval ltac:(lia) Hs Hc) as (Hs' & Hb' & Hc').
    split; [done|]. split; [by eapply mat_below_trans|done].
Qed.

Lemma floyd_warshall_value g source target :
  wf_graph g -> valid_adjacency g ->
  (source < num_vertices g)%nat -> (target < num_vertices g)%nat ->
  (source <> target ->
     shortest_distance g source target
       (floyd_warshall_shortest_path g source target)) /\
  (source = target ->
     floyd_warshall_shortest_path g source target =
       if decide (source ∈ neighbors g source) then 1 else 0).
Proof.
  intros Hwf Hval Hs Ht. unfold floyd_warshall_shortest_path, _floyd_warshall_all_pairs.
  set (n := num_vertices g) in *.
  destruct (Nat.leb_spec n source) as [|_]; [lia|].
  destruct (Nat.leb_spec n target) as [|_]; [lia|]. simpl.
  destruct (fw_rounds g n Hval ltac:(lia)) as (Hsound & Hbelow & Hcomp).
  fold n in Hsound, Hbelow, Hcomp.
  set (d := foldl _ (fw_init g) (seq 0 n)) in *.
  destruct Hsound as (_ & _ & Hrng & Hzero & Hwalk). fold n in Hrng, Hzero, Hwalk.
  pose proof (wf_count g Hwf) as Hcount. unfold GRAFO_MAX_VERTICES in Hcount.
  fold n in Hcount.
  split.
  - intros Hne.
    assert (Hall : forall k, nsteps (edge g) k source target ->
              mat_get (fw_dist d) source target <= Z.of_nat k /\
              mat_get (fw_dist d) source target < Z.of_nat n).
    { intros k Hw.
      destruct (walk_shortcut g k source target Hval Hs Hw) as (k' & Hk' & Hle & Hw').
      fold n in Hk'. destruct k' as [|k']; [inversion Hw'; by subst|].
      apply nsteps_walk_via in Hw'; [|done]. fold n in Hw'.
      specialize (Hcomp _ _ _ Hw' ltac:(unfold INT_MAX; lia)). lia. }
    destruct (decide (mat_get (fw_dist d) source target = INT_MAX)) as [Hinf|Hfin].
    + left. split; [done|]. intros k Hw. destruct (Hall k Hw) as [_ Hlt].
      unfold INT_MAX in Hinf. lia.
    + right. exists (Z.to_nat (mat_get (fw_dist d) source target)).
      specialize (Hrng source target Hs Ht). split; [lia|].
      split; [by apply Hwalk|].
      intros k Hw. destruct (Hall k Hw). lia.
  - intros <-.
    destruct (fw_init_spec g) as (_ & _ & Hget).
    specialize (Hbelow source source Hs Hs). rewrite Hget in Hbelow by done.
    specialize (Hrng source source Hs Hs).
    specialize (Hzero source source Hs Hs).
    destruct (decide (source ∈ neighbors g source)) as [Hloop|Hnone].
    + destruct (decide (mat_get (fw_dist d) source source = 0)) as [Hz|Hnz]; [|lia].
      destruct (Hzero Hz) as [_ ?]. done.
    + rewrite decide_True in Hbelow by done. lia.
Qed.






(** * Maximum flow and minimum cut *)

(** ** The search for an augmenting path *)

Lemma ek_visit_inv g r s t u i x rest st :
  wf_graph g -> s <> t -> (x < num_vertices g)%nat ->
  S i = ekb_front st -> ekb_queue st !! i = Some u -> edge g u x ->
  ek_bfs_inv g r s t (x :: rest) st ->
  ek_bfs_inv g r s t rest (ek_visit r t u st x) /\
  ekb_front (ek_visit r t u st x) = ekb_front st /\
  ekb_queue (ek_visit r t u st x) !! i = Some u.
Proof.
  intros Hwf Hst Hx Hi Hu He
    (Hlv & Hlp & Hfront & Hnd & Hrange & Hstart & Hvis & Hsink & Hparent
     & Hclosed & Hfound).
  set (n := num_vertices g) in *.
  assert (Hun : (u < n)%nat) by (by destruct He).
  unfold ek_visit.
  destruct (ekb_found st) eqn:Hf.
  { split; [|done]. unfold ek_bfs_inv. fold n. rewrite Hf.
    split_and!; try done. }
  destruct (ekb_visited st !!! x) eqn:Hvx; simpl.
  { split; [|done]. unfold ek_bfs_inv. fold n. rewrite Hf.
    split_and!; try done.
    intros _ i0 u0 v Hi0 Hu0 Hr.
    destruct (Hclosed eq_refl i0 u0 v Hi0 Hu0 Hr) as [?|[Hcur Hin]]; [by left|].
    apply elem_of_cons in Hin as [->|Hin]; [left|right; done].
    by apply Hvis. }
  destruct (Z.ltb_spec 0 (mat_get r u x)) as [Hpos|Hnpos]; simpl.
  2:{ split; [|done]. unfold ek_bfs_inv. fold n. rewrite Hf.
      split_and!; try done.
      intros _ i0 u0 v Hi0 Hu0 Hr.
      destruct (Hclosed eq_refl i0 u0 v Hi0 Hu0 Hr) as [?|[Hcur Hin]]; [by left|].
      apply elem_of_cons in Hin as [->|Hin]; [exfalso|right; done].
      assert (i0 = i) as -> by lia. rewrite Hu in Hu0. inversion Hu0; subst u0.
      destruct Hr as [_ Hr]. lia. }
  assert (Hxq : x ∉ ekb_queue st).
  { intros Hin. apply Hvis in Hin; [|done]. congruence. }
  destruct (to_size_t_vertex g u Hwf Hun) as [-> _].
  assert (Hred : redge g r u x) by (by split).
  assert (Hpar : forall v, v ∈ ekb_queue st ->
            <[x := Z.of_nat u]> (ekb_parent st) !!! v = ekb_parent st !!! v).
  { intros v Hv. rewrite list_lookup_total_insert_ne; [done|]. by intros ->. }
  destruct (Nat.eqb_spec x t) as [->|Hxt].
  - split; [|done]. unfold ek_bfs_inv. simpl. fold n.
    split_and!; try done.
    + by rewrite length_insert.
    + intros j v Hj Hpos0.
      destruct (Hparent j v Hj Hpos0) as (i0 & u0 & ? & ? & ? & ? & Hp).
      exists i0, u0. split_and!; try done. rewrite Hpar; [done|].
      by eapply list_elem_of_lookup_2.
    + intros _. exists i, u. split_and!; [lia|done|done|].
      by rewrite list_lookup_total_insert_eq by lia.
  - split; [|split; [done|]].
    2:{ simpl. rewrite lookup_app_l; [done|]. by eapply lookup_lt_Some. }
    unfold ek_bfs_inv. simpl. fold n.
    split_and!.
    + by rewrite length_insert.
    + by rewrite length_insert.
    + rewrite length_app. simpl. lia.
    + apply NoDup_app. split; [done|]. split; [|apply NoDup_singleton].
      intros y Hy Hs. apply list_elem_of_singleton in Hs. by subst.
    + intros v Hin. apply elem_of_app in Hin as [Hin|Hin]; [by apply Hrange|].
      apply list_elem_of_singleton in Hin. by subst.
    + destruct (ekb_queue st); [done|]. done.
    + intros v Hvn. destruct (decide (v = x)) as [->|Hne].
      * rewrite list_lookup_total_insert_eq by lia. split; [|done].
        intros _. apply elem_of_app. right. by apply list_elem_of_singleton.
      * rewrite list_lookup_total_insert_ne by done. rewrite Hvis by done.
        rewrite elem_of_app. split; [by left|]. intros [?|Hs]; [done|].
        apply list_elem_of_singleton in Hs. done.
    + intros Hin. apply elem_of_app in Hin as [?|Hs]; [done|].
      apply list_elem_of_singleton in Hs. done.
    + intros j v Hj Hpos0.
      destruct (decide (j < length (ekb_queue st))%nat) as [Hlt|Hge].
      * rewrite lookup_app_l in Hj by done.
        destruct (Hparent j v Hj Hpos0) as (i0 & u0 & Hij & Hif & Hu0 & Hr & Hp).
        exists i0, u0. split_and!; try done.
        -- rewrite lookup_app_l by lia. done.
        -- rewrite Hpar; [done|]. by eapply list_elem_of_lookup_2.
      * rewrite lookup_app_r in Hj by lia.
        destruct (j - length (ekb_queue st))%nat eqn:Hd; [|by destruct n0].
        simpl in Hj. inversion Hj; subst v.
        exists i, u. split_and!; [lia|lia| |done|].
        -- rewrite lookup_app_l; [done|]. by eapply lookup_lt_Some.
        -- by rewrite list_lookup_total_insert_eq by lia.
    + intros _ i0 u0 v Hi0 Hu0 Hr. rewrite lookup_app_l in Hu0 by lia.
      rewrite elem_of_app.
      destruct (Hclosed eq_refl i0 u0 v Hi0 Hu0 Hr) as [?|[Hcur Hin]];
        [by left; left|].
      apply elem_of_cons in Hin as [->|Hin]; [left; right|right; done].
      by apply list_elem_of_singleton.
    + done.
Qed.

Lemma ek_visit_fold g r s t u i rest : forall st,
  wf_graph g -> valid_adjacency g -> s <> t ->
  S i = ekb_front st -> ekb_queue st !! i = Some u ->
  (forall x, x ∈ rest -> edge g u x) ->
  ek_bfs_inv g r s t rest st ->
  ek_bfs_inv g r s t [] (foldl (ek_visit r t u) st rest) /\
  ekb_front (foldl (ek_visit r t u) st rest) = ekb_front st.
Proof.
  induction rest as [|x rest IH]; intros st Hwf Hval Hst Hi Hu Hrest Hinv; simpl;
    [done|].
  assert (He : edge g u x) by (apply Hrest; by left).
  assert (Hx : (x < num_vertices g)%nat).
  { destruct He as [? Hin]. by eapply Hval. }
  destruct (ek_visit_inv g r s t u i x rest st Hwf Hst Hx Hi Hu He Hinv)
    as (Hinv1 & Hf1 & Hq1).
  destruct (IH (ek_visit r t u st x) Hwf Hval Hst) as [Hinv2 Hf2]; try done.
  - congruence.
  - intros y Hy. apply Hrest. by right.
  - split; [done|congruence].
Qed.

Lemma ek_bfs_step_inv g r s t st :
  wf_graph g -> valid_adjacency g -> s <> t ->
  ek_bfs_inv g r s t [] st /\ ekb_found st = false ->
  match ek_bfs_step g r t st with
  | inl st' =>
      (ek_bfs_inv g r s t [] st' /\ ekb_found st' = false) /\
      (num_vertices g - ekb_front st' < num_vertices g - ekb_front st)%nat
  | inr st' =>
      ek_bfs_inv g r s t [] st' /\
      (ekb_found st' = false -> ekb_front st' = length (ekb_queue st'))
  end.
Proof.
  intros Hwf Hval Hst [Hinv Hnf]. unfold ek_bfs_step.
  pose proof Hinv as (Hlv & Hlp & Hfront & Hnd & Hrange & Hstart & Hvis & Hsink
                      & Hparent & Hclosed & Hfound).
  destruct (Nat.ltb_spec (ekb_front st) (length (ekb_queue st))) as [Hlt|Hge].
  2:{ split; [done|]. intros _. lia. }
  destruct (lookup_lt_is_Some_2 _ _ Hlt) as [u Hu].
  assert (Hun : (u < num_vertices g)%nat).
  { apply Hrange. by eapply list_elem_of_lookup_2. }
  rewrite (list_lookup_total_correct _ _ _ Hu).
  pose proof (bounded_NoDup_length _ (num_vertices g) Hnd Hrange) as Hbound.
  set (st1 := mkEkBfs _ _ _ _ _).
  assert (Hinv1 : ek_bfs_inv g r s t (neighbors g u) st1).
  { unfold ek_bfs_inv, st1. simpl. rewrite Hnf. split_and!; try done.
    - intros j v Hj Hpos.
      destruct (Hparent j v Hj Hpos) as (i & w & ? & ? & ? & ? & ?).
      exists i, w. split_and!; try done. lia.
    - intros _ i w v Hi Hw Hr.
      destruct (decide (i = ekb_front st)) as [->|Hne].
      + rewrite Hu in Hw. inversion Hw; subst w. right. split; [done|].
        by destruct Hr as [[_ ?] _].
      + destruct (Hclosed Hnf i w v ltac:(lia) Hw Hr) as [?|[_ Hin]]; [by left|].
        by apply elem_of_nil in Hin. }
  assert (Hent : forall x, x ∈ neighbors g u -> edge g u x).
  { intros x Hx. by split. }
  destruct (ek_visit_fold g r s t u (ekb_front st) (neighbors g u) st1 Hwf Hval Hst
              eq_refl Hu Hent Hinv1) as [Hinv2 Hf2].
  destruct (ekb_found (foldl _ st1 _)) eqn:Hf.
  - split; [done|]. intros ?. congruence.
  - split; [done|]. rewrite Hf2. simpl. lia.
Qed.

(** The search ends; either it has found the sink, with a parent pointer
    set, or its queue holds every vertex the source reaches through
    entries with residual capacity, and the sink is not among them. *)
Lemma ek_bfs_spec g r s t :
  wf_graph g -> valid_adjacency g ->
  (s < num_vertices g)%nat -> (t < num_vertices g)%nat -> s <> t ->
  exists b, ek_bfs g r s t = Some b /\ ek_bfs_inv g r s t [] b /\
    (ekb_found b = false -> ~ rtc (redge g r) s t).
Proof.
  intros Hwf Hval Hs Ht Hst. unfold ek_bfs.
  set (n := num_vertices g) in *.
  set (st0 := mkEkBfs _ _ _ _ _).
  assert (Hinv0 : ek_bfs_inv g r s t [] st0).
  { unfold ek_bfs_inv, st0. simpl. fold n. split_and!; try done.
    - by rewrite length_insert, length_replicate.
    - by rewrite length_replicate.
    - lia.
    - apply NoDup_singleton.
    - intros v Hv. apply list_elem_of_singleton in Hv. by subst.
    - intros v Hv. rewrite list_elem_of_singleton.
      destruct (decide (v = s)) as [->|Hne].
      + by rewrite list_lookup_total_insert_eq by (rewrite length_replicate; lia).
      + rewrite list_lookup_total_insert_ne by done.
        by rewrite lookup_total_replicate_2.
    - intros Hin. apply list_elem_of_singleton in Hin. done.
    - intros j v Hj Hpos. destruct j; [lia|]. done.
    - intros; lia. }
  destruct (while_fuel_rule (ek_bfs_step g r t)
              (fun st => ek_bfs_inv g r s t [] st /\ ekb_found st = false)
              (fun st => (n - ekb_front st)%nat)
              (fun st => ek_bfs_inv g r s t [] st /\
                         (ekb_found st = false ->
                          ekb_front st = length (ekb_queue st)))
              (fun st H => ek_bfs_step_inv g r s t st Hwf Hval Hst H)
              (S n) st0 (conj Hinv0 eq_refl) ltac:(simpl; lia))
    as (b & Hrun & Hinv & Hend).
  exists b. split; [done|]. split; [done|].
  intros Hnf Hreach. specialize (Hend Hnf).
  destruct Hinv as (_ & _ & _ & _ & _ & Hstart & _ & Hsink & _ & Hclosed & _).
  apply Hsink.
  apply (rtc_ind_r (R:=redge g r) (fun v => v ∈ ekb_queue b) s); [| |exact Hreach].
  { by eapply list_elem_of_lookup_2. }
  intros y z _ Hyz IH. apply list_elem_of_lookup_1 in IH as [i Hi].
  destruct (Hclosed Hnf i y z) as [?|[_ Hin]]; [|done|done|done|].
  - rewrite Hend. by eapply lookup_lt_Some.
  - by apply elem_of_nil in Hin.
Qed.

(** ** The parent chain of a found path *)

Lemma position_lookup (q : list nat) j v :
  NoDup q -> q !! j = Some v -> position q v = j.
Proof.
  intros Hnd Hj. unfold position.
  destruct (list_find (fun x => x = v) q) as [[i x]|] eqn:Hfind.
  - apply list_find_Some in Hfind as (Hi & -> & _).
    by eapply NoDup_lookup.
  - apply list_find_None in Hfind. rewrite Forall_forall in Hfind.
    exfalso. apply (Hfind v); [|done]. by eapply list_elem_of_lookup_2.
Qed.

Lemma position_notin (q : list nat) v : v ∉ q -> position q v = length q.
Proof.
  intros Hnin. unfold position.
  destruct (list_find (fun x => x = v) q) as [[i x]|] eqn:Hfind; [|done].
  apply list_find_Some in Hfind as (Hi & -> & _).
  exfalso. apply Hnin. by eapply list_elem_of_lookup_2.
Qed.

Lemma parent_of_vertex g parent v u :
  wf_graph g -> (u < num_vertices g)%nat ->
  parent !!! v = Z.of_nat u -> parent_of parent v = u.
Proof.
  intros Hwf Hu Hp. unfold parent_of. rewrite Hp.
  destruct (to_size_t_vertex g u Hwf Hu) as [_ ->]. lia.
Qed.

(** Every queued vertex is tied to the source by its parent pointers. *)
Lemma chain_from_queue g r s t b :
  wf_graph g -> ek_bfs_inv g r s t [] b ->
  forall j v, ekb_queue b !! j = Some v ->
    exists c, is_chain (ekb_parent b) s v c /\ (length c <= j)%nat /\
      chain_desc (ekb_queue b) (ekb_parent b) c /\
      Forall (fun w => (w < num_vertices g)%nat /\
                       (parent_of (ekb_parent b) w < num_vertices g)%nat /\
                       0 < mat_get r (parent_of (ekb_parent b) w) w) c.
Proof.
  intros Hwf (Hlv & Hlp & Hfront & Hnd & Hrange & Hstart & Hvis & Hsink & Hparent
              & Hclosed & Hfound).
  induction j as [j IH] using lt_wf_ind. intros v Hj.
  destruct (decide (j = 0)%nat) as [->|Hpos].
  { rewrite Hstart in Hj. inversion Hj; subst. exists []. simpl.
    split_and!; [done|lia|constructor|constructor]. }
  destruct (Hparent j v Hj ltac:(lia)) as (i & u & Hij & _ & Hu & [He Hr] & Hp).
  assert (Hun : (u < num_vertices g)%nat) by (by destruct He).
  pose proof (parent_of_vertex g _ v u Hwf Hun Hp) as Hpo.
  destruct (IH i Hij u Hu) as (c & Hc & Hlen & Hdesc & Hall).
  exists (v :: c). simpl. rewrite Hpo. split_and!.
  - done.
  - intros ->. pose proof (NoDup_lookup _ _ _ _ Hnd Hj Hstart). lia.
  - done.
  - lia.
  - constructor; [|done]. rewrite Hpo.
    rewrite (position_lookup _ _ _ Hnd Hj), (position_lookup _ _ _ Hnd Hu). done.
  - constructor; [|done]. rewrite Hpo. split_and!; [|done|done].
    apply Hrange. by eapply list_elem_of_lookup_2.
Qed.

Lemma chain_to_sink g r s t b :
  wf_graph g -> (t < num_vertices g)%nat -> s <> t ->
  ek_bfs_inv g r s t [] b -> ekb_found b = true ->
  exists c, is_chain (ekb_parent b) s t c /\ (length c <= num_vertices g)%nat /\
    c <> [] /\
    chain_desc (ekb_queue b) (ekb_parent b) c /\
    Forall (fun w => (w < num_vertices g)%nat /\
                     (parent_of (ekb_parent b) w < num_vertices g)%nat /\
                     0 < mat_get r (parent_of (ekb_parent b) w) w) c.
Proof.
  intros Hwf Ht Hst Hinv Hf.
  pose proof Hinv as (Hlv & Hlp & Hfront & Hnd & Hrange & Hstart & Hvis & Hsink
                      & Hparent & Hclosed & Hfound).
  destruct (Hfound Hf) as (i & u & Hi & Hu & [He Hr] & Hp).
  assert (Hun : (u < num_vertices g)%nat) by (by destruct He).
  pose proof (parent_of_vertex g _ t u Hwf Hun Hp) as Hpo.
  destruct (chain_from_queue g r s t b Hwf Hinv i u Hu) as (c & Hc & Hlen & Hdesc & Hall).
  pose proof (bounded_NoDup_length _ (num_vertices g) Hnd Hrange) as Hbound.
  assert (Hil : (i < length (ekb_queue b))%nat) by (by eapply lookup_lt_Some).
  exists (t :: c). simpl. rewrite Hpo. split_and!.
  - done.
  - by intros ->.
  - done.
  - lia.
  - done.
  - constructor; [|done]. rewrite Hpo.
    rewrite (position_notin _ _ Hsink), (position_lookup _ _ _ Hnd Hu). lia.
  - constructor; [|done]. rewrite Hpo. done.
Qed.

(** The positions along a chain stay below the position of its start. *)
Lemma chain_positions q parent s c : forall v,
  is_chain parent s v c -> chain_desc q parent c ->
  forall x, x ∈ c ->
    (position q x <= position q v)%nat /\
    (position q (parent_of parent x) < position q v)%nat.
Proof.
  induction c as [|w c IH]; intros v Hc Hd x Hx; [by apply elem_of_nil in Hx|].
  destruct Hc as (-> & Hvs & Hc). inversion Hd as [|? ? Hlt Hd']; subst.
  apply elem_of_cons in Hx as [->|Hx]; [lia|].
  destruct (IH _ Hc Hd' x Hx). lia.
Qed.

(** The two walks along the chain, as folds. *)
Lemma ek_bottleneck_run r parent s c : forall v pf fuel,
  is_chain parent s v c -> (length c < fuel)%nat ->
  while_fuel (ek_bottleneck_step r parent s) fuel (v, pf)
    = Some (chain_min r parent pf c).
Proof.
  induction c as [|w c IH]; intros v pf fuel Hc Hfuel.
  - simpl in Hc. subst v. destruct fuel; [simpl in Hfuel; lia|].
    simpl. unfold ek_bottleneck_step. simpl. by rewrite Nat.eqb_refl.
  - destruct Hc as (-> & Hvs & Hc). destruct fuel; [simpl in Hfuel; lia|].
    simpl. unfold ek_bottleneck_step at 1. simpl.
    destruct (Nat.eqb_spec v s) as [|_]; [done|].
    apply IH; [done|]. simpl in Hfuel. lia.
Qed.

Lemma ek_push_run parent s path_flow c : forall v r fuel,
  is_chain parent s v c -> (length c < fuel)%nat ->
  while_fuel (ek_push_step parent s path_flow) fuel (v, r)
    = Some (foldl (ek_push_arc parent path_flow) r c).
Proof.
  induction c as [|w c IH]; intros v r fuel Hc Hfuel.
  - simpl in Hc. subst v. destruct fuel; [simpl in Hfuel; lia|].
    simpl. unfold ek_push_step. simpl. by rewrite Nat.eqb_refl.
  - destruct Hc as (-> & Hvs & Hc). destruct fuel; [simpl in Hfuel; lia|].
    simpl. unfold ek_push_step at 1. simpl.
    destruct (Nat.eqb_spec v s) as [|_]; [done|].
    apply IH; [done|]. simpl in Hfuel. lia.
Qed.

Lemma chain_min_spec r parent c : forall pf,
  let m := chain_min r parent pf c in
  m <= pf /\
  Forall (fun w => m <= mat_get r (parent_of parent w) w) c /\
  (1 <= pf -> Forall (fun w => 0 < mat_get r (parent_of parent w) w) c -> 1 <= m).
Proof.
  induction c as [|w c IH]; intros pf; simpl.
  - split; [lia|]. split; [constructor|]. done.
  - set (x := mat_get r (parent_of parent w) w).
    set (pf1 := if x <? pf then x else pf).
    assert (Hpf1 : pf1 <= pf /\ pf1 <= x /\ (pf1 = x \/ pf1 = pf)).
    { unfold pf1. destruct (Z.ltb_spec x pf); lia. }
    destruct (IH pf1) as (Hle & Hall & Hpos). fold (chain_min r parent pf1 c) in *.
    split; [lia|]. split.
    + constructor; [fold x; lia|done].
    + intros Hpf Hc. inversion Hc as [|? ? Hx Hc']; subst. fold x in Hx.
      apply Hpos; [lia|done].
Qed.

(** ** Pushing flow along the chain *)

Lemma residual_bound n c r i j :
  capacity_ok n c -> residual_ok n c r ->
  (i < n)%nat -> (j < n)%nat -> i <> j ->
  0 <= mat_get r i j <= INT_MAX.
Proof.
  intros (_ & _ & _ & Hsum) (_ & _ & Hnn & Hpair) Hi Hj Hne.
  pose proof (Hnn i j Hi Hj). pose proof (Hnn j i Hj Hi).
  pose proof (Hpair i j Hi Hj). pose proof (Hsum i j Hi Hj Hne). lia.
Qed.

Lemma sum_change (f f' : nat -> Z) (k : nat) (d : Z) (l : list nat) :
  NoDup l ->
  (forall j, j ∈ l -> f' j = f j + (if decide (j = k) then d else 0)) ->
  foldr Z.add 0 (map f' l) =
  foldr Z.add 0 (map f l) + (if decide (k ∈ l) then d else 0).
Proof.
  induction l as [|a l IH]; intros Hnd Hf; cbn [map foldr].
  - rewrite decide_False; [lia|]. by intros ?%elem_of_nil.
  - inversion Hnd as [|? ? Ha Hnd']; subst.
    rewrite IH; [|done|intros j Hj; apply Hf; by right].
    rewrite (Hf a) by (by left).
    destruct (decide (a = k)) as [->|Hne].
    + rewrite (decide_False (P := k ∈ l)) by done.
      rewrite (decide_True (P := k ∈ k :: l)) by (by left). lia.
    + destruct (decide (k ∈ l)) as [Hin|Hnin].
      * rewrite (decide_True (P := k ∈ a :: l)) by (by right). lia.
      * rewrite (decide_False (P := k ∈ a :: l)); [lia|].
        intros Hin. apply elem_of_cons in Hin as [?|?]; [congruence|done].
Qed.

Lemma ek_push_arc_spec n c parent pf r v :
  capacity_ok n c -> residual_ok n c r ->
  (v < n)%nat -> (parent_of parent v < n)%nat -> parent_of parent v <> v ->
  0 <= pf <= mat_get r (parent_of parent v) v ->
  let r' := ek_push_arc parent pf r v in
  residual_ok n c r' /\
  (forall a b, mat_get r' a b =
     if decide (a = v /\ b = parent_of parent v) then mat_get r a b + pf
     else if decide (a = parent_of parent v /\ b = v) then mat_get r a b - pf
     else mat_get r a b) /\
  (forall x, net_out n c r' x =
     net_out n c r x + (if decide (x = parent_of parent v) then pf else 0)
                     - (if decide (x = v) then pf else 0)).
Proof.
  intros Hcap Hres Hv Hu Huv Hpf. set (u := parent_of parent v) in *.
  unfold ek_push_arc. fold u.
  pose proof (residual_bound n c r u v Hcap Hres Hu Hv Huv) as Hb1.
  pose proof (residual_bound n c r v u Hcap Hres Hv Hu ltac:(done)) as Hb2.
  pose proof Hres as (Hl & Hr & Hnn & Hpair).
  pose proof (Hpair u v Hu Hv) as Huvsum.
  destruct Hcap as (_ & _ & _ & Hsum). pose proof (Hsum u v Hu Hv Huv) as Hcsum.
  rewrite (to_int_small (mat_get r u v - pf)) by (unfold INT_MAX in *; lia).
  set (r1 := mat_set r u v (mat_get r u v - pf)).
  assert (Hget1 : forall a b, mat_get r1 a b =
            if decide (a = u /\ b = v) then mat_get r u v - pf else mat_get r a b).
  { intros a b. apply mat_get_set; [lia|]. by rewrite Hr. }
  destruct (mat_set_shape n r u v (mat_get r u v - pf) Hl Hr) as [Hl1 Hr1].
  fold r1 in Hl1, Hr1.
  assert (Hvu1 : mat_get r1 v u = mat_get r v u).
  { rewrite Hget1. rewrite decide_False; [done|]. intros [? ?]. congruence. }
  rewrite Hvu1.
  rewrite (to_int_small (mat_get r v u + pf)) by (unfold INT_MAX in *; lia).
  set (r2 := mat_set r1 v u (mat_get r v u + pf)).
  assert (Hget2 : forall a b, mat_get r2 a b =
            if decide (a = v /\ b = u) then mat_get r v u + pf else mat_get r1 a b).
  { intros a b. apply mat_get_set; [lia|]. by rewrite Hr1. }
  destruct (mat_set_shape n r1 v u (mat_get r v u + pf) Hl1 Hr1) as [Hl2 Hr2].
  fold r2 in Hl2, Hr2.
  assert (Hget : forall a b, mat_get r2 a b =
            if decide (a = v /\ b = u) then mat_get r a b + pf
            else if decide (a = u /\ b = v) then mat_get r a b - pf
            else mat_get r a b).
  { intros a b. rewrite Hget2, Hget1.
    destruct (decide (a = v /\ b = u)) as [[-> ->]|]; [done|].
    destruct (decide (a = u /\ b = v)) as [[-> ->]|]; done. }
  clearbody r2 r1 u.
  split; [|split; [done|]].
  - unfold residual_ok. split_and!; try done.
    + intros a b Ha Hb. rewrite Hget. specialize (Hnn a b Ha Hb).
      repeat case_decide; destruct_and?; subst; lia.
    + intros a b Ha Hb. rewrite !Hget. specialize (Hpair a b Ha Hb).
      repeat case_decide; destruct_and?; subst; try lia; try congruence.
  - intros x. unfold net_out.
    destruct (decide (x = v)) as [->|Hxv];
      [rewrite (decide_False (P := v = u)) by done|
       destruct (decide (x = u)) as [->|Hxu]].
    + rewrite (sum_change (fun j => mat_get c v j - mat_get r v j) _ u (- pf));
        [|apply NoDup_seq|].
      * rewrite decide_True by (apply elem_of_seq; lia). lia.
      * intros j _. rewrite Hget.
        destruct (decide (j = u)) as [->|Hju].
        -- rewrite decide_True by done. lia.
        -- rewrite decide_False by (intros [_ ?]; done).
           rewrite decide_False by (intros [? _]; done). lia.
    + rewrite (sum_change (fun j => mat_get c u j - mat_get r u j) _ v pf);
        [|apply NoDup_seq|].
      * rewrite decide_True by (apply elem_of_seq; lia). lia.
      * intros j _. rewrite Hget.
        rewrite decide_False by (intros [? _]; done).
        destruct (decide (j = v)) as [->|Hjv].
        -- rewrite decide_True by done. lia.
        -- rewrite decide_False by (intros [_ ?]; done). lia.
    + rewrite (sum_change (fun j => mat_get c x j - mat_get r x j) _ 0%nat 0);
        [|apply NoDup_seq|].
      * destruct (decide (0%nat ∈ seq 0 n)); lia.
      * intros j _. rewrite Hget.
        rewrite decide_False by (intros [? _]; done).
        rewrite decide_False by (intros [? _]; done).
        destruct (decide (j = 0%nat)); lia.
Qed.

Lemma ek_push_fold_ok n cap parent q s pf c : forall v r,
  capacity_ok n cap -> residual_ok n cap r -> 0 <= pf ->
  is_chain parent s v c -> chain_desc q parent c ->
  Forall (fun w => (w < n)%nat /\ (parent_of parent w < n)%nat /\
                   pf <= mat_get r (parent_of parent w) w) c ->
  residual_ok n cap (foldl (ek_push_arc parent pf) r c) /\
  forall x, net_out n cap (foldl (ek_push_arc parent pf) r c) x =
    net_out n cap r x + (if decide (x = s) then pf else 0)
                      - (if decide (x = v) then pf else 0).
Proof.
  induction c as [|w c IH]; intros v r Hcap Hres Hpf Hc Hd Hall; simpl.
  { simpl in Hc. subst v. split; [done|]. intros x. case_decide; lia. }
  destruct Hc as (-> & Hvs & Hc).
  inversion Hd as [|? ? Hlt Hd']; subst.
  inversion Hall as [|? ? (Hv & Hu & Hle) Hall']; subst.
  assert (Huv : parent_of parent v <> v) by (intros Heq; rewrite Heq in Hlt; lia).
  destruct (ek_push_arc_spec n cap parent pf r v Hcap Hres Hv Hu Huv ltac:(lia))
    as (Hres1 & Hget & Hnet).
  destruct (IH (parent_of parent v) (ek_push_arc parent pf r v))
    as [Hres2 Hnet2]; try done.
  { apply Forall_forall. intros x Hx.
    rewrite Forall_forall in Hall'. destruct (Hall' x Hx) as (Hxn & Hpx & Hxle).
    split; [done|]. split; [done|].
    destruct (chain_positions q parent s c _ Hc Hd' x Hx) as [Hp1 Hp2].
    rewrite Hget.
    rewrite decide_False.
    2:{ intros [Heq _]. rewrite Heq in Hp2. lia. }
    rewrite decide_False; [done|].
    intros [_ Heq]. rewrite Heq in Hp1. lia. }
  split; [done|]. intros x. rewrite Hnet2, Hnet. lia.
Qed.

(** ** One turn of the augmenting loop *)

Lemma ek_step_spec round_ok g cap s t st :
  wf_graph g -> valid_adjacency g -> capacity_ok (num_vertices g) cap ->
  (s < num_vertices g)%nat -> (t < num_vertices g)%nat -> s <> t ->
  residual_ok (num_vertices g) cap (ek_residual st) /\
  0 <= ek_max_flow st <= INT_MAX /\
  flow_balance (num_vertices g) cap (ek_residual st) s t (ek_max_flow st) ->
  match ek_step round_ok g s t st with
  | inl st' =>
      (residual_ok (num_vertices g) cap (ek_residual st') /\
       0 <= ek_max_flow st' <= INT_MAX /\
       flow_balance (num_vertices g) cap (ek_residual st') s t (ek_max_flow st')) /\
      (Z.to_nat (INT_MAX - ek_max_flow st') < Z.to_nat (INT_MAX - ek_max_flow st))%nat
  | inr res =>
      res = EkOverflow \/
      exists f r, res = EkDone f r /\ 0 <= f <= INT_MAX /\
        residual_ok (num_vertices g) cap r /\
        flow_balance (num_vertices g) cap r s t f /\
        ((forall k, round_ok k = true) -> ~ rtc (redge g r) s t)
  end.
Proof.
  intros Hwf Hval Hcap Hs Ht Hst (Hres & Hflow & Hbal). unfold ek_step.
  set (n := num_vertices g) in *.
  destruct (round_ok (ek_round st)) eqn:Hok; cbn [negb].
  2:{ right. exists (ek_max_flow st), (ek_residual st).
      split; [done|]. split; [lia|]. split; [done|]. split; [done|].
      intros Hall. specialize (Hall (ek_round st)). congruence. }
  destruct (ek_bfs_spec g (ek_residual st) s t Hwf Hval Hs Ht Hst)
    as (b & -> & Hinv & Hnone).
  destruct (ekb_found b) eqn:Hf; cbn [negb].
  2:{ right. exists (ek_max_flow st), (ek_residual st).
      split; [done|]. split; [lia|]. split; [done|]. split; [done|].
      intros _. by apply Hnone. }
  destruct (chain_to_sink g (ek_residual st) s t b Hwf Ht Hst Hinv Hf)
    as (c & Hc & Hlen & Hne & Hdesc & Hall). fold n in Hlen, Hall.
  rewrite (ek_bottleneck_run _ _ _ c) by (done || lia).
  rewrite (ek_push_run _ _ _ c) by (done || lia).
  destruct (chain_min_spec (ek_residual st) (ekb_parent b) c INT_MAX)
    as (Hle & Hmin & Hpos).
  set (pf := chain_min (ek_residual st) (ekb_parent b) INT_MAX c) in *.
  assert (Hpf : 1 <= pf).
  { apply Hpos; [unfold INT_MAX; lia|].
    eapply Forall_impl; [exact Hall|]. by intros w (_ & _ & ?). }
  destruct (Z.ltb_spec (INT_MAX - pf) (ek_max_flow st)) as [Hov|Hfit].
  { by left. }
  cbn [ek_residual ek_max_flow]. split; [|lia].
  destruct (ek_push_fold_ok n cap (ekb_parent b) (ekb_queue b) s pf c t
              (ek_residual st)) as [Hres' Hnet]; try done; [lia| |].
  { apply Forall_forall. intros w Hw.
    rewrite Forall_forall in Hall, Hmin.
    destruct (Hall w Hw) as (? & ? & ?). specialize (Hmin w Hw). done. }
  split; [done|]. split; [lia|].
  intros x Hx. rewrite Hnet, (Hbal x Hx).
  repeat case_decide; subst; lia.
Qed.

Lemma ek_initial_ok n cap :
  capacity_ok n cap ->
  residual_ok n cap (ek_initial n cap) /\
  forall x, (x < n)%nat -> net_out n cap (ek_initial n cap) x = 0.
Proof.
  intros (Hl & Hr & Hnn & Hsum).
  assert (Hrow : forall i, (i < n)%nat ->
            ek_initial n cap !!! i = map (fun j => mat_get cap i j) (seq 0 n)).
  { intros i Hi. unfold ek_initial.
    rewrite list_lookup_total_alt, list_lookup_fmap, lookup_seq_lt by done. done. }
  assert (Hget : forall i j, (i < n)%nat -> (j < n)%nat ->
            mat_get (ek_initial n cap) i j = mat_get cap i j).
  { intros i j Hi Hj. unfold mat_get at 1. rewrite Hrow by done.
    rewrite list_lookup_total_alt, list_lookup_fmap, lookup_seq_lt by done. done. }
  split.
  - unfold residual_ok. split_and!.
    + unfold ek_initial. by rewrite length_map, length_seq.
    + intros i Hi. rewrite Hrow by done. by rewrite length_map, length_seq.
    + intros i j Hi Hj. rewrite Hget by done. by apply Hnn.
    + intros i j Hi Hj. by rewrite !Hget.
  - intros x Hx. unfold net_out.
    assert (H : forall l : list nat, (forall j, j ∈ l -> (j < n)%nat) ->
              foldr Z.add 0
                (map (fun j => mat_get cap x j - mat_get (ek_initial n cap) x j) l) = 0).
    { induction l as [|a l IH]; intros Hl'; simpl; [done|].
      rewrite IH by (intros j Hj; apply Hl'; by right).
      rewrite Hget; [lia|done|]. apply Hl'. by left. }
    apply H. intros j Hj. apply elem_of_seq in Hj. lia.
Qed.

(** The augmenting loop ends, whatever the allocations of its turns do:
    on the overflow test, or with a value in the [int] range and a
    residual matrix that records a flow of that value; if no allocation
    failed, the sink is then out of reach of the source along entries
    with residual capacity. *)
Lemma ek_run_spec round_ok g cap s t :
  wf_graph g -> valid_adjacency g -> capacity_ok (num_vertices g) cap ->
  (s < num_vertices g)%nat -> (t < num_vertices g)%nat -> s <> t ->
  exists res, ek_run round_ok g cap s t = Some res /\
    (res = EkOverflow \/
     exists f r, res = EkDone f r /\ 0 <= f <= INT_MAX /\
       residual_ok (num_vertices g) cap r /\
       flow_balance (num_vertices g) cap r s t f /\
       ((forall k, round_ok k = true) -> ~ rtc (redge g r) s t)).
Proof.
  intros Hwf Hval Hcap Hs Ht Hst. unfold ek_run.
  destruct (ek_initial_ok (num_vertices g) cap Hcap) as [Hres0 Hnet0].
  apply (while_pow2_rule (ek_step round_ok g s t)
           (fun st => residual_ok (num_vertices g) cap (ek_residual st) /\
                      0 <= ek_max_flow st <= INT_MAX /\
                      flow_balance (num_vertices g) cap (ek_residual st) s t
                        (ek_max_flow st))
           (fun st => Z.to_nat (INT_MAX - ek_max_flow st))).
  - intros st Hinv. by apply ek_step_spec.
  - cbn [ek_residual ek_max_flow]. split; [done|].
    split; [unfold INT_MAX; lia|].
    intros x Hx. rewrite Hnet0 by done. repeat case_decide; lia.
  - cbn [ek_max_flow]. apply Nat2Z.inj_lt. rewrite Nat2Z.inj_pow.
    rewrite Z2Nat.id by (unfold INT_MAX; lia).
    change (Z.of_nat 2) with 2. change (Z.of_nat 32) with 32.
    unfold INT_MAX. lia.
Qed.

(** ** The second search of [min_cut] *)

Lemma mc_visit_inv g r s u i x rest st :
  (x < num_vertices g)%nat ->
  S i = mcb_front st -> mcb_queue st !! i = Some u -> edge g u x ->
  mc_bfs_inv g r s (x :: rest) st ->
  mc_bfs_inv g r s rest (mc_visit r u st x) /\
  mcb_front (mc_visit r u st x) = mcb_front st /\
  mcb_queue (mc_visit r u st x) !! i = Some u.
Proof.
  intros Hx Hi Hu He
    (Hlv & Hfront & Hnd & Hrange & Hstart & Hvis & Hparent & Hclosed).
  set (n := num_vertices g) in *.
  unfold mc_visit.
  destruct (mcb_reachable st !!! x) eqn:Hvx; simpl.
  { split; [|done]. unfold mc_bfs_inv. fold n.
    split_and!; try done.
    intros i0 u0 v Hi0 Hu0 Hr.
    destruct (Hclosed i0 u0 v Hi0 Hu0 Hr) as [?|[Hcur Hin]]; [by left|].
    apply elem_of_cons in Hin as [->|Hin]; [left|right; done].
    by apply Hvis. }
  destruct (Z.ltb_spec 0 (mat_get r u x)) as [Hpos|Hnpos]; simpl.
  2:{ split; [|done]. unfold mc_bfs_inv. fold n.
      split_and!; try done.
      intros i0 u0 v Hi0 Hu0 Hr.
      destruct (Hclosed i0 u0 v Hi0 Hu0 Hr) as [?|[Hcur Hin]]; [by left|].
      apply elem_of_cons in Hin as [->|Hin]; [exfalso|right; done].
      assert (i0 = i) as -> by lia. rewrite Hu in Hu0. inversion Hu0; subst u0.
      destruct Hr as [_ Hr]. lia. }
  assert (Hxq : x ∉ mcb_queue st).
  { intros Hin. apply Hvis in Hin; [|done]. congruence. }
  assert (Hred : redge g r u x) by (by split).
  assert (Hil : (i < length (mcb_queue st))%nat) by (by eapply lookup_lt_Some).
  split; [|split; [done|]].
  2:{ simpl. by rewrite lookup_app_l. }
  unfold mc_bfs_inv. simpl. fold n.
  split_and!.
  - by rewrite length_insert.
  - rewrite length_app. simpl. lia.
  - apply NoDup_app. split; [done|]. split; [|apply NoDup_singleton].
    intros y Hy Hs. apply list_elem_of_singleton in Hs. by subst.
  - intros v Hin. apply elem_of_app in Hin as [Hin|Hin]; [by apply Hrange|].
    apply list_elem_of_singleton in Hin. by subst.
  - destruct (mcb_queue st); [done|]. done.
  - intros v Hvn. destruct (decide (v = x)) as [->|Hne].
    + rewrite list_lookup_total_insert_eq by lia. split; [|done].
      intros _. apply elem_of_app. right. by apply list_elem_of_singleton.
    + rewrite list_lookup_total_insert_ne by done. rewrite Hvis by done.
      rewrite elem_of_app. split; [by left|]. intros [?|Hs]; [done|].
      apply list_elem_of_singleton in Hs. done.
  - intros j v Hj Hpos0.
    destruct (decide (j < length (mcb_queue st))%nat) as [Hlt|Hge].
    + rewrite lookup_app_l in Hj by done.
      destruct (Hparent j v Hj Hpos0) as (i0 & u0 & Hij & Hu0 & Hr).
      exists i0, u0. split_and!; try done.
      rewrite lookup_app_l by lia. done.
    + rewrite lookup_app_r in Hj by lia.
      destruct (j - length (mcb_queue st))%nat eqn:Hd; [|by destruct n0].
      simpl in Hj. inversion Hj; subst v.
      exists i, u. split_and!; [lia| |done].
      by rewrite lookup_app_l.
  - intros i0 u0 v Hi0 Hu0 Hr. rewrite lookup_app_l in Hu0 by lia.
    rewrite elem_of_app.
    destruct (Hclosed i0 u0 v Hi0 Hu0 Hr) as [?|[Hcur Hin]]; [by left; left|].
    apply elem_of_cons in Hin as [->|Hin]; [left; right|right; done].
    by apply list_elem_of_singleton.
Qed.

Lemma mc_visit_fold g r s u i rest : forall st,
  valid_adjacency g ->
  S i = mcb_front st -> mcb_queue st !! i = Some u ->
  (forall x, x ∈ rest -> edge g u x) ->
  mc_bfs_inv g r s rest st ->
  mc_bfs_inv g r s [] (foldl (mc_visit r u) st rest) /\
  mcb_front (foldl (mc_visit r u) st rest) = mcb_front st.
Proof.
  induction rest as [|x rest IH]; intros st Hval Hi Hu Hrest Hinv; simpl; [done|].
  assert (He : edge g u x) by (apply Hrest; by left).
  assert (Hx : (x < num_vertices g)%nat).
  { destruct He as [? Hin]. by eapply Hval. }
  destruct (mc_visit_inv g r s u i x rest st Hx Hi Hu He Hinv)
    as (Hinv1 & Hf1 & Hq1).
  assert (Hrest' : forall y, y ∈ rest -> edge g u y).
  { intros y Hy. apply Hrest. by right. }
  assert (Hi1 : S i = mcb_front (mc_visit r u st x)) by congruence.
  destruct (IH (mc_visit r u st x) Hval Hi1 Hq1 Hrest' Hinv1) as [Hinv2 Hf2].
  split; [done|congruence].
Qed.

Lemma mc_bfs_step_inv g r s st :
  valid_adjacency g ->
  mc_bfs_inv g r s [] st ->
  match mc_bfs_step g r st with
  | inl st' =>
      mc_bfs_inv g r s [] st' /\
      (num_vertices g - mcb_front st' < num_vertices g - mcb_front st)%nat
  | inr st' =>
      mc_bfs_inv g r s [] st' /\ mcb_front st' = length (mcb_queue st')
  end.
Proof.
  intros Hval Hinv. unfold mc_bfs_step.
  pose proof Hinv as (Hlv & Hfront & Hnd & Hrange & Hstart & Hvis & Hparent
                      & Hclosed).
  destruct (Nat.ltb_spec (mcb_front st) (length (mcb_queue st))) as [Hlt|Hge].
  2:{ split; [done|]. lia. }
  destruct (lookup_lt_is_Some_2 _ _ Hlt) as [u Hu].
  assert (Hun : (u < num_vertices g)%nat).
  { apply Hrange. by eapply list_elem_of_lookup_2. }
  rewrite (list_lookup_total_correct _ _ _ Hu).
  pose proof (bounded_NoDup_length _ (num_vertices g) Hnd Hrange) as Hbound.
  set (st1 := mkMcBfs _ _ _).
  assert (Hinv1 : mc_bfs_inv g r s (neighbors g u) st1).
  { unfold mc_bfs_inv, st1. simpl. split_and!; try done.
    intros i w v Hi Hw Hr.
    destruct (decide (i = mcb_front st)) as [->|Hne].
    - rewrite Hu in Hw. inversion Hw; subst w. right. split; [done|].
      by destruct Hr as [[_ ?] _].
    - destruct (Hclosed i w v ltac:(lia) Hw Hr) as [?|[_ Hin]]; [by left|].
      by apply elem_of_nil in Hin. }
  assert (Hent : forall x, x ∈ neighbors g u -> edge g u x).
  { intros x Hx. by split. }
  destruct (mc_visit_fold g r s u (mcb_front st) (neighbors g u) st1 Hval
              eq_refl Hu Hent Hinv1) as [Hinv2 Hf2].
  split; [done|]. rewrite Hf2. simpl. lia.
Qed.

(** The second search marks exactly the vertices the source reaches
    through entries with residual capacity. *)
Lemma mc_bfs_spec g r s :
  valid_adjacency g -> (s < num_vertices g)%nat ->
  exists b,
    while_fuel (mc_bfs_step g r) (S (num_vertices g))
      (mkMcBfs (<[s := true]> (replicate (num_vertices g) false)) [s] 0) = Some b /\
    forall v, (v < num_vertices g)%nat ->
      (mcb_reachable b !!! v = true <-> rtc (redge g r) s v).
Proof.
  intros Hval Hs. set (n := num_vertices g) in *.
  set (st0 := mkMcBfs _ _ _).
  assert (Hinv0 : mc_bfs_inv g r s [] st0).
  { unfold mc_bfs_inv, st0. simpl. fold n. split_and!; try done.
    - by rewrite length_insert, length_replicate.
    - lia.
    - apply NoDup_singleton.
    - intros v Hv. apply list_elem_of_singleton in Hv. by subst.
    - intros v Hv. rewrite list_elem_of_singleton.
      destruct (decide (v = s)) as [->|Hne].
      + by rewrite list_lookup_total_insert_eq by (rewrite length_replicate; lia).
      + rewrite list_lookup_total_insert_ne by done.
        by rewrite lookup_total_replicate_2.
    - intros j v Hj Hpos. destruct j; [lia|]. done.
    - intros; lia. }
  destruct (while_fuel_rule (mc_bfs_step g r) (mc_bfs_inv g r s [])
              (fun st => (n - mcb_front st)%nat)
              (fun st => mc_bfs_inv g r s [] st /\
                         mcb_front st = length (mcb_queue st))
              (fun st H => mc_bfs_step_inv g r s st Hval H)
              (S n) st0 Hinv0 ltac:(simpl; lia))
    as (b & Hrun & Hinv & Hend).
  exists b. split; [done|].
  destruct Hinv as (_ & _ & Hnd & Hrange & Hstart & Hvis & Hparent & Hclosed).
  intros v Hv. rewrite (Hvis v Hv). split.
  - intros Hin. apply list_elem_of_lookup_1 in Hin as [j Hj].
    revert v Hv Hj. induction j as [j IH] using lt_wf_ind. intros v Hv Hj.
    destruct (decide (j = 0)%nat) as [->|Hpos].
    { rewrite Hstart in Hj. inversion Hj. apply rtc_refl. }
    destruct (Hparent j v Hj ltac:(lia)) as (i & u & Hij & Hu & He).
    eapply rtc_r; [|exact He]. apply (IH i Hij u); [|done].
    apply Hrange. by eapply list_elem_of_lookup_2.
  - intros Hreach.
    apply (rtc_ind_r (R:=redge g r) (fun v => v ∈ mcb_queue b) s); [| |exact Hreach].
    { by eapply list_elem_of_lookup_2. }
    intros y z _ Hyz IH. apply list_elem_of_lookup_1 in IH as [i Hi].
    destruct (Hclosed i y z) as [?|[_ Hin]]; [|done|done|done|].
    + rewrite Hend. by eapply lookup_lt_Some.
    + by apply elem_of_nil in Hin.
Qed.

(** ** The listing of the cut *)

Lemma mc_cut_entries_loop g cap reach slots u l : forall cut,
  wf_graph g -> (u < num_vertices g)%nat ->
  (forall v, v ∈ l -> (v < num_vertices g)%nat) ->
  Z.of_nat (length cut + length l) <= slots ->
  for_each_opt (mc_cut_entry cap reach slots u) cut l =
  Some (cut ++ map (fun p => mkEdge p.1 p.2)
                 (filter (fun p => reach !!! p.1 = true /\ reach !!! p.2 = false /\
                                   0 < mat_get cap p.1 p.2)
                         (map (pair u) l))) \/
  reach !!! u = false.
Proof.
  induction l as [|v l IH]; intros cut Hwf Hu Hl Hroom; simpl.
  { left. by rewrite app_nil_r. }
  destruct (reach !!! u) eqn:Hru; [|by right]. left.
  assert (Hv : (v < num_vertices g)%nat) by (apply Hl; by left).
  assert (Hl' : forall x, x ∈ l -> (x < num_vertices g)%nat).
  { intros x Hx. apply Hl. by right. }
  unfold mc_cut_entry at 1.
  destruct (to_size_t_vertex g u Hwf Hu) as [-> ->].
  destruct (to_size_t_vertex g v Hwf Hv) as [-> ->]. rewrite !Nat2Z.id.
  rewrite filter_cons. simpl.
  destruct (reach !!! v) eqn:Hrv; simpl.
  { rewrite decide_False by (intros (_ & ? & _); congruence).
    destruct (IH cut Hwf Hu Hl' ltac:(simpl in Hroom; lia)) as [->|?];
      [done|congruence]. }
  destruct (Z.ltb_spec 0 (mat_get cap u v)) as [Hpos|Hnpos]; simpl.
  2:{ rewrite decide_False by (intros (_ & _ & ?); lia).
      destruct (IH cut Hwf Hu Hl' ltac:(simpl in Hroom; lia)) as [->|?];
        [done|congruence]. }
  rewrite decide_True by done.
  destruct (Z.leb_spec slots (Z.of_nat (length cut))); [simpl in Hroom; lia|].
  destruct (IH (cut ++ [mkEdge u v]) Hwf Hu Hl') as [->|?]; [|by rewrite <- app_assoc|congruence].
  rewrite length_app. simpl in *. lia.
Qed.

Lemma mc_cut_loop g cap reach slots vs : forall cut,
  wf_graph g -> valid_adjacency g ->
  (forall u, u ∈ vs -> (u < num_vertices g)%nat) ->
  Z.of_nat (length cut + length (entry_pairs g vs)) <= slots ->
  for_each_opt (mc_cut_vertex g cap reach slots) cut vs =
  Some (cut ++ map (fun p => mkEdge p.1 p.2)
                 (filter (fun p => reach !!! p.1 = true /\ reach !!! p.2 = false /\
                                   0 < mat_get cap p.1 p.2)
                         (entry_pairs g vs))).
Proof.
  induction vs as [|u vs IH]; intros cut Hwf Hval Hvs Hroom.
  { simpl. by rewrite app_nil_r. }
  assert (Hu : (u < num_vertices g)%nat) by (apply Hvs; by left).
  assert (Hvs' : forall x, x ∈ vs -> (x < num_vertices g)%nat).
  { intros x Hx. apply Hvs. by right. }
  assert (Hsplit : entry_pairs g (u :: vs) =
                   map (pair u) (neighbors g u) ++ entry_pairs g vs) by done.
  rewrite Hsplit in *. rewrite length_app, length_map in Hroom.
  rewrite filter_app, map_app.
  cbn [for_each_opt]. unfold mc_cut_vertex at 1.
  destruct (reach !!! u) eqn:Hru; cbn [negb].
  - destruct (mc_cut_entries_loop g cap reach slots u (neighbors g u) cut Hwf Hu)
      as [->|?]; [|lia| |congruence].
    { intros v Hv. by eapply Hval. }
    rewrite IH; [by rewrite <- app_assoc|done|done|done|].
    rewrite length_app, length_map.
    pose proof (length_filter
      (fun p : nat * nat => reach !!! p.1 = true /\ reach !!! p.2 = false /\
                            0 < mat_get cap p.1 p.2)
      (map (pair u) (neighbors g u))) as Hf.
    rewrite length_map in Hf. lia.
  - assert (Hnone : forall l, filter (fun p : nat * nat =>
                       reach !!! p.1 = true /\ reach !!! p.2 = false /\
                       0 < mat_get cap p.1 p.2)
                      (map (pair u) l) = []).
    { clear -Hru. induction l as [|v l IHl]; [done|].
      simpl. rewrite filter_cons. simpl.
      rewrite decide_False by (intros (? & _); congruence). done. }
    rewrite Hnone. simpl. apply IH; [done|done|done|lia].
Qed.

Lemma cut_slots g :
  wf_graph g ->
  to_size_t (Z.of_nat (num_vertices g) * Z.of_nat (num_vertices g) * sizeof_Edge)
    / sizeof_Edge
  = Z.of_nat (num_vertices g) * Z.of_nat (num_vertices g).
Proof.
  intros Hwf. pose proof (wf_count g Hwf) as H. unfold GRAFO_MAX_VERTICES in H.
  unfold to_size_t, sizeof_Edge. rewrite Z.mod_small by nia.
  by rewrite Z.div_mul.
Qed.

(** ** The two routines *)

Lemma edmonds_karp_value round_ok g cap s t :
  wf_graph g -> valid_adjacency g -> capacity_ok (num_vertices g) cap ->
  (s < num_vertices g)%nat -> (t < num_vertices g)%nat -> s <> t ->
  exists v, edmonds_karp_max_flow true round_ok g cap s t = Some v /\
    (v = -1 \/
     exists r, ek_run round_ok g cap s t = Some (EkDone v r) /\
       0 <= v <= INT_MAX /\
       residual_ok (num_vertices g) cap r /\
       flow_balance (num_vertices g) cap r s t v /\
       ((forall k, round_ok k = true) -> ~ rtc (redge g r) s t)).
Proof.
  intros Hwf Hval Hcap Hs Ht Hst. unfold edmonds_karp_max_flow.
  destruct (Nat.leb_spec (num_vertices g) s) as [|_]; [lia|].
  destruct (Nat.leb_spec (num_vertices g) t) as [|_]; [lia|].
  destruct (Nat.eqb_spec s t) as [|_]; [done|]. cbn [orb negb].
  destruct (ek_run_spec round_ok g cap s t Hwf Hval Hcap Hs Ht Hst)
    as (res & -> & [->|(f & r & -> & Hf & Hres & Hbal & Hnone)]).
  - exists (-1). split; [done|]. by left.
  - exists f. split; [done|]. right. by exists r.
Qed.

Lemma min_cut_value round_ok g cap s t :
  wf_graph g -> valid_adjacency g -> capacity_ok (num_vertices g) cap ->
  (s < num_vertices g)%nat -> (t < num_vertices g)%nat -> s <> t ->
  (length (entry_edges g) <= num_vertices g * num_vertices g)%nat ->
  exists v, edmonds_karp_max_flow true round_ok g cap s t = Some v /\
    ((v = -1 /\ min_cut true round_ok true g cap s t = Some (McValue (-1) None 0)) \/
     (0 <= v /\
      exists r side,
        ek_run round_ok g cap s t = Some (EkDone v r) /\
        (forall x, (x < num_vertices g)%nat ->
           (side x = true <-> rtc (redge g r) s x)) /\
        min_cut true round_ok true g cap s t =
          Some (McValue v (Some (cut_entries g cap side))
                        (length (cut_entries g cap side))))).
Proof.
  intros Hwf Hval Hcap Hs Ht Hst Hroom.
  unfold edmonds_karp_max_flow, min_cut.
  destruct (Nat.leb_spec (num_vertices g) s) as [|_]; [lia|].
  destruct (Nat.leb_spec (num_vertices g) t) as [|_]; [lia|].
  destruct (Nat.eqb_spec s t) as [|_]; [done|]. cbn [orb negb].
  destruct (ek_run_spec round_ok g cap s t Hwf Hval Hcap Hs Ht Hst)
    as (res & -> & [->|(f & r & -> & Hf & Hres & Hbal & Hnone)]).
  - exists (-1). split; [done|]. by left.
  - exists f. split; [done|]. right. split; [lia|].
    destruct (mc_bfs_spec g r s Hval Hs) as (b & -> & Hreach).
    exists r, (fun x => mcb_reachable b !!! x). split; [done|]. split; [done|].
    rewrite (cut_slots g Hwf).
    rewrite (mc_cut_loop g cap (mcb_reachable b)); [done|done|done| |].
    + intros u Hu. apply elem_of_seq in Hu. lia.
    + unfold entry_edges in Hroom. rewrite length_map in Hroom. simpl. lia.
Qed.


(** Under the same conditions, with at most [n * n] adjacency entries
    and its late allocations succeeding, [min_cut] returns the value of
    [edmonds_karp_max_flow]; unless that is -1, it lists, in the order of
    the adjacency lists, exactly the entries [(u, v)] with positive
    capacity that lead from a vertex the source reaches in the final
    residual graph to a vertex it does not reach, and [*out_ncut] is
    their number. *)
Theorem min_cut_spec round_ok g cap s t :
  wf_graph g -> valid_adjacency g -> capacity_ok (num_vertices g) cap ->
  (s < num_vertices g)%nat -> (t < num_vertices g)%nat -> s <> t ->
  (length (entry_edges g) <= num_vertices g * num_vertices g)%nat ->
  exists v, edmonds_karp_max_flow true round_ok g cap s t = Some v /\
    ((v = -1 /\ min_cut true round_ok true g cap s t = Some (McValue (-1) None 0)) \/
     (0 <= v /\
      exists r side,
        ek_run round_ok g cap s t = Some (EkDone v r) /\
        (forall x, (x < num_vertices g)%nat ->
           (side x = true <-> rtc (redge g r) s x)) /\
        min_cut true round_ok true g cap s t =
          Some (McValue v (Some (cut_entries g cap side))
                        (length (cut_entries g cap side))))).
Proof. apply min_cut_value. Qed.

Lemma capacity_ok_dag3 : capacity_ok (num_vertices g_dag3) cap_dag3.
Proof.
  unfold capacity_ok. simpl. split_and!; [done| | |].
  - intros i Hi. destruct i as [|[|[|i]]]; [done..|lia].
  - intros i j Hi Hj.
    destruct i as [|[|[|i]]]; [| | |lia];
      (destruct j as [|[|[|j]]]; [| | |lia]); by vm_compute.
  - intros i j Hi Hj _.
    destruct i as [|[|[|i]]]; [| | |lia];
      (destruct j as [|[|[|j]]]; [| | |lia]); by vm_compute.
Qed.


Lemma min_cut_spec_witness :
  wf_graph g_dag3 /\ valid_adjacency g_dag3 /\
  capacity_ok (num_vertices g_dag3) cap_dag3 /\
  (0 < num_vertices g_dag3)%nat /\ (2 < num_vertices g_dag3)%nat /\
  0%nat <> 2%nat /\
  (length (entry_edges g_dag3) <= num_vertices g_dag3 * num_vertices g_dag3)%nat /\
  exists v, edmonds_karp_max_flow true (fun _ => true) g_dag3 cap_dag3 0 2 = Some v /\
    ((v = -1 /\
      min_cut true (fun _ => true) true g_dag3 cap_dag3 0 2
        = Some (McValue (-1) None 0)) \/
     (0 <= v /\
      exists r side,
        ek_run (fun _ => true) g_dag3 cap_dag3 0 2 = Some (EkDone v r) /\
        (forall x, (x < num_vertices g_dag3)%nat ->
           (side x = true <-> rtc (redge g_dag3 r) 0%nat x)) /\
        min_cut true (fun _ => true) true g_dag3 cap_dag3 0 2 =
          Some (McValue v (Some (cut_entries g_dag3 cap_dag3 side))
                        (length (cut_entries g_dag3 cap_dag3 side))))).
Proof.
  assert (Hwf : wf_graph g_dag3) by wf_concrete.
  assert (H0 : (0 < num_vertices g_dag3)%nat) by (simpl; lia).
  assert (H2 : (2 < num_vertices g_dag3)%nat) by (simpl; lia).
  assert (Hne : 0%nat <> 2%nat) by lia.
  assert (Hroom : (length (entry_edges g_dag3)
                   <= num_vertices g_dag3 * num_vertices g_dag3)%nat)
    by (vm_compute; lia).
  split; [exact Hwf|]. split; [exact valid_g_dag3|].
  split; [exact capacity_ok_dag3|]. split; [exact H0|]. split; [exact H2|].
  split; [exact Hne|]. split; [exact Hroom|].
  exact (min_cut_spec (fun _ => true) g_dag3 cap_dag3 0 2
           Hwf valid_g_dag3 capacity_ok_dag3 H0 H2 Hne Hroom).
Defined.

(** The network 0->1, 1->2, 0->2 with unit capacities: two units reach
    the sink, and both entries out of the source are cut. *)
Example min_cut_scenario :
  edmonds_karp_max_flow true (fun _ => true) g_dag3 cap_dag3 0 2 = Some 2 /\
  min_cut true (fun _ => true) true g_dag3 cap_dag3 0 2
    = Some (McValue 2 (Some [mkEdge 0 1; mkEdge 0 2]) 2).
Proof. by vm_compute. Qed.

(** The search follows adjacency entries only, so flow already sent along
    [u -> v] can be taken back only where the list of [v] has the entry
    [u].  On [g_net8] the first path found, 0->1->2->3, blocks both other
    paths and the routine returns 1; with the reverse entries stored
    (capacity 0) it returns 2 for the same capacities. *)
Example edmonds_karp_needs_reverse_entries :
  edmonds_karp_max_flow true (fun _ => true) g_net8 cap_net8 0 3 = Some 1 /\
  edmonds_karp_max_flow true (fun _ => true) g_net8m cap_net8 0 3 = Some 2.
Proof. by vm_compute. Qed.


(** * The iterative depth-first search *)

Lemma dfs_push_fold g l : forall st,
  match for_each_opt (dfs_push (num_vertices g)) st l with
  | Some st' =>
      dfs_visited st' = dfs_visited st /\
      (length (dfs_stack st') <= length (dfs_stack st) + length l)%nat
  | None => True
  end.
Proof.
  induction l as [|x l IH]; intros st; simpl; [split; [done|lia]|].
  unfold dfs_push at 1.
  destruct (_ <=? _).
  { specialize (IH st). destruct (for_each_opt _ st l); [|done].
    destruct IH. split; [done|lia]. }
  destruct (dfs_visited st !!! _).
  { specialize (IH st). destruct (for_each_opt _ st l); [|done].
    destruct IH. split; [done|lia]. }
  destruct (_ <=? _)%nat; [done|].
  set (st1 := mkDfs _ _ _). specialize (IH st1).
  destruct (for_each_opt _ st1 l); [|done].
  destruct IH as [Hv Hl]. simpl in *. split; [done|lia].
Qed.

Lemma dfs_todo_nonneg g st : 0 <= dfs_todo g st.
Proof.
  unfold dfs_todo.
  assert (H : forall l : list nat,
            0 <= foldr Z.add 0
                   (map (fun u => if (dfs_visited st !!! u : bool) then 0
                                  else 1 + Z.of_nat (length (neighbors g u))) l)).
  { induction l as [|a l IH]; simpl; [lia|]. destruct (dfs_visited st !!! a); lia. }
  specialize (H (seq 0 (num_vertices g))). lia.
Qed.

Lemma dfs_step_todo g st :
  wf_graph g -> length (dfs_visited st) = num_vertices g ->
  match dfs_step g st with
  | inl st' =>
      length (dfs_visited st') = num_vertices g /\
      (Z.to_nat (dfs_todo g st') < Z.to_nat (dfs_todo g st))%nat
  | inr res => res = DfsOutOfBounds
  end.
Proof.
  intros Hwf Hlen. unfold dfs_step.
  destruct (dfs_stack st) as [|v rest] eqn:Hstack; [done|].
  pose proof (dfs_todo_nonneg g st) as Hnn.
  assert (Hpop : dfs_todo g (mkDfs (dfs_visited st) rest (dfs_path st))
                 = dfs_todo g st - 1).
  { unfold dfs_todo. simpl. rewrite Hstack. simpl. lia. }
  pose proof (dfs_todo_nonneg g (mkDfs (dfs_visited st) rest (dfs_path st))) as Hnn1.
  destruct (Z.leb_spec (Z.of_nat (num_vertices g)) (to_size_t v)) as [Hout|Hin].
  { split; [done|]. rewrite Hpop. lia. }
  destruct (dfs_visited st !!! Z.to_nat v) eqn:Hv.
  { split; [done|]. rewrite Hpop. lia. }
  set (st1 := mkDfs _ _ _).
  pose proof (dfs_push_fold g (neighbors g (Z.to_nat v)) st1) as Hfold.
  destruct (for_each_opt _ st1 _) as [st2|]; [|done].
  destruct Hfold as [Hvis Hlen2]. simpl in Hvis, Hlen2.
  split; [by rewrite Hvis, length_insert|].
  assert (Hvn : (Z.to_nat v < num_vertices g)%nat).
  { destruct (decide (Z.to_nat v < num_vertices g)%nat) as [|Hge]; [done|].
    rewrite list_lookup_total_alt, lookup_ge_None_2 in Hv by lia. done. }
  assert (Hsum :
    foldr Z.add 0
      (map (fun u => if (dfs_visited st2 !!! u : bool) then 0
                     else 1 + Z.of_nat (length (neighbors g u)))
           (seq 0 (num_vertices g))) =
    foldr Z.add 0
      (map (fun u => if (dfs_visited st !!! u : bool) then 0
                     else 1 + Z.of_nat (length (neighbors g u)))
           (seq 0 (num_vertices g)))
    + (if decide (Z.to_nat v ∈ seq 0 (num_vertices g))
       then - (1 + Z.of_nat (length (neighbors g (Z.to_nat v)))) else 0)).
  { apply sum_change; [apply NoDup_seq|].
    intros j _. rewrite Hvis.
    destruct (decide (j = Z.to_nat v)) as [->|Hne].
    - rewrite list_lookup_total_insert_eq by lia. rewrite Hv. lia.
    - rewrite list_lookup_total_insert_ne by done. lia. }
  rewrite decide_True in Hsum by (apply elem_of_seq; lia).
  pose proof (dfs_todo_nonneg g st2) as Hnn2.
  unfold dfs_todo in *. rewrite Hsum. rewrite Hstack in *. simpl in *. lia.
Qed.

Lemma entries_total g (l : list nat) :
  foldr Z.add 0 (map (fun u => 1 + Z.of_nat (length (neighbors g u))) l)
  = Z.of_nat (length l + length (concat (map (neighbors g) l))).
Proof.
  induction l as [|a l IH]; simpl; [done|].
  rewrite IH, length_app. lia.
Qed.

(** No call of [dfs] that gets past its checks and allocations comes
    back with a path: the loop test [top >= 0] on the unsigned [top]
    never fails, and every run ends, after finitely many turns, in an
    access outside the stack array (at the latest the read of
    [stack[SIZE_MAX]] once the stack is empty). *)
Theorem dfs_never_returns g start :
  wf_graph g -> (start < num_vertices g)%nat ->
  dfs true g start = Some DfsOutOfBounds.
Proof.
  intros Hwf Hs. unfold dfs.
  set (n := num_vertices g) in *.
  destruct (Nat.leb_spec n start) as [|_]; [lia|].
  destruct (Nat.eqb_spec n 0) as [|_]; [lia|].
  pose proof (wf_count g Hwf) as Hcount. unfold GRAFO_MAX_VERTICES in Hcount.
  fold n in Hcount.
  assert (Hq4 : SIZE_MAX / sizeof_int = 4611686018427387903) by reflexivity.
  rewrite Hq4.
  destruct (Z.ltb_spec 4611686018427387903 (Z.of_nat n)); [lia|].
  cbn [orb negb].
  set (st0 := mkDfs _ _ _).
  destruct (while_fuel_rule (dfs_step g)
              (fun st => length (dfs_visited st) = n)
              (fun st => Z.to_nat (dfs_todo g st))
              (fun res => res = DfsOutOfBounds)
              (fun st H => dfs_step_todo g st Hwf H)
              (S (S (n + length (all_entries g)))) st0)
    as (res & -> & ->); [| |done].
  - unfold st0. simpl. by rewrite length_replicate.
  - unfold dfs_todo, st0. simpl. fold n.
    assert (Hsum :
      foldr Z.add 0
        (map (fun u => if (replicate n false !!! u : bool) then 0
                       else 1 + Z.of_nat (length (neighbors g u))) (seq 0 n))
      = foldr Z.add 0
          (map (fun u => 1 + Z.of_nat (length (neighbors g u))) (seq 0 n))).
    { f_equal. apply map_ext_in. intros u Hu. apply in_seq in Hu.
      rewrite lookup_total_replicate_2 by lia. done. }
    rewrite Hsum, entries_total, length_seq. unfold all_entries. fold n. lia.
Qed.

Lemma dfs_never_returns_witness :
  wf_graph g_cycle4 /\ (0 < num_vertices g_cycle4)%nat /\
  dfs true g_cycle4 0 = Some DfsOutOfBounds.
Proof.
  assert (H0 : (0 < num_vertices g_cycle4)%nat) by (simpl; lia).
  split; [exact wf_g_cycle4|]. split; [exact H0|].
  exact (dfs_never_returns g_cycle4 0 wf_g_cycle4 H0).
Defined.


(** * Cycle detection *)

Lemma count_true_at_most (l : list bool) : (count_true l <= length l)%nat.
Proof. unfold count_true. apply length_filter. Qed.

Lemma fst_lookup {A B : Type} (l : list (A * B)) i x :
  l.*1 !! i = Some x <-> exists y, l !! i = Some (x, y).
Proof.
  rewrite list_lookup_fmap. destruct (l !! i) as [[a b]|]; simpl.
  - split; [intros [= ->]; by exists b|by intros (y & [= -> ->])].
  - split; [done|by intros (y & ?)].
Qed.

(** A neighbour found visited that is not the parent closes a cycle. *)
Lemma hc_detect g u p V stack tree Vc done v rest :
  simple_graph g ->
  hc_pre g u p V stack -> hc_tree g V tree Vc -> hc_head g u p tree done ->
  neighbors g u = done ++ v :: rest ->
  Vc !!! v = true -> Z.of_nat v <> p ->
  has_simple_cycle g.
Proof.
  intros (Hval & Hmir & Hloop & Hnd)
    (Hu & HVu & HlV & Hsnd & Hsin & Hspath & Hlast & Hclosed)
    (HlVc & Htnd & Htin & Hmem & Hcount & Ht3 & Ht4)
    (Hhead & Hdone & Hkids) Hnb Hvv Hvp.
  assert (Hvin : v ∈ neighbors g u).
  { rewrite Hnb. apply elem_of_app. right. by left. }
  assert (Hvn : (v < num_vertices g)%nat) by (by eapply Hval).
  assert (Huv : u ∈ neighbors g v) by (by apply Hmir).
  assert (Hne : v <> u) by (intros ->; by apply (Hloop u)).
  apply (Hmem v Hvn) in Hvv as [HVv|Hvt].
  2:{ exfalso. apply list_elem_of_lookup_1 in Hvt as [i Hi].
      apply fst_lookup in Hi as (q & Hi).
      destruct (decide (i = 0)%nat) as [->|Hpos].
      { rewrite Hhead in Hi. inversion Hi. done. }
      destruct (Ht4 i v q u Hi ltac:(lia) Huv) as [Hq|(j & Hj & Hju)].
      - rewrite <- Hq in Hi. specialize (Hkids i v Hi ltac:(lia)).
        specialize (Hnd u Hu). rewrite Hnb in Hnd.
        apply NoDup_app in Hnd as (_ & Hdis & _).
        apply (Hdis v Hkids). by left.
      - assert (H0 : tree.*1 !! 0%nat = Some u).
        { apply fst_lookup. by exists p. }
        pose proof (NoDup_lookup _ _ _ _ Htnd Hju H0). lia. }
  destruct (decide (v ∈ stack)) as [Hvs|Hvs].
  2:{ exfalso. specialize (Hclosed v u Hvn HVv Hvs Huv). congruence. }
  apply list_elem_of_split in Hvs as (s1 & s2 & Hs).
  destruct (last stack) as [pk|] eqn:Hl.
  2:{ apply last_None in Hl. subst stack. by destruct s1. }
  destruct Hlast as [-> Hpk].
  assert (Hlast2 : last (v :: s2) = Some pk).
  { rewrite Hs in Hl. by rewrite last_app_cons in Hl. }
  assert (Hs2 : s2 <> []).
  { intros ->. simpl in Hlast2. inversion Hlast2; subst. done. }
  exists (v :: s2 ++ [u]). unfold simple_cycle. split_and!.
  - simpl. rewrite length_app. simpl. destruct s2; [done|simpl; lia].
  - assert (Hnds : NoDup (v :: s2)).
    { rewrite Hs in Hsnd. by apply NoDup_app in Hsnd as (_ & _ & ?). }
    rewrite app_comm_cons. apply NoDup_app. split; [done|].
    split; [|apply NoDup_singleton].
    intros x Hx Hxu. apply list_elem_of_singleton in Hxu. subst x.
    destruct (Hsin u) as [_ Hvis]; [|congruence].
    rewrite Hs. apply elem_of_app. by right.
  - intros i a b Ha Hb. rewrite app_comm_cons in Ha, Hb.
    destruct (decide (S i < length (v :: s2))%nat) as [Hlt|Hge].
    + rewrite lookup_app_l in Ha by lia. rewrite lookup_app_l in Hb by lia.
      apply (Hspath (length s1 + i)%nat).
      * rewrite Hs, lookup_app_r by lia.
        by replace (length s1 + i - length s1)%nat with i by lia.
      * rewrite Hs, lookup_app_r by lia.
        by replace (S (length s1 + i) - length s1)%nat with (S i) by lia.
    + assert (Hil : (i < length (v :: s2))%nat).
      { apply lookup_lt_Some in Hb. rewrite length_app in Hb. simpl in *. lia. }
      rewrite lookup_app_l in Ha by lia.
      rewrite lookup_app_r in Hb by lia.
      replace (S i - length (v :: s2))%nat with 0%nat in Hb by lia.
      inversion Hb; subst b.
      rewrite last_lookup in Hlast2.
      replace (pred (length (v :: s2))) with i in Hlast2 by lia.
      rewrite Ha in Hlast2. inversion Hlast2; subst a. done.
  - exists u, v. split; [|split; [done|by split]].
    rewrite app_comm_cons. by rewrite last_snoc.
Qed.

(** What the nested call for an unvisited neighbour may rely on. *)
Lemma hc_child_pre g u p V stack tree Vc done v :
  simple_graph g ->
  hc_pre g u p V stack -> hc_tree g V tree Vc -> hc_head g u p tree done ->
  v ∈ neighbors g u -> Vc !!! v = false ->
  hc_pre g v (Z.of_nat u) Vc (stack ++ [u]).
Proof.
  intros (Hval & Hmir & Hloop & Hnd)
    (Hu & HVu & HlV & Hsnd & Hsin & Hspath & Hlast & Hclosed)
    (HlVc & Htnd & Htin & Hmem & Hcount & Ht3 & Ht4)
    (Hhead & Hdone & Hkids) Hvin Hvv.
  assert (Hvn : (v < num_vertices g)%nat) by (by eapply Hval).
  assert (Hut : u ∈ tree.*1).
  { apply (list_elem_of_lookup_2 _ 0%nat). apply fst_lookup. by exists p. }
  assert (Hus : u ∉ stack).
  { intros Hin. destruct (Hsin u Hin). congruence. }
  unfold hc_pre. split_and!; try done.
  - apply NoDup_app. split; [done|]. split; [|apply NoDup_singleton].
    intros x Hx Hxu. apply list_elem_of_singleton in Hxu. by subst.
  - intros w Hw. apply elem_of_app in Hw as [Hw|Hw].
    + destruct (Hsin w Hw) as [Hwn HVw]. split; [done|].
      apply Hmem; [done|]. by left.
    + apply list_elem_of_singleton in Hw. subst w. split; [done|].
      apply Hmem; [done|]. by right.
  - intros i a b Ha Hb.
    destruct (decide (S i < length stack)%nat) as [Hlt|Hge].
    + rewrite lookup_app_l in Ha by lia. rewrite lookup_app_l in Hb by lia.
      by apply (Hspath i).
    + assert (Hil : (S i = length stack)%nat).
      { apply lookup_lt_Some in Hb. rewrite length_app in Hb. simpl in Hb. lia. }
      rewrite lookup_app_l in Ha by lia.
      rewrite lookup_app_r in Hb by lia.
      replace (S i - length stack)%nat with 0%nat in Hb by lia.
      inversion Hb; subst b.
      destruct (last stack) as [pk|] eqn:Hl.
      * destruct Hlast as [_ Hpk]. rewrite last_lookup in Hl.
        replace (pred (length stack)) with i in Hl by lia.
        rewrite Ha in Hl. by inversion Hl; subst.
      * apply last_None in Hl. subst stack. simpl in Hil. lia.
  - rewrite last_snoc. split; [done|]. by split.
  - intros w x Hwn HVcw Hws Hx.
    assert (Hxn : (x < num_vertices g)%nat) by (by eapply Hval).
    apply Hmem; [done|].
    apply (Hmem w Hwn) in HVcw as [HVw|Hwt].
    + left. apply (Hclosed w x); try done.
      intros Hin. apply Hws. apply elem_of_app. by left.
    + right. apply list_elem_of_lookup_1 in Hwt as [i Hi].
      apply fst_lookup in Hi as (q & Hi).
      destruct (decide (i = 0)%nat) as [->|Hpos].
      { rewrite Hhead in Hi. inversion Hi; subst. exfalso. apply Hws.
        apply elem_of_app. right. by apply list_elem_of_singleton. }
      destruct (Ht4 i w q x Hi ltac:(lia) Hx) as [Hq|(j & _ & Hj)].
      * destruct (Ht3 i w q Hi ltac:(lia)) as (w' & Hw' & Hq').
        assert (x = w') as -> by lia. done.
      * by eapply list_elem_of_lookup_2.
Qed.

(** The visits of a finished nested call join those of the caller. *)
Lemma hc_child_merge g u p V tree Vc done v tree_c V' :
  simple_graph g -> (u < num_vertices g)%nat -> v ∈ neighbors g u ->
  hc_tree g V tree Vc -> hc_head g u p tree done ->
  hc_tree g Vc tree_c V' -> hc_head g v (Z.of_nat u) tree_c (neighbors g v) ->
  hc_tree g V (tree ++ tree_c) V' /\ hc_head g u p (tree ++ tree_c) (done ++ [v]).
Proof.
  intros (Hval & Hmir & Hloop & Hnd) Hu Hvin
    (HlVc & Htnd & Htin & Hmem & Hcount & Ht3 & Ht4)
    (Hhead & Hdone & Hkids)
    (HlV' & Hcnd & Hcin & Hcmem & Hccount & Hc3 & Hc4)
    (Hchead & Hcdone & Hckids).
  assert (Hvn : (v < num_vertices g)%nat) by (by eapply Hval).
  assert (Htl : (0 < length tree)%nat).
  { apply lookup_lt_Some in Hhead. lia. }
  assert (Hut : u ∈ tree.*1).
  { apply (list_elem_of_lookup_2 _ 0%nat). apply fst_lookup. by exists p. }
  assert (Hfst : (tree ++ tree_c).*1 = tree.*1 ++ tree_c.*1) by apply fmap_app.
  assert (Hlf : length (tree.*1) = length tree) by apply length_fmap.
  assert (Hdisj : forall x, x ∈ tree.*1 -> x ∈ tree_c.*1 -> False).
  { intros x Hx Hxc. destruct (Hcin x Hxc) as [Hxn Hf].
    assert (Vc !!! x = true) by (apply Hmem; [done|by right]). congruence. }
  split.
  - unfold hc_tree. rewrite Hfst. split_and!.
    + done.
    + apply NoDup_app. split; [done|]. split; [|done].
      intros x Hx Hxc. by apply (Hdisj x).
    + intros w Hw. apply elem_of_app in Hw as [Hw|Hw]; [by apply Htin|].
      destruct (Hcin w Hw) as [Hwn Hf]. split; [done|].
      destruct (V !!! w) eqn:E; [|done].
      assert (Vc !!! w = true) by (apply Hmem; [done|by left]). congruence.
    + intros x Hx. rewrite (Hcmem x Hx), (Hmem x Hx), elem_of_app. tauto.
    + rewrite Hccount, Hcount, length_app. lia.
    + intros i w q Hi Hpos.
      destruct (decide (i < length tree)%nat) as [Hlt|Hge].
      * rewrite lookup_app_l in Hi by done.
        destruct (Ht3 i w q Hi Hpos) as (w' & Hw' & Hq).
        exists w'. split; [apply elem_of_app; by left|done].
      * rewrite lookup_app_r in Hi by lia.
        destruct (decide (i - length tree = 0)%nat) as [Hz|Hnz].
        -- rewrite Hz, Hchead in Hi. inversion Hi; subst.
           exists u. split; [apply elem_of_app; by left|done].
        -- destruct (Hc3 _ w q Hi ltac:(lia)) as (w' & Hw' & Hq).
           exists w'. split; [apply elem_of_app; by right|done].
    + intros i w q x Hi Hpos Hx.
      destruct (decide (i < length tree)%nat) as [Hlt|Hge].
      * rewrite lookup_app_l in Hi by done.
        destruct (Ht4 i w q x Hi Hpos Hx) as [?|(j & Hj & Hjx)]; [by left|right].
        exists j. split; [done|]. rewrite lookup_app_l; [done|].
        by eapply lookup_lt_Some.
      * rewrite lookup_app_r in Hi by lia.
        destruct (decide (i - length tree = 0)%nat) as [Hz|Hnz].
        -- rewrite Hz, Hchead in Hi. inversion Hi; subst w q.
           destruct (Hcdone x Hx) as [?|Hxc]; [by left|right].
           apply list_elem_of_lookup_1 in Hxc as [k Hk].
           assert (k <> 0%nat).
           { intros ->. assert (Hv0 : tree_c.*1 !! 0%nat = Some v).
             { apply fst_lookup. by eexists. }
             rewrite Hv0 in Hk. inversion Hk; subst x. by apply (Hloop v). }
           exists (length tree + k)%nat. split; [lia|].
           rewrite lookup_app_r by lia.
           by replace (length tree + k - length (tree.*1))%nat with k by lia.
        -- destruct (Hc4 _ w q x Hi ltac:(lia) Hx) as [?|(j & Hj & Hjx)];
             [by left|right].
           exists (length tree + j)%nat. split; [lia|].
           rewrite lookup_app_r by lia.
           by replace (length tree + j - length (tree.*1))%nat with j by lia.
  - unfold hc_head. rewrite Hfst. split_and!.
    + rewrite lookup_app_l by done. done.
    + intros x Hx. apply elem_of_app in Hx as [Hx|Hx].
      * destruct (Hdone x Hx) as [?|?]; [by left|right].
        apply elem_of_app. by left.
      * apply list_elem_of_singleton in Hx. subst x. right.
        apply elem_of_app. right. apply (list_elem_of_lookup_2 _ 0%nat).
        apply fst_lookup. by eexists.
    + intros i w Hi Hpos. apply elem_of_app.
      destruct (decide (i < length tree)%nat) as [Hlt|Hge].
      * rewrite lookup_app_l in Hi by done. left. by apply (Hkids i).
      * rewrite lookup_app_r in Hi by lia. right.
        destruct (decide (i - length tree = 0)%nat) as [Hz|Hnz].
        -- rewrite Hz, Hchead in Hi. inversion Hi; subst.
           by apply list_elem_of_singleton.
        -- exfalso. destruct (Hc3 _ w _ Hi ltac:(lia)) as (w' & Hw' & Hq).
           assert (w' = u) as -> by lia. by apply (Hdisj u).
Qed.

(** The loop over the entries of [u], given what the nested calls do. *)
Lemma hc_entries_spec g d u p V stack :
  simple_graph g ->
  (forall v p' V1 stack1, hc_pre g v p' V1 stack1 ->
     (num_vertices g - count_true V1 <= d)%nat ->
     exists b V2, has_cycle_util d g v p' V1 = Some (b, V2) /\
       (b = true -> has_simple_cycle g) /\
       (b = false -> exists tree,
          hc_tree g V1 tree V2 /\ hc_head g v p' tree (neighbors g v))) ->
  hc_pre g u p V stack ->
  (num_vertices g - count_true V <= S d)%nat ->
  forall rest done Vc tree,
    neighbors g u = done ++ rest ->
    hc_tree g V tree Vc -> hc_head g u p tree done ->
    exists b V', hc_entries (fun v vis => has_cycle_util d g v (Z.of_nat u) vis)
                   (num_vertices g) p rest Vc = Some (b, V') /\
      (b = true -> has_simple_cycle g) /\
      (b = false -> exists tree',
         hc_tree g V tree' V' /\ hc_head g u p tree' (neighbors g u)).
Proof.
  intros Hsimple Hrec Hpre Hdepth.
  pose proof Hsimple as (Hval & Hmir & Hloop & Hnd).
  pose proof Hpre as (Hu & _).
  induction rest as [|v rest IH]; intros done Vc tree Hnb Htree Hhead; simpl.
  { exists false, Vc. split; [done|]. split; [done|]. intros _.
    exists tree. rewrite app_nil_r in Hnb. by rewrite Hnb. }
  assert (Hvin : v ∈ neighbors g u).
  { rewrite Hnb. apply elem_of_app. right. by left. }
  assert (Hvn : (v < num_vertices g)%nat) by (by eapply Hval).
  assert (Hnb' : neighbors g u = (done ++ [v]) ++ rest) by (by rewrite <- app_assoc).
  destruct (Nat.leb_spec (num_vertices g) v) as [|_]; [lia|].
  destruct (Vc !!! v) eqn:Hvv; cbn [negb].
  - destruct (Z.eqb_spec (Z.of_nat v) p) as [Hvp|Hvp]; cbn [negb].
    + apply (IH (done ++ [v]) Vc tree Hnb' Htree).
      destruct Hhead as (H0 & Hdone & Hkids). split_and!; [done| |].
      * intros x Hx. apply elem_of_app in Hx as [Hx|Hx]; [by apply Hdone|].
        apply list_elem_of_singleton in Hx. subst x. by left.
      * intros i w Hi Hpos. apply elem_of_app. left. by apply (Hkids i).
    + exists true, Vc. split; [done|]. split; [|done]. intros _.
      by eapply hc_detect.
  - pose proof (hc_child_pre g u p V stack tree Vc done v Hsimple Hpre Htree Hhead
                  Hvin Hvv) as Hcpre.
    destruct (Hrec v (Z.of_nat u) Vc (stack ++ [u]) Hcpre) as (b & V2 & -> & Htrue & Hfalse).
    { destruct Htree as (_ & _ & _ & _ & Hcount & _).
      destruct Hhead as (H0 & _). apply lookup_lt_Some in H0. lia. }
    destruct b.
    + exists true, V2. split; [done|]. split; [done|done].
    + destruct (Hfalse eq_refl) as (tree_c & Hct & Hch).
      destruct (hc_child_merge g u p V tree Vc done v tree_c V2 Hsimple Hu Hvin
                  Htree Hhead Hct Hch) as [Htree' Hhead'].
      by apply (IH (done ++ [v]) V2 (tree ++ tree_c) Hnb').
Qed.

Lemma has_cycle_util_spec g :
  simple_graph g ->
  forall d v p V stack, hc_pre g v p V stack ->
    (num_vertices g - count_true V <= d)%nat ->
    exists b V', has_cycle_util d g v p V = Some (b, V') /\
      (b = true -> has_simple_cycle g) /\
      (b = false -> exists tree,
         hc_tree g V tree V' /\ hc_head g v p tree (neighbors g v)).
Proof.
  intros Hsimple. induction d as [|d IH]; intros u p V stack Hpre Hdepth.
  { exfalso. destruct Hpre as (Hu & HVu & HlV & _).
    pose proof (count_true_at_most V) as Hle.
    assert (count_true V = length V) as Hfull by lia.
    rewrite (count_true_full V u Hfull) in HVu by lia. done. }
  pose proof Hpre as (Hu & HVu & HlV & _).
  simpl. destruct (Nat.leb_spec (num_vertices g) u) as [|_]; [lia|].
  apply (hc_entries_spec g d u p V stack Hsimple IH Hpre Hdepth
           (neighbors g u) [] (<[u := true]> V) [(u, p)]); [done| |].
  - unfold hc_tree. simpl. split_and!.
    + by rewrite length_insert.
    + apply NoDup_singleton.
    + intros w Hw. apply list_elem_of_singleton in Hw. by subst.
    + intros x Hx. rewrite list_elem_of_singleton.
      destruct (decide (x = u)) as [->|Hne].
      * rewrite list_lookup_total_insert_eq by lia. split; [by right|done].
      * rewrite list_lookup_total_insert_ne by done. split; [by left|].
        by intros [?|?].
    + rewrite count_true_mark_new by (done || lia). lia.
    + intros i w q Hi Hpos. destruct i; [lia|]. done.
    + intros i w q x Hi Hpos. destruct i; [lia|]. done.
  - split_and!; [done| |].
    + by intros x ?%elem_of_nil.
    + intros i w Hi Hpos. destruct i; [lia|]. done.
Qed.

(** ** The loop over the roots *)

Lemma hc_forest_initial g :
  hc_forest g [] (replicate (num_vertices g) false).
Proof.
  unfold hc_forest. split_and!.
  - apply length_replicate.
  - apply NoDup_nil_2.
  - by intros x ?%elem_of_nil.
  - intros x Hx. rewrite list_lookup_total_alt, lookup_replicate_2 by done.
    simpl. split; [done|]. by intros ?%elem_of_nil.
  - by rewrite count_true_replicate.
  - by intros w q ?%elem_of_nil.
  - intros i w q x Hi. by rewrite lookup_nil in Hi.
Qed.

(** A root starts with no call above it. *)
Lemma hc_root_pre g tree V v :
  simple_graph g -> Z.of_nat (num_vertices g) <= SIZE_MAX ->
  hc_forest g tree V -> (v < num_vertices g)%nat -> V !!! v = false ->
  hc_pre g v SIZE_MAX V [].
Proof.
  intros (Hval & Hmir & Hloop & Hnd) Hmax
    (HlV & Hfnd & Hfin & Hfmem & Hfcount & Hfpar & Hfnb) Hv HVv.
  unfold hc_pre. split_and!; try done.
  - apply NoDup_nil_2.
  - by intros w ?%elem_of_nil.
  - intros w x Hw HVw _ Hx.
    assert (Hxn : (x < num_vertices g)%nat) by (by eapply Hval).
    apply Hfmem; [done|]. apply Hfmem in HVw; [|done].
    apply list_elem_of_lookup_1 in HVw as [i Hi].
    apply fst_lookup in Hi as (q & Hi).
    destruct (Hfnb i w q x Hi Hx) as [Hq|(j & _ & Hj)].
    + destruct (Hfpar w q) as [Hs|(w' & Hw' & Hq')].
      * by eapply list_elem_of_lookup_2.
      * lia.
      * assert (x = w') as -> by lia. done.
    + by eapply list_elem_of_lookup_2.
Qed.


(** The visits of a finished root join the forest. *)
Lemma hc_forest_grow g tree V v tree_c V' :
  simple_graph g -> (v < num_vertices g)%nat ->
  hc_forest g tree V -> hc_tree g V tree_c V' ->
  hc_head g v SIZE_MAX tree_c (neighbors g v) ->
  hc_forest g (tree ++ tree_c) V'.
Proof.
  intros (Hval & Hmir & Hloop & Hnd) Hv
    (HlV & Hfnd & Hfin & Hfmem & Hfcount & Hfpar & Hfnb)
    (HlV' & Hcnd & Hcin & Hcmem & Hccount & Hc3 & Hc4)
    (Hchead & Hcdone & Hckids).
  assert (Hfst : (tree ++ tree_c).*1 = tree.*1 ++ tree_c.*1) by apply fmap_app.
  assert (Hlf : length (tree.*1) = length tree) by apply length_fmap.
  assert (Hdisj : forall x, x ∈ tree.*1 -> x ∈ tree_c.*1 -> False).
  { intros x Hx Hxc. destruct (Hcin x Hxc) as [Hxn Hf].
    assert (V !!! x = true) by (by apply Hfmem). congruence. }
  unfold hc_forest. rewrite Hfst. split_and!.
  - done.
  - apply NoDup_app. split; [done|]. split; [|done].
    intros x Hx Hxc. by apply (Hdisj x).
  - intros x Hx. apply elem_of_app in Hx as [Hx|Hx]; [by apply Hfin|].
    by apply Hcin.
  - intros x Hx. rewrite (Hcmem x Hx), (Hfmem x Hx), elem_of_app. tauto.
  - rewrite Hccount, Hfcount, length_app. lia.
  - intros w q Hwq. apply elem_of_app in Hwq as [Hwq|Hwq].
    + destruct (Hfpar w q Hwq) as [?|(w' & Hw' & Hq)]; [by left|right].
      exists w'. split; [apply elem_of_app; by left|done].
    + apply list_elem_of_lookup_1 in Hwq as [i Hi].
      destruct (decide (i = 0)%nat) as [->|Hpos].
      * rewrite Hchead in Hi. inversion Hi. by left.
      * destruct (Hc3 i w q Hi ltac:(lia)) as (w' & Hw' & Hq). right.
        exists w'. split; [apply elem_of_app; by right|done].
  - intros i w q x Hi Hx.
    destruct (decide (i < length tree)%nat) as [Hlt|Hge].
    + rewrite lookup_app_l in Hi by done.
      destruct (Hfnb i w q x Hi Hx) as [?|(j & Hj & Hjx)]; [by left|right].
      exists j. split; [done|]. rewrite lookup_app_l; [done|].
      by eapply lookup_lt_Some.
    + rewrite lookup_app_r in Hi by lia.
      destruct (decide (i - length tree = 0)%nat) as [Hz|Hnz].
      * rewrite Hz, Hchead in Hi. inversion Hi; subst w q.
        destruct (Hcdone x Hx) as [?|Hxc]; [by left|right].
        apply list_elem_of_lookup_1 in Hxc as [k Hk].
        assert (k <> 0%nat).
        { intros ->. assert (Hv0 : tree_c.*1 !! 0%nat = Some v).
          { apply fst_lookup. by eexists. }
          rewrite Hv0 in Hk. inversion Hk; subst x. by apply (Hloop v). }
        exists (length tree + k)%nat. split; [lia|].
        rewrite lookup_app_r by lia.
        by replace (length tree + k - length (tree.*1))%nat with k by lia.
      * destruct (Hc4 _ w q x Hi ltac:(lia) Hx) as [?|(j & Hj & Hjx)];
          [by left|right].
        exists (length tree + j)%nat. split; [lia|].
        rewrite lookup_app_r by lia.
        by replace (length tree + j - length (tree.*1))%nat with j by lia.
Qed.

Lemma hc_roots_spec g :
  simple_graph g -> Z.of_nat (num_vertices g) <= SIZE_MAX ->
  forall vs tree V,
    hc_forest g tree V -> (forall v, v ∈ vs -> (v < num_vertices g)%nat) ->
    exists b, hc_roots g vs V = Some b /\
      (b = true -> has_simple_cycle g) /\
      (b = false -> exists tree' V', hc_forest g tree' V' /\
         forall x, (x < num_vertices g)%nat ->
           V !!! x = true \/ x ∈ vs -> V' !!! x = true).
Proof.
  intros Hsimple Hmax.
  induction vs as [|v vs IH]; intros tree V Hforest Hvs; simpl.
  { exists false. split; [done|]. split; [done|]. intros _.
    exists tree, V. split; [done|]. intros x Hx [?|?%elem_of_nil]; done. }
  assert (Hv : (v < num_vertices g)%nat) by (apply Hvs; by left).
  assert (Hvs' : forall x, x ∈ vs -> (x < num_vertices g)%nat).
  { intros x Hx. apply Hvs. by right. }
  destruct (V !!! v) eqn:HVv; cbn [negb].
  - destruct (IH tree V Hforest Hvs') as (b & -> & Ht & Hf).
    exists b. split; [done|]. split; [done|]. intros Hb.
    destruct (Hf Hb) as (tree' & V' & Hforest' & Hall).
    exists tree', V'. split; [done|]. intros x Hx [HVx|Hxin].
    + apply Hall; [done|by left].
    + apply elem_of_cons in Hxin as [->|Hxin].
      * apply Hall; [done|by left].
      * apply Hall; [done|by right].
  - pose proof (hc_root_pre g tree V v Hsimple Hmax Hforest Hv HVv) as Hpre.
    destruct (has_cycle_util_spec g Hsimple (num_vertices g) v SIZE_MAX V []
                Hpre ltac:(lia)) as (b & V2 & -> & Ht & Hf).
    destruct b.
    { exists true. split; [done|]. split; [done|done]. }
    destruct (Hf eq_refl) as (tree_c & Htree & Hhead).
    pose proof (hc_forest_grow g tree V v tree_c V2 Hsimple Hv Hforest Htree
                  Hhead) as Hforest2.
    destruct (IH (tree ++ tree_c) V2 Hforest2 Hvs') as (b & -> & Ht2 & Hf2).
    exists b. split; [done|]. split; [done|]. intros Hb.
    destruct (Hf2 Hb) as (tree' & V' & Hforest' & Hall).
    exists tree', V'. split; [done|].
    destruct Htree as (_ & _ & _ & Hcmem & _).
    destruct Hhead as (Hh0 & _).
    intros x Hx [HVx|Hxin].
    + apply Hall; [done|]. left. apply Hcmem; [done|by left].
    + apply elem_of_cons in Hxin as [->|Hxin].
      * apply Hall; [done|]. left. apply Hcmem; [done|]. right.
        apply (list_elem_of_lookup_2 _ 0%nat). apply fst_lookup. by eexists.
      * apply Hall; [done|by right].
Qed.

(** ** A forest that covers the graph leaves no cycle *)

Lemma max_by (f : nat -> nat) (c : list nat) :
  c <> [] -> exists w, w ∈ c /\ forall x, x ∈ c -> (f x <= f w)%nat.
Proof.
  induction c as [|a c IH]; [done|]. intros _.
  destruct c as [|b c].
  { exists a. split; [by left|]. intros x Hx.
    apply list_elem_of_singleton in Hx. by subst. }
  destruct (IH ltac:(done)) as (w & Hw & Hmax).
  destruct (decide (f w <= f a)%nat) as [Hle|Hgt].
  - exists a. split; [by left|]. intros x Hx.
    apply elem_of_cons in Hx as [->|Hx]; [done|].
    specialize (Hmax x Hx). lia.
  - exists w. split; [by right|]. intros x Hx.
    apply elem_of_cons in Hx as [->|Hx]; [lia|]. by apply Hmax.
Qed.

(** On a cycle every vertex has two different neighbours on the cycle. *)
Lemma cycle_two_neighbours g c w :
  valid_adjacency g -> mirrored g -> simple_cycle g c -> w ∈ c ->
  (w < num_vertices g)%nat /\
  exists x y, x ∈ c /\ y ∈ c /\ x <> y /\
    x ∈ neighbors g w /\ y ∈ neighbors g w.
Proof.
  intros Hval Hmir (Hlen & Hnd & Hcons & (a & b & Hlast & Hhead & Hab)) Hw.
  apply list_elem_of_lookup_1 in Hw as [i Hi].
  pose proof (lookup_lt_Some _ _ _ Hi) as Hil.
  rewrite last_lookup in Hlast. rewrite head_lookup in Hhead.
  (* the vertex before [w] *)
  assert (Hprev : exists ip x, c !! ip = Some x /\ edge g x w /\ ip <> i /\
            ((ip = pred i /\ (0 < i)%nat) \/ (ip = pred (length c) /\ i = 0%nat))).
  { destruct i as [|i'].
    - exists (pred (length c)), a. split; [done|]. split.
      + rewrite Hhead in Hi. by inversion Hi; subst.
      + split; [lia|]. right. done.
    - destruct (lookup_lt_is_Some_2 c i' ltac:(lia)) as [x Hx].
      exists i', x. split; [done|]. split; [by apply (Hcons i')|].
      split; [lia|]. left. simpl. split; [done|lia]. }
  assert (Hnext : exists inx y, c !! inx = Some y /\ edge g w y /\ inx <> i /\
            ((inx = S i /\ (S i < length c)%nat) \/ (inx = 0%nat /\ S i = length c))).
  { destruct (decide (S i < length c)%nat) as [Hlt|Hge].
    - destruct (lookup_lt_is_Some_2 c (S i) Hlt) as [y Hy].
      exists (S i), y. split; [done|]. split; [by apply (Hcons i)|].
      split; [lia|]. left. done.
    - exists 0%nat, b. split; [done|]. split.
      + replace (pred (length c)) with i in Hlast by lia.
        rewrite Hi in Hlast. by inversion Hlast; subst.
      + split; [lia|]. right. split; [done|lia]. }
  destruct Hprev as (ip & x & Hx & [Hxn Hxw] & Hipi & Hip).
  destruct Hnext as (inx & y & Hy & [Hwn Hwy] & Hinxi & Hinx).
  split; [done|].
  exists x, y. split_and!.
  - by eapply list_elem_of_lookup_2.
  - by eapply list_elem_of_lookup_2.
  - intros ->. assert (ip = inx) by (by eapply NoDup_lookup). lia.
  - by apply (Hmir x w).
  - done.
Qed.

Lemma hc_forest_acyclic g tree V :
  simple_graph g -> hc_forest g tree V ->
  (forall x, (x < num_vertices g)%nat -> V !!! x = true) ->
  ~ has_simple_cycle g.
Proof.
  intros (Hval & Hmir & Hloop & Hnd)
    (HlV & Hfnd & Hfin & Hfmem & Hfcount & Hfpar & Hfnb) Hall [c Hc].
  assert (Hne : c <> []).
  { destruct Hc as (Hlen & _). intros ->. simpl in Hlen. lia. }
  destruct (max_by (position (tree.*1)) c Hne) as (w & Hw & Hmax).
  destruct (cycle_two_neighbours g c w Hval Hmir Hc Hw)
    as (Hwn & x & y & Hx & Hy & Hxy & Hxw & Hyw).
  assert (Hwt : w ∈ tree.*1) by (apply Hfmem; [done|by apply Hall]).
  apply list_elem_of_lookup_1 in Hwt as [i Hi].
  pose proof (position_lookup _ _ _ Hfnd Hi) as Hpw.
  apply fst_lookup in Hi as (q & Hi).
  assert (Hpar : forall z, z ∈ c -> z ∈ neighbors g w -> Z.of_nat z = q).
  { intros z Hz Hzw.
    destruct (Hfnb i w q z Hi Hzw) as [?|(j & Hj & Hjz)]; [done|].
    pose proof (position_lookup _ _ _ Hfnd Hjz) as Hpz.
    specialize (Hmax z Hz). lia. }
  pose proof (Hpar x Hx Hxw). pose proof (Hpar y Hy Hyw). lia.
Qed.

Lemma has_cycle_answer g :
  wf_graph g -> simple_graph g ->
  exists b, has_cycle true g = Some b /\ (b = true <-> has_simple_cycle g).
Proof.
  intros Hwf Hsimple.
  assert (Hmax : Z.of_nat (num_vertices g) <= SIZE_MAX).
  { pose proof (wf_count g Hwf). unfold GRAFO_MAX_VERTICES, SIZE_MAX in *. lia. }
  unfold has_cycle. cbn zeta.
  destruct (Nat.eqb_spec (num_vertices g) 0) as [Hz|Hnz].
  { exists false. split; [done|]. split; [done|]. intros [c Hc].
    destruct Hsimple as (Hval & Hmir & _).
    destruct c as [|w c]; [destruct Hc as (Hlen & _); simpl in Hlen; lia|].
    destruct (cycle_two_neighbours g (w :: c) w Hval Hmir Hc ltac:(by left)).
    lia. }
  rewrite Z.div_1_r. destruct (Z.ltb_spec SIZE_MAX (Z.of_nat (num_vertices g)));
    [lia|]. cbn [negb].
  destruct (hc_roots_spec g Hsimple Hmax (seq 0 (num_vertices g)) []
              (replicate (num_vertices g) false) (hc_forest_initial g))
    as (b & -> & Ht & Hf).
  { intros v Hv. apply elem_of_seq in Hv. lia. }
  exists b. split; [done|]. split; [done|]. intros Hcyc.
  destruct b; [done|]. exfalso.
  destruct (Hf eq_refl) as (tree & V & Hforest & Hall).
  apply (hc_forest_acyclic g tree V Hsimple Hforest); [|done].
  intros x Hx. apply Hall; [done|]. right. apply elem_of_seq. lia.
Qed.

(** has_cycle (src part_001, has_cycle with has_cycle_util): on a simple
    undirected graph as the store holds it, the search returns, and it
    answers true exactly when the graph has a cycle through at least
    three different vertices. *)
Theorem has_cycle_correct g :
  wf_graph g -> simple_graph g ->
  exists b, has_cycle true g = Some b /\ (b = true <-> has_simple_cycle g).
Proof.
  apply has_cycle_answer.
Qed.

Lemma simple_g_cycle4 : simple_graph g_cycle4.
Proof.
  split; [exact valid_g_cycle4|]. split; [exact mirrored_g_cycle4|].
  split.
  - intros u Hu.
    do 4 (destruct u as [|u]; [apply (bool_decide_unpack _); by vm_compute|]).
    simpl in Hu. lia.
  - intros u Hu.
    do 4 (destruct u as [|u]; [apply (bool_decide_unpack _); by vm_compute|]).
    simpl in Hu. lia.
Qed.

Lemma has_cycle_correct_witness :
  wf_graph g_cycle4 /\ simple_graph g_cycle4 /\
  exists b, has_cycle true g_cycle4 = Some b /\
    (b = true <-> has_simple_cycle g_cycle4).
Proof.
  split; [exact wf_g_cycle4|]. split; [exact simple_g_cycle4|].
  exact (has_cycle_correct g_cycle4 wf_g_cycle4 simple_g_cycle4).
Defined.

(** The 4-cycle is reported, the path on four vertices is not; an edge
    stored twice is reported although it lies on no cycle. *)
Example has_cycle_scenario :
  has_cycle true g_cycle4 = Some true /\
  has_cycle true g_path4 = Some false /\
  has_cycle true
    {| adj := [[1; 1]; [0; 0]]%nat; adj_size := [2; 2]%nat;
       num_vertices := 2; directed := false |} = Some true.
Proof.
  by vm_compute.
Qed.


(** * The Eulerian path of [hierholzer_eulerian_path] *)

(** ** Consecutive pairs *)

Lemma steps_app l1 x l2 :
  steps (l1 ++ x :: l2) = steps (l1 ++ [x]) ++ steps (x :: l2).
Proof.
  induction l1 as [|a l1 IH]; [done|].
  destruct l1 as [|b l1]; [done|].
  change (steps ((a :: b :: l1) ++ x :: l2))
    with ((a, b) :: steps ((b :: l1) ++ x :: l2)).
  change (steps ((a :: b :: l1) ++ [x]))
    with ((a, b) :: steps ((b :: l1) ++ [x])).
  by rewrite IH.
Qed.

Lemma steps_snoc w y x : steps (w ++ [y; x]) = steps (w ++ [y]) ++ [(y, x)].
Proof.
  by rewrite (steps_app w y [x]).
Qed.

Lemma elem_of_steps a b w : (a, b) ∈ steps w -> a ∈ w /\ b ∈ w.
Proof.
  induction w as [|x w IH]; [by intros ?%elem_of_nil|].
  destruct w as [|y w]; [by intros ?%elem_of_nil|].
  change (steps (x :: y :: w)) with ((x, y) :: steps (y :: w)).
  intros [Heq|Hin]%elem_of_cons.
  - inversion Heq; subst. split; [by left|]. right. by left.
  - destruct (IH Hin). split; by right.
Qed.

Lemma ekey_swap a b : ekey (a, b) = ekey (b, a).
Proof.
  unfold ekey. simpl. f_equal; lia.
Qed.

Lemma ekey_eq a b c d :
  ekey (a, b) = ekey (c, d) <-> (a = c /\ b = d) \/ (a = d /\ b = c).
Proof.
  unfold ekey. simpl. split.
  - intros Heq. inversion Heq. lia.
  - intros [[-> ->]|[-> ->]]; f_equal; lia.
Qed.

Lemma ekey_steps_reverse w :
  ekey <$> steps (reverse w) = reverse (ekey <$> steps w).
Proof.
  induction w as [|x w IH]; [done|].
  destruct w as [|y w]; [done|].
  change (steps (x :: y :: w)) with ((x, y) :: steps (y :: w)).
  rewrite fmap_cons, (reverse_cons _ (ekey (x, y))), <- IH.
  rewrite (reverse_cons _ x), (reverse_cons _ y), <- app_assoc.
  change ([y] ++ [x]) with [y; x]. rewrite steps_snoc, fmap_app.
  simpl. by rewrite (ekey_swap y x).
Qed.

Lemma steps_reverse a b w : (a, b) ∈ steps (reverse w) <-> (b, a) ∈ steps w.
Proof.
  revert a b. induction w as [|x w IH]; intros a b.
  { split; by intros ?%elem_of_nil. }
  destruct w as [|y w].
  { split; by intros ?%elem_of_nil. }
  change (steps (x :: y :: w)) with ((x, y) :: steps (y :: w)).
  rewrite (reverse_cons _ x), (reverse_cons _ y), <- app_assoc.
  change ([y] ++ [x]) with [y; x]. rewrite steps_snoc.
  rewrite <- (reverse_cons w y), elem_of_app, IH, list_elem_of_singleton,
    elem_of_cons.
  split; intros [H|H]; try (by left); try (by right).
  - left. by inversion H.
  - right. by inversion H.
Qed.

(** ** Removing entries from the copy *)

Lemma hh_unlink_perm l v :
  NoDup l -> v ∈ l -> exists l1 l2, l = l1 ++ v :: l2 /\ hh_unlink l v ≡ₚ l1 ++ l2.
Proof.
  intros Hnd Hin. unfold hh_unlink.
  destruct (list_find (fun x => x = v) l) as [[i x]|] eqn:Hfind.
  2:{ apply list_find_None in Hfind. rewrite Forall_forall in Hfind.
      by destruct (Hfind v Hin). }
  apply list_find_Some in Hfind as (Hi & -> & _).
  apply list_elem_of_split_length in Hi as (l1 & l2 & -> & ->).
  exists l1, l2. split; [done|].
  destruct (decide (l2 = [])) as [->|Hne].
  - rewrite length_app. simpl.
    replace (pred (length l1 + 1)) with (length l1) by lia.
    rewrite list_lookup_total_middle by done.
    rewrite list_insert_id by (by apply list_lookup_middle).
    by rewrite take_app_length, app_nil_r.
  - destruct (exists_last Hne) as (l2' & z & ->).
    assert (Hlen : pred (length (l1 ++ v :: l2' ++ [z]))
                   = length (l1 ++ v :: l2')).
    { rewrite !length_app. simpl. rewrite length_app. simpl. lia. }
    rewrite Hlen.
    assert (Hz : (l1 ++ v :: l2' ++ [z]) !!! length (l1 ++ v :: l2') = z).
    { replace (l1 ++ v :: l2' ++ [z]) with ((l1 ++ v :: l2') ++ [z])
        by (by rewrite <- app_assoc).
      by rewrite list_lookup_total_middle. }
    rewrite Hz.
    replace (<[length l1 := z]> (l1 ++ v :: l2' ++ [z]))
      with ((l1 ++ z :: l2') ++ [z]).
    2:{ rewrite insert_app_r_alt by lia.
        replace (length l1 - length l1)%nat with 0%nat by lia. simpl.
        by rewrite <- app_assoc. }
    replace (length (l1 ++ v :: l2')) with (length (l1 ++ z :: l2'))
      by (rewrite !length_app; done).
    rewrite take_app_length.
    apply Permutation_app_head. apply Permutation_cons_append.
Qed.

Lemma hh_unlink_spec l v :
  NoDup l -> v ∈ l ->
  NoDup (hh_unlink l v) /\ S (length (hh_unlink l v)) = length l /\
  forall x, x ∈ hh_unlink l v <-> x ∈ l /\ x <> v.
Proof.
  intros Hnd Hin.
  destruct (hh_unlink_perm l v Hnd Hin) as (l1 & l2 & -> & Hp).
  assert (Hnd' : NoDup (v :: l1 ++ l2)).
  { eapply NoDup_Permutation_proper; [|exact Hnd].
    apply Permutation_middle. }
  apply NoDup_cons in Hnd' as [Hv Hnd'].
  split; [by rewrite Hp|]. split.
  - rewrite Hp, !length_app. simpl. lia.
  - intros x. rewrite Hp, !elem_of_app, elem_of_cons.
    split.
    + intros Hx. split; [tauto|]. intros ->. apply Hv.
      by apply elem_of_app.
    + intros [[?|[?|?]] ?]; tauto.
Qed.

Lemma removelast_spec (l : list nat) u :
  NoDup l -> last l = Some u ->
  NoDup (removelast l) /\ S (length (removelast l)) = length l /\
  u ∈ l /\ forall x, x ∈ removelast l <-> x ∈ l /\ x <> u.
Proof.
  intros Hnd Hlast. apply last_Some in Hlast as [l' ->].
  rewrite removelast_last.
  apply NoDup_app in Hnd as (Hnd & Hdis & _).
  split; [done|]. split; [rewrite length_app; simpl; lia|].
  split; [apply elem_of_app; right; by left|].
  intros x. rewrite elem_of_app, list_elem_of_singleton. split.
  - intros Hx. split; [by left|]. intros ->. apply (Hdis u Hx). by left.
  - intros [[?|?] ?]; [done|congruence].
Qed.

Lemma concat_insert_length (c : list (list nat)) v l :
  (v < length c)%nat ->
  (length (concat (<[v := l]> c)) + length (c !!! v)
   = length (concat c) + length l)%nat.
Proof.
  revert v. induction c as [|x c IH]; intros v Hv; simpl in *; [lia|].
  destruct v as [|v]; simpl.
  - rewrite !length_app. lia.
  - rewrite !length_app. specialize (IH v ltac:(lia)).
    change (list_lookup_total (S v) (x :: c)) with (c !!! v). lia.
Qed.

Lemma odd_pred_length (l l' : list nat) :
  S (length l') = length l -> Nat.odd (length l') = negb (Nat.odd (length l)).
Proof.
  intros <-. rewrite Nat.odd_succ, <- Nat.negb_odd. by destruct (Nat.odd _).
Qed.

Lemma steps_short w : (length w <= 1)%nat -> steps w = [].
Proof.
  destruct w as [|x [|y w]]; simpl; [done|done|lia].
Qed.

Lemma concat_lookup_length (c : list (list nat)) v :
  (v < length c)%nat -> (length (c !!! v) <= length (concat c))%nat.
Proof.
  intros Hv. pose proof (concat_insert_length c v [] Hv). simpl in *. lia.
Qed.

(** ** One turn of the loop *)

(** What the loop leaves when the stack is empty. *)
Definition hh_final (g : Graph) (s0 : nat) (circ : list nat) : Prop :=
  last circ = Some s0 /\
  (forall a b, (a, b) ∈ steps circ -> edge g a b) /\
  NoDup (ekey <$> steps circ) /\
  (forall w, w ∈ circ -> (w < num_vertices g)%nat /\
     forall u, u ∈ neighbors g w -> ekey (w, u) ∈ ekey <$> steps circ).

Definition hh_mu (st : hh_state) : nat :=
  (length (concat (hh_adj st)) + length (hh_stack st))%nat.

Lemma hh_push_inv g s0 e st v below u :
  simple_graph g -> hh_inv g s0 e st ->
  hh_stack st = v :: below -> (v < num_vertices g)%nat ->
  last (hh_adj st !!! v) = Some u ->
  (u < num_vertices g)%nat /\
  let adj1 := <[v := removelast (hh_adj st !!! v)]> (hh_adj st) in
  let st' := mkHh (<[u := hh_unlink (adj1 !!! u) v]> adj1) (u :: hh_stack st)
               (hh_circuit st) in
  hh_inv g s0 e st' /\ (hh_mu st' < hh_mu st)%nat /\
  (0 < length (concat (hh_adj st)))%nat.
Proof.
  intros (Hval & Hmir & Hloop & Hndg)
    (circ & hi & lo & Hcirc & Hstk & Hlo & Hlen & Hnd & Hpart & Hedge & Hkeys
      & Hstuck & Hpar & Hrange & Hlast & Hnum) Hs Hv Hl.
  destruct (removelast_spec _ u (Hnd v Hv) Hl) as (Hnd1 & Hlen1 & Hu & Hmem1).
  pose proof (proj1 (Hpart v u Hv) Hu) as [Hunb Hukey].
  assert (Hun : (u < num_vertices g)%nat) by (by eapply Hval).
  assert (Huv : u <> v) by (intros ->; by apply (Hloop v)).
  assert (Hvu : v ∈ hh_adj st !!! u).
  { apply Hpart; [done|]. split; [by apply Hmir|]. by rewrite ekey_swap. }
  destruct (hh_unlink_spec _ v (Hnd u Hun) Hvu) as (Hnd2 & Hlen2 & Hmem2).
  split; [done|]. cbn zeta.
  set (adj1 := <[v := removelast (hh_adj st !!! v)]> (hh_adj st)).
  assert (Hadj1u : adj1 !!! u = hh_adj st !!! u).
  { unfold adj1. by rewrite list_lookup_total_insert_ne. }
  rewrite Hadj1u.
  set (adj2 := <[u := hh_unlink (hh_adj st !!! u) v]> adj1).
  assert (Hl1 : length adj1 = num_vertices g).
  { unfold adj1. by rewrite length_insert. }
  assert (Hl2 : length adj2 = num_vertices g).
  { unfold adj2. by rewrite length_insert. }
  assert (Ha2u : adj2 !!! u = hh_unlink (hh_adj st !!! u) v).
  { unfold adj2. rewrite list_lookup_total_insert_eq; [done|lia]. }
  assert (Ha2v : adj2 !!! v = removelast (hh_adj st !!! v)).
  { unfold adj2. rewrite list_lookup_total_insert_ne by done.
    unfold adj1. rewrite list_lookup_total_insert_eq; [done|lia]. }
  assert (Ha2x : forall x, x <> u -> x <> v -> adj2 !!! x = hh_adj st !!! x).
  { intros x Hxu Hxv. unfold adj2. rewrite list_lookup_total_insert_ne by done.
    unfold adj1. by rewrite list_lookup_total_insert_ne. }
  assert (Hlone : lo <> []).
  { intros ->. rewrite (Hlo eq_refl) in Hstk. rewrite Hs in Hstk. done. }
  assert (Htop : exists rest, hi ++ take 1 lo = v :: rest).
  { rewrite Hs in Hstk. destruct hi as [|t hi'].
    - simpl in Hstk. subst lo. by exists [].
    - inversion Hstk; subst. by eexists. }
  destruct Htop as [rest Htop].
  assert (Hused : hh_used circ (u :: hi) lo ≡ₚ (u, v) :: hh_used circ hi lo).
  { unfold hh_used. rewrite <- app_comm_cons, Htop.
    change (steps (u :: v :: rest)) with ((u, v) :: steps (v :: rest)).
    symmetry. apply Permutation_middle. }
  assert (Hkmem : forall k, k ∈ ekey <$> hh_used circ (u :: hi) lo <->
            k = ekey (u, v) \/ k ∈ ekey <$> hh_used circ hi lo).
  { intros k. rewrite Hused, fmap_cons, elem_of_cons. done. }
  assert (Hnum1 : (length (concat adj2) + 2 = length (concat (hh_adj st)))%nat).
  { pose proof (concat_insert_length (hh_adj st) v
                  (removelast (hh_adj st !!! v)) ltac:(lia)) as H1.
    pose proof (concat_insert_length adj1 u
                  (hh_unlink (hh_adj st !!! u) v) ltac:(lia)) as H2.
    fold adj1 in H1. fold adj2 in H2. rewrite Hadj1u in H2. lia. }
  split; [|split].
  2:{ unfold hh_mu. cbn [hh_adj hh_stack]. fold adj2. simpl. lia. }
  2:{ lia. }
  exists circ, (u :: hi), lo. cbn [hh_adj hh_stack hh_circuit]. fold adj2.
  split; [done|]. split; [by rewrite Hstk|]. split; [done|].
  split; [done|]. split.
  { intros x Hx. destruct (decide (x = u)) as [->|Hxu]; [by rewrite Ha2u|].
    destruct (decide (x = v)) as [->|Hxv]; [by rewrite Ha2v|].
    rewrite Ha2x by done. by apply Hnd. }
  split.
  { intros x y Hx. rewrite Hkmem.
    destruct (decide (x = u)) as [->|Hxu].
    - rewrite Ha2u, Hmem2, (Hpart u y Hun), ekey_eq. split.
      + intros [[? ?] ?]. split; [done|]. intros [[[_ ?]|[? _]]|?]; done.
      + intros [? Hn]. split; [split; [done|]|].
        * intros ?. apply Hn. by right.
        * intros ->. apply Hn. left. by left.
    - destruct (decide (x = v)) as [->|Hxv].
      + rewrite Ha2v, Hmem1, (Hpart v y Hv), ekey_eq. split.
        * intros [[? ?] ?]. split; [done|]. intros [[[? _]|[_ ?]]|?]; done.
        * intros [? Hn]. split; [split; [done|]|].
          -- intros ?. apply Hn. by right.
          -- intros ->. apply Hn. left. by right.
      + rewrite Ha2x by done. rewrite (Hpart x y Hx), ekey_eq. split.
        * intros [? ?]. split; [done|]. intros [[[? _]|[? _]]|?]; done.
        * intros [? Hn]. split; [done|]. intros ?. apply Hn. by right. }
  split.
  { intros a b Hab. rewrite Hused in Hab.
    apply elem_of_cons in Hab as [Heq|Hab]; [|by apply Hedge].
    inversion Heq; subst. split; [done|]. by apply Hmir. }
  split.
  { rewrite Hused, fmap_cons. apply NoDup_cons. split; [|done].
    by rewrite ekey_swap. }
  split.
  { intros w Hw. destruct (Hstuck w Hw) as [Hwn Hwe]. split; [done|].
    rewrite Ha2x; [done| |].
    - intros ->. rewrite Hwe in Hvu. by apply elem_of_nil in Hvu.
    - intros ->. rewrite Hwe in Hu. by apply elem_of_nil in Hu. }
  split.
  { intros x Hx. specialize (Hpar x Hx). rewrite Hs in Hpar. simpl in Hpar.
    simpl.
    destruct (decide (x = u)) as [->|Hxu].
    - rewrite Ha2u, (odd_pred_length _ _ Hlen2), Hpar.
      rewrite (bool_decide_eq_false_2 (Some v = Some u)) by congruence.
      rewrite (bool_decide_eq_true_2 (Some u = Some u)) by done.
      by destruct (bool_decide _).
    - destruct (decide (x = v)) as [->|Hxv].
      + rewrite Ha2v, (odd_pred_length _ _ Hlen1), Hpar.
        rewrite (bool_decide_eq_true_2 (Some v = Some v)) by done.
        rewrite (bool_decide_eq_false_2 (Some u = Some v)) by congruence.
        by destruct (bool_decide _).
      + rewrite Ha2x by done. rewrite Hpar.
        rewrite (bool_decide_eq_false_2 (Some v = Some x)) by congruence.
        by rewrite (bool_decide_eq_false_2 (Some u = Some x)) by congruence. }
  split.
  { intros x Hx. apply elem_of_cons in Hx as [->|Hx]; [done|]. by apply Hrange. }
  split.
  { rewrite Hs. rewrite Hs in Hlast.
    rewrite last_app_cons in Hlast |- *. by rewrite last_cons_cons. }
  simpl. lia.
Qed.

Lemma hh_pop_used circ hi lo v below :
  hi ++ lo = v :: below -> (lo = [] -> hi = []) ->
  (circ <> [] -> hi <> [] -> head lo = Some v) ->
  hh_used (circ ++ [v]) [] below ≡ₚ hh_used circ hi lo.
Proof.
  intros Hstk Hlo Hanchor. unfold hh_used.
  rewrite (steps_short ([] ++ take 1 below))
    by (rewrite app_nil_l, length_take; lia).
  rewrite app_nil_r, <- app_assoc.
  change ([v] ++ below) with (v :: below).
  destruct hi as [|t hi'].
  - rewrite app_nil_l in Hstk. subst lo.
    change (take 1 (v :: below)) with [v]. rewrite app_nil_l.
    by rewrite (steps_short [v]), app_nil_r by (simpl; lia).
  - rewrite <- app_comm_cons in Hstk. inversion Hstk; subst t below.
    destruct lo as [|a lo']; [by specialize (Hlo eq_refl)|].
    change (take 1 (a :: lo')) with [a].
    destruct circ as [|c0 circ].
    + rewrite !app_nil_l, (app_comm_cons hi' (a :: lo') v).
      rewrite (steps_app (v :: hi') a lo'). apply Permutation_app_comm.
    + specialize (Hanchor ltac:(done) ltac:(done)). inversion Hanchor; subst a.
      rewrite (steps_app (c0 :: circ) v (hi' ++ v :: lo')).
      rewrite (steps_app (c0 :: circ) v lo').
      rewrite (app_comm_cons hi' (v :: lo') v).
      rewrite (steps_app (v :: hi') v lo'). rewrite <- !app_assoc.
      apply Permutation_app_head. apply Permutation_app_comm.
Qed.

Lemma hh_pop_inv g s0 e st v below :
  hh_inv g s0 e st ->
  hh_stack st = v :: below -> (v < num_vertices g)%nat ->
  last (hh_adj st !!! v) = None ->
  let st' := mkHh (hh_adj st) below
               (hh_circuit st ++ [to_int (Z.of_nat v)]) in
  hh_inv g s0 e st' /\ (hh_mu st' < hh_mu st)%nat.
Proof.
  intros (circ & hi & lo & Hcirc & Hstk & Hlo & Hlen & Hnd & Hpart & Hedge
          & Hkeys & Hstuck & Hpar & Hrange & Hlast & Hnum) Hs Hv Hl.
  apply last_None in Hl. cbn zeta.
  split; [|unfold hh_mu; rewrite Hs; simpl; lia].
  pose proof (Hpar v Hv) as Hpv. rewrite Hl, Hs in Hpv. simpl in Hpv.
  rewrite (bool_decide_eq_true_2 (Some v = Some v)) in Hpv by done.
  assert (Hanc : match circ with [] => Some e | _ :: _ => head lo end = Some v).
  { destruct (decide (match circ with [] => Some e | _ :: _ => head lo end
                      = Some v)) as [|Hne]; [done|].
    by rewrite (bool_decide_eq_false_2 _ Hne) in Hpv. }
  assert (Hused : hh_used (circ ++ [v]) [] below ≡ₚ hh_used circ hi lo).
  { apply (hh_pop_used circ hi lo v below); [by rewrite <- Hstk, Hs|done|].
    intros Hc _. by destruct circ. }
  exists (circ ++ [v]), [], below. cbn [hh_adj hh_stack hh_circuit].
  split; [by rewrite Hcirc, fmap_app|]. split; [done|]. split; [done|].
  split; [done|]. split; [done|]. split.
  { intros x y Hx. rewrite Hused. by apply Hpart. }
  split.
  { intros a b Hab. rewrite Hused in Hab. by apply Hedge. }
  split; [by rewrite Hused|]. split.
  { intros w Hw. apply elem_of_app in Hw as [Hw|Hw]; [by apply Hstuck|].
    apply list_elem_of_singleton in Hw. by subst. }
  split.
  { intros x Hx. specialize (Hpar x Hx). rewrite Hs in Hpar. simpl in Hpar.
    rewrite Hanc in Hpar. rewrite Hpar.
    replace (match circ ++ [v] with [] => Some e | _ :: _ => head below end)
      with (head below) by (by destruct circ).
    by rewrite !xorb_nilpotent. }
  split.
  { intros x Hx. apply Hrange. rewrite Hs. by right. }
  split.
  { rewrite Hs in Hlast. by rewrite <- app_assoc. }
  rewrite Hs in Hnum. rewrite length_app. simpl in *. lia.
Qed.

Lemma hh_step_spec g s0 e st :
  simple_graph g -> directed g = false -> (0 < num_vertices g)%nat ->
  hh_inv g s0 e st ->
  match hh_step g st with
  | inl st' => hh_inv g s0 e st' /\ (hh_mu st' < hh_mu st)%nat
  | inr None => (2 * num_vertices g < length (all_entries g))%nat
  | inr (Some circuit) =>
      exists circ, circuit = (fun v => to_int (Z.of_nat v)) <$> circ /\
        hh_final g s0 circ
  end.
Proof.
  intros Hsimple Hdir Hn Hinv. unfold hh_step.
  destruct (hh_stack st) as [|v below] eqn:Hs.
  { destruct Hinv as (circ & hi & lo & Hcirc & Hstk & Hlo & Hlen & Hnd & Hpart
                      & Hedge & Hkeys & Hstuck & Hpar & Hrange & Hlast & Hnum).
    rewrite Hs in Hstk. symmetry in Hstk.
    apply app_eq_nil in Hstk as [-> ->].
    unfold hh_used in *. rewrite app_nil_r in *. simpl in *.
    rewrite app_nil_r in *.
    exists circ. split; [done|]. split; [by rewrite Hs, app_nil_r in Hlast|].
    split; [done|]. split; [done|].
    intros w Hw. destruct (Hstuck w Hw) as [Hwn Hwe]. split; [done|].
    intros u Hu. destruct (decide (ekey (w, u) ∈ ekey <$> steps circ)); [done|].
    exfalso. assert (Hin : u ∈ hh_adj st !!! w) by (by apply Hpart).
    rewrite Hwe in Hin. by apply elem_of_nil in Hin. }
  assert (Hv : (v < num_vertices g)%nat).
  { destruct Hinv as (circ & hi & lo & _ & _ & _ & _ & _ & _ & _ & _ & _ & _
                      & Hrange & _).
    apply Hrange. rewrite Hs. by left. }
  destruct (Nat.leb_spec (num_vertices g) v) as [|_]; [lia|].
  destruct (last (hh_adj st !!! v)) as [u|] eqn:Hl.
  - rewrite Hdir.
    destruct (hh_push_inv g s0 e st v below u Hsimple Hinv Hs Hv Hl)
      as (Hun & Hinv' & Hmu & Hpos).
    destruct (Nat.leb_spec (num_vertices g) u) as [|_]; [lia|].
    rewrite Hs in Hinv', Hmu.
    destruct (Nat.leb_spec (num_vertices g + 1) (length (v :: below)))
      as [Hfull|_]; [|done].
    destruct Hinv as (circ & hi & lo & _ & _ & _ & _ & _ & _ & _ & _ & _ & _
                      & _ & _ & Hnum).
    rewrite Hs in Hnum. lia.
  - destruct (Nat.leb_spec (num_vertices g * num_vertices g + 1)
                (length (hh_circuit st))) as [Hfull|_].
    + destruct Hinv as (circ & hi & lo & Hcirc & _ & _ & _ & _ & _ & _ & _ & _
                        & _ & _ & _ & Hnum).
      rewrite Hcirc, length_fmap in Hfull. rewrite Hs in Hnum. simpl in Hnum.
      nia.
    + by apply hh_pop_inv.
Qed.

(** ** The whole run *)

Lemma hh_copy_lookup g v :
  (v < num_vertices g)%nat ->
  map (neighbors g) (seq 0 (num_vertices g)) !!! v = neighbors g v.
Proof.
  intros Hv. change (map (neighbors g)) with (fmap (M:=list) (neighbors g)).
  by rewrite list_lookup_total_alt, list_lookup_fmap, lookup_seq_lt.
Qed.

(** The vertices of odd degree are none, or the start the search uses
    and one more. *)
Lemma hh_odd_cases g start :
  wf_graph g -> directed g = false -> (start < num_vertices g)%nat ->
  length (hh_odd g) = 0%nat \/ length (hh_odd g) = 2%nat ->
  (hh_start g start < num_vertices g)%nat /\
  exists e, forall v, (v < num_vertices g)%nat ->
    Nat.odd (length (neighbors g v)) =
    xorb (bool_decide (Some e = Some v))
         (bool_decide (Some (hh_start g start) = Some v)).
Proof.
  intros Hwf Hdir Hstart Hcount.
  assert (Hdeg : forall v, (v < num_vertices g)%nat ->
            length (neighbors g v) = adj_size g !!! v).
  { intros v Hv. unfold neighbors. rewrite length_take_le; [done|].
    by apply wf_capacity. }
  assert (Hodd : forall v, (v < num_vertices g)%nat ->
            (v ∈ hh_odd g <-> Nat.odd (length (neighbors g v)) = true)).
  { intros v Hv. unfold hh_odd. rewrite Hdir, list_elem_of_filter, Hdeg by done.
    rewrite elem_of_seq. split; [tauto|]. intros ?. split; [done|lia]. }
  assert (Hndo : NoDup (hh_odd g)).
  { unfold hh_odd. rewrite Hdir. apply NoDup_filter, NoDup_seq. }
  assert (Hin : forall v, v ∈ hh_odd g -> (v < num_vertices g)%nat).
  { unfold hh_odd. rewrite Hdir. intros v [_ Hv%elem_of_seq]%list_elem_of_filter.
    lia. }
  unfold hh_start. destruct (hh_odd g) as [|a [|b [|c l]]]; simpl in Hcount;
    try lia.
  - split; [done|]. exists start. intros v Hv. rewrite xorb_nilpotent.
    destruct (Nat.odd (length (neighbors g v))) eqn:E; [|done].
    apply Hodd in E; [|done]. by apply elem_of_nil in E.
  - split; [apply Hin; by left|]. exists b. intros v Hv.
    apply NoDup_cons in Hndo as [Hab _].
    assert (a <> b) by (intros ->; apply Hab; by left).
    specialize (Hodd v Hv).
    destruct (decide (v = a)) as [->|Hva].
    + rewrite (bool_decide_eq_false_2 (Some b = Some a)) by congruence.
      rewrite (bool_decide_eq_true_2 (Some a = Some a)) by done.
      apply Hodd. by left.
    + destruct (decide (v = b)) as [->|Hvb].
      * rewrite (bool_decide_eq_true_2 (Some b = Some b)) by done.
        rewrite (bool_decide_eq_false_2 (Some a = Some b)) by congruence.
        apply Hodd. right. by left.
      * rewrite (bool_decide_eq_false_2 (Some b = Some v)) by congruence.
        rewrite (bool_decide_eq_false_2 (Some a = Some v)) by congruence.
        destruct (Nat.odd (length (neighbors g v))) eqn:E; [|done].
        exfalso. pose proof (proj2 Hodd eq_refl) as Hv2.
        apply elem_of_cons in Hv2 as [|Hv2]; [done|].
        by apply list_elem_of_singleton in Hv2.
Qed.

Lemma hh_initial g s0 e :
  (s0 < num_vertices g)%nat ->
  (forall v, (v < num_vertices g)%nat -> NoDup (neighbors g v)) ->
  (forall v, (v < num_vertices g)%nat ->
     Nat.odd (length (neighbors g v)) =
     xorb (bool_decide (Some e = Some v)) (bool_decide (Some s0 = Some v))) ->
  hh_inv g s0 e
    (mkHh (map (neighbors g) (seq 0 (num_vertices g))) [s0] []).
Proof.
  intros Hs0 Hnd Hpar. exists [], [], [s0]. cbn [hh_adj hh_stack hh_circuit].
  split; [done|]. split; [done|]. split; [done|].
  split; [by rewrite length_map, length_seq|]. split.
  { intros v Hv. rewrite hh_copy_lookup by done. by apply Hnd. }
  split.
  { intros v u Hv. rewrite hh_copy_lookup by done. unfold hh_used. simpl.
    split; [|tauto]. intros ?. split; [done|]. by intros ?%elem_of_nil. }
  split; [by intros a b ?%elem_of_nil|]. split; [apply NoDup_nil_2|].
  split; [by intros w ?%elem_of_nil|]. split.
  { intros v Hv. rewrite hh_copy_lookup by done. by apply Hpar. }
  split.
  { intros v Hv. apply list_elem_of_singleton in Hv. by subst. }
  split; [done|]. simpl. unfold all_entries. lia.
Qed.

(** The circuit, read backwards, is the trail. *)
Lemma hh_final_trail g s0 circ :
  valid_adjacency g -> mirrored g -> hh_final g s0 circ ->
  euler_trail g s0 (reverse circ).
Proof.
  intros Hval Hmir (Hlast & Hedge & Hkeys & Hfull).
  assert (Hs0 : s0 ∈ circ).
  { apply last_Some in Hlast as [l ->]. apply elem_of_app. right. by left. }
  assert (Hreach : forall a, rtc (edge g) s0 a -> a ∈ circ).
  { intros a Ha. apply (rtc_ind_r (R:=edge g) (fun v => v ∈ circ) s0);
      [done| |exact Ha].
    intros b c _ [Hbn Hbc] Hb.
    destruct (Hfull b Hb) as [_ Hall]. specialize (Hall c Hbc).
    apply list_elem_of_fmap in Hall as ([x y] & Hk & Hxy).
    apply elem_of_steps in Hxy as [Hx Hy].
    apply ekey_eq in Hk as [[_ ->]|[_ ->]]; done. }
  split; [by rewrite head_reverse|]. split.
  { intros a b Hab. apply (proj1 (steps_reverse a b circ)) in Hab.
    destruct (Hedge b a Hab) as [Hb Ha]. split; [by eapply Hval|].
    by apply Hmir. }
  split; [by rewrite ekey_steps_reverse, reverse_Permutation|].
  intros a b Ha Hb. rewrite ekey_steps_reverse, elem_of_reverse.
  by apply (Hfull a (Hreach a Ha)).
Qed.

Lemma hh_run g start :
  wf_graph g -> simple_graph g -> directed g = false ->
  (start < num_vertices g)%nat ->
  length (hh_odd g) = 0%nat \/ length (hh_odd g) = 2%nat ->
  exists r,
    while_fuel (hh_step g) (S (S (2 * length (all_entries g))))
      (mkHh (map (neighbors g) (seq 0 (num_vertices g)))
         [hh_start g start] []) = Some r /\
    match r with
    | None => (2 * num_vertices g < length (all_entries g))%nat
    | Some circuit =>
        exists circ, circuit = Z.of_nat <$> circ /\ (0 < length circ)%nat /\
          euler_trail g (hh_start g start) (reverse circ)
    end.
Proof.
  intros Hwf Hsimple Hdir Hstart Hcount.
  pose proof Hsimple as (Hval & Hmir & Hloop & Hnd).
  destruct (hh_odd_cases g start Hwf Hdir Hstart Hcount) as (Hs0 & e & Hpar).
  pose proof (hh_initial g (hh_start g start) e Hs0 Hnd Hpar) as Hinit.
  destruct (while_fuel_rule (hh_step g) (hh_inv g (hh_start g start) e) hh_mu
              (fun r => match r with
                | None => (2 * num_vertices g < length (all_entries g))%nat
                | Some circuit =>
                    exists circ,
                      circuit = (fun v => to_int (Z.of_nat v)) <$> circ /\
                      hh_final g (hh_start g start) circ
                end)
              (fun s Hs => hh_step_spec g (hh_start g start) e s Hsimple
                             Hdir ltac:(lia) Hs)
              (S (S (2 * length (all_entries g)))) _ Hinit)
    as (r & Hrun & Hr).
  { unfold hh_mu. cbn [hh_adj hh_stack]. unfold all_entries. simpl. lia. }
  exists r. split; [done|]. destruct r as [circuit|]; [|done].
  destruct Hr as (circ & -> & Hfinal).
  pose proof Hfinal as (Hlast & _ & _ & Hfull).
  exists circ. split; [|split].
  - apply list_fmap_ext. intros i w Hw.
    apply list_elem_of_lookup_2 in Hw. destruct (Hfull w Hw) as [Hwn _].
    apply to_int_small. pose proof (wf_count g Hwf).
    unfold GRAFO_MAX_VERTICES, INT_MAX in *. lia.
  - apply last_Some in Hlast as [l ->]. rewrite length_app. simpl. lia.
  - by apply hh_final_trail.
Qed.

Lemma hierholzer_undirected g start :
  wf_graph g -> simple_graph g -> directed g = false ->
  (start < num_vertices g)%nat ->
  exists r, hierholzer_eulerian_path true true g start = Some r /\
    match r with
    | HhFalse => length (hh_odd g) <> 0%nat /\ length (hh_odd g) <> 2%nat
    | HhOutOfBounds => (2 * num_vertices g < length (all_entries g))%nat
    | HhTrue out_path out_len =>
        exists t, out_path = Some (Z.of_nat <$> t) /\
          out_len = Z.of_nat (length t) /\
          euler_trail g (hh_start g start) t
    end.
Proof.
  intros Hwf Hsimple Hdir Hstart.
  unfold hierholzer_eulerian_path. cbn zeta.
  destruct (Nat.leb_spec (num_vertices g) start) as [|_]; [lia|].
  rewrite Hdir. cbn [negb andb].
  destruct (decide (length (hh_odd g) = 0%nat \/ length (hh_odd g) = 2%nat))
    as [Hcount|Hcount].
  - replace (negb (length (hh_odd g) =? 0)%nat
             && negb (length (hh_odd g) =? 2)%nat) with false.
    2:{ destruct Hcount as [->| ->]; done. }
    cbn [negb].
    destruct (hh_run g start Hwf Hsimple Hdir Hstart Hcount) as (r & -> & Hr).
    destruct r as [circuit|]; [|by exists HhOutOfBounds].
    destruct Hr as (circ & -> & Hpos & Htrail).
    rewrite length_fmap.
    destruct (Nat.ltb_spec 0 (length circ)) as [_|]; [|lia].
    eexists. split; [done|]. exists (reverse circ).
    split; [by rewrite fmap_reverse|]. split; [by rewrite length_reverse|done].
  - replace (negb (length (hh_odd g) =? 0)%nat
             && negb (length (hh_odd g) =? 2)%nat) with true.
    2:{ destruct (Nat.eqb_spec (length (hh_odd g)) 0);
          destruct (Nat.eqb_spec (length (hh_odd g)) 2); simpl; tauto. }
    exists HhFalse. split; [done|]. tauto.
Qed.



(** On the 4-cycle the circuit is returned; on the path on four
    vertices the search starts at the first end whatever [start] is; on
    the bow tie, which has an Eulerian circuit of seven vertices, the
    sixth push leaves the six slots of [stack]; on a directed graph the
    result need not follow adjacency entries. *)
Example hierholzer_scenario :
  hierholzer_eulerian_path true true g_cycle4 1
    = Some (HhTrue (Some [1; 2; 3; 0; 1]) 5) /\
  hierholzer_eulerian_path true true g_path4 2
    = Some (HhTrue (Some [0; 1; 2; 3]) 4) /\
  hierholzer_eulerian_path true true g_bowtie 0 = Some HhOutOfBounds /\
  hierholzer_eulerian_path true true g_fork 0
    = Some (HhTrue (Some [0; 1; 2]) 3).
Proof.
  by vm_compute.
Qed.


(** * Bridges and articulation points *)

(** ** The forest of a finished search *)

Section forest.
Variable g : Graph.
Variable st : ba_state.
Hypothesis Hsimple : simple_graph g.
Hypothesis Hinv : ba_inv g st [] [].
Hypothesis Hall :
  forall x, (x < num_vertices g)%nat -> ba_visited st !!! x = true.

Lemma forest_up z p :
  ba_up (num_vertices g) st z p ->
  (z < num_vertices g)%nat /\ (p < num_vertices g)%nat /\
  z ∈ neighbors g p /\ p ∈ neighbors g z /\
  ba_num st !!! p < ba_num st !!! z.
Proof.
  intros Hup. pose proof Hup as [Hz _].
  destruct Hinv as (_ & _ & _ & _ & _ & HT1 & _).
  destruct (HT1 z p Hup) as (Hp & _ & Hzp & Hlt).
  destruct Hsimple as (_ & Hmir & _).
  split; [done|]. split; [done|]. split; [done|]. split; [|done].
  by apply (Hmir p z).
Qed.

Lemma forest_up_fun z p p' :
  ba_up (num_vertices g) st z p -> ba_up (num_vertices g) st z p' -> p = p'.
Proof.
  intros [_ H1] [_ H2]. rewrite H1 in H2. lia.
Qed.

Lemma forest_chain z x y :
  rtc (ba_up (num_vertices g) st) z x -> rtc (ba_up (num_vertices g) st) z y ->
  rtc (ba_up (num_vertices g) st) x y \/ rtc (ba_up (num_vertices g) st) y x.
Proof.
  intros Hx. revert y. induction Hx as [z|z p x Hzp Hpx IH]; intros y Hy.
  - by left.
  - inversion Hy as [|? p' ? Hzp' Hpy]; subst.
    + right. by eapply rtc_l.
    + rewrite <- (forest_up_fun _ _ _ Hzp Hzp') in Hpy. by apply IH.
Qed.

Lemma forest_num z x :
  rtc (ba_up (num_vertices g) st) z x ->
  ba_num st !!! x <= ba_num st !!! z /\
  (z <> x -> ba_num st !!! x < ba_num st !!! z).
Proof.
  induction 1 as [z|z p x Hzp Hpx [IH _]].
  - split; [lia|done].
  - destruct (forest_up z p Hzp) as (_ & _ & _ & _ & Hlt). lia.
Qed.

Lemma forest_range z x :
  rtc (ba_up (num_vertices g) st) z x -> (z < num_vertices g)%nat ->
  (x < num_vertices g)%nat.
Proof.
  induction 1 as [z|z p x Hzp Hpx IH]; [done|]. intros _.
  apply IH. by destruct (forest_up z p Hzp) as (_ & ? & _).
Qed.

(** The path along the parent pointers avoids every vertex that is not
    on it. *)
Lemma forest_path w z x :
  rtc (ba_up (num_vertices g) st) z x ->
  (forall c, rtc (ba_up (num_vertices g) st) z c ->
     rtc (ba_up (num_vertices g) st) c x -> c <> w) ->
  rtc (edge_avoiding g w) z x /\ rtc (edge_avoiding g w) x z.
Proof.
  induction 1 as [z|z p x Hzp Hpx IH]; intros Hav; [done|].
  destruct (forest_up z p Hzp) as (Hz & Hp & Hzin & Hpin & _).
  assert (Hzw : z <> w).
  { apply Hav; [done|]. by eapply rtc_l. }
  assert (Hpw : p <> w).
  { apply Hav; [by apply rtc_once|done]. }
  destruct IH as [IH1 IH2].
  { intros c Hc1 Hc2. apply Hav; [|done]. by eapply rtc_l. }
  split.
  - eapply rtc_l; [|exact IH1]. by split.
  - eapply rtc_r; [exact IH2|]. by split.
Qed.

Lemma forest_adjacent z y :
  (z < num_vertices g)%nat -> y ∈ neighbors g z ->
  ba_desc (num_vertices g) st y z \/ ba_desc (num_vertices g) st z y.
Proof.
  intros Hz Hy. destruct Hinv as (_ & _ & _ & _ & _ & _ & HT2 & _).
  destruct Hsimple as (Hval & _).
  apply HT2; [done|by apply Hall| |done].
  apply Hall. by eapply Hval.
Qed.

Lemma forest_low x :
  (x < num_vertices g)%nat -> ba_low_ok g st x.
Proof.
  intros Hx.
  destruct Hinv as (_ & _ & _ & _ & _ & _ & _ & _ & _ & _ & _ & HL & _).
  apply HL; [done|by apply Hall|]. by intros ?%elem_of_nil.
Qed.

(** *** Bridges *)

Lemma avoiding_without_l a b x y :
  edge_avoiding g a x y -> edge_without g a b x y.
Proof.
  intros (He & Hx & Hy). split; [done|]. split; intros [? ?]; congruence.
Qed.

Lemma avoiding_without_r a b x y :
  edge_avoiding g b x y -> edge_without g a b x y.
Proof.
  intros (He & Hx & Hy). split; [done|]. split; intros [? ?]; congruence.
Qed.

Lemma edge_without_sym a b x y :
  edge_without g a b x y -> edge_without g a b y x.
Proof.
  intros ([Hx Hy] & H1 & H2). destruct Hsimple as (Hval & Hmir & _).
  split; [|split; intros [? ?]; [apply H2|apply H1]; done].
  split; [by eapply Hval|]. by apply Hmir.
Qed.

Lemma rtc_edge_without_sym a b x y :
  rtc (edge_without g a b) x y -> rtc (edge_without g a b) y x.
Proof.
  induction 1 as [x|x z y Hxz Hzy IH]; [done|].
  eapply rtc_r; [exact IH|]. by apply edge_without_sym.
Qed.

Lemma bridge_sound a b :
  ba_up (num_vertices g) st b a -> ba_num st !!! a < ba_low st !!! b ->
  is_bridge g a b.
Proof.
  intros Hba Hlow.
  destruct (forest_up b a Hba) as (Hb & Ha & Hbin & Hain & Hnum).
  split; [by split|]. intros Hpath.
  assert (Hclosed : forall y z, edge_without g a b y z ->
            ba_desc (num_vertices g) st b z -> ba_desc (num_vertices g) st b y).
  { intros y z ([Hy Hz] & Hn1 & Hn2) Hzb. unfold ba_desc in *.
    assert (Hyz : y ∈ neighbors g z).
    { destruct Hsimple as (_ & Hmir & _). by apply Hmir. }
    assert (Hzn : (z < num_vertices g)%nat).
    { destruct Hsimple as (Hval & _). by eapply Hval. }
    destruct (forest_adjacent z y Hzn Hyz) as [Hd|Hd]; unfold ba_desc in Hd.
    2:{ by etrans. }
    destruct (forest_chain z y b Hd Hzb) as [Hyb|Hby]; [done|].
    destruct (decide (y = b)) as [->|Hne]; [done|].
    inversion Hby as [|? a' ? Hba' Hay]; subst; [done|].
    rewrite <- (forest_up_fun _ _ _ Hba Hba') in Hay.
    destruct (decide (ba_parent st !!! z = Z.of_nat y)) as [Hpz|Hpz].
    - assert (Hup : ba_up (num_vertices g) st z y) by done.
      inversion Hzb as [|? p ? Hzp Hpb]; subst.
      + pose proof (forest_up_fun _ _ _ Hba Hup). subst y. tauto.
      + by rewrite (forest_up_fun _ _ _ Hup Hzp).
    - exfalso. destruct (forest_low b Hb) as [HL1 _].
      destruct (HL1 z Hzb) as [_ HL1z].
      assert (Hle : ba_low st !!! b <= ba_num st !!! y).
      { apply HL1z; [done| |by intros [_ ?]].
        destruct (decide (z = b)) as [->|]; [right; done|by left]. }
      destruct (forest_num a y Hay) as [Hya _]. lia. }
  assert (Hab : ba_desc (num_vertices g) st b a).
  { apply (rtc_ind_l (R:=edge_without g a b)
             (fun x => ba_desc (num_vertices g) st b x) b);
      [apply rtc_refl| |exact Hpath].
    intros x y Hxy _ IH. by apply (Hclosed x y Hxy). }
  destruct (forest_num a b Hab) as [Hle _]. lia.
Qed.
Lemma forest_below z x :
  rtc (ba_up (num_vertices g) st) z x -> (x < num_vertices g)%nat ->
  (z < num_vertices g)%nat.
Proof.
  intros Hzx Hx. inversion Hzx as [|? p ? [Hz _] _]; by subst.
Qed.

Lemma bridge_complete a b :
  is_bridge g a b -> rtc (ba_up (num_vertices g) st) b a ->
  ba_up (num_vertices g) st b a /\ ba_num st !!! a < ba_low st !!! b.
Proof.
  intros [[Ha Hbin] Hno] Hba.
  pose proof Hsimple as (Hval & Hmir & Hloop & _).
  assert (Hne : b <> a) by (intros ->; by apply (Hloop a)).
  assert (Hb : (b < num_vertices g)%nat) by (by eapply Hval).
  inversion Hba as [|? p ? Hbp Hpa]; subst; [done|].
  destruct (forest_up b p Hbp) as (_ & Hp & Hbinp & Hpin & Hnum).
  destruct (decide (p = a)) as [->|Hpa'].
  - split; [done|].
    destruct (decide (ba_num st !!! a < ba_low st !!! b)) as [|Hge]; [done|].
    exfalso. apply Hno.
    destruct (forest_low b Hb) as [_ (z & Hzb & HL2)]. unfold ba_desc in Hzb.
    destruct (forest_num z b Hzb) as [Hbz _].
    destruct HL2 as [Hlz|(y & Hy & _ & Hnup & Hly)]; [lia|].
    assert (Hz : (z < num_vertices g)%nat) by (by eapply forest_below).
    assert (Hyn : (y < num_vertices g)%nat) by (by eapply Hval).
    assert (Hby : rtc (ba_up (num_vertices g) st) b y).
    { destruct (forest_adjacent z y Hz Hy) as [Hd|Hd]; unfold ba_desc in Hd.
      - destruct (forest_chain z y b Hd Hzb) as [Hyb|]; [|done].
        destruct (forest_num y b Hyb) as [? _]. lia.
      - assert (Hyb : rtc (ba_up (num_vertices g) st) y b) by (by etrans).
        destruct (forest_num y b Hyb) as [? _]. lia. }
    assert (Hyb : y <> b) by (intros ->; lia).
    inversion Hby as [|? a' ? Hba' Hay]; subst; [done|].
    rewrite <- (forest_up_fun _ _ _ Hbp Hba') in Hay.
    destruct (forest_path b a y Hay) as [Hp1 _].
    { intros c Hc _ ->. destruct (forest_num a b Hc) as [? _]. lia. }
    destruct (forest_path a z b Hzb) as [Hp2 _].
    { intros c _ Hc ->. destruct (forest_num a b Hc) as [? _]. lia. }
    etrans.
    { eapply rtc_subrel; [|exact Hp1]. intros ? ?. apply avoiding_without_r. }
    apply (rtc_l _ _ z).
    { split; [split; [done|by apply Hmir]|].
      split; [|by intros [? ?]].
      intros [-> ->]. apply Hnup. done. }
    eapply rtc_subrel; [|exact Hp2]. intros ? ?. apply avoiding_without_l.
  - exfalso. apply Hno. apply rtc_edge_without_sym.
    destruct (forest_path b p a Hpa) as [Hp1 _].
    { intros c Hc _ ->. destruct (forest_num p b Hc) as [? _]. lia. }
    apply (rtc_l _ _ p).
    { split; [by split|]. split; intros [? ?]; done. }
    eapply rtc_subrel; [|exact Hp1]. intros ? ?. apply avoiding_without_r.
Qed.

Lemma is_bridge_sym a b : is_bridge g a b -> is_bridge g b a.
Proof.
  intros [[Ha Hb] Hno]. destruct Hsimple as (Hval & Hmir & _).
  split; [split; [by eapply Hval|by apply Hmir]|].
  intros Hpath. apply Hno. apply rtc_edge_without_sym.
  eapply rtc_subrel; [|exact Hpath].
  intros x y (He & H1 & H2). by split.
Qed.

(** The list the search leaves holds every bridge once, from the
    parent to the child, and nothing else. *)
Lemma forest_bridges :
  NoDup (ba_bridges st) /\
  (forall a b, mkEdge a b ∈ ba_bridges st ->
     is_bridge g a b /\ mkEdge b a ∉ ba_bridges st) /\
  (forall a b, is_bridge g a b ->
     mkEdge a b ∈ ba_bridges st \/ mkEdge b a ∈ ba_bridges st).
Proof.
  destruct Hinv as (_ & _ & _ & _ & _ & _ & _ & _ & _ & _ & _ & _ & _ & HB & HN).
  split; [by apply (NoDup_fmap_1 v2)|]. split.
  - intros a b Hab. apply HB in Hab as (Hb & _ & _ & Hup & Hlow).
    split; [by apply bridge_sound|].
    intros Hba. apply HB in Hba as (_ & _ & _ & Hup' & _).
    destruct (forest_up b a Hup) as (_ & _ & _ & _ & ?).
    destruct (forest_up a b Hup') as (_ & _ & _ & _ & ?). lia.
  - intros a b Hbr. pose proof Hbr as [[Ha Hbin] _].
    assert (Hb : (b < num_vertices g)%nat).
    { destruct Hsimple as (Hval & _). by eapply Hval. }
    destruct (forest_adjacent a b Ha Hbin) as [Hd|Hd]; unfold ba_desc in Hd.
    + right. destruct (bridge_complete b a (is_bridge_sym a b Hbr) Hd)
        as [Hup Hlow].
      apply HB. split; [done|]. split; [by apply Hall|].
      split; [by intros ?%elem_of_nil|done].
    + left. destruct (bridge_complete a b Hbr Hd) as [Hup Hlow].
      apply HB. split; [done|]. split; [by apply Hall|].
      split; [by intros ?%elem_of_nil|done].
Qed.
(** *** Cut vertices *)

Lemma edge_avoiding_sym w x y :
  edge_avoiding g w x y -> edge_avoiding g w y x.
Proof.
  intros ([Hx Hy] & H1 & H2). destruct Hsimple as (Hval & Hmir & _).
  split; [|done]. split; [by eapply Hval|]. by apply Hmir.
Qed.

Lemma rtc_edge_avoiding_sym w x y :
  rtc (edge_avoiding g w) x y -> rtc (edge_avoiding g w) y x.
Proof.
  induction 1 as [x|x z y Hxz Hzy IH]; [done|].
  eapply rtc_r; [exact IH|]. by apply edge_avoiding_sym.
Qed.

Lemma forest_parent x :
  (x < num_vertices g)%nat ->
  ba_parent st !!! x = -1 \/ exists p, ba_up (num_vertices g) st x p.
Proof.
  intros Hx. destruct Hinv as (_ & _ & Hpar & _).
  destruct (Hpar x Hx) as [?|[p Hp]]; [by left|right]. by exists p.
Qed.

Lemma forest_root_top r x :
  ba_parent st !!! r = -1 -> rtc (ba_up (num_vertices g) st) r x -> x = r.
Proof.
  intros Hr Hrx. inversion Hrx as [|? p ? [_ Hp] _]; subst; [done|]. lia.
Qed.

Lemma forest_num_nonneg x :
  (x < num_vertices g)%nat -> 0 <= ba_num st !!! x.
Proof.
  intros Hx. destruct Hinv as (_ & _ & _ & _ & Hnum & _).
  apply Hnum; [done|by apply Hall].
Qed.

(** Every vertex lies below a root. *)
Lemma forest_root x :
  (x < num_vertices g)%nat ->
  exists r, rtc (ba_up (num_vertices g) st) x r /\ ba_parent st !!! r = -1.
Proof.
  remember (Z.to_nat (ba_num st !!! x)) as k eqn:Hk.
  revert x Hk. induction k as [k IH] using lt_wf_ind. intros x Hk Hx.
  destruct (forest_parent x Hx) as [Hr|[p Hp]]; [by exists x|].
  destruct (forest_up x p Hp) as (_ & Hpn & _ & _ & Hlt).
  pose proof (forest_num_nonneg p Hpn).
  destruct (IH (Z.to_nat (ba_num st !!! p)) ltac:(lia) p eq_refl Hpn)
    as (r & Hpr & Hr).
  exists r. split; [by eapply rtc_l|done].
Qed.

Lemma forest_desc_dec x w :
  (x < num_vertices g)%nat ->
  rtc (ba_up (num_vertices g) st) x w \/
  ~ rtc (ba_up (num_vertices g) st) x w.
Proof.
  remember (Z.to_nat (ba_num st !!! x)) as k eqn:Hk.
  revert x Hk. induction k as [k IH] using lt_wf_ind. intros x Hk Hx.
  destruct (decide (x = w)) as [->|Hne]; [by left|].
  destruct (forest_parent x Hx) as [Hr|[p Hp]].
  { right. intros Hxw. by apply (forest_root_top x w Hr) in Hxw. }
  destruct (forest_up x p Hp) as (_ & Hpn & _ & _ & Hlt).
  pose proof (forest_num_nonneg p Hpn).
  destruct (IH (Z.to_nat (ba_num st !!! p)) ltac:(lia) p eq_refl Hpn)
    as [Hpw|Hpw].
  - left. by eapply rtc_l.
  - right. intros Hxw. inversion Hxw as [|? p' ? Hp' Hp'w]; subst; [done|].
    by rewrite <- (forest_up_fun _ _ _ Hp Hp') in Hp'w.
Qed.

(** Adjacent vertices lie below the same root. *)
Lemma forest_component r x y :
  ba_parent st !!! r = -1 -> rtc (edge g) x y ->
  rtc (ba_up (num_vertices g) st) x r -> rtc (ba_up (num_vertices g) st) y r.
Proof.
  intros Hr Hxy. induction Hxy as [x|x z y [Hx Hz] Hzy IH]; [done|].
  intros Hxr. apply IH.
  destruct (forest_adjacent x z Hx Hz) as [Hd|Hd]; unfold ba_desc in Hd.
  - destruct (forest_chain x z r Hd Hxr) as [|Hrz]; [done|].
    by rewrite (forest_root_top r z Hr Hrz).
  - by etrans.
Qed.

(** The vertex through which a set of vertices below [v] can be left
    only by an entry to [w] or above [w]. *)
Lemma forest_subtree_closed w v :
  ba_up (num_vertices g) st v w ->
  (forall y z, ba_desc (num_vertices g) st v y -> z ∈ neighbors g y ->
     ~ ba_up (num_vertices g) st y z ->
     rtc (ba_up (num_vertices g) st) w z -> z <> w -> False) ->
  forall y z, edge_avoiding g w y z ->
    ba_desc (num_vertices g) st v y -> ba_desc (num_vertices g) st v z.
Proof.
  intros Hvw Hlow y z ([Hy Hz] & Hyw & Hzw) Hyv. unfold ba_desc in *.
  destruct (forest_adjacent y z Hy Hz) as [Hd|Hd]; unfold ba_desc in Hd.
  2:{ by etrans. }
  destruct (forest_chain y z v Hd Hyv) as [|Hvz]; [done|].
  destruct (decide (z = v)) as [->|Hne]; [done|].
  inversion Hvz as [|? w' ? Hvw' Hwz]; subst; [done|].
  rewrite <- (forest_up_fun _ _ _ Hvw Hvw') in Hwz.
  destruct (decide (ba_parent st !!! y = Z.of_nat z)) as [Hpy|Hpy].
  - assert (Hup : ba_up (num_vertices g) st y z) by done.
    inversion Hyv as [|? p ? Hyp Hpv]; subst.
    + by pose proof (forest_up_fun _ _ _ Hvw Hup).
    + by rewrite (forest_up_fun _ _ _ Hup Hyp).
  - exfalso. apply (Hlow y z); try done. by intros [_ ?].
Qed.

Lemma cut_vertex_inner w p v :
  ba_up (num_vertices g) st w p -> ba_up (num_vertices g) st v w ->
  ba_num st !!! w <= ba_low st !!! v ->
  is_cut_vertex g w.
Proof.
  intros Hwp Hvw Hlow.
  destruct (forest_up w p Hwp) as (Hw & Hp & Hwin & Hpin & Hnum1).
  destruct (forest_up v w Hvw) as (Hv & _ & Hvin & Hwin' & Hnum2).
  exists v, p. split; [intros ->; lia|]. split; [intros ->; lia|]. split.
  { apply (rtc_l _ _ w); [by split|]. apply rtc_once. by split. }
  intros Hpath.
  assert (Hpv : ba_desc (num_vertices g) st v p).
  { apply (rtc_ind_r (R:=edge_avoiding g w)
             (fun z => ba_desc (num_vertices g) st v z) v);
      [apply rtc_refl| |exact Hpath].
    intros y z _ Hyz IH. revert y z Hyz IH.
    apply (forest_subtree_closed w v Hvw).
    intros y z Hyv Hz Hnup Hwz Hzw.
    destruct (forest_low v Hv) as [HL1 _].
    destruct (HL1 y Hyv) as [_ HL1y].
    assert (Hle : ba_low st !!! v <= ba_num st !!! z).
    { apply HL1y; [done| |done].
      destruct (decide (y = v)) as [->|]; [by right|by left]. }
    destruct (forest_num w z Hwz) as [_ Hlt]. specialize (Hlt ltac:(done)).
    lia. }
  destruct (forest_num p v Hpv) as [? _]. lia.
Qed.

Lemma cut_vertex_root w v1 v2 :
  ba_parent st !!! w = -1 -> v1 <> v2 ->
  ba_up (num_vertices g) st v1 w -> ba_up (num_vertices g) st v2 w ->
  is_cut_vertex g w.
Proof.
  intros Hroot Hne H1 H2.
  destruct (forest_up v1 w H1) as (Hv1 & Hw & Hv1in & Hwin1 & Hnum1).
  destruct (forest_up v2 w H2) as (Hv2 & _ & Hv2in & Hwin2 & Hnum2).
  exists v1, v2. split; [intros ->; lia|]. split; [intros ->; lia|]. split.
  { apply (rtc_l _ _ w); [by split|]. apply rtc_once. by split. }
  intros Hpath.
  assert (Hv : ba_desc (num_vertices g) st v1 v2).
  { apply (rtc_ind_r (R:=edge_avoiding g w)
             (fun z => ba_desc (num_vertices g) st v1 z) v1);
      [apply rtc_refl| |exact Hpath].
    intros y z _ Hyz IH. revert y z Hyz IH.
    apply (forest_subtree_closed w v1 H1).
    intros y z _ _ _ Hwz Hzw. by apply (forest_root_top w z Hroot) in Hwz. }
  unfold ba_desc in Hv.
  inversion Hv as [|? w' ? H2' Hw1]; subst; [done|].
  rewrite <- (forest_up_fun _ _ _ H2 H2') in Hw1.
  apply (forest_root_top w v1 Hroot) in Hw1. subst v1. lia.
Qed.
Lemma forest_child x w :
  rtc (ba_up (num_vertices g) st) x w -> x <> w ->
  exists v, rtc (ba_up (num_vertices g) st) x v /\
    ba_up (num_vertices g) st v w.
Proof.
  intros Hxw Hne. apply rtc_inv_r in Hxw as [|(v & ? & ?)]; [done|].
  by exists v.
Qed.

Lemma connected_below w v x :
  ba_up (num_vertices g) st v w -> rtc (ba_up (num_vertices g) st) x v ->
  x <> w /\ rtc (edge_avoiding g w) x v /\ rtc (edge_avoiding g w) v x.
Proof.
  intros Hvw Hxv.
  destruct (forest_up v w Hvw) as (_ & _ & _ & _ & Hlt).
  assert (Hc : forall c, rtc (ba_up (num_vertices g) st) c v -> c <> w).
  { intros c Hcv ->. destruct (forest_num w v Hcv) as [? _]. lia. }
  split; [by apply Hc|]. apply forest_path; [done|].
  intros c _ Hcv. by apply Hc.
Qed.

Lemma connected_outside w x r :
  rtc (ba_up (num_vertices g) st) x r ->
  ~ rtc (ba_up (num_vertices g) st) x w ->
  rtc (edge_avoiding g w) x r /\ rtc (edge_avoiding g w) r x.
Proof.
  intros Hxr Hnot. apply forest_path; [done|].
  intros c Hxc _ ->. done.
Qed.

(** Below a vertex that is no root and has no child [v] with
    [dfs_low[v] >= dfs_num[w]], every vertex is joined to the parent of
    [w] without passing [w]. *)
Lemma connected_to_parent w p r x :
  ba_up (num_vertices g) st w p ->
  rtc (ba_up (num_vertices g) st) w r -> ba_parent st !!! r = -1 ->
  (forall v, ba_up (num_vertices g) st v w ->
     ba_low st !!! v < ba_num st !!! w) ->
  (x < num_vertices g)%nat -> x <> w ->
  rtc (ba_up (num_vertices g) st) x r ->
  rtc (edge_avoiding g w) x p.
Proof.
  intros Hwp Hwr Hr Hlow Hx Hxw Hxr.
  destruct (forest_up w p Hwp) as (Hw & Hp & _ & _ & Hnum).
  pose proof Hsimple as (Hval & Hmir & _).
  assert (Hpr : rtc (ba_up (num_vertices g) st) p r).
  { inversion Hwr as [|? p' ? Hwp' Hp'r]; subst.
    - destruct Hwp as [_ Hwp]. lia.
    - by rewrite (forest_up_fun _ _ _ Hwp Hwp'). }
  assert (Hrp : rtc (edge_avoiding g w) r p).
  { apply (connected_outside w p r Hpr).
    intros Hpw. destruct (forest_num p w Hpw) as [? _]. lia. }
  assert (Hout : forall y, rtc (ba_up (num_vertices g) st) y r ->
            ~ rtc (ba_up (num_vertices g) st) y w ->
            rtc (edge_avoiding g w) y p).
  { intros y Hyr Hyw. etrans; [|exact Hrp].
    by apply (connected_outside w y r). }
  destruct (forest_desc_dec x w Hx) as [Hbelow|Hnot]; [|by apply Hout].
  destruct (forest_child x w Hbelow Hxw) as (v & Hxv & Hvw).
  destruct (forest_up v w Hvw) as (Hv & _ & _ & _ & Hnumv).
  specialize (Hlow v Hvw).
  destruct (forest_low v Hv) as [_ (z & Hzv & HL2)]. unfold ba_desc in Hzv.
  destruct (forest_num z v Hzv) as [Hvz _].
  destruct HL2 as [Hlz|(y & Hy & _ & Hnup & Hly)]; [lia|].
  destruct (connected_below w v x Hvw Hxv) as (_ & Hp1 & _).
  destruct (connected_below w v z Hvw Hzv) as (Hzw & _ & Hp2).
  assert (Hz : (z < num_vertices g)%nat) by (by eapply forest_below).
  assert (Hyw : y <> w) by (intros ->; lia).
  assert (Hzr : rtc (ba_up (num_vertices g) st) z r).
  { etrans; [exact Hzv|]. eapply rtc_l; [exact Hvw|exact Hwr]. }
  assert (Hyr : rtc (ba_up (num_vertices g) st) y r).
  { apply (forest_component r z y Hr); [|done]. apply rtc_once. by split. }
  etrans; [exact Hp1|]. etrans; [exact Hp2|].
  apply (rtc_l _ _ y); [by split|].
  apply Hout; [done|].
  intros Hbw. destruct (forest_num y w Hbw) as [? _]. lia.
Qed.

Lemma cut_vertex_complete w :
  (w < num_vertices g)%nat ->
  ~ ((ba_parent st !!! w <> -1 /\
      exists v, ba_up (num_vertices g) st v w /\
        ba_num st !!! w <= ba_low st !!! v) \/
     (ba_parent st !!! w = -1 /\
      exists v1 v2, v1 <> v2 /\ ba_up (num_vertices g) st v1 w /\
        ba_up (num_vertices g) st v2 w)) ->
  forall a b, rtc (edge g) a b -> a <> w -> b <> w ->
    rtc (edge_avoiding g w) a b.
Proof.
  intros Hw Hcrit.
  pose proof Hsimple as (Hval & Hmir & _).
  destruct (forest_root w Hw) as (r & Hwr & Hr).
  assert (Hpair : forall x x', rtc (edge g) w x -> rtc (edge g) w x' ->
            x <> w -> x' <> w -> rtc (edge_avoiding g w) x x').
  { intros x x' Hwx Hwx' Hxw Hx'w.
    pose proof (forest_component r w x Hr Hwx Hwr) as Hxr.
    pose proof (forest_component r w x' Hr Hwx' Hwr) as Hx'r.
    assert (Hx : (x < num_vertices g)%nat).
    { apply rtc_inv_r in Hwx as [|(y & _ & [Hy Hyx])]; [done|].
      exact (Hval y x Hy Hyx). }
    assert (Hx' : (x' < num_vertices g)%nat).
    { apply rtc_inv_r in Hwx' as [|(y & _ & [Hy Hyx])]; [done|].
      exact (Hval y x' Hy Hyx). }
    destruct (forest_parent w Hw) as [Hroot|[p Hwp]].
    - assert (r = w) as -> by (by apply (forest_root_top w r Hroot)).
      destruct (forest_child x w Hxr Hxw) as (v & Hxv & Hvw).
      destruct (forest_child x' w Hx'r Hx'w) as (v' & Hx'v & Hv'w).
      destruct (decide (v = v')) as [<-|Hne].
      + destruct (connected_below w v x Hvw Hxv) as (_ & Hp1 & _).
        destruct (connected_below w v x' Hvw Hx'v) as (_ & _ & Hp2).
        by etrans.
      + exfalso. apply Hcrit. right. split; [done|]. by exists v, v'.
    - assert (Hlow : forall v, ba_up (num_vertices g) st v w ->
                ba_low st !!! v < ba_num st !!! w).
      { intros v Hvw.
        destruct (decide (ba_low st !!! v < ba_num st !!! w)); [done|].
        exfalso. apply Hcrit. left. split.
        - destruct Hwp as [_ ->]. lia.
        - exists v. split; [done|lia]. }
      etrans.
      + by apply (connected_to_parent w p r x).
      + apply rtc_edge_avoiding_sym. by apply (connected_to_parent w p r x'). }
  intros a b Hab. induction Hab as [a|a c b [Ha Hc] Hcb IH]; [done|].
  intros Haw Hbw. destruct (decide (c = w)) as [->|Hcw].
  - apply Hpair; try done. apply rtc_once. split; [done|]. by apply Hmir.
  - apply (rtc_l _ _ c); [by split|]. by apply IH.
Qed.

(** The flags the search leaves mark the cut vertices. *)
Lemma forest_artics w :
  (w < num_vertices g)%nat /\ ba_artic st !!! w = true <-> is_cut_vertex g w.
Proof.
  destruct Hinv as (_ & _ & _ & _ & _ & _ & _ & _ & _ & _ & _ & _ & HA & _).
  split.
  - intros [Hw Hflag].
    apply (HA w Hw (Hall w Hw) ltac:(by intros ?%elem_of_nil)) in Hflag.
    destruct Hflag as [[Hpar (v & Hvw & Hlow)]|[Hroot (v1 & v2 & ? & ? & ?)]].
    + destruct (forest_parent w Hw) as [|[p Hwp]]; [done|].
      by apply (cut_vertex_inner w p v).
    + by apply (cut_vertex_root w v1 v2).
  - intros (a & b & Haw & Hbw & Hab & Hno).
    assert (Hw : (w < num_vertices g)%nat).
    { destruct (decide (w < num_vertices g)%nat) as [|Hge]; [done|].
      exfalso. apply Hno. clear Hno.
      induction Hab as [a|a c b [Ha Hc] Hcb IH]; [done|].
      assert (Hcn : (c < num_vertices g)%nat).
      { destruct Hsimple as (Hval & _). by eapply Hval. }
      apply (rtc_l _ _ c); [split; [by split|lia]|].
      apply IH; [lia|done]. }
    split; [done|].
    destruct (ba_artic st !!! w) eqn:Hflag; [done|]. exfalso. apply Hno.
    apply (cut_vertex_complete w Hw); try done.
    intros Hcrit.
    apply (HA w Hw (Hall w Hw) ltac:(by intros ?%elem_of_nil)) in Hcrit.
    congruence.
Qed.
End forest.


(** ** The search step by step *)

Ltac ba_destruct H :=
  destruct H as (Hsh & Ht0 & Hdich & HT0 & Hnum0 & HT1 & HT2 & Hndo & HO & Hch
                 & HC & HL & HA & HB & HNB).

(** *** The calls in progress *)

Lemma chain_ext st st' p open :
  (forall s, s ∈ open -> ba_parent st' !!! s = ba_parent st !!! s) ->
  ba_chain st p open -> ba_chain st' p open.
Proof.
  revert p. induction open as [|s open IH]; intros p Hsame; [done|].
  simpl. intros [Hs Hrest]. split.
  - rewrite Hsame; [done|by left].
  - apply IH; [|done]. intros x Hx. apply Hsame. by right.
Qed.

Lemma chain_snoc st p open v :
  ba_chain st p (open ++ [v]) <->
  ba_chain st p open /\
  ba_parent st !!! v = match last open with Some s => Z.of_nat s | None => p end.
Proof.
  revert p. induction open as [|s open IH]; intros p.
  { simpl. tauto. }
  change ((s :: open) ++ [v]) with (s :: (open ++ [v])). cbn [ba_chain].
  rewrite IH.
  replace (last (s :: open))
    with (match last open with Some x => Some x | None => Some s end)
    by (destruct open as [|s' open']; [done|];
        rewrite last_cons_cons; destruct (last (s' :: open')) eqn:E; [done|];
        by apply last_None in E).
  destruct (last open); tauto.
Qed.

Lemma chain_parent st p open s :
  ba_chain st p open -> s ∈ open ->
  ba_parent st !!! s = p \/
  exists s', s' ∈ open /\ ba_parent st !!! s = Z.of_nat s'.
Proof.
  revert p. induction open as [|s0 open IH]; intros p; [by intros _ ?%elem_of_nil|].
  simpl. intros [Hs0 Hrest] [->|Hin]%elem_of_cons; [by left|].
  right. destruct (IH _ Hrest Hin) as [Hp|(s' & Hs' & Hp)].
  - exists s0. split; [by left|done].
  - exists s'. split; [by right|done].
Qed.

Lemma chain_anc n st p open u :
  ba_chain st p open -> (forall s, s ∈ open -> (s < n)%nat) ->
  last open = Some u -> forall s, s ∈ open -> rtc (ba_up n st) u s.
Proof.
  revert p. induction open as [|s0 open IH]; intros p Hc Hr Hl s Hs;
    [by apply elem_of_nil in Hs|].
  simpl in Hc. destruct Hc as [Hs0 Hrest].
  destruct open as [|s1 open'].
  { simpl in Hl. inversion Hl; subst. apply list_elem_of_singleton in Hs.
    by subst. }
  rewrite last_cons_cons in Hl.
  assert (Hr' : forall x, x ∈ s1 :: open' -> (x < n)%nat).
  { intros x Hx. apply Hr. by right. }
  apply elem_of_cons in Hs as [->|Hs]; [|by apply (IH _ Hrest Hr' Hl)].
  eapply rtc_r; [apply (IH _ Hrest Hr' Hl s1); by left|].
  simpl in Hrest. destruct Hrest as [Hs1 _]. split; [|done].
  apply Hr'. by left.
Qed.

Lemma elem_last (l : list nat) s : s ∈ l -> exists u, last l = Some u /\ u ∈ l.
Proof.
  intros Hs. destruct (last l) as [u|] eqn:E.
  - exists u. split; [done|]. apply last_Some in E as [l' ->].
    apply elem_of_app. right. by left.
  - apply last_None in E. subst. by apply elem_of_nil in Hs.
Qed.

Lemma last_elem (l : list nat) u : last l = Some u -> u ∈ l.
Proof.
  intros [l' ->]%last_Some. apply elem_of_app. right. by left.
Qed.

Lemma top_cases (open : list nat) :
  (last open = None /\ ba_top open = -1) \/
  (exists u, last open = Some u /\ ba_top open = Z.of_nat u).
Proof.
  unfold ba_top. destruct (last open) as [u|]; [right|left]; eauto.
Qed.

Section tree.
Variable g : Graph.
Variable st : ba_state.
Variables open unacc : list nat.
Hypothesis Hsimple : simple_graph g.
Hypothesis Hinv : ba_inv g st open unacc.

Lemma tree_up z p :
  ba_up (num_vertices g) st z p ->
  (z < num_vertices g)%nat /\ (p < num_vertices g)%nat /\
  ba_visited st !!! z = true /\ ba_visited st !!! p = true /\
  z ∈ neighbors g p /\ p ∈ neighbors g z /\
  ba_num st !!! p < ba_num st !!! z.
Proof.
  intros Hup. pose proof Hup as [Hz Hpar]. ba_destruct Hinv.
  destruct (HT1 z p Hup) as (Hp & Hvp & Hzp & Hlt).
  destruct Hsimple as (_ & Hmir & _).
  split; [done|]. split; [done|]. split.
  { destruct (ba_visited st !!! z) eqn:E; [done|].
    destruct (HT0 z Hz E) as [Hm _]. lia. }
  split; [done|]. split; [done|]. split; [|done]. by apply (Hmir p z).
Qed.

Lemma tree_up_fun z p p' :
  ba_up (num_vertices g) st z p -> ba_up (num_vertices g) st z p' -> p = p'.
Proof.
  intros [_ H1] [_ H2]. rewrite H1 in H2. lia.
Qed.

Lemma tree_num z x :
  rtc (ba_up (num_vertices g) st) z x ->
  ba_num st !!! x <= ba_num st !!! z /\
  (z <> x -> ba_num st !!! x < ba_num st !!! z).
Proof.
  induction 1 as [z|z p x Hzp Hpx [IH _]].
  - split; [lia|done].
  - destruct (tree_up z p Hzp) as (_ & _ & _ & _ & _ & _ & Hlt). lia.
Qed.

Lemma tree_visited z x :
  rtc (ba_up (num_vertices g) st) z x -> ba_visited st !!! z = true ->
  ba_visited st !!! x = true /\ ((z < num_vertices g)%nat ->
                                 (x < num_vertices g)%nat).
Proof.
  induction 1 as [z|z p x Hzp Hpx IH]; [done|]. intros _.
  destruct (tree_up z p Hzp) as (_ & Hp & _ & Hvp & _).
  destruct (IH Hvp) as [? Hr]. split; [done|]. intros _. by apply Hr.
Qed.

Lemma tree_below z x :
  rtc (ba_up (num_vertices g) st) z x -> z <> x ->
  (z < num_vertices g)%nat /\ ba_visited st !!! z = true.
Proof.
  intros Hzx Hne. inversion Hzx as [|? p ? Hzp _]; subst; [done|].
  by destruct (tree_up z p Hzp) as (? & _ & ? & _).
Qed.

Lemma tree_chain z x y :
  rtc (ba_up (num_vertices g) st) z x -> rtc (ba_up (num_vertices g) st) z y ->
  rtc (ba_up (num_vertices g) st) x y \/ rtc (ba_up (num_vertices g) st) y x.
Proof.
  intros Hx. revert y. induction Hx as [z|z p x Hzp Hpx IH]; intros y Hy.
  - by left.
  - inversion Hy as [|? p' ? Hzp' Hpy]; subst.
    + right. by eapply rtc_l.
    + rewrite <- (tree_up_fun _ _ _ Hzp Hzp') in Hpy. by apply IH.
Qed.

Lemma tree_open_range s : s ∈ open -> (s < num_vertices g)%nat.
Proof.
  intros Hs. ba_destruct Hinv. by destruct (HO s Hs).
Qed.

Lemma tree_open_parent s p :
  s ∈ open -> ba_up (num_vertices g) st s p -> p ∈ open.
Proof.
  intros Hs [_ Hp]. ba_destruct Hinv.
  destruct (chain_parent st (-1) open s Hch Hs) as [Hm|(s' & Hs' & Hp')];
    [lia|].
  rewrite Hp in Hp'. by replace p with s' by lia.
Qed.

Lemma tree_open_closed s x :
  s ∈ open -> rtc (ba_up (num_vertices g) st) s x -> x ∈ open.
Proof.
  intros Hs Hsx. induction Hsx as [|s p x Hsp _ IH]; [done|].
  apply IH. by apply (tree_open_parent s p).
Qed.

Lemma tree_open_anc u s :
  last open = Some u -> s ∈ open -> rtc (ba_up (num_vertices g) st) u s.
Proof.
  intros Hl Hs. pose proof tree_open_range as Hr. ba_destruct Hinv.
  by apply (chain_anc _ st (-1) open u).
Qed.

Lemma tree_fin_below z x :
  (x ∉ open) -> rtc (ba_up (num_vertices g) st) z x -> z ∉ open.
Proof.
  intros Hx Hzx Hz. apply Hx. by apply (tree_open_closed z x).
Qed.
End tree.

(** Parent pointers of visited vertices that are kept keep what lies
    above these vertices. *)
Lemma desc_frame g st st' open unacc z x :
  simple_graph g -> ba_inv g st open unacc ->
  (forall y, (y < num_vertices g)%nat -> ba_visited st !!! y = true ->
     ba_parent st' !!! y = ba_parent st !!! y) ->
  (ba_visited st !!! z = true ->
   rtc (ba_up (num_vertices g) st') z x -> rtc (ba_up (num_vertices g) st) z x)
  /\ (rtc (ba_up (num_vertices g) st) z x ->
      rtc (ba_up (num_vertices g) st') z x).
Proof.
  intros Hsimple Hinv Hsame. split.
  - intros Hz Hzx. induction Hzx as [|z p x [Hzn Hp] _ IH]; [done|].
    assert (Hup : ba_up (num_vertices g) st z p).
    { split; [done|]. by rewrite <- Hsame. }
    destruct (tree_up g st open unacc Hsimple Hinv z p Hup)
      as (_ & _ & _ & Hvp & _).
    eapply rtc_l; [exact Hup|]. by apply IH.
  - intros Hzx. induction Hzx as [|z p x Hup _ IH]; [done|].
    destruct (tree_up g st open unacc Hsimple Hinv z p Hup)
      as (Hzn & _ & Hvz & _).
    eapply rtc_l; [|exact IH]. destruct Hup as [_ Hp]. split; [done|].
    by rewrite Hsame.
Qed.

(** *** Entering a vertex *)

Section enter.
Variable g : Graph.
Variable st : ba_state.
Variable open : list nat.
Variable v : nat.
Hypothesis Hsimple : simple_graph g.
Hypothesis Hinv : ba_inv g st open open.
Hypothesis Hv : (v < num_vertices g)%nat.
Hypothesis Hvv : ba_visited st !!! v = false.
Hypothesis Hnb : forall u, last open = Some u -> v ∈ neighbors g u.

Lemma enter_ne x :
  x <> v ->
  ba_visited (ba_started st open v) !!! x = ba_visited st !!! x /\
  ba_num (ba_started st open v) !!! x = ba_num st !!! x /\
  ba_low (ba_started st open v) !!! x = ba_low st !!! x /\
  ba_parent (ba_started st open v) !!! x = ba_parent st !!! x /\
  ba_artic (ba_started st open v) !!! x = ba_artic st !!! x.
Proof.
  intros Hne. unfold ba_started, ba_begin, ba_enter, ba_set_parent.
  cbn [ba_visited ba_num ba_low ba_parent ba_artic ba_time].
  by rewrite !list_lookup_total_insert_ne by done.
Qed.

Lemma enter_eq :
  ba_visited (ba_started st open v) !!! v = true /\
  ba_num (ba_started st open v) !!! v = ba_time st /\
  ba_low (ba_started st open v) !!! v = ba_time st /\
  ba_parent (ba_started st open v) !!! v = ba_top open /\
  ba_artic (ba_started st open v) !!! v = false.
Proof.
  ba_destruct Hinv. destruct Hsh as (H1 & H2 & H3 & H4 & H5).
  unfold ba_started, ba_begin, ba_enter, ba_set_parent.
  cbn [ba_visited ba_num ba_low ba_parent ba_artic ba_time].
  rewrite !list_lookup_total_insert_eq by lia.
  split; [done|]. split; [done|]. split; [done|]. split; [done|].
  by destruct (HT0 v Hv Hvv).
Qed.

Lemma enter_open_ne s : s ∈ open -> s <> v.
Proof.
  intros Hs ->. ba_destruct Hinv. destruct (HO v Hs) as (_ & Hvis & _).
  congruence.
Qed.

Lemma enter_up_old z p :
  z <> v ->
  (ba_up (num_vertices g) (ba_started st open v) z p <-> ba_up (num_vertices g) st z p).
Proof.
  intros Hne. unfold ba_up. destruct (enter_ne z Hne) as (_ & _ & _ & -> & _).
  done.
Qed.

Lemma enter_up_new p :
  ba_up (num_vertices g) (ba_started st open v) v p <-> last open = Some p.
Proof.
  unfold ba_up. destruct enter_eq as (_ & _ & _ & -> & _).
  destruct (top_cases open) as [[Hl ->]|(u & Hl & ->)]; rewrite Hl.
  - split; [intros [_ ?]; lia|done].
  - split; [intros [_ ?]; f_equal; lia|]. intros [= ->]. done.
Qed.

Lemma enter_desc_old z x :
  z <> v ->
  (rtc (ba_up (num_vertices g) (ba_started st open v)) z x <->
   rtc (ba_up (num_vertices g) st) z x).
Proof.
  intros Hne. split.
  - intros Hzx. induction Hzx as [|z p x Hup _ IH]; [done|].
    apply (enter_up_old z p Hne) in Hup.
    destruct (tree_up g st open open Hsimple Hinv z p Hup)
      as (_ & _ & _ & Hvp & _).
    eapply rtc_l; [exact Hup|]. apply IH. intros ->. congruence.
  - intros Hzx. induction Hzx as [|z p x Hup _ IH]; [done|].
    destruct (tree_up g st open open Hsimple Hinv z p Hup)
      as (_ & _ & _ & Hvp & _).
    eapply rtc_l; [by apply (enter_up_old z p Hne)|].
    apply IH. intros ->. congruence.
Qed.

Lemma enter_desc_new x :
  rtc (ba_up (num_vertices g) (ba_started st open v)) v x -> x = v \/ x ∈ open.
Proof.
  intros Hvx. inversion Hvx as [|? p ? Hup Hpx]; subst; [by left|right].
  apply enter_up_new in Hup.
  pose proof (last_elem open p Hup) as Hp.
  apply (enter_desc_old p x (enter_open_ne p Hp)) in Hpx.
  by apply (tree_open_closed g st open open Hinv p x).
Qed.

Lemma enter_desc_open s :
  s ∈ open -> rtc (ba_up (num_vertices g) (ba_started st open v)) v s.
Proof.
  intros Hs. destruct (elem_last open s Hs) as (u & Hl & Hu).
  eapply rtc_l; [by apply enter_up_new|].
  apply (enter_desc_old u s (enter_open_ne u Hu)).
  by apply (tree_open_anc g st open open Hinv).
Qed.

Lemma enter_no_child z : ~ ba_up (num_vertices g) (ba_started st open v) z v.
Proof.
  intros Hup. destruct (decide (z = v)) as [->|Hne].
  - apply enter_up_new in Hup.
    apply (enter_open_ne v); [|done]. by apply last_elem.
  - apply (enter_up_old z v Hne) in Hup.
    destruct (tree_up g st open open Hsimple Hinv z v Hup)
      as (_ & _ & _ & Hvp & _). congruence.
Qed.

Lemma enter_desc_below z : rtc (ba_up (num_vertices g) (ba_started st open v)) z v -> z = v.
Proof.
  intros Hzv. apply rtc_inv_r in Hzv as [|(y & _ & Hup)]; [done|].
  by apply enter_no_child in Hup.
Qed.

(** The vertices finished before are not touched. *)
Lemma enter_fin x z :
  ba_visited st !!! x = true -> (x ∉ open) ->
  rtc (ba_up (num_vertices g) (ba_started st open v)) z x ->
  z <> v /\ rtc (ba_up (num_vertices g) st) z x /\
  ba_visited st !!! z = true /\ (z ∉ open) /\
  ((x < num_vertices g)%nat -> (z < num_vertices g)%nat).
Proof.
  intros Hx Hxo Hzx.
  assert (Hzv : z <> v).
  { intros ->. destruct (enter_desc_new x Hzx) as [->|?]; [congruence|done]. }
  apply (enter_desc_old z x Hzv) in Hzx.
  split; [done|]. split; [done|].
  destruct (decide (z = x)) as [->|Hne]; [done|].
  destruct (tree_below g st open open Hsimple Hinv z x Hzx Hne) as [Hzn Hvz].
  split; [done|]. split; [|done].
  by apply (tree_fin_below g st open open Hinv z x).
Qed.
Lemma enter_inv :
  ba_inv g (ba_started st open v) (open ++ [v]) (open ++ [v]).
Proof.
  pose proof Hsimple as (Hval & Hmir & Hloop & Hndg).
  pose proof enter_eq as (Ev & En & El & Ep & Ea).
  pose proof Hinv as Hinv'. ba_destruct Hinv'.
  assert (Hvis2 : forall x, ba_visited (ba_started st open v) !!! x = true ->
            x = v \/ (x <> v /\ ba_visited st !!! x = true)).
  { intros x Hx. destruct (decide (x = v)) as [|Hne]; [by left|right].
    split; [done|]. by destruct (enter_ne x Hne) as (<- & _). }
  assert (Hvis1 : forall x, ba_visited st !!! x = true ->
            x <> v /\ ba_visited (ba_started st open v) !!! x = true).
  { intros x Hx. assert (x <> v) by (intros ->; congruence).
    split; [done|]. by destruct (enter_ne x) as (-> & _). }
  unfold ba_inv. split.
  { destruct Hsh as (H1 & H2 & H3 & H4 & H5).
    unfold ba_shape, ba_started, ba_begin, ba_enter, ba_set_parent.
    cbn [ba_visited ba_num ba_low ba_parent ba_artic].
    by rewrite !length_insert. }
  split.
  { unfold ba_started, ba_begin, ba_enter, ba_set_parent. cbn [ba_time]. lia. }
  split.
  { intros x Hx. destruct (decide (x = v)) as [->|Hne].
    - rewrite Ep. destruct (top_cases open) as [[_ ->]|(u & _ & ->)];
        [by left|right; by exists u].
    - destruct (enter_ne x Hne) as (_ & _ & _ & -> & _). by apply Hdich. }
  split.
  { intros x Hx Hf. destruct (decide (x = v)) as [->|Hne]; [congruence|].
    destruct (enter_ne x Hne) as (Hvx & _ & _ & -> & ->).
    apply HT0; [done|congruence]. }
  split.
  { intros x Hx Hvx. destruct (Hvis2 x Hvx) as [->|[Hne Hvx']].
    - rewrite En. done.
    - destruct (enter_ne x Hne) as (_ & -> & _). by apply Hnum0. }
  split.
  { intros z p Hup. destruct (decide (z = v)) as [->|Hne].
    - apply enter_up_new in Hup. pose proof (last_elem open p Hup) as Hp.
      destruct (HO p Hp) as (Hpn & Hvp & Hlt).
      destruct (Hvis1 p Hvp) as [Hpv Hvp2].
      destruct (enter_ne p Hpv) as (_ & -> & _). rewrite En.
      split; [done|]. split; [done|]. split; [by apply Hnb|done].
    - apply (enter_up_old z p Hne) in Hup.
      destruct (tree_up g st open open Hsimple Hinv z p Hup)
        as (_ & Hpn & _ & Hvp & Hzp & _ & Hlt).
      destruct (Hvis1 p Hvp) as [Hpv Hvp2].
      destruct (enter_ne p Hpv) as (_ & -> & _).
      destruct (enter_ne z Hne) as (_ & -> & _). done. }
  split.
  { intros z y Hz Hvz Hvy Hy. unfold ba_desc.
    assert (Hyn : (y < num_vertices g)%nat) by (by eapply Hval).
    assert (Hzy : z ∈ neighbors g y) by (by apply Hmir).
    assert (Hopen : forall a, ba_visited st !!! a = true ->
              (a < num_vertices g)%nat -> v ∈ neighbors g a -> a ∈ open).
    { intros a Ha Han Hva. destruct (decide (a ∈ open)) as [|Hno]; [done|].
      exfalso. pose proof (HC a v Han Ha Hno Hva). congruence. }
    destruct (Hvis2 z Hvz) as [->|[Hzv Hvz']];
      destruct (Hvis2 y Hvy) as [->|[Hyv Hvy']].
    - by left.
    - left. apply enter_desc_open. by apply (Hopen y).
    - right. apply enter_desc_open. by apply (Hopen z).
    - destruct (HT2 z y Hz Hvz' Hvy' Hy) as [Hd|Hd]; [left|right];
        by apply enter_desc_old. }
  split.
  { apply NoDup_app. split; [done|]. split; [|apply NoDup_singleton].
    intros x Hx Hxv%list_elem_of_singleton. subst x.
    by apply (enter_open_ne v). }
  split.
  { intros s0 Hs.
    replace (ba_time (ba_started st open v)) with (ba_time st + 1) by done.
    apply elem_of_app in Hs as [Hs|Hs%list_elem_of_singleton]; [|subst s0].
    - destruct (HO s0 Hs) as (Hsn & Hvs & Hlt).
      destruct (Hvis1 s0 Hvs) as [Hsv Hvs2].
      destruct (enter_ne s0 Hsv) as (_ & -> & _).
      split; [done|]. split; [done|lia].
    - rewrite En. split; [done|]. split; [done|lia]. }
  split.
  { apply chain_snoc. split.
    - apply (chain_ext st); [|done]. intros s0 Hs.
      by destruct (enter_ne s0 (enter_open_ne s0 Hs)) as (_ & _ & _ & -> & _).
    - rewrite Ep. unfold ba_top. by destruct (last open). }
  split.
  { intros w x Hw Hvw Hwo Hx.
    destruct (Hvis2 w Hvw) as [->|[Hwv Hvw']].
    { exfalso. apply Hwo. apply elem_of_app. right. by left. }
    apply Hvis1. apply (HC w x Hw Hvw'); [|done].
    intros ?. apply Hwo. apply elem_of_app. by left. }
  split.
  { intros x Hx Hvx Hxo.
    destruct (Hvis2 x Hvx) as [->|[Hxv Hvx']].
    { exfalso. apply Hxo. apply elem_of_app. right. by left. }
    assert (Hxo' : x ∉ open).
    { intros ?. apply Hxo. apply elem_of_app. by left. }
    destruct (HL x Hx Hvx' Hxo') as [HL1 HL2].
    destruct (enter_ne x Hxv) as (_ & _ & Elx & _).
    unfold ba_low_ok, ba_low_part, ba_desc. rewrite Elx. split.
    - intros z Hzx.
      destruct (enter_fin x z Hvx' Hxo' Hzx) as (Hzv & Hzx' & Hvz & Hzo & Hzn).
      destruct (enter_ne z Hzv) as (_ & -> & _).
      destruct (HL1 z Hzx') as [Hle Hnbs]. split; [done|].
      intros y Hy Hcond Hnup.
      assert (Hvy : ba_visited st !!! y = true).
      { apply (HC z y); try done. by apply Hzn. }
      destruct (Hvis1 y Hvy) as [Hyv _].
      destruct (enter_ne y Hyv) as (_ & -> & _).
      apply Hnbs; try done. intros Hup. apply Hnup. by apply enter_up_old.
    - destruct HL2 as (z & Hzx & Hw). unfold ba_desc in Hzx.
      assert (Hz : ba_visited st !!! z = true /\ (z < num_vertices g)%nat).
      { destruct (decide (z = x)) as [->|Hne]; [done|].
        by destruct (tree_below g st open open Hsimple Hinv z x Hzx Hne). }
      destruct Hz as [Hvz Hzn]. destruct (Hvis1 z Hvz) as [Hzv _].
      destruct (enter_ne z Hzv) as (_ & Enz & _).
      exists z. split; [by apply enter_desc_old|]. rewrite Enz.
      destruct Hw as [?|(y & Hy & Hcond & Hnup & Hly)]; [by left|right].
      assert (Hvy : ba_visited st !!! y = true).
      { apply (HC z y); try done.
        by apply (tree_fin_below g st open open Hinv z x). }
      destruct (Hvis1 y Hvy) as [Hyv _].
      destruct (enter_ne y Hyv) as (_ & Eny & _).
      exists y. rewrite Eny. split; [done|]. split; [done|]. split; [|done].
      intros Hup. apply Hnup. by apply (enter_up_old z y Hzv). }
  split.
  { intros x Hx Hvx Hxo.
    destruct (Hvis2 x Hvx) as [->|[Hxv Hvx']].
    { exfalso. apply Hxo. apply elem_of_app. right. by left. }
    assert (Hxo' : x ∉ open).
    { intros ?. apply Hxo. apply elem_of_app. by left. }
    pose proof (HA x Hx Hvx' Hxo') as HAx.
    destruct (enter_ne x Hxv) as (_ & Enx & _ & Epx & Eax).
    assert (Hkid : forall c, ba_up (num_vertices g) (ba_started st open v) c x <->
                     ba_up (num_vertices g) st c x).
    { intros c. destruct (decide (c = v)) as [->|Hcv]; [|by apply enter_up_old].
      split.
      - intros Hup. apply enter_up_new in Hup. exfalso. apply Hxo'.
        by apply last_elem.
      - intros Hup.
        destruct (tree_up g st open open Hsimple Hinv v x Hup)
          as (_ & _ & ? & _). congruence. }
    assert (Hlow : forall c, ba_up (num_vertices g) st c x ->
              ba_low (ba_started st open v) !!! c = ba_low st !!! c).
    { intros c Hup.
      destruct (tree_up g st open open Hsimple Hinv c x Hup)
        as (_ & _ & Hvc & _).
      destruct (Hvis1 c Hvc) as [Hcv _].
      by destruct (enter_ne c Hcv) as (_ & _ & -> & _). }
    unfold ba_artic_ok in *. rewrite Eax, Epx, Enx, HAx.
    split; (intros [[Hp (c & Hc & Hle)]|[Hp (c1 & c2 & Hne & H1 & H2)]];
            [left; split; [done|]; exists c|
             right; split; [done|]; exists c1, c2]).
    - split; [by apply Hkid|]. rewrite Hlow; [done|]. done.
    - split; [done|]. split; by apply Hkid.
    - apply Hkid in Hc. split; [done|]. by rewrite <- Hlow.
    - split; [done|]. split; by apply Hkid. }
  split.
  { intros a b. change (ba_bridges (ba_started st open v)) with (ba_bridges st).
    rewrite (HB a b). split.
    - intros (Hb & Hvb & Hbo & Hup & Hlt).
      destruct (Hvis1 b Hvb) as [Hbv Hvb2].
      destruct (tree_up g st open open Hsimple Hinv b a Hup)
        as (_ & _ & _ & Hva & _).
      destruct (Hvis1 a Hva) as [Hav _].
      destruct (enter_ne a Hav) as (_ & -> & _).
      destruct (enter_ne b Hbv) as (_ & _ & -> & _).
      split; [done|]. split; [done|]. split.
      { intros [?|Hbv'%list_elem_of_singleton]%elem_of_app; done. }
      split; [by apply enter_up_old|done].
    - intros (Hb & Hvb & Hbo & Hup & Hlt).
      destruct (Hvis2 b Hvb) as [->|[Hbv Hvb']].
      { exfalso. apply Hbo. apply elem_of_app. right. by left. }
      apply (enter_up_old b a Hbv) in Hup.
      destruct (tree_up g st open open Hsimple Hinv b a Hup)
        as (_ & _ & _ & Hva & _).
      destruct (Hvis1 a Hva) as [Hav _].
      destruct (enter_ne a Hav) as (_ & Ena & _).
      destruct (enter_ne b Hbv) as (_ & _ & Elb & _).
      rewrite Ena, Elb in Hlt.
      split; [done|]. split; [done|]. split; [|done].
      intros ?. apply Hbo. apply elem_of_app. by left. }
  done.
Qed.
Lemma enter_loop_inv :
  ba_loop_inv g open v st [] 0 (ba_started st open v).
Proof.
  pose proof enter_eq as (Ev & En & El & Ep & Ea).
  pose proof Hinv as Hinv'. ba_destruct Hinv'.
  unfold ba_loop_inv. split; [apply enter_inv|]. split; [done|].
  split; [done|]. split.
  { unfold ba_low_part, ba_desc. rewrite El. split.
    - intros z Hz. apply enter_desc_below in Hz. subst z. rewrite En.
      split; [lia|]. intros y _ [?|?%elem_of_nil]; done.
    - exists v. split; [apply rtc_refl|]. left. by rewrite En. }
  split.
  { unfold ba_artic_part. rewrite Ea. split; [done|].
    by intros (_ & c & ?%elem_of_nil & _). }
  split; [done|]. split; [by intros y ?%elem_of_nil|]. split.
  { intros y Hy. by apply enter_no_child in Hy. }
  split.
  { intros x Hx Hvx. assert (Hne : x <> v) by (intros ->; congruence).
    destruct (enter_ne x Hne) as (-> & -> & -> & -> & ->). done. }
  split.
  { intros z Hz Hvz Hvz0. destruct (decide (z = v)) as [->|Hne].
    - split; [apply rtc_refl|]. rewrite En. lia.
    - destruct (enter_ne z Hne) as (Hvz' & _). congruence. }
  split.
  { replace (ba_time (ba_started st open v)) with (ba_time st + 1) by done.
    lia. }
  replace (ba_visited (ba_started st open v))
    with (<[v := true]> (ba_visited st)) by done.
  destruct Hsh as (H1 & _).
  rewrite count_true_mark_new by (done || lia). lia.
Qed.
End enter.

(** *** Steps that touch only the calls in progress *)

Lemma ba_up_parent n st st' :
  ba_parent st' = ba_parent st -> ba_up n st' = ba_up n st.
Proof.
  intros Hpar. unfold ba_up. by rewrite Hpar.
Qed.

Lemma ba_inv_change g st st' open unacc unacc' :
  simple_graph g -> ba_inv g st open unacc ->
  ba_visited st' = ba_visited st -> ba_num st' = ba_num st ->
  ba_parent st' = ba_parent st -> ba_time st' = ba_time st ->
  length (ba_low st') = num_vertices g ->
  length (ba_artic st') = num_vertices g ->
  (forall x, x ∉ open -> ba_low st' !!! x = ba_low st !!! x) ->
  (forall x, x ∉ open -> ba_artic st' !!! x = ba_artic st !!! x) ->
  (forall a b, mkEdge a b ∈ ba_bridges st' <->
     (b < num_vertices g)%nat /\ ba_visited st' !!! b = true /\
     (b ∉ unacc') /\ ba_up (num_vertices g) st' b a /\
     ba_num st' !!! a < ba_low st' !!! b) ->
  NoDup (v2 <$> ba_bridges st') ->
  ba_inv g st' open unacc'.
Proof.
  intros Hsimple Hinv Hvis Hnum Hpar Htime Hll Hla Hlow Hart HB' HNB'.
  pose proof (ba_up_parent (num_vertices g) st st' Hpar) as Hup.
  pose proof Hinv as Hinv'. ba_destruct Hinv'.
  assert (Hopen : forall x, ba_visited st !!! x = false -> x ∉ open).
  { intros x Hf Hx. destruct (HO x Hx) as (_ & ? & _). congruence. }
  unfold ba_inv, ba_shape, ba_low_ok, ba_low_part, ba_artic_ok, ba_desc in *.
  rewrite Hvis, Hnum, Hpar, Htime, Hup.
  split; [by destruct Hsh as (? & ? & ? & ? & ?)|].
  split; [done|]. split; [done|]. split.
  { intros x Hx Hf. destruct (HT0 x Hx Hf) as [? ?]. split; [done|].
    rewrite Hart; [done|]. by apply Hopen. }
  split; [done|]. split; [done|]. split; [done|]. split; [done|].
  split; [done|]. split.
  { apply (chain_ext st); [|done]. intros. by rewrite Hpar. }
  split; [done|]. split.
  { intros x Hx Hvx Hxo. rewrite (Hlow x Hxo). by apply HL. }
  split.
  { intros x Hx Hvx Hxo. rewrite (Hart x Hxo), (HA x Hx Hvx Hxo).
    assert (Hkid : forall c, ba_up (num_vertices g) st c x ->
              ba_low st' !!! c = ba_low st !!! c).
    { intros c Hc. apply Hlow. intros Hco. apply Hxo.
      by apply (tree_open_parent g st open unacc Hinv c x). }
    split; (intros [[Hp (c & Hc & Hle)]|?]; [left|by right]);
      (split; [done|]); exists c; (split; [done|]).
    - by rewrite Hkid.
    - by rewrite <- Hkid. }
  split; [|done].
  intros a b. rewrite (HB' a b), Hvis, Hnum, Hup. done.
Qed.

Lemma set_low_id st u : ba_set_low st u (ba_low st !!! u) = st.
Proof.
  destruct st as [vis num low par art br t]. unfold ba_set_low. simpl.
  f_equal. destruct (decide (u < length low)%nat) as [Hlt|Hge].
  - apply list_insert_id. by apply list_lookup_lookup_total_lt.
  - apply list_insert_ge. lia.
Qed.

Ltac li_destruct H :=
  destruct H as (HI & Hpu & Hu0 & HLu & HAu & Hch' & Hdv & Hkid & Hfr & Hnew
                 & Htm & Hcnt).

(** An entry whose end is visited already. *)
Lemma loop_set_low g open u st0 done ch st y rest x :
  simple_graph g -> ba_loop_inv g open u st0 done ch st ->
  neighbors g u = done ++ y :: rest -> ba_visited st !!! y = true ->
  x <= ba_low st !!! u ->
  (~ ba_up (num_vertices g) st u y -> x <= ba_num st !!! y) ->
  x = ba_low st !!! u \/
  (~ ba_up (num_vertices g) st u y /\ x = ba_num st !!! y) ->
  ba_loop_inv g open u st0 (done ++ [y]) ch (ba_set_low st u x).
Proof.
  intros Hsimple HLI Hnb Hvy Hxl Hxy Hx.
  pose proof Hsimple as (Hval & Hmir & Hloop & Hndg).
  li_destruct HLI. pose proof HI as HI'. ba_destruct HI'.
  assert (Huo : u ∈ open ++ [u]) by (apply elem_of_app; right; by left).
  destruct (HO u Huo) as (Hu & Hvu & _).
  destruct Hsh as (Hs1 & Hs2 & Hs3 & Hs4 & Hs5).
  assert (Hyin : y ∈ neighbors g u).
  { rewrite Hnb. apply elem_of_app. right. by left. }
  assert (Hyn : (y < num_vertices g)%nat) by (by eapply Hval).
  assert (Hynd : y ∉ done).
  { specialize (Hndg u Hu). rewrite Hnb in Hndg.
    apply NoDup_app in Hndg as (_ & Hdis & _). intros Hy.
    apply (Hdis y Hy). by left. }
  assert (Hnokid : ~ ba_up (num_vertices g) st y u).
  { intros Hup. by apply Hynd, Hkid. }
  assert (Hlne : forall z, z <> u ->
            ba_low (ba_set_low st u x) !!! z = ba_low st !!! z).
  { intros z Hz. unfold ba_set_low. cbn [ba_low].
    by rewrite list_lookup_total_insert_ne. }
  assert (Hleq : ba_low (ba_set_low st u x) !!! u = x).
  { unfold ba_set_low. cbn [ba_low].
    rewrite list_lookup_total_insert_eq; [done|lia]. }
  assert (Hup : ba_up (num_vertices g) (ba_set_low st u x)
                = ba_up (num_vertices g) st) by done.
  unfold ba_loop_inv. split.
  { apply (ba_inv_change g st _ (open ++ [u]) (open ++ [u])); try done.
    - unfold ba_set_low. cbn [ba_low]. by rewrite length_insert.
    - intros z Hz. apply Hlne. intros ->. done.
    - intros a b. rewrite (HB a b), Hup.
      change (ba_visited (ba_set_low st u x)) with (ba_visited st).
      change (ba_num (ba_set_low st u x)) with (ba_num st).
      split; intros (? & ? & Hbu & ? & Hlt); (split; [done|]);
        (split; [done|]); (split; [done|]); (split; [done|]).
      + rewrite Hlne; [done|]. intros ->. done.
      + rewrite Hlne in Hlt; [done|]. intros ->. done. }
  split; [done|]. split; [done|]. split.
  { destruct HLu as [HL1 HL2]. unfold ba_low_part, ba_desc in *.
    rewrite Hup, Hleq.
    change (ba_num (ba_set_low st u x)) with (ba_num st). split.
    - intros z Hz. destruct (HL1 z Hz) as [Hle Hnbs]. split; [lia|].
      intros y' Hy' Hcond Hnup.
      destruct (decide (z = u)) as [->|Hzu].
      + destruct Hcond as [?|[Hd|Hd%list_elem_of_singleton]%elem_of_app];
          [done| |subst y'; by apply Hxy].
        specialize (Hnbs y' Hy' ltac:(by right) Hnup). lia.
      + specialize (Hnbs y' Hy' ltac:(by left) Hnup). lia.
    - destruct Hx as [->|[Hnup ->]].
      + destruct HL2 as (z & Hz & Hw). exists z. split; [done|].
        destruct Hw as [?|(y' & Hy' & Hcond & Hnup & Hly)]; [by left|right].
        exists y'. split; [done|]. split; [|done].
        destruct Hcond as [?|?]; [by left|right]. apply elem_of_app. by left.
      + exists u. split; [apply rtc_refl|]. right. exists y.
        split; [done|]. split; [|done]. right. apply elem_of_app. right.
        by left. }
  split.
  { unfold ba_artic_part in *. rewrite Hup.
    change (ba_artic (ba_set_low st u x)) with (ba_artic st).
    change (ba_parent (ba_set_low st u x)) with (ba_parent st).
    change (ba_num (ba_set_low st u x)) with (ba_num st).
    rewrite HAu.
    assert (Hc : forall c, ba_up (num_vertices g) st c u ->
              c <> y /\ ba_low (ba_set_low st u x) !!! c = ba_low st !!! c).
    { intros c Hc. split; [by intros ->|]. apply Hlne. intros ->.
      destruct (tree_up g st _ _ Hsimple HI u u Hc) as (_ & _ & _ & _ & _ & _ & ?).
      lia. }
    split; intros [Hp (c & Hcd & Hcu & Hle)]; (split; [done|]); exists c;
      destruct (Hc c Hcu) as [Hcy Hcl].
    - split; [apply elem_of_app; by left|]. split; [done|]. by rewrite Hcl.
    - apply elem_of_app in Hcd as [Hcd|Hcd%list_elem_of_singleton]; [|done].
      split; [done|]. split; [done|]. by rewrite <- Hcl. }
  split.
  { change (ba_parent (ba_set_low st u x)) with (ba_parent st).
    rewrite filter_app, length_app, Hch'.
    rewrite (filter_cons _ y []).
    destruct (decide _) as [Hpy|_]; [exfalso; by apply Hnokid|].
    simpl. lia. }
  split.
  { intros y' [?|Hy'%list_elem_of_singleton]%elem_of_app; [by apply Hdv|].
    by subst. }
  split.
  { intros y' Hy'. apply elem_of_app. left. apply Hkid. exact Hy'. }
  split.
  { intros z Hz Hvz. destruct (Hfr z Hz Hvz) as (? & ? & ? & ? & ?).
    rewrite Hlne by (intros ->; congruence). done. }
  split; [|done]. intros z Hz Hvz Hvz0. exact (Hnew z Hz Hvz Hvz0).
Qed.

(** *** Coming back from a child *)

Lemma filter_length_ext (P Q : nat -> Prop) `{!forall x, Decision (P x)}
    `{!forall x, Decision (Q x)} (l : list nat) :
  (forall x, x ∈ l -> (P x <-> Q x)) ->
  length (filter P l) = length (filter Q l).
Proof.
  induction l as [|a l IH]; intros Hext; [done|].
  rewrite !filter_cons.
  assert (Ha : P a <-> Q a) by (apply Hext; by left).
  assert (IH' : length (filter P l) = length (filter Q l)).
  { apply IH. intros x Hx. apply Hext. by right. }
  destruct (decide (P a)), (decide (Q a)); simpl; tauto || lia.
Qed.

Lemma nodup_bounded_length (l : list nat) n :
  NoDup l -> (forall x, x ∈ l -> (x < n)%nat) -> (length l <= n)%nat.
Proof.
  intros Hnd Hb.
  pose proof (submseteq_length l (seq 0 n)) as Hle.
  rewrite length_seq in Hle. apply Hle.
  apply NoDup_submseteq; [done|]. intros x Hx. apply elem_of_seq.
  specialize (Hb x Hx). lia.
Qed.

(** The fields of the state after the three tests. *)
Lemma after_child_fields n u c st1 :
  (u < length (ba_low st1))%nat -> (u < length (ba_artic st1))%nat ->
  u <> c -> (length (ba_bridges st1) < n * n)%nat ->
  exists st2, ba_after_child n u c st1 = Some st2 /\
    ba_visited st2 = ba_visited st1 /\ ba_num st2 = ba_num st1 /\
    ba_parent st2 = ba_parent st1 /\ ba_time st2 = ba_time st1 /\
    length (ba_low st2) = length (ba_low st1) /\
    length (ba_artic st2) = length (ba_artic st1) /\
    ba_low st2 !!! u = Z.min (ba_low st1 !!! u) (ba_low st1 !!! c) /\
    (forall z, z <> u -> ba_low st2 !!! z = ba_low st1 !!! z) /\
    (forall z, z <> u -> ba_artic st2 !!! z = ba_artic st1 !!! z) /\
    (ba_artic st2 !!! u = true <->
     ba_artic st1 !!! u = true \/
     (ba_parent st1 !!! u <> -1 /\ ba_num st1 !!! u <= ba_low st1 !!! c)) /\
    ba_bridges st2
    = ba_bridges st1 ++
      (if ba_num st1 !!! u <? ba_low st1 !!! c then [mkEdge u c] else []).
Proof.
  intros Hul Hua Huc Hlen. unfold ba_after_child.
  set (st1a := if ba_low st1 !!! c <? ba_low st1 !!! u
               then ba_set_low st1 u (ba_low st1 !!! c) else st1).
  assert (Ha : ba_visited st1a = ba_visited st1 /\ ba_num st1a = ba_num st1 /\
               ba_parent st1a = ba_parent st1 /\ ba_time st1a = ba_time st1 /\
               ba_artic st1a = ba_artic st1 /\
               ba_bridges st1a = ba_bridges st1 /\
               length (ba_low st1a) = length (ba_low st1) /\
               ba_low st1a !!! u
               = Z.min (ba_low st1 !!! u) (ba_low st1 !!! c) /\
               (forall z, z <> u -> ba_low st1a !!! z = ba_low st1 !!! z)).
  { unfold st1a. destruct (Z.ltb_spec (ba_low st1 !!! c) (ba_low st1 !!! u)).
    - unfold ba_set_low. cbn [ba_visited ba_num ba_low ba_parent ba_artic
                               ba_bridges ba_time].
      rewrite length_insert, list_lookup_total_insert_eq by done.
      repeat (split; [done|]). split; [lia|].
      intros z Hz. by rewrite list_lookup_total_insert_ne.
    - repeat (split; [done|]). split; [lia|done]. }
  clearbody st1a.
  destruct Ha as (Hv & Hn & Hp & Ht & Har & Hbr & Hll & Hlu & Hlz).
  rewrite Hn, (Hlz c) by done. rewrite Hbr.
  destruct (Nat.leb_spec (n * n) (length (ba_bridges st1))) as [|_]; [lia|].
  set (st1b := if ba_num st1 !!! u <? ba_low st1 !!! c
               then ba_add_bridge st1a (mkEdge u c) else st1a).
  assert (Hb : (if ba_num st1 !!! u <? ba_low st1 !!! c
                then Some (ba_add_bridge st1a (mkEdge u c)) else Some st1a)
               = Some st1b).
  { unfold st1b. by destruct (_ <? _). }
  rewrite Hb.
  assert (Hbf : ba_visited st1b = ba_visited st1 /\ ba_num st1b = ba_num st1 /\
                ba_parent st1b = ba_parent st1 /\ ba_time st1b = ba_time st1 /\
                ba_artic st1b = ba_artic st1 /\ ba_low st1b = ba_low st1a /\
                ba_bridges st1b
                = ba_bridges st1 ++
                  (if ba_num st1 !!! u <? ba_low st1 !!! c
                   then [mkEdge u c] else [])).
  { unfold st1b. destruct (_ <? _).
    - unfold ba_add_bridge. cbn [ba_visited ba_num ba_low ba_parent ba_artic
                                 ba_bridges ba_time].
      rewrite Hbr. done.
    - rewrite app_nil_r. done. }
  clearbody st1b. clear Hb.
  destruct Hbf as (Hv' & Hn' & Hp' & Ht' & Har' & Hl' & Hbr').
  rewrite Hp', Hn', Hl', (Hlz c) by done.
  eexists. split; [done|].
  destruct (Z.eqb_spec (ba_parent st1 !!! u) (-1)) as [Hroot|Hroot];
    destruct (Z.leb_spec (ba_num st1 !!! u) (ba_low st1 !!! c)) as [Hle|Hgt];
    cbn [negb andb]; unfold ba_set_artic;
    cbn [ba_visited ba_num ba_low ba_parent ba_artic ba_bridges ba_time];
    rewrite ?Hl', ?Har', ?length_insert;
    (split; [done|]); (split; [done|]); (split; [done|]); (split; [done|]);
    (split; [done|]); (split; [done|]); (split; [done|]); (split; [done|]).
  - split; [done|]. split; [|done]. split; [by left|]. intros [?|[? _]]; done.
  - split; [done|]. split; [|done]. split; [by left|]. intros [?|[? _]]; done.
  - split; [intros z Hz; by rewrite list_lookup_total_insert_ne|].
    split; [|done]. rewrite list_lookup_total_insert_eq by done.
    split; [by right|done].
  - split; [done|]. split; [|done]. split; [by left|].
    intros [?|[_ ?]]; [done|lia].
Qed.

Lemma loop_after_child g open u st0 done ch st c rest st1 :
  simple_graph g -> ba_loop_inv g open u st0 done ch st ->
  neighbors g u = done ++ c :: rest -> ba_visited st !!! c = false ->
  ba_post g (open ++ [u]) c st st1 ->
  exists st2, ba_after_child (num_vertices g) u c st1 = Some st2 /\
    ba_visited st2 = ba_visited st1 /\
    ba_loop_inv g open u st0 (done ++ [c]) (ch + 1) st2.
Proof.
  intros Hsimple HLI Hnb Hvc (HI1 & Hvc1 & Hpc1 & Hfr1 & Hnew1 & Htm1 & Hcnt1).
  pose proof Hsimple as (Hval & Hmir & Hloop & Hndg).
  li_destruct HLI.
  assert (Huo : u ∈ open ++ [u]) by (apply elem_of_app; right; by left).
  assert (Hu : (u < num_vertices g)%nat).
  { by apply (tree_open_range g st _ _ HI u). }
  assert (Hvu : ba_visited st !!! u = true).
  { pose proof HI as HI'. ba_destruct HI'. by destruct (HO u Huo) as (_ & ? & _). }
  assert (Hcin : c ∈ neighbors g u).
  { rewrite Hnb. apply elem_of_app. right. by left. }
  assert (Hcn : (c < num_vertices g)%nat) by (by eapply Hval).
  assert (Huc : u <> c) by (intros ->; congruence).
  destruct (Hfr1 u Hu Hvu) as (Hvu1 & Hnu1 & Hlu1 & Hpu1 & Hau1).
  assert (Hcu : ba_up (num_vertices g) st1 c u).
  { split; [done|]. rewrite Hpc1. unfold ba_top. by rewrite last_snoc. }
  destruct (tree_up g st1 _ _ Hsimple HI1 c u Hcu)
    as (_ & _ & _ & _ & _ & _ & Hnumcu).
  (* transfer between the state before the call and the state after it *)
  assert (Hpar1 : forall y, (y < num_vertices g)%nat ->
            ba_visited st !!! y = true ->
            ba_parent st1 !!! y = ba_parent st !!! y).
  { intros y Hy Hvy. by destruct (Hfr1 y Hy Hvy) as (_ & _ & _ & ? & _). }
  assert (Hup1 : forall z p, ba_visited st !!! z = true ->
            (ba_up (num_vertices g) st1 z p <-> ba_up (num_vertices g) st z p)).
  { intros z p Hvz. unfold ba_up. split; intros [Hz Hp]; (split; [done|]).
    - by rewrite <- Hpar1.
    - by rewrite Hpar1. }
  assert (Hfin : forall z, rtc (ba_up (num_vertices g) st) z u -> z <> u ->
            (z < num_vertices g)%nat /\ ba_visited st !!! z = true /\
            (z ∉ open ++ [u])).
  { intros z Hz Hne.
    destruct (tree_below g st _ _ Hsimple HI z u Hz Hne) as [Hzn Hvz].
    split; [done|]. split; [done|]. intros Hzo.
    pose proof (tree_open_anc g st _ _ HI u z (last_snoc _ _) Hzo) as Huz.
    destruct (tree_num g st _ _ Hsimple HI z u Hz) as [_ H1].
    destruct (tree_num g st _ _ Hsimple HI u z Huz) as [H2 _].
    specialize (H1 Hne). lia. }
  assert (Hnbv : forall z y, rtc (ba_up (num_vertices g) st) z u ->
            y ∈ neighbors g z -> z <> u \/ y ∈ done ->
            ba_visited st !!! y = true).
  { intros z y Hz Hy [Hne|Hd]; [|by apply Hdv].
    destruct (Hfin z Hz Hne) as (Hzn & Hvz & Hzo).
    pose proof HI as HI'. ba_destruct HI'. by apply (HC z y). }
  (* what the call leaves for the child *)
  assert (Hco : c ∉ open ++ [u]).
  { intros Hc. pose proof HI as HI'. ba_destruct HI'.
    destruct (HO c Hc) as (_ & ? & _). congruence. }
  assert (HLc : ba_low_ok g st1 c).
  { pose proof HI1 as HI'. ba_destruct HI'. by apply HL. }
  destruct HLc as [HLc1 HLc2]. unfold ba_desc in HLc1, HLc2.
  assert (Hblen : (length (ba_bridges st1)
                   < num_vertices g * num_vertices g)%nat).
  { pose proof HI1 as HI'. ba_destruct HI'.
    assert (Hle : (length (u :: (v2 <$> ba_bridges st1))
                   <= num_vertices g)%nat).
    { apply nodup_bounded_length.
      - apply NoDup_cons. split; [|done].
        intros Hin. apply list_elem_of_fmap in Hin as ([a b] & Hb & Hab).
        simpl in Hb. subst b. apply HB in Hab as (_ & _ & Hbo & _).
        apply Hbo. apply elem_of_app. by left.
      - intros x [->|Hx]%elem_of_cons; [done|].
        apply list_elem_of_fmap in Hx as ([a b] & Hb & Hab).
        simpl in Hb. subst b. by apply HB in Hab as (? & _). }
    simpl in Hle. rewrite length_fmap in Hle. nia. }
  pose proof HI1 as HI1'. ba_destruct HI1'.
  destruct Hsh as (Hs1 & Hs2 & Hs3 & Hs4 & Hs5).
  destruct (after_child_fields (num_vertices g) u c st1)
    as (st2 & Hrun & Ev & En & Ep & Et & Ell & Eal & Elu & Elz & Eaz & Eau & Ebr);
    [lia|lia|done|done|].
  exists st2. split; [done|]. split; [done|].
  pose proof (ba_up_parent (num_vertices g) st1 st2 Ep) as Eup.
  unfold ba_loop_inv. split.
  { apply (ba_inv_change g st1 st2 (open ++ [u]) ((open ++ [u]) ++ [c]));
      try done; try lia.
    - intros z Hz. apply Elz. intros ->. done.
    - intros z Hz. apply Eaz. intros ->. done.
    - intros a b. rewrite Ebr, Ev, En, Eup, elem_of_app, (HB a b). split.
      + intros [(Hb & Hvb & Hbo & Hup & Hlt)|Hnewb].
        * split; [done|]. split; [done|]. split.
          { intros ?. apply Hbo. apply elem_of_app. by left. }
          split; [done|]. rewrite Elz; [done|]. intros ->. apply Hbo.
          apply elem_of_app. by left.
        * destruct (Z.ltb_spec (ba_num st1 !!! u) (ba_low st1 !!! c));
            [|by apply elem_of_nil in Hnewb].
          apply list_elem_of_singleton in Hnewb. inversion Hnewb; subst a b.
          split; [done|]. split; [done|]. split; [done|]. split; [done|].
          by rewrite Elz.
      + intros (Hb & Hvb & Hbo & Hup & Hlt).
        assert (Hbu : b <> u) by (intros ->; done).
        rewrite Elz in Hlt by done.
        destruct (decide (b = c)) as [->|Hbc].
        * right. pose proof (tree_up_fun g st1 _ _ _ Hcu Hup). subst a.
          destruct (Z.ltb_spec (ba_num st1 !!! u) (ba_low st1 !!! c)); [|lia].
          by apply list_elem_of_singleton.
        * left. split; [done|]. split; [done|]. split; [|done].
          intros [?|?%list_elem_of_singleton]%elem_of_app; done.
    - rewrite Ebr, fmap_app. apply NoDup_app. split; [done|]. split.
      + intros x Hx Hx'.
        destruct (Z.ltb_spec (ba_num st1 !!! u) (ba_low st1 !!! c));
          [|by apply elem_of_nil in Hx'].
        apply list_elem_of_singleton in Hx'. simpl in Hx'. subst x.
        apply list_elem_of_fmap in Hx as ([a b] & Hb & Hab).
        simpl in Hb. subst b. apply HB in Hab as (_ & _ & Hbo & _).
        apply Hbo. apply elem_of_app. right. by left.
      + destruct (_ <? _); [apply NoDup_singleton|apply NoDup_nil_2]. }
  split; [by rewrite Ep, Hpu1|]. split; [done|]. split.
  { destruct HLu as [HLu1 HLu2]. unfold ba_low_part, ba_desc in *.
    rewrite Eup, En, Elu, Hlu1. split.
    - intros z Hz.
      destruct (ba_visited st !!! z) eqn:Hvz.
      + pose proof (proj1 (desc_frame g st st1 _ _ z u Hsimple HI Hpar1)
                      Hvz Hz) as Hz'.
        destruct (HLu1 z Hz') as [Hle Hnbs].
        assert (Hzn : (z < num_vertices g)%nat).
        { destruct (decide (z = u)) as [->|Hne]; [done|].
          by destruct (Hfin z Hz' Hne). }
        destruct (Hfr1 z Hzn Hvz) as (_ & -> & _). split; [lia|].
        intros y Hy Hcond Hnup.
        destruct (decide (z = u /\ y = c)) as [[-> ->]|Hnot].
        { destruct (HLc1 c (rtc_refl _ _)) as [? _]. lia. }
        assert (Hcond' : z <> u \/ y ∈ done).
        { destruct Hcond as [?|[?|Hy'%list_elem_of_singleton]%elem_of_app];
            [by left|by right|].
          destruct (decide (z = u)); [tauto|by left]. }
        pose proof (Hnbv z y Hz' Hy Hcond') as Hvy.
        assert (Hyn : (y < num_vertices g)%nat) by (by eapply Hval).
        destruct (Hfr1 y Hyn Hvy) as (_ & -> & _).
        assert (ba_low st !!! u <= ba_num st !!! y); [|lia].
        apply Hnbs; try done. intros Hup. apply Hnup. by apply Hup1.
      + assert (Hne : z <> u) by (intros ->; congruence).
        destruct (tree_below g st1 _ _ Hsimple HI1 z u Hz Hne) as [Hzn Hvz1].
        destruct (Hnew1 z Hzn Hvz1 Hvz) as [Hzc _]. unfold ba_desc in Hzc.
        destruct (HLc1 z Hzc) as [Hle Hnbs]. split; [lia|].
        intros y Hy _ Hnup.
        assert (ba_low st1 !!! c <= ba_num st1 !!! y); [|lia].
        apply Hnbs; try done.
        destruct (decide (z = c)) as [->|]; [by right|by left].
    - destruct (Z.min_spec (ba_low st !!! u) (ba_low st1 !!! c))
        as [[Hlt ->]|[Hge ->]].
      + destruct HLu2 as (z & Hz & Hw).
        assert (Hvz : ba_visited st !!! z = true /\ (z < num_vertices g)%nat).
        { destruct (decide (z = u)) as [->|Hne]; [done|].
          by destruct (Hfin z Hz Hne) as (? & ? & _). }
        destruct Hvz as [Hvz Hzn].
        destruct (Hfr1 z Hzn Hvz) as (_ & Enz & _).
        exists z. split; [by apply (desc_frame g st st1 _ _ z u Hsimple HI)|].
        rewrite Enz.
        destruct Hw as [?|(y & Hy & Hcond & Hnup & Hly)]; [by left|right].
        pose proof (Hnbv z y Hz Hy Hcond) as Hvy.
        assert (Hyn : (y < num_vertices g)%nat) by (by eapply Hval).
        destruct (Hfr1 y Hyn Hvy) as (_ & Eny & _).
        exists y. rewrite Eny. split; [done|]. split.
        { destruct Hcond as [?|?]; [by left|right]. apply elem_of_app.
          by left. }
        split; [|done]. intros Hup. apply Hnup. by apply Hup1.
      + destruct HLc2 as (z & Hz & Hw).
        assert (Hzu : z <> u).
        { intros ->. destruct (tree_num g st1 _ _ Hsimple HI1 u c Hz) as [? _].
          lia. }
        exists z. split; [by eapply rtc_r|].
        destruct Hw as [?|(y & Hy & _ & Hnup & Hly)]; [by left|right].
        exists y. split; [done|]. split; [by left|done]. }
  split.
  { unfold ba_artic_part in *. rewrite Eup, Eau, Ep, En, Hau1, Hpu1, Hnu1, HAu.
    assert (Hold : forall v, v ∈ done ->
              (ba_up (num_vertices g) st1 v u <->
               ba_up (num_vertices g) st v u) /\
              ba_low st2 !!! v = ba_low st !!! v).
    { intros v Hv. pose proof (Hdv v Hv) as Hvv.
      split; [by apply Hup1|].
      assert (Hvn : (v < num_vertices g)%nat).
      { apply (Hval u v Hu). rewrite Hnb. apply elem_of_app. by left. }
      rewrite Elz.
      - by destruct (Hfr1 v Hvn Hvv) as (_ & _ & ? & _).
      - intros ->. apply (Hloop u Hu). rewrite Hnb. apply elem_of_app.
        by left. }
    split.
    - intros [[Hp (v & Hv & Hvu' & Hle)]|[Hp Hle]].
      + split; [done|]. exists v. destruct (Hold v Hv) as [Hu1 Hl1].
        split; [apply elem_of_app; by left|]. split; [by apply Hu1|].
        by rewrite Hl1.
      + split; [done|]. exists c. split; [apply elem_of_app; right; by left|].
        split; [done|]. by rewrite Elz.
    - intros [Hp (v & Hv & Hvu' & Hle)].
      apply elem_of_app in Hv as [Hv|Hv%list_elem_of_singleton].
      + left. split; [done|]. exists v. destruct (Hold v Hv) as [Hu1 Hl1].
        split; [done|]. split; [by apply Hu1|]. by rewrite <- Hl1.
      + subst v. right. split; [done|]. by rewrite Elz in Hle. }
  split.
  { rewrite Ep, filter_app, length_app, (filter_cons _ c []).
    destruct (decide _) as [_|Hn]; [|by destruct Hcu as [_ ?]].
    rewrite (filter_length_ext _
               (fun y => ba_parent st !!! y = Z.of_nat u) done).
    - rewrite Hch'. simpl. lia.
    - intros y Hy.
      assert (Hyn : (y < num_vertices g)%nat).
      { apply (Hval u y Hu). rewrite Hnb. apply elem_of_app. by left. }
      by rewrite (Hpar1 y Hyn (Hdv y Hy)). }
  split.
  { intros y [Hy|Hy%list_elem_of_singleton]%elem_of_app; rewrite Ev.
    - assert (Hyn : (y < num_vertices g)%nat).
      { apply (Hval u y Hu). rewrite Hnb. apply elem_of_app. by left. }
      by destruct (Hfr1 y Hyn (Hdv y Hy)) as (? & _).
    - by subst. }
  split.
  { intros y Hy. rewrite Eup in Hy. apply elem_of_app.
    destruct (ba_visited st !!! y) eqn:Hvy.
    - left. apply Hkid. by apply Hup1.
    - right. apply list_elem_of_singleton.
      destruct (tree_up g st1 _ _ Hsimple HI1 y u Hy) as (Hyn & _ & Hvy1 & _).
      destruct (Hnew1 y Hyn Hvy1 Hvy) as [Hyc _]. unfold ba_desc in Hyc.
      inversion Hyc as [|? p ? Hyp Hpc]; subst; [done|].
      pose proof (tree_up_fun g st1 _ _ _ Hy Hyp). subst p.
      destruct (tree_num g st1 _ _ Hsimple HI1 u c Hpc) as [? _]. lia. }
  split.
  { intros z Hz Hvz. destruct (Hfr z Hz Hvz) as (Hvz' & <- & <- & <- & <-).
    destruct (Hfr1 z Hz Hvz') as (? & <- & <- & <- & <-).
    assert (Hzu : z <> u) by (intros ->; congruence).
    rewrite Ev, En, Ep, (Elz z Hzu), (Eaz z Hzu). done. }
  split.
  { intros z Hz Hvz Hvz0. rewrite Ev in Hvz. unfold ba_desc.
    rewrite Eup, En. destruct (ba_visited st !!! z) eqn:Hvz'.
    - destruct (Hnew z Hz Hvz' Hvz0) as [Hzu Hle].
      destruct (Hfr1 z Hz Hvz') as (_ & -> & _). split; [|done].
      by apply (desc_frame g st st1 _ _ z u Hsimple HI).
    - destruct (Hnew1 z Hz Hvz Hvz') as [Hzc Hle]. split; [|lia].
      by eapply rtc_r. }
  split; [rewrite Et; lia|]. rewrite Ev. lia.
Qed.

(** *** Leaving a vertex *)

Lemma two_elems (l : list nat) a b :
  a ∈ l -> b ∈ l -> a <> b -> (2 <= length l)%nat.
Proof.
  intros Ha Hb Hne. destruct l as [|x [|y l]]; simpl; [|exfalso|lia].
  - by apply elem_of_nil in Ha.
  - apply list_elem_of_singleton in Ha, Hb. congruence.
Qed.

Lemma ba_inv_close g st open u unacc :
  ba_inv g st (open ++ [u]) unacc ->
  (forall x, x ∈ neighbors g u -> ba_visited st !!! x = true) ->
  ba_low_ok g st u -> ba_artic_ok (num_vertices g) st u ->
  ba_inv g st open unacc.
Proof.
  intros Hinv HCu HLu HAu. ba_destruct Hinv.
  assert (Hin : forall x, x ∉ open -> x = u \/ x ∉ open ++ [u]).
  { intros x Hx. destruct (decide (x = u)) as [|Hne]; [by left|right].
    intros [?|?%list_elem_of_singleton]%elem_of_app; done. }
  unfold ba_inv. split; [done|]. split; [done|]. split; [done|].
  split; [done|]. split; [done|]. split; [done|]. split; [done|]. split.
  { by apply NoDup_app in Hndo as (? & _). }
  split.
  { intros s Hs. apply HO. apply elem_of_app. by left. }
  split.
  { by apply chain_snoc in Hch as [? _]. }
  split.
  { intros w x Hw Hvw Hwo Hx. destruct (Hin w Hwo) as [->|Hwo'].
    - by apply HCu.
    - by apply (HC w x). }
  split.
  { intros x Hx Hvx Hxo. destruct (Hin x Hxo) as [->|Hxo']; [done|].
    by apply HL. }
  split; [|done].
  intros x Hx Hvx Hxo. destruct (Hin x Hxo) as [->|Hxo']; [done|].
  by apply HA.
Qed.

Lemma loop_leave g open u st0 ch st :
  simple_graph g -> ba_loop_inv g open u st0 (neighbors g u) ch st ->
  ba_post g open u st0
    (if (ba_parent st !!! u =? -1) && (1 <? ch)
     then ba_set_artic st u else st).
Proof.
  intros Hsimple HLI.
  pose proof Hsimple as (Hval & Hmir & Hloop & Hndg).
  li_destruct HLI. pose proof HI as HI'. ba_destruct HI'.
  assert (Huo : u ∈ open ++ [u]) by (apply elem_of_app; right; by left).
  destruct (HO u Huo) as (Hu & Hvu & _).
  destruct Hsh as (Hs1 & Hs2 & Hs3 & Hs4 & Hs5).
  set (st' := if (ba_parent st !!! u =? -1) && (1 <? ch)
              then ba_set_artic st u else st).
  assert (Hf : ba_visited st' = ba_visited st /\ ba_num st' = ba_num st /\
               ba_low st' = ba_low st /\ ba_parent st' = ba_parent st /\
               ba_time st' = ba_time st /\ ba_bridges st' = ba_bridges st /\
               length (ba_artic st') = num_vertices g /\
               (forall z, z <> u -> ba_artic st' !!! z = ba_artic st !!! z) /\
               (ba_artic st' !!! u = true <->
                ba_artic st !!! u = true \/
                (ba_parent st !!! u = -1 /\ 1 < ch))).
  { unfold st'. destruct (Z.eqb_spec (ba_parent st !!! u) (-1)) as [Hr|Hr];
      destruct (Z.ltb_spec 1 ch) as [Hc|Hc]; cbn [andb]; unfold ba_set_artic;
      cbn [ba_visited ba_num ba_low ba_parent ba_artic ba_bridges ba_time];
      rewrite ?length_insert;
      (split; [done|]); (split; [done|]); (split; [done|]); (split; [done|]);
      (split; [done|]); (split; [done|]); (split; [done|]).
    - split; [intros z Hz; by rewrite list_lookup_total_insert_ne|].
      rewrite list_lookup_total_insert_eq by lia. split; [by right|done].
    - split; [done|]. split; [by left|]. intros [?|[_ ?]]; [done|lia].
    - split; [done|]. split; [by left|]. intros [?|[? _]]; done.
    - split; [done|]. split; [by left|]. intros [?|[? _]]; done. }
  clearbody st'. destruct Hf as (Ev & En & El & Ep & Et & Eb & Eal & Eaz & Eau).
  pose proof (ba_up_parent (num_vertices g) st st' Ep) as Eup.
  assert (HI2 : ba_inv g st' (open ++ [u]) (open ++ [u])).
  { apply (ba_inv_change g st st' (open ++ [u]) (open ++ [u])); try done.
    - by rewrite El.
    - intros z _. by rewrite El.
    - intros z Hz. apply Eaz. intros ->. done.
    - intros a b. by rewrite Eb, Ev, En, El, Eup.
    - by rewrite Eb. }
  unfold ba_post. split.
  { apply (ba_inv_close g st' open u); [done| | |].
    - intros x Hx. rewrite Ev. by apply Hdv.
    - unfold ba_low_ok, ba_low_part, ba_desc in *. by rewrite Eup, El, En.
    - unfold ba_artic_ok, ba_artic_part in *. rewrite Eup, Eau, Ep, En, El, HAu.
      assert (Hkids : forall v, ba_up (num_vertices g) st v u ->
                v ∈ filter (fun y => ba_parent st !!! y = Z.of_nat u)
                      (neighbors g u)).
      { intros v Hv. apply list_elem_of_filter. split; [by destruct Hv|].
        by apply Hkid. }
      split.
      + intros [[Hp (v & _ & Hv & Hle)]|[Hp Hc]].
        * left. split; [done|]. by exists v.
        * right. split; [done|].
          destruct (filter (fun y => ba_parent st !!! y = Z.of_nat u)
                      (neighbors g u)) as [|a [|b l]] eqn:Hfl;
            simpl in Hch'; try lia.
          assert (Hnd : NoDup (a :: b :: l)).
          { rewrite <- Hfl. apply NoDup_filter. by apply Hndg. }
          assert (Hin : forall x, x ∈ a :: b :: l ->
                    ba_up (num_vertices g) st x u).
          { intros x Hx. rewrite <- Hfl in Hx.
            apply list_elem_of_filter in Hx as [Hpx Hxin].
            split; [by eapply Hval|done]. }
          exists a, b. split.
          { apply NoDup_cons in Hnd as [Hab _]. intros ->. apply Hab. by left. }
          split; apply Hin; [by left|right; by left].
      + intros [[Hp (v & Hv & Hle)]|[Hp (a & b & Hne & Ha & Hb)]].
        * left. split; [done|]. exists v. split; [by apply Hkid|done].
        * right. split; [done|].
          pose proof (two_elems _ a b (Hkids a Ha) (Hkids b Hb) Hne). lia. }
  split; [by rewrite Ev|]. split; [by rewrite Ep|]. split.
  { intros z Hz Hvz. destruct (Hfr z Hz Hvz) as (? & ? & ? & ? & ?).
    rewrite Ev, En, El, Ep, Eaz by (intros ->; congruence). done. }
  split.
  { intros z Hz Hvz Hvz0. rewrite Ev in Hvz. unfold ba_desc.
    rewrite Eup, En. by apply Hnew. }
  split; [by rewrite Et|]. by rewrite Ev.
Qed.

(** *** The whole call *)

Lemma ba_entries_spec g d open u st0 :
  wf_graph g -> simple_graph g ->
  (forall st open' c,
     ba_inv g st open' open' -> (c < num_vertices g)%nat ->
     ba_visited st !!! c = false ->
     (forall p, last open' = Some p -> c ∈ neighbors g p) ->
     (num_vertices g - count_true (ba_visited st) <= d)%nat ->
     exists st', ba_dfs d g c (ba_set_parent st c (ba_top open'))
                 = Some (Some st') /\ ba_post g open' c st st') ->
  forall rest done ch st,
    neighbors g u = done ++ rest ->
    ba_loop_inv g open u st0 done ch st ->
    (num_vertices g - count_true (ba_visited st) <= d)%nat ->
    exists st' ch',
      ba_entries (ba_dfs d g) (num_vertices g) u rest ch st
      = Some (Some (st', ch')) /\
      ba_loop_inv g open u st0 (neighbors g u) ch' st'.
Proof.
  intros Hwf Hsimple Hrec.
  pose proof Hsimple as (Hval & Hmir & Hloop & Hndg).
  induction rest as [|y rest IH]; intros done ch st Hnb HLI Hdepth.
  { rewrite app_nil_r in Hnb. rewrite Hnb. by exists st, ch. }
  pose proof HLI as HLI'. li_destruct HLI'.
  assert (Huo : u ∈ open ++ [u]) by (apply elem_of_app; right; by left).
  pose proof (tree_open_range g st _ _ HI u Huo) as Hu.
  assert (Hyin : y ∈ neighbors g u).
  { rewrite Hnb. apply elem_of_app. right. by left. }
  assert (Hyn : (y < num_vertices g)%nat) by (by eapply Hval).
  assert (Hnb' : neighbors g u = (done ++ [y]) ++ rest).
  { by rewrite <- app_assoc. }
  cbn [ba_entries].
  destruct (Nat.leb_spec (num_vertices g) y) as [|_]; [lia|].
  destruct (ba_visited st !!! y) eqn:Hvy; cbn [negb].
  - assert (Htest : (to_size_t (ba_parent st !!! u) =? Z.of_nat y) = true
                    <-> ba_up (num_vertices g) st u y).
    { rewrite Hpu, Z.eqb_eq. unfold ba_up. rewrite Hpu.
      destruct (top_cases open) as [[_ ->]|(p & Hp & ->)].
      - pose proof (wf_count g Hwf). unfold GRAFO_MAX_VERTICES in *.
        change (to_size_t (-1)) with (2 ^ 64 - 1). split; [lia|].
        intros [_ ?]. lia.
      - assert (Hpn : (p < num_vertices g)%nat).
        { apply (tree_open_range g st _ _ HI p). apply elem_of_app. left.
          by apply last_elem. }
        destruct (to_size_t_vertex g p Hwf Hpn) as [_ ->]. tauto. }
    destruct (to_size_t (ba_parent st !!! u) =? Z.of_nat y) eqn:Ht; cbn [negb].
    + pose proof (proj1 Htest eq_refl) as Hup.
      apply (IH (done ++ [y]) ch st Hnb'); [|done].
      rewrite <- (set_low_id st u).
      apply (loop_set_low g open u st0 done ch st y rest); try done.
      by left.
    + assert (Hnup : ~ ba_up (num_vertices g) st u y).
      { intros Hup. apply Htest in Hup. congruence. }
      destruct (Z.ltb_spec (ba_num st !!! y) (ba_low st !!! u)) as [Hlt|Hge].
      * apply (IH (done ++ [y]) ch _ Hnb'); [|done].
        apply (loop_set_low g open u st0 done ch st y rest); try done;
          [lia|by right].
      * apply (IH (done ++ [y]) ch st Hnb'); [|done].
        rewrite <- (set_low_id st u).
        apply (loop_set_low g open u st0 done ch st y rest); try done.
        by left.
  - destruct (to_size_t_vertex g u Hwf Hu) as [-> _].
    replace (Z.of_nat u) with (ba_top (open ++ [u]))
      by (unfold ba_top; by rewrite last_snoc).
    destruct (Hrec st (open ++ [u]) y HI Hyn Hvy) as (st1 & -> & Hpost);
      [|done|].
    { intros p. rewrite last_snoc. by intros [= <-]. }
    destruct (loop_after_child g open u st0 done ch st y rest st1 Hsimple HLI
                Hnb Hvy Hpost) as (st2 & -> & Ev2 & HLI2).
    apply (IH (done ++ [y]) (ch + 1) st2 Hnb' HLI2).
    destruct Hpost as (_ & _ & _ & _ & _ & _ & Hc). rewrite Ev2. lia.
Qed.

Lemma ba_dfs_spec g :
  wf_graph g -> simple_graph g ->
  forall d st open c,
    ba_inv g st open open -> (c < num_vertices g)%nat ->
    ba_visited st !!! c = false ->
    (forall p, last open = Some p -> c ∈ neighbors g p) ->
    (num_vertices g - count_true (ba_visited st) <= d)%nat ->
    exists st', ba_dfs d g c (ba_set_parent st c (ba_top open))
                = Some (Some st') /\ ba_post g open c st st'.
Proof.
  intros Hwf Hsimple. induction d as [|d IHd];
    intros st open c Hinv Hc Hvc Hnb Hdepth.
  { exfalso. pose proof Hinv as Hinv'. ba_destruct Hinv'.
    destruct Hsh as (Hs1 & _).
    pose proof (count_true_at_most (ba_visited st)) as Hle.
    assert (Hfull : count_true (ba_visited st) = length (ba_visited st))
      by lia.
    rewrite (count_true_full _ c Hfull) in Hvc by lia. done. }
  cbn [ba_dfs].
  change (ba_enter (ba_set_parent st c (ba_top open)) c)
    with (ba_started st open c).
  pose proof (enter_loop_inv g st open c Hsimple Hinv Hc Hvc Hnb) as HLI.
  destruct (ba_entries_spec g d open c st Hwf Hsimple IHd (neighbors g c) [] 0
              (ba_started st open c) eq_refl HLI) as (st' & ch' & -> & HLI').
  { destruct HLI as (_ & _ & _ & _ & _ & _ & _ & _ & _ & _ & _ & Hcnt). lia. }
  eexists. split; [done|]. by apply loop_leave.
Qed.

(** *** The loop over the roots and the results *)

Lemma ba_inv_initial g :
  ba_inv g
    (mkBa (replicate (num_vertices g) false) (replicate (num_vertices g) (-1))
          (replicate (num_vertices g) (-1)) (replicate (num_vertices g) (-1))
          (replicate (num_vertices g) false) [] 0) [] [].
Proof.
  assert (Hf : forall x, (x < num_vertices g)%nat ->
            replicate (num_vertices g) false !!! x = false).
  { intros x Hx. by rewrite list_lookup_total_alt, lookup_replicate_2. }
  assert (Hm : forall x, (x < num_vertices g)%nat ->
            replicate (num_vertices g) (-1) !!! x = -1).
  { intros x Hx. by rewrite list_lookup_total_alt, lookup_replicate_2. }
  unfold ba_inv, ba_shape, ba_up.
  cbn [ba_visited ba_num ba_low ba_parent ba_artic ba_bridges ba_time].
  rewrite !length_replicate.
  split; [done|]. split; [done|]. split.
  { intros x Hx. left. by apply Hm. }
  split.
  { intros x Hx _. split; [by apply Hm|by apply Hf]. }
  split.
  { intros x Hx Hv. rewrite Hf in Hv by done. done. }
  split.
  { intros z p [Hz Hp]. rewrite Hm in Hp by done. lia. }
  split.
  { intros z y Hz Hv. rewrite Hf in Hv by done. done. }
  split; [apply NoDup_nil_2|]. split; [by intros s ?%elem_of_nil|].
  split; [done|]. split.
  { intros w x Hw Hv. rewrite Hf in Hv by done. done. }
  split.
  { intros x Hx Hv. rewrite Hf in Hv by done. done. }
  split.
  { intros x Hx Hv. rewrite Hf in Hv by done. done. }
  split; [|apply NoDup_nil_2].
  intros a b. split; [by intros ?%elem_of_nil|].
  intros (Hb & Hv & _). rewrite Hf in Hv by done. done.
Qed.

(** A root starts with the counter at 0. *)
Lemma ba_inv_root g st u :
  ba_inv g st [] [] -> (u < num_vertices g)%nat ->
  ba_visited st !!! u = false ->
  let st0 := mkBa (ba_visited st) (ba_num st) (ba_low st) (ba_parent st)
                  (ba_artic st) (ba_bridges st) 0 in
  ba_inv g st0 [] [] /\ ba_set_parent st0 u (ba_top []) = st0.
Proof.
  intros Hinv Hu Hvu. cbn zeta. split.
  - ba_destruct Hinv. unfold ba_inv. split; [exact Hsh|]. split; [done|].
    split; [exact Hdich|]. split; [exact HT0|]. split; [exact Hnum0|].
    split; [exact HT1|]. split; [exact HT2|]. split; [exact Hndo|].
    split; [by intros s ?%elem_of_nil|]. split; [done|].
    split; [exact HC|]. split; [exact HL|]. split; [exact HA|].
    split; [exact HB|exact HNB].
  - ba_destruct Hinv. destruct Hsh as (_ & _ & _ & Hs4 & _).
    unfold ba_set_parent, ba_top.
    cbn [ba_visited ba_num ba_low ba_parent ba_artic ba_bridges ba_time last].
    f_equal. apply list_insert_id.
    rewrite list_lookup_lookup_total_lt by lia. f_equal.
    by destruct (HT0 u Hu Hvu).
Qed.

Lemma ba_roots_spec g :
  wf_graph g -> simple_graph g ->
  forall us st,
    ba_inv g st [] [] -> (forall u, u ∈ us -> (u < num_vertices g)%nat) ->
    exists st', ba_roots g us st = Some (Some st') /\ ba_inv g st' [] [] /\
      forall x, (x < num_vertices g)%nat ->
        ba_visited st !!! x = true \/ x ∈ us -> ba_visited st' !!! x = true.
Proof.
  intros Hwf Hsimple. induction us as [|u us IH]; intros st Hinv Hus.
  { exists st. split; [done|]. split; [done|].
    intros x Hx [?|?%elem_of_nil]; done. }
  assert (Hu : (u < num_vertices g)%nat) by (apply Hus; by left).
  assert (Hus' : forall x, x ∈ us -> (x < num_vertices g)%nat).
  { intros x Hx. apply Hus. by right. }
  cbn [ba_roots]. destruct (ba_visited st !!! u) eqn:Hvu; cbn [negb].
  - destruct (IH st Hinv Hus') as (st' & -> & Hinv' & Hall).
    exists st'. split; [done|]. split; [done|].
    intros x Hx [Hvx|[->|Hin]%elem_of_cons]; apply Hall; try done;
      [by left|by left|by right].
  - destruct (ba_inv_root g st u Hinv Hu Hvu) as [Hinv0 Heq].
    set (st0 := mkBa (ba_visited st) (ba_num st) (ba_low st) (ba_parent st)
                     (ba_artic st) (ba_bridges st) 0) in *.
    destruct (ba_dfs_spec g Hwf Hsimple (num_vertices g) st0 [] u Hinv0 Hu Hvu)
      as (st1 & Hrun & Hpost); [by intros p [=]|lia|].
    rewrite Heq in Hrun. rewrite Hrun.
    destruct Hpost as (HI1 & Hvu1 & Hpu1 & Hfr1 & _).
    assert (HI1' : ba_inv g st1 [] []).
    { apply (ba_inv_change g st1 st1 [] ([] ++ [u])); try done.
      - pose proof HI1 as HI'. ba_destruct HI'.
        by destruct Hsh as (_ & _ & ? & _).
      - pose proof HI1 as HI'. ba_destruct HI'.
        by destruct Hsh as (_ & _ & _ & _ & ?).
      - pose proof HI1 as HI'. ba_destruct HI'.
        intros a b. rewrite (HB a b). split.
        + intros (? & ? & _ & ? & ?). split; [done|]. split; [done|].
          split; [by intros ?%elem_of_nil|done].
        + intros (? & ? & _ & Hup & ?). split; [done|]. split; [done|].
          split; [|done]. intros Hb%list_elem_of_singleton. subst b.
          destruct Hup as [_ Hup]. rewrite Hpu1 in Hup.
          unfold ba_top in Hup. simpl in Hup. lia.
      - by pose proof HI1 as (_ & _ & _ & _ & _ & _ & _ & _ & _ & _ & _ & _
                              & _ & _ & ?). }
    destruct (IH st1 HI1' Hus') as (st' & -> & Hinv' & Hall).
    exists st'. split; [done|]. split; [done|].
    intros x Hx [Hvx|[->|Hin]%elem_of_cons]; apply Hall; try done.
    + left. by destruct (Hfr1 x Hx Hvx) as (? & _).
    + by left.
    + by right.
Qed.

Lemma sorted_seq a n : StronglySorted lt (seq a n).
Proof.
  revert a. induction n as [|n IH]; intros a; [constructor|].
  simpl. constructor; [apply IH|].
  apply Forall_forall. intros x Hx%elem_of_seq. lia.
Qed.

Lemma sorted_filter (P : nat -> Prop) `{!forall x, Decision (P x)}
    (l : list nat) :
  StronglySorted lt l -> StronglySorted lt (filter P l).
Proof.
  induction 1 as [|a l Hs IH Hall]; [constructor|].
  rewrite filter_cons. destruct (decide (P a)); [|done].
  constructor; [done|]. rewrite Forall_forall in Hall |- *.
  intros x [_ Hx]%list_elem_of_filter. by apply Hall.
Qed.

(** The whole routine on a simple undirected graph. *)
Lemma detect_run g :
  wf_graph g -> simple_graph g -> directed g = false ->
  (0 < num_vertices g)%nat ->
  exists bridges artics,
    detect_bridges_articulations true true true g
    = Some (BaOk (if (0 <? length bridges)%nat then Some bridges else None)
                 (length bridges)
                 (if (0 <? length artics)%nat then Some artics else None)
                 (length artics)) /\
    (NoDup bridges /\
     (forall a b, mkEdge a b ∈ bridges ->
        is_bridge g a b /\ mkEdge b a ∉ bridges) /\
     (forall a b, is_bridge g a b ->
        mkEdge a b ∈ bridges \/ mkEdge b a ∈ bridges)) /\
    (StronglySorted lt artics /\
     forall w, w ∈ artics <-> is_cut_vertex g w).
Proof.
  intros Hwf Hsimple Hdir Hn. unfold detect_bridges_articulations. cbn zeta.
  rewrite Hdir. destruct (Nat.eqb_spec (num_vertices g) 0) as [|_]; [lia|].
  cbn [negb].
  destruct (ba_roots_spec g Hwf Hsimple (seq 0 (num_vertices g)) _
              (ba_inv_initial g)) as (st & -> & Hinv & Hall).
  { intros u Hu%elem_of_seq. lia. }
  assert (Hall' : forall x, (x < num_vertices g)%nat ->
            ba_visited st !!! x = true).
  { intros x Hx. apply Hall; [done|]. right. apply elem_of_seq. lia. }
  exists (ba_bridges st),
    (filter (fun i => ba_artic st !!! i = true) (seq 0 (num_vertices g))).
  rewrite !andb_false_r. split; [done|]. split.
  - by apply forest_bridges.
  - split; [apply sorted_filter, sorted_seq|].
    intros w. rewrite <- (forest_artics g st Hsimple Hinv Hall' w).
    rewrite list_elem_of_filter, elem_of_seq. split.
    + intros [? ?]. split; [lia|done].
    + intros [? ?]. split; [done|lia].
Qed.


Lemma simple_g_path4 : simple_graph g_path4.
Proof.
  split; [|split; [|split]].
  - intros u v Hu Hin. simpl in Hu.
    destruct u as [|[|[|[|u]]]]; [..|lia];
      vm_compute in Hin; split_elem_of Hin; simpl; lia.
  - intros u v Hu Hin. simpl in Hu.
    destruct u as [|[|[|[|u]]]]; [..|lia];
      vm_compute in Hin; split_elem_of Hin; vm_compute; repeat constructor.
  - intros u Hu.
    do 4 (destruct u as [|u]; [apply (bool_decide_unpack _); by vm_compute|]).
    simpl in Hu. lia.
  - intros u Hu.
    do 4 (destruct u as [|u]; [apply (bool_decide_unpack _); by vm_compute|]).
    simpl in Hu. lia.
Qed.

Lemma wf_g_path4 : wf_graph g_path4.
Proof.
  wf_concrete.
Qed.


(** detect_bridges_articulations (src part_001), the articulation
    points: on a simple undirected graph with at least one vertex the
    routine returns 0, and the array it hands out lists, in increasing
    order, exactly the vertices whose removal separates two vertices that
    were joined; it is NULL when there is none. *)
Theorem detect_articulations_correct g :
  wf_graph g -> simple_graph g -> directed g = false ->
  (0 < num_vertices g)%nat ->
  exists out_bridges nbridges artics,
    detect_bridges_articulations true true true g
    = Some (BaOk out_bridges nbridges
                 (if (0 <? length artics)%nat then Some artics else None)
                 (length artics)) /\
    StronglySorted lt artics /\
    forall w, w ∈ artics <-> is_cut_vertex g w.
Proof.
  intros Hwf Hsimple Hdir Hn.
  destruct (detect_run g Hwf Hsimple Hdir Hn)
    as (bridges & artics & Hrun & _ & Ha).
  eexists _, _, artics. eauto.
Qed.

Lemma simple_g_bowtie : simple_graph g_bowtie.
Proof.
  split; [|split; [|split]].
  - intros u v Hu Hin. simpl in Hu.
    destruct u as [|[|[|[|[|u]]]]]; [..|lia];
      vm_compute in Hin; split_elem_of Hin; simpl; lia.
  - intros u v Hu Hin. simpl in Hu.
    destruct u as [|[|[|[|[|u]]]]]; [..|lia];
      vm_compute in Hin; split_elem_of Hin; vm_compute; repeat constructor.
  - intros u Hu.
    do 5 (destruct u as [|u]; [apply (bool_decide_unpack _); by vm_compute|]).
    simpl in Hu. lia.
  - intros u Hu.
    do 5 (destruct u as [|u]; [apply (bool_decide_unpack _); by vm_compute|]).
    simpl in Hu. lia.
Qed.

Lemma wf_g_bowtie : wf_graph g_bowtie.
Proof.
  wf_concrete.
Qed.

Lemma detect_articulations_correct_witness :
  wf_graph g_bowtie /\ simple_graph g_bowtie /\ directed g_bowtie = false /\
  (0 < num_vertices g_bowtie)%nat /\
  exists out_bridges nbridges artics,
    detect_bridges_articulations true true true g_bowtie
    = Some (BaOk out_bridges nbridges
                 (if (0 <? length artics)%nat then Some artics else None)
                 (length artics)) /\
    StronglySorted lt artics /\
    forall w, w ∈ artics <-> is_cut_vertex g_bowtie w.
Proof.
  assert (Hn : (0 < num_vertices g_bowtie)%nat) by (simpl; lia).
  split; [exact wf_g_bowtie|]. split; [exact simple_g_bowtie|].
  split; [reflexivity|]. split; [exact Hn|].
  exact (detect_articulations_correct g_bowtie wf_g_bowtie simple_g_bowtie
           eq_refl Hn).
Defined.

(** On the path on four vertices every edge is a bridge and the two
    inner vertices are articulation points; the 4-cycle has neither; in
    the bow tie the shared vertex is the articulation point; a directed
    graph is refused. *)
Example detect_bridges_articulations_scenario :
  detect_bridges_articulations true true true g_path4
    = Some (BaOk (Some [mkEdge 2 3; mkEdge 1 2; mkEdge 0 1]) 3
                 (Some [1; 2]%nat) 2) /\
  detect_bridges_articulations true true true g_cycle4
    = Some (BaOk None 0 None 0) /\
  detect_bridges_articulations true true true g_bowtie
    = Some (BaOk None 0 (Some [0%nat]) 1) /\
  detect_bridges_articulations true true true g_dag3 = Some BaError.
Proof.
  by vm_compute.
Qed.


(** * The paths of the shortest-path routines *)

(** ** Walks back along a predecessor array *)

Lemma walk_along_snoc g p u v :
  walk_along g p -> last p = Some u -> edge g u v -> walk_along g (p ++ [v]).
Proof.
  intros Hw Hlast He i a b Ha Hb.
  destruct (decide (S i < length p)%nat) as [Hlt|Hge].
  - rewrite lookup_app_l in Ha by lia. rewrite lookup_app_l in Hb by lia.
    by apply (Hw i).
  - destruct (decide (S i = length p)) as [Heq|Hne].
    + rewrite lookup_app_l in Ha by lia.
      rewrite lookup_app_r in Hb by lia.
      replace (S i - length p)%nat with 0%nat in Hb by lia.
      simpl in Hb. injection Hb as <-.
      rewrite last_lookup in Hlast.
      replace (pred (length p)) with i in Hlast by lia.
      rewrite Ha in Hlast. by injection Hlast as ->.
    + rewrite lookup_app_r in Hb by lia.
      destruct (S i - length p)%nat as [|k] eqn:Hk; [lia|]. done.
Qed.

Lemma walk_along_nsteps g p s t :
  walk_along g p -> head p = Some s -> last p = Some t ->
  nsteps (edge g) (length p - 1) s t.
Proof.
  revert s. induction p as [|a p IH]; intros s Hw Hh Hl; [done|].
  simpl in Hh. injection Hh as ->.
  destruct p as [|b p].
  - simpl in Hl. injection Hl as ->. constructor.
  - replace (length (s :: b :: p) - 1)%nat with (S (length (b :: p) - 1))
      by (simpl; lia).
    apply (nsteps_l _ _ _ b).
    + by apply (Hw 0%nat).
    + apply IH; [|done|done].
      intros i x y Hx Hy. by apply (Hw (S i)).
Qed.

Lemma to_int_vertex (x : nat) : Z.of_nat x <= GRAFO_MAX_VERTICES ->
  to_int (Z.of_nat x) = Z.of_nat x.
Proof.
  unfold GRAFO_MAX_VERTICES. intros Hx.
  apply to_int_small. unfold INT_MAX. lia.
Qed.

Lemma to_int_fmap (n : nat) (l : list nat) :
  Z.of_nat n <= GRAFO_MAX_VERTICES -> (forall x, x ∈ l -> (x < n)%nat) ->
  to_int <$> (Z.of_nat <$> l) = Z.of_nat <$> l.
Proof.
  intros Hn. induction l as [|x l IH]; intros Hl; [done|].
  simpl. f_equal.
  - apply to_int_vertex. specialize (Hl x ltac:(left)). lia.
  - apply IH. intros y Hy. apply Hl. by right.
Qed.

Lemma back_chain_range f n s v c :
  back_chain f n s v c -> forall x, x ∈ c -> (x < n)%nat.
Proof.
  revert v. induction c as [|y c IH]; intros v Hc x Hx.
  - by apply elem_of_nil in Hx.
  - destruct Hc as (-> & _ & Hv & u & _ & Hu).
    apply elem_of_cons in Hx as [->|Hx]; [done|]. by apply (IH u).
Qed.

(** The walk of Dijkstra's and Bellman-Ford's routines follows the
    chain and ends with [source]. *)
Lemma sp_back_chain f n s c : forall v fuel,
  back_chain f n s v c -> (length c <= fuel)%nat ->
  sp_back fuel f n s (Z.of_nat v) = Some (Some (Z.of_nat <$> (c ++ [s]))).
Proof.
  induction c as [|x c IH]; intros v fuel Hc Hfuel.
  - simpl in Hc. subst v. destruct fuel; simpl; by rewrite Z.eqb_refl.
  - destruct Hc as (-> & Hne & Hv & u & Hu & Hc).
    destruct fuel as [|fuel]; [simpl in Hfuel; lia|].
    simpl.
    destruct (Z.eqb_spec (Z.of_nat v) (Z.of_nat s)) as [Heq|_]; [lia|].
    destruct (Z.leb_spec (Z.of_nat n) (Z.of_nat v)) as [|_]; [lia|].
    rewrite Nat2Z.id, Hu.
    rewrite (IH u fuel Hc) by (simpl in Hfuel; lia). done.
Qed.

(** The loop of [_reconstruct_floyd_path] follows the chain. *)
Lemma fw_back_chain f n s c : forall v room,
  Z.of_nat n <= GRAFO_MAX_VERTICES -> (s < n)%nat ->
  back_chain f n s v c -> (length c <= room)%nat ->
  fw_back room f n s (Z.of_nat v) = FbDone (Z.of_nat <$> c).
Proof.
  induction c as [|x c IH]; intros v room Hn Hs Hc Hroom.
  - simpl in Hc. subst v. destruct room; simpl; by rewrite Z.eqb_refl.
  - destruct Hc as (-> & Hne & Hv & u & Hu & Hc).
    destruct room as [|room]; [simpl in Hroom; lia|].
    simpl.
    destruct (Z.eqb_spec (Z.of_nat v) (Z.of_nat s)) as [Heq|_]; [lia|].
    destruct (Z.leb_spec (Z.of_nat n) (Z.of_nat v)) as [|_]; [lia|].
    rewrite Nat2Z.id, Hu.
    assert (Hun : (u < n)%nat).
    { destruct c as [|y c]; simpl in Hc; [by subst|].
      by destruct Hc as (_ & _ & ? & _). }
    destruct (Z.eqb_spec (Z.of_nat u) SIZE_MAX) as [Heq|_].
    { unfold SIZE_MAX, GRAFO_MAX_VERTICES in *. lia. }
    rewrite (IH u room Hn Hs Hc) by (simpl in Hroom; lia).
    rewrite to_int_vertex by lia. done.
Qed.

(** Where the predecessors lead one entry back and one nearer, the
    chain of a vertex at distance [k] has [k] vertices and is a walk
    from [source]. *)
Lemma back_chain_exists g s f dist :
  back_step g s f dist ->
  forall (k : nat) v, (v < num_vertices g)%nat -> v <> s ->
    dist !!! v = Z.of_nat k -> dist !!! v <> INT_MAX ->
    exists c, back_chain f (num_vertices g) s v c /\ length c = k /\
      walk_along g (s :: reverse c) /\ last (s :: reverse c) = Some v.
Proof.
  intros [Hpos Hstep]. induction k as [|k IH]; intros v Hv Hne Hd Hfin.
  - destruct (Hstep v Hv Hne Hfin) as (u & Hu & _ & _ & Hcase).
    destruct (decide (u = s)); [lia|].
    destruct Hcase as [_ Heq]. specialize (Hpos u Hu). lia.
  - destruct (Hstep v Hv Hne Hfin) as (u & Hu & Hfu & He & Hcase).
    destruct (decide (u = s)) as [->|Hus].
    + assert (k = 0%nat) as -> by lia.
      exists [v]. split_and!; try done.
      * simpl. split_and!; try done. by exists s.
      * intros i a b Ha Hb. destruct i as [|[|i]]; simpl in *; try done.
        injection Ha as <-. by injection Hb as <-.
    + destruct Hcase as [Hufin Heq].
      destruct (IH u Hu Hus ltac:(lia) Hufin) as (c & Hc & Hlen & Hw & Hl).
      exists (v :: c). split_and!.
      * simpl. split_and!; try done. by exists u.
      * simpl. by rewrite Hlen.
      * rewrite reverse_cons, app_comm_cons. by eapply walk_along_snoc.
      * rewrite reverse_cons, app_comm_cons. by rewrite last_snoc.
Qed.

(** What [sp_reconstruct] leaves, from a final state whose distance of
    [target] is exact. *)
Lemma sp_reconstruct_spec g s t st :
  wf_graph g -> valid_adjacency g ->
  (s < num_vertices g)%nat -> (t < num_vertices g)%nat ->
  back_step g s (sp_prev st) (sp_dist st) -> sp_dist st !!! s = 0 ->
  shortest_distance g s t (sp_dist st !!! t) ->
  exists ret out_path out_len,
    sp_reconstruct true (num_vertices g) s t st
    = Some (SpValue ret out_path out_len) /\
    match out_path with
    | None =>
        ret = INT_MAX /\ out_len = 0%nat /\
        forall k, ~ nsteps (edge g) k s t
    | Some zs =>
        exists p, zs = Z.of_nat <$> p /\ out_len = length p /\
          ret = Z.of_nat (length p) - 1 /\ shortest_path g s t p
    end.
Proof.
  intros Hwf Hval Hs Ht Hstep Hsrc Hdist.
  pose proof (wf_count g Hwf) as Hcount.
  set (n := num_vertices g) in *.
  unfold sp_reconstruct.
  destruct Hdist as [[Hinf Hno]|(d & Hd & Hwalk & Hmin)].
  { rewrite Hinf. simpl. exists INT_MAX, None, 0%nat. done. }
  destruct (walk_shortcut g d s t Hval Hs Hwalk) as (d' & Hd' & _ & Hw').
  pose proof (Hmin d' Hw') as Hdd'. fold n in Hd'.
  assert (Hfin : sp_dist st !!! t <> INT_MAX).
  { unfold GRAFO_MAX_VERTICES, INT_MAX in *. lia. }
  destruct (Z.eqb_spec (sp_dist st !!! t) INT_MAX) as [|_]; [done|].
  assert (Hchain : exists c, back_chain (sp_prev st) n s t c /\ length c = d /\
            walk_along g (s :: reverse c) /\ last (s :: reverse c) = Some t).
  { destruct (decide (t = s)) as [->|Hne].
    - exists []. assert (d = 0%nat) as -> by lia. split_and!; try done.
    - by apply (back_chain_exists g s (sp_prev st) (sp_dist st) Hstep d t). }
  destruct Hchain as (c & Hc & Hlen & Hw & Hl).
  rewrite (sp_back_chain _ n s c t n Hc) by lia.
  exists (sp_dist st !!! t), (Some (to_int <$> reverse (Z.of_nat <$> c ++ [s]))),
    (length (Z.of_nat <$> c ++ [s])).
  split; [done|].
  exists (s :: reverse c). split_and!.
  - rewrite <- fmap_reverse, reverse_app. simpl.
    change (reverse [s]) with [s]. simpl.
    apply (to_int_fmap n (s :: reverse c)); [done|].
    intros x Hx. apply elem_of_cons in Hx as [->|Hx]; [done|].
    apply (back_chain_range _ _ _ _ _ Hc). by apply elem_of_reverse.
  - rewrite length_fmap, length_app. simpl. rewrite length_reverse. lia.
  - simpl. rewrite length_reverse. lia.
  - split_and!; try done.
    intros k Hk. simpl. rewrite length_reverse. specialize (Hmin k Hk). lia.
Qed.

(** ** Dijkstra *)

Lemma dijkstra_relax_prev g s u st v :
  (u < num_vertices g)%nat -> sp_visited st !!! u = true ->
  v ∈ neighbors g u -> dijkstra_prev_inv g s st ->
  dijkstra_prev_inv g s (dijkstra_relax (num_vertices g) u st v) /\
  sp_visited (dijkstra_relax (num_vertices g) u st v) = sp_visited st.
Proof.
  intros Hu Hvu Hin (Hld & Hlv & Hlp & Hinv). unfold dijkstra_relax.
  set (n := num_vertices g) in *.
  destruct (Nat.leb_spec n v) as [|Hv]; [done|].
  destruct (negb (sp_visited st !!! v) && negb (sp_dist st !!! u =? INT_MAX)
            && (sp_dist st !!! u + 1 <? sp_dist st !!! v)) eqn:Hcond; [|done].
  apply andb_prop in Hcond as [Hcond _].
  apply andb_prop in Hcond as [Hnv _].
  apply negb_true_iff in Hnv.
  assert (Huv : u <> v) by (intros ->; congruence).
  split; [|done]. unfold dijkstra_prev_inv. simpl. fold n.
  rewrite !length_insert. split_and!; try done.
  intros w Hw Hws Hfin.
  destruct (decide (w = v)) as [->|Hwv].
  - exists u. rewrite !list_lookup_total_insert_eq by lia.
    rewrite list_lookup_total_insert_ne by done. done.
  - rewrite list_lookup_total_insert_ne in Hfin by done.
    destruct (Hinv w Hw Hws Hfin) as (u' & Hu' & Hp & He & Hvis & Heq).
    exists u'. rewrite !(list_lookup_total_insert_ne _ v w) by done.
    assert (u' <> v) by (intros ->; congruence).
    rewrite list_lookup_total_insert_ne by done. done.
Qed.

Lemma dijkstra_relax_fold_prev g s u (l : list nat) : forall st,
  (u < num_vertices g)%nat -> sp_visited st !!! u = true ->
  (forall v, v ∈ l -> v ∈ neighbors g u) -> dijkstra_prev_inv g s st ->
  dijkstra_prev_inv g s (foldl (dijkstra_relax (num_vertices g) u) st l).
Proof.
  induction l as [|v l IH]; intros st Hu Hvu Hl Hinv; [done|].
  simpl.
  destruct (dijkstra_relax_prev g s u st v Hu Hvu) as [Hinv' Hvis]; [|done|].
  { apply Hl. by left. }
  apply IH; [done| |intros w Hw; apply Hl; by right|done].
  by rewrite Hvis.
Qed.

Lemma dijkstra_loop_prev g s t count : forall st,
  dijkstra_prev_inv g s st -> dijkstra_prev_inv g s (dijkstra_loop g t count st).
Proof.
  induction count as [|count IH]; intros st Hinv; [done|].
  simpl. set (n := num_vertices g) in *.
  set (u := (dijkstra_select n st).2).
  destruct (Nat.eqb_spec u n) as [|Hun]; [done|]. simpl.
  destruct (Z.eqb_spec (sp_dist st !!! u) INT_MAX) as [|_]; [done|].
  assert (Hu : (u < n)%nat).
  { destruct (dijkstra_select_spec (seq 0 n) n st) as [[Heq _]|(Hin & _)].
    - unfold u, dijkstra_select in *. rewrite Heq in Hun. done.
    - apply elem_of_seq in Hin. unfold u, dijkstra_select. lia. }
  pose proof Hinv as (Hld & Hlv & Hlp & Hstep). fold n in Hld, Hlv, Hlp, Hstep.
  assert (Hinv1 : dijkstra_prev_inv g s
            (mkSp (sp_dist st) (<[u := true]> (sp_visited st)) (sp_prev st))).
  { unfold dijkstra_prev_inv. simpl. fold n. rewrite length_insert.
    split_and!; try done.
    intros v Hv Hvs Hfin.
    destruct (Hstep v Hv Hvs Hfin) as (u' & Hu' & Hp & He & Hvis & Heq).
    exists u'. split_and!; try done.
    destruct (decide (u' = u)) as [->|Hne].
    - by rewrite list_lookup_total_insert_eq by lia.
    - by rewrite list_lookup_total_insert_ne. }
  destruct (Nat.eqb_spec u t) as [|_]; [done|].
  apply IH. apply dijkstra_relax_fold_prev; try done.
  simpl. by rewrite list_lookup_total_insert_eq by lia.
Qed.

Lemma dijkstra_initial g source :
  (source < num_vertices g)%nat ->
  dijkstra_inv g source 0
    (mkSp (<[source := 0]> (replicate (num_vertices g) INT_MAX))
          (replicate (num_vertices g) false)
          (replicate (num_vertices g) SIZE_MAX)).
Proof.
  intros Hs. set (n := num_vertices g) in *.
  unfold dijkstra_inv. simpl. fold n. split_and!.
  - split_and!.
    + by rewrite length_insert, length_replicate.
    + by rewrite list_lookup_total_insert_eq by (rewrite length_replicate; lia).
    + intros v Hv. destruct (decide (v = source)) as [->|Hne].
      * rewrite list_lookup_total_insert_eq by (rewrite length_replicate; lia).
        unfold INT_MAX. lia.
      * rewrite list_lookup_total_insert_ne by done.
        rewrite lookup_total_replicate_2 by done. unfold INT_MAX. lia.
    + intros v Hv. destruct (decide (v = source)) as [->|Hne].
      * rewrite list_lookup_total_insert_eq by (rewrite length_replicate; lia).
        intros _. constructor.
      * rewrite list_lookup_total_insert_ne by done.
        by rewrite lookup_total_replicate_2.
  - by rewrite length_replicate.
  - intros u v Hv Hvu [Hu _]. fold n in Hu.
    by rewrite lookup_total_replicate_2 in Hvu.
  - intros u v Hu Hv Hvu. by rewrite lookup_total_replicate_2 in Hvu.
  - intros u Hu Hvu. by rewrite lookup_total_replicate_2 in Hvu.
  - apply count_true_replicate.
Qed.

Lemma dijkstra_path g source target :
  wf_graph g -> valid_adjacency g ->
  (source < num_vertices g)%nat -> (target < num_vertices g)%nat ->
  exists ret out_path out_len,
    dijkstra_shortest_path_out true g source target
    = Some (SpValue ret out_path out_len) /\
    match out_path with
    | None =>
        ret = INT_MAX /\ out_len = 0%nat /\
        forall k, ~ nsteps (edge g) k source target
    | Some zs =>
        exists p, zs = Z.of_nat <$> p /\ out_len = length p /\
          ret = Z.of_nat (length p) - 1 /\ shortest_path g source target p
    end.
Proof.
  intros Hwf Hval Hs Ht.
  pose proof (dijkstra_distance g source target Hwf Hval Hs Ht) as Hdist.
  unfold dijkstra_shortest_path in Hdist. unfold dijkstra_shortest_path_out.
  pose proof (dijkstra_initial g source Hs) as Hinit.
  set (n := num_vertices g) in *.
  destruct (Nat.leb_spec n source) as [|_]; [lia|].
  destruct (Nat.leb_spec n target) as [|_]; [lia|]. simpl in *.
  set (st0 := mkSp _ _ _) in *.
  assert (Hinv0 : dijkstra_prev_inv g source st0).
  { unfold dijkstra_prev_inv, st0. simpl. fold n.
    rewrite length_insert, !length_replicate. split_and!; try done.
    intros v Hv Hne. rewrite list_lookup_total_insert_ne by done.
    by rewrite lookup_total_replicate_2. }
  pose proof (dijkstra_loop_prev g source target n st0 Hinv0) as Hinv.
  destruct (dijkstra_loop_spec g source target n 0 st0 Hwf Hval Hs Ht Hinit)
    as [Hsound _]; [fold n; lia|].
  set (st := dijkstra_loop g target n st0) in *.
  destruct Hinv as (Hld & Hlv & Hlp & Hstep). fold n in Hld, Hlv, Hlp, Hstep.
  destruct Hsound as (_ & Hsrc & Hrng & _). fold n in Hrng.
  apply sp_reconstruct_spec; try done.
  split.
  - intros v Hv. specialize (Hrng v Hv). lia.
  - fold n. intros v Hv Hne Hfin.
    destruct (Hstep v Hv Hne Hfin) as (u & Hu & Hp & He & _ & Heq).
    exists u. split_and!; try done.
    pose proof (Hrng v Hv). pose proof (Hrng u Hu).
    destruct (decide (u = source)) as [->|_]; [lia|]. split; lia.
Qed.



(** ** Bellman-Ford *)

Lemma bf_relax_prev g s u acc v :
  (u < num_vertices g)%nat -> v ∈ neighbors g u ->
  bf_prev_inv g s acc.1 ->
  bf_prev_inv g s (bf_relax (num_vertices g) u acc v).1.
Proof.
  intros Hu Hin (Hld & Hlp & Hinv). unfold bf_relax.
  set (n := num_vertices g) in *.
  destruct (Nat.leb_spec n v) as [|Hv]; [done|].
  destruct (Z.ltb_spec (sp_dist acc.1 !!! u + 1) (sp_dist acc.1 !!! v))
    as [Hlt|_]; [|done].
  assert (Huv : u <> v) by (intros ->; lia).
  unfold bf_prev_inv. simpl. fold n.
  rewrite !length_insert. split_and!; try done.
  intros w Hw Hws Hfin.
  destruct (decide (w = v)) as [->|Hwv].
  - exists u. rewrite !list_lookup_total_insert_eq by lia.
    rewrite list_lookup_total_insert_ne by done. done.
  - rewrite list_lookup_total_insert_ne in Hfin by done.
    destruct (Hinv w Hw Hws Hfin) as (u' & Hu' & Hp & He & Hle).
    exists u'. rewrite !(list_lookup_total_insert_ne _ v w) by done.
    split_and!; try done.
    destruct (decide (u' = v)) as [->|Hne].
    + rewrite list_lookup_total_insert_eq by lia. lia.
    + by rewrite list_lookup_total_insert_ne.
Qed.

Lemma bf_relax_fold_prev g s u (l : list nat) : forall acc,
  (u < num_vertices g)%nat -> (forall v, v ∈ l -> v ∈ neighbors g u) ->
  bf_prev_inv g s acc.1 ->
  bf_prev_inv g s (foldl (bf_relax (num_vertices g) u) acc l).1.
Proof.
  induction l as [|v l IH]; intros acc Hu Hl Hinv; [done|].
  simpl. apply IH; [done|intros w Hw; apply Hl; by right|].
  apply bf_relax_prev; [done| |done]. apply Hl. by left.
Qed.

Lemma bf_vertex_fold_prev g s (us : list nat) : forall acc,
  (forall u, u ∈ us -> (u < num_vertices g)%nat) ->
  bf_prev_inv g s acc.1 ->
  bf_prev_inv g s (foldl (bf_vertex g) acc us).1.
Proof.
  induction us as [|u us IH]; intros acc Hus Hinv; [done|].
  simpl. apply IH; [intros w Hw; apply Hus; by right|].
  unfold bf_vertex.
  destruct (sp_dist acc.1 !!! u =? INT_MAX); [done|].
  apply bf_relax_fold_prev; [apply Hus; by left|done|done].
Qed.

Lemma bf_loop_prev g s iters : forall st,
  bf_prev_inv g s st -> bf_prev_inv g s (bf_loop g iters st).
Proof.
  induction iters as [|iters IH]; intros st Hinv; [done|].
  simpl.
  assert (Hpass : bf_prev_inv g s (bf_pass g st).1).
  { unfold bf_pass. apply bf_vertex_fold_prev; [|done].
    intros u Hu. apply elem_of_seq in Hu. lia. }
  destruct ((bf_pass g st).2); [by apply IH|done].
Qed.

Lemma bellman_ford_path g source target :
  wf_graph g -> valid_adjacency g ->
  (source < num_vertices g)%nat -> (target < num_vertices g)%nat ->
  exists ret out_path out_len,
    bellman_ford_shortest_path_out true g source target
    = Some (SpValue ret out_path out_len) /\
    match out_path with
    | None =>
        ret = INT_MAX /\ out_len = 0%nat /\
        forall k, ~ nsteps (edge g) k source target
    | Some zs =>
        exists p, zs = Z.of_nat <$> p /\ out_len = length p /\
          ret = Z.of_nat (length p) - 1 /\ shortest_path g source target p
    end.
Proof.
  intros Hwf Hval Hs Ht.
  pose proof (bellman_ford_distance g source target Hwf Hval Hs Ht) as Hdist.
  unfold bellman_ford_shortest_path in Hdist.
  unfold bellman_ford_shortest_path_out.
  pose proof (wf_count g Hwf) as Hcount. unfold GRAFO_MAX_VERTICES in Hcount.
  set (n := num_vertices g) in *.
  destruct (Nat.leb_spec n source) as [|_]; [lia|].
  destruct (Nat.leb_spec n target) as [|_]; [lia|]. simpl in *.
  set (st0 := mkSp _ _ _) in *.
  assert (Hsound0 : dist_sound g source (sp_dist st0)).
  { unfold st0. simpl. fold n. split_and!.
    - by rewrite length_insert, length_replicate.
    - by rewrite list_lookup_total_insert_eq by (rewrite length_replicate; lia).
    - intros v Hv. destruct (decide (v = source)) as [->|Hne].
      + rewrite list_lookup_total_insert_eq by (rewrite length_replicate; lia).
        unfold INT_MAX. lia.
      + rewrite list_lookup_total_insert_ne by done.
        rewrite lookup_total_replicate_2 by done. unfold INT_MAX. lia.
    - intros v Hv. destruct (decide (v = source)) as [->|Hne].
      + rewrite list_lookup_total_insert_eq by (rewrite length_replicate; lia).
        intros _. constructor.
      + rewrite list_lookup_total_insert_ne by done.
        by rewrite lookup_total_replicate_2. }
  assert (Hinv0 : bf_prev_inv g source st0).
  { unfold bf_prev_inv, st0. simpl. fold n.
    rewrite length_insert, !length_replicate. split_and!; try done.
    intros v Hv Hne. rewrite list_lookup_total_insert_ne by done.
    by rewrite lookup_total_replicate_2. }
  pose proof (bf_loop_prev g source (n - 1) st0 Hinv0) as Hinv.
  destruct (bf_loop_spec g source (n - 1) st0 0 Hwf Hval Hs Hsound0)
    as [Hsound Hmin].
  { intros j v Hj Hw. assert (j = 0%nat) as -> by lia. inversion Hw; subst.
    destruct Hsound0 as (_ & -> & _). lia. }
  fold n in Hmin. set (st := bf_loop g (n - 1) st0) in *.
  destruct Hinv as (Hld & Hlp & Hstep). fold n in Hld, Hlp, Hstep.
  destruct Hsound as (_ & Hsrc & Hrng & Hsnd). fold n in Hrng, Hsnd.
  apply sp_reconstruct_spec; try done.
  split.
  - intros v Hv. specialize (Hrng v Hv). lia.
  - fold n. intros v Hv Hne Hfin.
    destruct (Hstep v Hv Hne Hfin) as (u & Hu & Hp & He & Hle).
    exists u. split_and!; try done.
    pose proof (Hrng v Hv). pose proof (Hrng u Hu).
    assert (Hufin : sp_dist st !!! u <> INT_MAX) by lia.
    assert (Hwv : nsteps (edge g) (S (Z.to_nat (sp_dist st !!! u))) source v).
    { eapply nsteps_r; [by apply Hsnd|done]. }
    destruct (walk_shortcut g _ source v Hval Hs Hwv) as (k' & Hk' & Hle' & Hw').
    fold n in Hk'. pose proof (Hmin k' v ltac:(lia) Hw') as Hup.
    destruct (decide (u = source)) as [->|_]; [lia|]. split; [done|lia].
Qed.



(** ** Floyd-Warshall *)

Lemma fw_init_row_pred n i (l : list nat) : forall r : list Z * list Z,
  length r.2 = n ->
  let r' := foldl (fun (r : list Z * list Z) v =>
                     if (v <? n)%nat
                     then (<[v := 1]> r.1, <[v := Z.of_nat i]> r.2) else r) r l in
  length r'.2 = n /\
  forall j, (j < n)%nat -> j ∈ l -> r'.2 !!! j = Z.of_nat i.
Proof.
  induction l as [|v l IH] using rev_ind; intros r Hlen; simpl.
  - split; [done|]. by intros j _ ?%elem_of_nil.
  - rewrite foldl_app. simpl. destruct (IH r Hlen) as [Hl Hj]. simpl in *.
    set (r1 := foldl _ r l) in *.
    destruct (Nat.ltb_spec v n) as [Hv|Hv]; simpl.
    + split; [by rewrite length_insert|]. intros j Hjn Hin.
      destruct (decide (j = v)) as [->|Hne].
      * by rewrite list_lookup_total_insert_eq by lia.
      * rewrite list_lookup_total_insert_ne by done. apply Hj; [done|].
        apply elem_of_app in Hin as [?|Hs]; [done|].
        apply list_elem_of_singleton in Hs. done.
    + split; [done|]. intros j Hjn Hin. apply Hj; [done|].
      apply elem_of_app in Hin as [?|Hs]; [done|].
      apply list_elem_of_singleton in Hs. lia.
Qed.

Lemma fw_init_pred g : valid_adjacency g -> fw_pred_inv g (fw_init g).
Proof.
  intros Hval. set (n := num_vertices g).
  destruct (fw_init_spec g) as (_ & _ & Hget). fold n in Hget.
  assert (Hrow : forall i, (i < n)%nat ->
            fw_pred (fw_init g) !!! i = (fw_init_row g i).2).
  { intros i Hi. unfold fw_init. simpl. fold n.
    rewrite list_lookup_total_alt, !list_lookup_fmap.
    rewrite lookup_seq_lt by done. done. }
  assert (Hspec : forall i, (i < n)%nat ->
            length (fw_init_row g i).2 = n /\
            forall j, (j < n)%nat -> j ∈ neighbors g i ->
              (fw_init_row g i).2 !!! j = Z.of_nat i).
  { intros i Hi. unfold fw_init_row. fold n.
    apply fw_init_row_pred. simpl. by rewrite length_replicate. }
  unfold fw_pred_inv. fold n. split_and!.
  - by apply fw_init_sound.
  - unfold fw_init. simpl. fold n. by rewrite !length_map, length_seq.
  - intros i Hi. rewrite Hrow by done. by apply Hspec.
  - intros i j Hi Hj Hne Hfin. rewrite Hget in Hfin |- * by done.
    destruct (decide (j ∈ neighbors g i)) as [Hin|Hnin].
    + exists i. split_and!; try done.
      * unfold mat_get. rewrite Hrow by done. by apply Hspec.
      * simpl. constructor.
    + by rewrite decide_False in Hfin.
Qed.

Lemma fw_inner_pred g k i j d :
  (k < num_vertices g)%nat -> (i < num_vertices g)%nat -> (j < num_vertices g)%nat ->
  fw_pred_inv g d -> fw_pred_inv g (fw_inner k i d j).
Proof.
  intros Hk Hi Hj (Hsound & Hpl & Hpr & Hpred).
  destruct (fw_inner_spec g k i j d (fw_dist d) Hk Hi Hj Hsound)
    as (Hsound' & _); [apply mat_below_refl|].
  revert Hsound'. unfold fw_inner.
  set (n := num_vertices g) in *.
  pose proof Hsound as (Hl & Hr & Hrng & Hzero & Hwalk).
  fold n in Hl, Hr, Hrng, Hzero, Hwalk.
  pose proof (Hrng i k Hi Hk) as Hra. pose proof (Hrng k j Hk Hj) as Hrb.
  pose proof (Hrng i j Hi Hj) as Hrc.
  set (a := mat_get (fw_dist d) i k) in *.
  set (b := mat_get (fw_dist d) k j) in *.
  set (c := mat_get (fw_dist d) i j) in *.
  destruct (Z.eqb_spec b INT_MAX) as [Hb|Hb]; [done|].
  destruct (Z.ltb_spec (INT_MAX - b) a) as [Hov|Hov]; [done|].
  destruct (Z.ltb_spec (a + b) c) as [Hless|Hno]; [|done].
  simpl. intros Hsound'.
  assert (Hget : forall x y, mat_get (mat_set (fw_dist d) i j (a + b)) x y =
            if decide (x = i /\ y = j) then a + b else mat_get (fw_dist d) x y).
  { intros x y. apply mat_get_set; [lia|]. rewrite Hr by done. done. }
  assert (Hgetp : forall z x y, mat_get (mat_set (fw_pred d) i j z) x y =
            if decide (x = i /\ y = j) then z else mat_get (fw_pred d) x y).
  { intros z x y. apply mat_get_set; [lia|]. rewrite Hpr by done. done. }
  destruct (mat_set_shape n (fw_pred d) i j (mat_get (fw_pred d) k j) Hpl Hpr)
    as [Hpl' Hpr'].
  unfold fw_pred_inv. simpl. fold n. split_and!; try done.
  intros x y Hx Hy Hxy. rewrite Hget, Hgetp.
  case_decide as Hij; [|by apply Hpred].
  destruct Hij as [-> ->]. intros _.
  assert (Hkj : k <> j).
  { intros ->. unfold a, c in *. lia. }
  assert (Hb1 : 1 <= b).
  { destruct (decide (b = 0)) as [Hb0|]; [|lia].
    by destruct (Hzero k j Hk Hj Hb0). }
  destruct (Hpred k j Hk Hj Hkj Hb) as (p & Hp & Hpk & He & Hw). fold b in Hw.
  exists p. split_and!; try done.
  replace (Z.to_nat (a + b) - 1)%nat with (Z.to_nat a + (Z.to_nat b - 1))%nat by lia.
  eapply nsteps_trans; [|exact Hw].
  apply Hwalk; [done|done|fold a; lia].
Qed.

Lemma fw_inner_fold_pred g k i (js : list nat) : forall d,
  (k < num_vertices g)%nat -> (i < num_vertices g)%nat ->
  (forall j, j ∈ js -> (j < num_vertices g)%nat) ->
  fw_pred_inv g d -> fw_pred_inv g (foldl (fw_inner k i) d js).
Proof.
  induction js as [|j js IH]; intros d Hk Hi Hjs Hinv; [done|].
  simpl. apply IH; [done|done|intros x Hx; apply Hjs; by right|].
  apply fw_inner_pred; [done|done| |done]. apply Hjs. by left.
Qed.

Lemma fw_middle_fold_pred g k (rows : list nat) : forall d,
  (k < num_vertices g)%nat ->
  (forall i, i ∈ rows -> (i < num_vertices g)%nat) ->
  fw_pred_inv g d ->
  fw_pred_inv g (foldl (fw_middle (num_vertices g) k) d rows).
Proof.
  induction rows as [|i rows IH]; intros d Hk Hrows Hinv; [done|].
  simpl. apply IH; [done|intros x Hx; apply Hrows; by right|].
  unfold fw_middle.
  destruct (mat_get (fw_dist d) i k =? INT_MAX); [done|].
  apply fw_inner_fold_pred; [done| | |done].
  - apply Hrows. by left.
  - intros j Hj. apply elem_of_seq in Hj. lia.
Qed.

Lemma fw_rounds_pred g (ks : list nat) : forall d,
  (forall k, k ∈ ks -> (k < num_vertices g)%nat) ->
  fw_pred_inv g d ->
  fw_pred_inv g
    (foldl (fun d k => foldl (fw_middle (num_vertices g) k) d
                         (seq 0 (num_vertices g))) d ks).
Proof.
  induction ks as [|k ks IH]; intros d Hks Hinv; [done|].
  simpl. apply IH; [intros x Hx; apply Hks; by right|].
  apply fw_middle_fold_pred; [apply Hks; by left| |done].
  intros i Hi. apply elem_of_seq in Hi. lia.
Qed.

(** The matrices of a full run: past the diagonal, the distances are
    under every walk and the predecessors lead one entry back. *)
Lemma fw_final g s :
  wf_graph g -> valid_adjacency g -> (s < num_vertices g)%nat ->
  let d := _floyd_warshall_all_pairs g in
  fw_sound g (fw_dist d) /\
  (forall v k, v <> s -> nsteps (edge g) k s v ->
     mat_get (fw_dist d) s v <= Z.of_nat k /\
     mat_get (fw_dist d) s v < Z.of_nat (num_vertices g)) /\
  back_step g s (fw_pred d !!! s) (fw_dist d !!! s).
Proof.
  intros Hwf Hval Hs d. unfold _floyd_warshall_all_pairs in d.
  set (n := num_vertices g) in *.
  pose proof (wf_count g Hwf) as Hcount. unfold GRAFO_MAX_VERTICES in Hcount.
  fold n in Hcount.
  destruct (fw_rounds g n Hval ltac:(lia)) as (Hsound & _ & Hcomp).
  fold n in Hsound, Hcomp. fold d in Hsound, Hcomp.
  assert (Hinv : fw_pred_inv g d).
  { apply fw_rounds_pred; [|by apply fw_init_pred].
    intros k Hk. apply elem_of_seq in Hk. lia. }
  destruct Hinv as (_ & _ & _ & Hpred). fold n in Hpred.
  pose proof Hsound as (_ & _ & Hrng & Hzero & Hwalk).
  fold n in Hrng, Hzero, Hwalk.
  assert (Hall : forall v k, v <> s -> nsteps (edge g) k s v ->
            mat_get (fw_dist d) s v <= Z.of_nat k /\
            mat_get (fw_dist d) s v < Z.of_nat n).
  { intros v k Hne Hw.
    destruct (walk_shortcut g k s v Hval Hs Hw) as (k' & Hk' & Hle & Hw').
    fold n in Hk'. destruct k' as [|k']; [inversion Hw'; by subst|].
    apply nsteps_walk_via in Hw'; [|done]. fold n in Hw'.
    specialize (Hcomp _ _ _ Hw' ltac:(unfold INT_MAX; lia)). lia. }
  split; [done|]. split; [done|]. split.
  - intros v Hv. specialize (Hrng s v Hs Hv). unfold mat_get in Hrng. lia.
  - fold n. intros v Hv Hne Hfin.
    change ((fw_dist d !!! s) !!! v) with (mat_get (fw_dist d) s v) in *.
    destruct (Hpred s v Hs Hv ltac:(done) Hfin) as (p & Hp & Hpv & He & Hw).
    exists p. split_and!; try done.
    pose proof (Hrng s v Hs Hv) as Hrv.
    assert (Hv1 : 1 <= mat_get (fw_dist d) s v).
    { destruct (decide (mat_get (fw_dist d) s v = 0)) as [Hz|]; [|lia].
      destruct (Hzero s v Hs Hv Hz) as [? _]. done. }
    destruct (decide (p = s)) as [->|Hps].
    + change ((fw_dist d !!! s) !!! v) with (mat_get (fw_dist d) s v).
      destruct (Hall v 1%nat ltac:(done)) as [Hle _]; [by apply nsteps_once|].
      lia.
    + change ((fw_dist d !!! s) !!! v) with (mat_get (fw_dist d) s v).
      change ((fw_dist d !!! s) !!! p) with (mat_get (fw_dist d) s p).
      destruct (Hall p _ Hps Hw) as [Hle _].
      pose proof (Hrng s p Hs Hp) as Hrp.
      assert (Hpfin : mat_get (fw_dist d) s p <> INT_MAX) by lia.
      split; [done|].
      assert (Hwv : nsteps (edge g) (S (Z.to_nat (mat_get (fw_dist d) s p))) s v).
      { eapply nsteps_r; [by apply Hwalk|done]. }
      destruct (Hall v _ ltac:(done) Hwv) as [Hle' _]. lia.
Qed.

Lemma floyd_warshall_path g source target :
  wf_graph g -> valid_adjacency g ->
  (source < num_vertices g)%nat -> (target < num_vertices g)%nat ->
  exists ret out_path out_len,
    floyd_warshall_shortest_path_out true true g source target
    = SpValue ret out_path out_len /\
    match out_path with
    | None =>
        ret = INT_MAX /\ out_len = 0%nat /\
        forall k, ~ nsteps (edge g) k source target
    | Some zs =>
        exists p, zs = Z.of_nat <$> p /\ out_len = length p /\
          shortest_path g source target p /\
          ret = if decide (source = target /\ source ∈ neighbors g source)
                then 1 else Z.of_nat (length p) - 1
    end.
Proof.
  intros Hwf Hval Hs Ht.
  destruct (floyd_warshall_value g source target Hwf Hval Hs Ht) as [Hoff Hdiag].
  destruct (fw_final g source Hwf Hval Hs) as (Hsound & Hall & Hstep).
  unfold floyd_warshall_shortest_path in Hoff, Hdiag.
  unfold floyd_warshall_shortest_path_out, _reconstruct_floyd_path.
  pose proof (wf_count g Hwf) as Hcount.
  set (n := num_vertices g) in *.
  destruct (Nat.leb_spec n source) as [|_]; [lia|].
  destruct (Nat.leb_spec n target) as [|_]; [lia|]. simpl in *.
  set (d := _floyd_warshall_all_pairs g) in *.
  destruct Hsound as (_ & _ & Hrng & _ & Hwalk). fold n in Hrng, Hwalk.
  pose proof (Hrng source target Hs Ht) as Hrt.
  destruct (decide (target = source)) as [->|Hne].
  - rewrite (Hdiag eq_refl).
    assert (Hfin : (if decide (source ∈ neighbors g source) then 1 else 0) <> INT_MAX).
    { unfold INT_MAX. case_decide; lia. }
    destruct (Z.eqb_spec (if decide (source ∈ neighbors g source) then 1 else 0)
                INT_MAX) as [|_]; [done|].
    rewrite (fw_back_chain _ n source [] source n Hcount Hs) by (simpl; done || lia).
    simpl. destruct (Nat.leb_spec n 0) as [|_]; [lia|].
    eexists _, (Some _), _. split; [done|].
    exists [source]. split_and!.
    + change (reverse ([] ++ [to_int (Z.of_nat source)]))
        with [to_int (Z.of_nat source)].
      rewrite to_int_vertex by lia. done.
    + done.
    + split_and!; try done. intros k _. simpl. lia.
    + repeat case_decide; try done; try lia.
      * exfalso. tauto.
      * exfalso. tauto.
  - specialize (Hoff ltac:(done)).
    destruct (Z.eqb_spec (mat_get (fw_dist d) source target) INT_MAX) as [Hinf|Hfin].
    + exists (mat_get (fw_dist d) source target), None, 0%nat.
      split; [done|]. split_and!; try done.
      intros k Hk. destruct (Hall target k Hne Hk) as [_ Hlt].
      unfold GRAFO_MAX_VERTICES, INT_MAX in *. lia.
    + set (k := Z.to_nat (mat_get (fw_dist d) source target)).
      destruct (back_chain_exists g source _ _ Hstep k target Ht Hne)
        as (c & Hc & Hlen & Hw & Hl).
      { unfold mat_get in *. lia. }
      { done. }
      fold n in Hc.
      assert (Hkn : (k < n)%nat).
      { assert (Hwk : nsteps (edge g) k source target) by (by apply Hwalk).
        destruct (Hall target k Hne Hwk) as [_ Hlt]. lia. }
      rewrite (fw_back_chain _ n source c target n Hcount Hs Hc) by lia.
      rewrite length_fmap.
      destruct (Nat.leb_spec n (length c)) as [|_]; [lia|].
      eexists _, (Some _), _. split; [done|].
      exists (source :: reverse c). split_and!.
      * rewrite reverse_app. change (reverse [to_int (Z.of_nat source)])
          with [to_int (Z.of_nat source)]. simpl.
        rewrite to_int_vertex by lia. by rewrite fmap_reverse.
      * rewrite length_app, length_fmap. simpl. rewrite length_reverse. lia.
      * split_and!; try done.
        intros j Hj. simpl. rewrite length_reverse.
        destruct (Hall target j Hne Hj). lia.
      * rewrite decide_False by (intros [? _]; done).
        simpl. rewrite length_reverse. lia.
Qed.



(** The three routines on the 4-cycle, on the path 0-1-2-3 walked from
    its far end, on the single vertex with an entry to itself, between
    the two leaves of the directed fork, and where the array of the path
    is not allocated. *)
Example shortest_path_out_scenario :
  dijkstra_shortest_path_out true g_cycle4 0 2 = Some (SpValue 2 (Some [0; 1; 2]) 3) /\
  bellman_ford_shortest_path_out true g_cycle4 0 2 = Some (SpValue 2 (Some [0; 1; 2]) 3) /\
  floyd_warshall_shortest_path_out true true g_cycle4 0 2 = SpValue 2 (Some [0; 1; 2]) 3 /\
  dijkstra_shortest_path_out true g_path4 3 0 = Some (SpValue 3 (Some [3; 2; 1; 0]) 4) /\
  floyd_warshall_shortest_path_out true true g_loop 0 0 = SpValue 1 (Some [0]) 1 /\
  dijkstra_shortest_path_out true g_loop 0 0 = Some (SpValue 0 (Some [0]) 1) /\
  bellman_ford_shortest_path_out true g_fork 1 2 = Some (SpValue INT_MAX None 0) /\
  dijkstra_shortest_path_out false g_path4 3 0 = Some (SpValue 3 None 0) /\
  floyd_warshall_shortest_path_out true false g_path4 3 0 = SpValue 3 None 0.
Proof. by vm_compute. Qed.
